(** * Crawl-and-ingest pipeline of the Idaho PUC crawler: a shallow embedding

    The development embeds the parts of
    [backend/src/services/crawlers/historical-crawler.js] that the
    specification speaks about: the chunker and the persistence gateway
    ([SupabaseUploader]), the retry ledger ([SmartRetryQueue]), the document
    worker, the case queue ([getNextCase]) and the pipeline snapshot file of
    [HistoricalCrawler].

    Conventions.
    - A JavaScript string that holds document text is the list of its code
      units ([text]); the model covers code units below 256.  Keys and
      identifiers (case numbers, URLs, queue ids) are [string]s.
    - [console.log] output is not part of the model.
    - Everything the code reads from outside (the clock, [uuidv4()], the
      relational store, the file system) is an explicit argument or an
      explicit state component. *)

From Stdlib Require Import ZArith Lia Ascii String List Bool.
From stdpp Require Import base list strings gmap pretty.

(* ===================================================================== *)
(** * Part I: the embedding                                               *)
(* ===================================================================== *)

(** ** HISTORICAL_CONFIG (lines 40-82) *)

Module Config.

Record timing := { wait : Z; name : string }.

Definition WEBLINK_ATTEMPTS : list timing :=
  [ {| wait := 300; name := "fast" |};
    {| wait := 600; name := "medium" |};
    {| wait := 1200; name := "slow" |} ].

Definition LASERFICHE_ATTEMPTS : list timing :=
  [ {| wait := 200; name := "fast" |};
    {| wait := 400; name := "medium" |};
    {| wait := 800; name := "slow" |} ].

Definition IFRAME_ACCESS_ATTEMPTS : list timing :=
  [ {| wait := 2000; name := "quick" |};
    {| wait := 4000; name := "patient" |};
    {| wait := 8000; name := "very_patient" |} ].

Definition CHUNK_SIZE : nat := 1500.
Definition CHUNK_OVERLAP : nat := 200.

End Config.

(** ** JavaScript string primitives used by the crawler *)

Module Js.

(** Document text: the code units of a JavaScript string. *)
Definition text := list ascii.

Definition of_string (s : string) : text := list_ascii_of_string s.

(** The class [\s] of a regular expression, restricted to code units
    below 256: TAB, LF, VT, FF, CR, SPACE and NBSP.  [String.prototype.trim]
    strips the same set. *)
Definition is_space (c : ascii) : bool :=
  let n := nat_of_ascii c in
  (n =? 9) || (n =? 10) || (n =? 11) || (n =? 12) || (n =? 13)
  || (n =? 32) || (n =? 160).

Definition space : ascii := " "%char.

(** A string is truthy when it is not empty. *)
Definition truthy (s : text) : bool :=
  match s with [] => false | _ :: _ => true end.

(** [s.split(/\s+/)]: the pieces between maximal runs of white space.
    [cur] is the piece being read, reversed; [in_ws] tells that the last
    code unit read was white space.  A separator at the very start or end
    leaves an empty piece there, and the empty string has the single
    piece [""]. *)
Fixpoint split_aux (cur : text) (in_ws : bool) (s : text) : list text :=
  match s with
  | [] => [rev cur]
  | c :: s' =>
      if is_space c
      then (if in_ws then split_aux [] true s'
            else rev cur :: split_aux [] true s')
      else split_aux (c :: cur) false s'
  end.

Definition split_ws (s : text) : list text := split_aux [] false s.

(** [arr.join(' ')]. *)
Fixpoint join (ws : list text) : text :=
  match ws with
  | [] => []
  | [w] => w
  | w :: ws' => w ++ space :: join ws'
  end.

(** [arr.slice(-n)]: the last [n] elements; [slice(-0)] is [slice(0)],
    the whole array. *)
Definition slice_last {A} (n : nat) (l : list A) : list A :=
  if n =? 0 then l else drop (length l - n) l.

(** [s.trim()]: white space removed at both ends. *)
Fixpoint trim_start (s : text) : text :=
  match s with
  | [] => []
  | c :: s' => if is_space c then trim_start s' else s
  end.

Definition trim (s : text) : text := rev (trim_start (rev (trim_start s))).

(** [s.includes(sub)] on [string]s. *)
Fixpoint includes (s sub : string) : bool :=
  String.prefix sub s ||
  match s with
  | EmptyString => false
  | String _ s' => includes s' sub
  end.

End Js.

(** ** SupabaseUploader.createChunks (lines 297-347) *)

Module Chunker.
Import Js.

Record documentMetadata := {
  md_caseNumber : string;
  md_company : string;
  md_witnessName : option string;
  md_documentType : string
}.

Record chunk := {
  id : string;
  document_id : nat;
  case_id : nat;
  content : text;
  content_length : nat;
  chunk_index : nat;
  case_number : string;
  company : string;
  witness_name : option string;
  document_type : string;
  created_at : string
}.

Section WithEnvironment.
(** [uuidv4 k] is the value of the call of [uuidv4()] that builds the
    chunk of index [k], [now k] the value of
    [new Date().toISOString()] there. *)
Variable uuidv4 : nat -> string.
Variable now : nat -> string.

Variables (documentId caseId : nat) (md : documentMetadata).

(** The object literal pushed at lines 308-320 and 331-343. *)
Definition make_chunk (currentChunk : text) (chunkIndex : nat) : chunk :=
  {| id := uuidv4 chunkIndex;
     document_id := documentId;
     case_id := caseId;
     content := currentChunk;
     content_length := length currentChunk;
     chunk_index := chunkIndex;
     case_number := md_caseNumber md;
     company := md_company md;
     witness_name := md_witnessName md;
     document_type := md_documentType md;
     created_at := now chunkIndex |}.

(** The loop variables [chunks], [currentChunk] and [chunkIndex]. *)
Record loop_state := {
  chunks : list chunk;
  currentChunk : text;
  chunkIndex : nat
}.

Definition init : loop_state :=
  {| chunks := []; currentChunk := []; chunkIndex := 0 |}.

(** The buffer a split leaves behind (lines 322-323). *)
Definition seed (currentChunk word : text) : text :=
  let overlapWords :=
    slice_last (Config.CHUNK_OVERLAP / 10) (split_ws currentChunk) in
  join overlapWords ++ space :: word.

(** One iteration of the [for] loop (lines 304-327). *)
Definition loop_body (st : loop_state) (word : text) : loop_state :=
  let testChunk :=
    currentChunk st
      ++ (if truthy (currentChunk st) then [space] else []) ++ word in
  if (Config.CHUNK_SIZE <? length testChunk)
     && (0 <? length (currentChunk st))
  then {| chunks := chunks st ++ [make_chunk (currentChunk st) (chunkIndex st)];
          currentChunk := seed (currentChunk st) word;
          chunkIndex := S (chunkIndex st) |}
  else {| chunks := chunks st;
          currentChunk := testChunk;
          chunkIndex := chunkIndex st |}.

Definition run_loop (words : list text) (st : loop_state) : loop_state :=
  fold_left loop_body words st.

(** The final push (lines 330-344) and the result. *)
Definition finish (st : loop_state) : list chunk :=
  if truthy (trim (currentChunk st))
  then chunks st ++ [make_chunk (currentChunk st) (chunkIndex st)]
  else chunks st.

Definition createChunks (t : text) : list chunk :=
  finish (run_loop (split_ws t) init).

End WithEnvironment.

End Chunker.

(** ** The relational store behind the Supabase client

    The tables and the two unique indexes of the migration script
    ([unique_case_number] on [cases(case_number)] and
    [unique_document_per_case] on [documents(case_id, document_name)]).
    The store answers every request; an insert into [cases] or
    [documents] is refused only when it violates one of the indexes.  The
    constraints of [document_chunks] (its primary key, its foreign keys,
    the columns that must not be null) are not modelled: the store holds
    the answers it will give to the coming inserts into that table.  Row
    ids are generated by the store. *)

Module Store.

Record caseInfo := {
  caseNumber : string;
  company : string;
  utilityType : string;
  caseStatus : string;
  dateFiled : string;
  description : string;
  caseUrl : string
}.

Record case_row := {
  case_id : nat;
  case_fields : caseInfo
}.

Definition case_number (r : case_row) : string := caseNumber (case_fields r).

(** The object passed to [from('documents').insert] (lines 379-387). *)
Record document_insert := {
  ins_case_id : nat;
  ins_document_name : string;
  ins_document_type : string;
  ins_document_url : string;
  ins_witness_name : option string;
  ins_extraction_status : string;
  ins_extracted_at : string
}.

Record document_row := {
  doc_id : nat;
  doc_fields : document_insert
}.

Definition document_url (r : document_row) : string :=
  ins_document_url (doc_fields r).
Definition document_name (r : document_row) : string :=
  ins_document_name (doc_fields r).
Definition doc_case_id (r : document_row) : nat :=
  ins_case_id (doc_fields r).

(** What the client resolves to: [{ data, error }]. *)
Record pg_error := { code : string; message : string }.

(** [chunk_answers] lists the errors of the coming inserts into
    [document_chunks], one entry per insert ([None]: the batch is
    accepted); once the list is used up every batch is accepted. *)
Record db := {
  cases : list case_row;
  documents : list document_row;
  document_chunks : list Chunker.chunk;
  next_id : nat;
  chunk_answers : list (option pg_error)
}.

Definition empty : db :=
  {| cases := []; documents := []; document_chunks := []; next_id := 0;
     chunk_answers := [] |}.

Record response (A : Type) := { data : option A; error : option pg_error }.
Arguments data {A} _.
Arguments error {A} _.

Definition ok {A} (a : A) : response A := {| data := Some a; error := None |}.
Definition failed {A} (e : pg_error) : response A :=
  {| data := None; error := Some e |}.

(** [.single()] wants exactly one row; otherwise [data] is [null] and the
    error is PGRST116. *)
Definition no_single_row : pg_error :=
  {| code := "PGRST116";
     message := "JSON object requested, multiple (or no) rows returned" |}.

Definition single {A} (rows : list A) : response A :=
  match rows with
  | [r] => ok r
  | _ => failed no_single_row
  end.

Definition unique_violation (index : string) : pg_error :=
  {| code := "23505";
     message := "duplicate key value violates unique constraint " ++ index |}.

(** [from('cases').select('id').eq('case_number', cn).single()] *)
Definition select_case_id (cn : string) (d : db) : response nat :=
  single (map case_id
            (List.filter (fun r => String.eqb (case_number r) cn) (cases d))).

(** [from('cases').insert(row).select('id').single()] *)
Definition insert_case (ci : caseInfo) (d : db) : db * response nat :=
  if existsb (fun r => String.eqb (case_number r) (caseNumber ci)) (cases d)
  then (d, failed (unique_violation "unique_case_number"))
  else ({| cases := cases d ++ [ {| case_id := next_id d; case_fields := ci |} ];
           documents := documents d;
           document_chunks := document_chunks d;
           next_id := S (next_id d);
           chunk_answers := chunk_answers d |},
        ok (next_id d)).

(** The columns [id, document_name, case_id] of a document row. *)
Record document_summary := {
  sum_id : nat;
  sum_document_name : string;
  sum_case_id : nat
}.

Definition summary (r : document_row) : document_summary :=
  {| sum_id := doc_id r;
     sum_document_name := document_name r;
     sum_case_id := doc_case_id r |}.

(** [from('documents').select('id, document_name, case_id')
      .eq('document_url', url).single()] *)
Definition select_document_by_url (url : string) (d : db)
  : response document_summary :=
  single (map summary
            (List.filter (fun r => String.eqb (document_url r) url) (documents d))).

(** [from('documents').insert(row).select('id').single()] *)
Definition insert_document (row : document_insert) (d : db)
  : db * response nat :=
  if existsb (fun r => Nat.eqb (doc_case_id r) (ins_case_id row)
                       && String.eqb (document_name r) (ins_document_name row))
       (documents d)
  then (d, failed (unique_violation "unique_document_per_case"))
  else ({| cases := cases d;
           documents := documents d ++ [ {| doc_id := next_id d; doc_fields := row |} ];
           document_chunks := document_chunks d;
           next_id := S (next_id d);
           chunk_answers := chunk_answers d |},
        ok (next_id d)).

(** [from('document_chunks').insert(batch)]: the store refuses the
    batch with the error it holds for this insert, or stores it. *)
Definition insert_chunks (batch : list Chunker.chunk) (d : db)
  : db * response unit :=
  match chunk_answers d with
  | Some chunkError :: answers =>
      ({| cases := cases d;
          documents := documents d;
          document_chunks := document_chunks d;
          next_id := next_id d;
          chunk_answers := answers |},
       {| data := None; error := Some chunkError |})
  | answers =>
      ({| cases := cases d;
          documents := documents d;
          document_chunks := document_chunks d ++ batch;
          next_id := next_id d;
          chunk_answers := tail answers |},
       {| data := None; error := None |})
  end.

End Store.

(** ** SupabaseUploader (lines 221-438)

    The methods are asynchronous: between two requests to the store other
    workers run.  A method is therefore a tree of requests ([prog]); one
    request, or one access to the shared [caseCache], is one atomic step.
    The same tree is run alone ([run]) or interleaved with another
    ([run_schedule]). *)

Module Uploader.
Import Store.

Inductive request : Type -> Type :=
| CacheGet (caseNumber : string) : request (option nat)
| CacheSet (caseNumber : string) (id : nat) : request unit
| SelectCaseId (caseNumber : string) : request (response nat)
| InsertCase (ci : caseInfo) : request (response nat)
| SelectDocumentByUrl (url : string) : request (response document_summary)
| InsertDocument (row : document_insert) : request (response nat)
| InsertChunks (batch : list Chunker.chunk) : request (response unit).

Inductive prog (R : Type) : Type :=
| Ret (r : R)
| Vis {X : Type} (e : request X) (k : X -> prog R).
Arguments Ret {R} _.
Arguments Vis {R X} _ _.

Notation "'let*' x ':=' e 'in' k" := (Vis e (fun x => k))
  (at level 10, x pattern, e at level 100, k at level 200).

Fixpoint bind {A B} (p : prog A) (f : A -> prog B) : prog B :=
  match p with
  | Ret a => f a
  | Vis e k => Vis e (fun x => bind (k x) f)
  end.

(** A JavaScript completion: a value, or a thrown [Error] with its
    message. *)
Inductive completion (A : Type) : Type :=
| Normal (a : A)
| Throw (msg : string).
Arguments Normal {A} _.
Arguments Throw {A} _.

(** The test of line 265. *)
Definition is_duplicate_key (e : pg_error) : bool :=
  String.eqb (code e) "23505" || Js.includes (message e) "duplicate key".

Definition create_failed (ci : caseInfo) (e : pg_error) : string :=
  "Failed to create case " ++ caseNumber ci ++ ": " ++ message e.

(** Lines 232-287. *)
Definition ensureCaseExists (ci : caseInfo) : prog (completion nat) :=
  let* cached := CacheGet (caseNumber ci) in
  match cached with
  | Some id => Ret (Normal id)
  | None =>
    let* existingCase := SelectCaseId (caseNumber ci) in
    match data existingCase with
    | Some id =>
        let* _ := CacheSet (caseNumber ci) id in
        Ret (Normal id)
    | None =>
      let* inserted := InsertCase ci in
      match error inserted with
      | Some err =>
          if is_duplicate_key err
          then
            let* raceCase := SelectCaseId (caseNumber ci) in
            match data raceCase with
            | Some id =>
                let* _ := CacheSet (caseNumber ci) id in
                Ret (Normal id)
            | None => Ret (Throw (create_failed ci err))
            end
          else Ret (Throw (create_failed ci err))
      | None =>
          match data inserted with
          | Some id =>
              let* _ := CacheSet (caseNumber ci) id in
              Ret (Normal id)
          | None =>
              Ret (Throw "Cannot read properties of null (reading 'id')")
          end
      end
    end
  end.

Record documentData := {
  dd_caseInfo : caseInfo;
  dd_documentName : string;
  dd_documentType : string;
  dd_documentUrl : string;
  dd_witnessName : option string;
  dd_extractedText : Js.text
}.

(** The three object literals [uploadDocument] returns; a field that a
    literal leaves out is [None]. *)
Record upload_result := {
  documentId : option nat;
  caseId : option nat;
  chunksCreated : option nat;
  success : bool;
  duplicate : option bool;
  skipped : option bool;
  upload_error : option string
}.

Definition duplicate_result (doc case : nat) : upload_result :=
  {| documentId := Some doc; caseId := Some case; chunksCreated := Some 0;
     success := true; duplicate := Some true; skipped := Some true;
     upload_error := None |}.

Definition uploaded_result (doc case n : nat) : upload_result :=
  {| documentId := Some doc; caseId := Some case; chunksCreated := Some n;
     success := true; duplicate := None; skipped := None;
     upload_error := None |}.

Definition failure_result (msg : string) : upload_result :=
  {| documentId := None; caseId := None; chunksCreated := None;
     success := false; duplicate := None; skipped := None;
     upload_error := Some msg |}.

Definition batchSize : nat := 100.

(** The loop of lines 410-419 from index [i] on; [fuel] bounds the number
    of iterations, and [length chunks] is always enough. *)
Fixpoint upload_batches (fuel i : nat) (chunks : list Chunker.chunk)
    (k : prog upload_result) : prog upload_result :=
  match fuel with
  | 0 => k
  | S fuel' =>
      if i <? length chunks
      then
        let* r := InsertChunks (take batchSize (drop i chunks)) in
        match error r with
        | Some chunkError =>
            Ret (failure_result ("Failed to upload chunks: " ++ message chunkError))
        | None => upload_batches fuel' (i + batchSize) chunks k
        end
      else k
  end.

Section WithEnvironment.
(** [uuidv4] and [now] as in [Chunker]; [extracted_at] is the value of
    [new Date().toISOString()] at line 386. *)
Variable uuidv4 : nat -> string.
Variable now : nat -> string.
Variable extracted_at : string.

(** Lines 354-437. *)
Definition uploadDocument (dd : documentData) : prog upload_result :=
  bind (ensureCaseExists (dd_caseInfo dd)) (fun c =>
  match c with
  | Throw msg => Ret (failure_result msg)
  | Normal caseId =>
    let* existingDoc := SelectDocumentByUrl (dd_documentUrl dd) in
    match data existingDoc with
    | Some doc => Ret (duplicate_result (sum_id doc) (sum_case_id doc))
    | None =>
      let* inserted :=
        InsertDocument
          {| ins_case_id := caseId;
             ins_document_name := dd_documentName dd;
             ins_document_type := dd_documentType dd;
             ins_document_url := dd_documentUrl dd;
             ins_witness_name := dd_witnessName dd;
             ins_extraction_status := "completed";
             ins_extracted_at := extracted_at |} in
      match error inserted with
      | Some docError =>
          Ret (failure_result ("Failed to create document: " ++ message docError))
      | None =>
        match data inserted with
        | None =>
            Ret (failure_result "Cannot read properties of null (reading 'id')")
        | Some docId =>
          let chunks :=
            Chunker.createChunks uuidv4 now docId caseId
              {| Chunker.md_caseNumber := caseNumber (dd_caseInfo dd);
                 Chunker.md_company := company (dd_caseInfo dd);
                 Chunker.md_witnessName := dd_witnessName dd;
                 Chunker.md_documentType := dd_documentType dd |}
              (dd_extractedText dd) in
          upload_batches (length chunks) 0 chunks
            (Ret (uploaded_result docId caseId (length chunks)))
        end
      end
    end
  end).

End WithEnvironment.

(** The state the requests act on: the store and the uploader's
    [caseCache], which all workers share. *)
Record world := {
  store : db;
  caseCache : gmap string nat
}.

Definition with_store (w : world) (d : db) : world :=
  {| store := d; caseCache := caseCache w |}.

Definition handle {X} (e : request X) (w : world) : world * X :=
  match e in request X return world * X with
  | CacheGet cn => (w, caseCache w !! cn)
  | CacheSet cn id =>
      ({| store := store w; caseCache := <[cn := id]> (caseCache w) |}, tt)
  | SelectCaseId cn => (w, select_case_id cn (store w))
  | InsertCase ci =>
      let '(d, r) := insert_case ci (store w) in (with_store w d, r)
  | SelectDocumentByUrl url => (w, select_document_by_url url (store w))
  | InsertDocument row =>
      let '(d, r) := insert_document row (store w) in (with_store w d, r)
  | InsertChunks batch =>
      let '(d, r) := insert_chunks batch (store w) in (with_store w d, r)
  end.

(** A call that runs without interruption. *)
Fixpoint run {R} (p : prog R) (w : world) : world * R :=
  match p with
  | Ret r => (w, r)
  | Vis e k => let '(w', x) := handle e w in run (k x) w'
  end.

(** One atomic step of a call. *)
Definition step {R} (p : prog R) (w : world) : world * prog R :=
  match p with
  | Ret r => (w, Ret r)
  | Vis e k => let '(w', x) := handle e w in (w', k x)
  end.

(** Two calls in flight; the schedule says which one takes the next
    step ([true]: the first). *)
Record config (R : Type) := {
  shared : world;
  first : prog R;
  second : prog R
}.
Arguments shared {R} _.
Arguments first {R} _.
Arguments second {R} _.

Definition schedule_step {R} (c : config R) (b : bool) : config R :=
  if b
  then let '(w, p) := step (first c) (shared c) in
       {| shared := w; first := p; second := second c |}
  else let '(w, p) := step (second c) (shared c) in
       {| shared := w; first := first c; second := p |}.

Definition run_schedule {R} (sched : list bool) (c : config R) : config R :=
  fold_left schedule_step sched c.

Definition returned {R} (p : prog R) : option R :=
  match p with
  | Ret r => Some r
  | Vis _ _ => None
  end.

End Uploader.

(** ** SmartRetryQueue (lines 444-582) *)

Module Retry.

Record attemptInfo := {
  error : string;
  workerId : nat;
  documentName : string;
  caseNumber : string;
  documentUrl : string
}.

(** [{ ...attemptInfo, timestamp }] *)
Record attempt := {
  info : attemptInfo;
  timestamp : string
}.

Record failure_record := {
  attempts : list attempt;
  lastError : string;
  rec_documentName : string;
  rec_caseNumber : string
}.

Record SmartRetryQueue := {
  failedDocuments : gmap string failure_record;
  maxRetries : nat
}.

(** [new SmartRetryQueue(maxRetries = 3)] *)
Definition new (maxRetries : nat) : SmartRetryQueue :=
  {| failedDocuments := ∅; maxRetries := maxRetries |}.

(** Lines 456-475; [ts] is [new Date().toISOString()]. *)
Definition recordFailure (q : SmartRetryQueue) (queueId : string)
    (a : attemptInfo) (ts : string) : SmartRetryQueue * nat :=
  let record :=
    match failedDocuments q !! queueId with
    | Some r => r
    | None => {| attempts := []; lastError := "";
                 rec_documentName := documentName a;
                 rec_caseNumber := caseNumber a |}
    end in
  let record' :=
    {| attempts := attempts record ++ [ {| info := a; timestamp := ts |} ];
       lastError := error a;
       rec_documentName := rec_documentName record;
       rec_caseNumber := rec_caseNumber record |} in
  ({| failedDocuments := <[queueId := record']> (failedDocuments q);
      maxRetries := maxRetries q |},
   length (attempts record')).

(** Lines 482-486. *)
Definition shouldRetry (q : SmartRetryQueue) (queueId : string) : bool :=
  match failedDocuments q !! queueId with
  | None => true
  | Some record => length (attempts record) <? maxRetries q
  end.

(** [record ? record.attempts.length : 0] (lines 496 and 513). *)
Definition attemptNumber (q : SmartRetryQueue) (queueId : string) : nat :=
  match failedDocuments q !! queueId with
  | Some record => length (attempts record)
  | None => 0
  end.

(** [arr[i]] for an integer [i]: [undefined] outside the array. *)
Definition at_index {A} (l : list A) (i : Z) : option A :=
  if (i <? 0)%Z then None else l !! Z.to_nat i.

Definition timingConfig (documentType : string) : list Config.timing :=
  if String.eqb documentType "weblink_iframe"
  then Config.WEBLINK_ATTEMPTS
  else Config.LASERFICHE_ATTEMPTS.

(** Lines 494-504. *)
Definition getNextAttemptSpeed (q : SmartRetryQueue) (queueId : string)
    (documentType : string) : option Config.timing :=
  let table := timingConfig documentType in
  at_index table
    (Z.min (Z.of_nat (attemptNumber q queueId)) (Z.of_nat (length table) - 1)).

(** Lines 511-519. *)
Definition getIframeAttemptSpeed (q : SmartRetryQueue) (queueId : string)
    : option Config.timing :=
  at_index Config.IFRAME_ACCESS_ATTEMPTS
    (Z.min (Z.of_nat (attemptNumber q queueId))
           (Z.of_nat (length Config.IFRAME_ACCESS_ATTEMPTS) - 1)).

Record blacklistEntry := {
  bl_timestamp : string;
  bl_queueId : string;
  bl_documentName : string;
  bl_caseNumber : string;
  bl_attempts : nat;
  bl_errors : list string;
  bl_lastError : string;
  bl_documentUrl : string
}.

(** [x || 'Unknown'] *)
Definition or_unknown (x : option string) : string :=
  match x with
  | Some (String c s) => String c s
  | _ => "Unknown"
  end.

(** [./blacklisted-documents.json]: [None] when the file does not exist,
    otherwise the array it holds. *)
Definition blacklist_file := option (list blacklistEntry).

(** The kind of module a source file is loaded as.  Only a CommonJS
    module has the function [require] in scope. *)
Inductive module_kind := ESModule | CommonJS.

Definition require_in_scope (k : module_kind) : bool :=
  match k with
  | CommonJS => true
  | ESModule => false
  end.

(** historical-crawler.js has [import] declarations (lines 4-10), uses
    [import.meta.url] (line 16) and ends in an [export] declaration
    (line 2932). *)
Definition historical_crawler_js : module_kind := ESModule.

(** Lines 528-556.  The body is one [try] block whose first statement is
    [const fs = require('fs')]; where [require] is not in scope that
    statement throws a ReferenceError, the [catch] clause prints a warning
    and the file is left as it was. *)
Definition logBlacklistedDocument (scope : module_kind)
    (queueId documentName caseNumber : string) (atts : list attempt)
    (ts : string) (file : blacklist_file) : blacklist_file :=
  let blacklistEntry :=
    {| bl_timestamp := ts;
       bl_queueId := queueId;
       bl_documentName := documentName;
       bl_caseNumber := caseNumber;
       bl_attempts := length atts;
       bl_errors := map (fun a => error (info a)) atts;
       bl_lastError := or_unknown (option_map (fun a => error (info a)) (last atts));
       bl_documentUrl := or_unknown (option_map (fun a => documentUrl (info a)) (last atts)) |} in
  if require_in_scope scope
  then
    let blacklist := match file with Some l => l | None => [] end in
    Some (blacklist ++ [blacklistEntry])
  else file.

(** Lines 563-581. *)
Definition shouldBlacklist_in (scope : module_kind) (q : SmartRetryQueue)
    (queueId : string) (ts : string) (file : blacklist_file)
    : bool * blacklist_file :=
  match failedDocuments q !! queueId with
  | None => (false, file)
  | Some record =>
      if maxRetries q <=? length (attempts record)
      then (true,
            logBlacklistedDocument scope queueId
              (or_unknown (Some (rec_documentName record)))
              (or_unknown (Some (rec_caseNumber record)))
              (attempts record) ts file)
      else (false, file)
  end.

Definition shouldBlacklist := shouldBlacklist_in historical_crawler_js.

End Retry.

(** ** The pipeline snapshot file (lines 1989-2052, 2149-2171, 2351-2360) *)

Module Pipeline.
Import Store.

(** The JSON object in [discovered-cases-pipeline.json].
    [processedDocuments] is [None] when the field is missing.  The
    program writes the field as an array only (lines 1995 and 2155-2165); a
    file in which it holds a value of another kind is outside the
    model. *)
Record pipeline_data := {
  timestamp : string;
  totalCases : nat;
  cases : list caseInfo;
  processedDocuments : option (list string);
  status : option string
}.

(** [None]: the file does not exist. *)
Definition file := option pipeline_data.

(** Lines 1989-2004; [ts] is [new Date().toISOString()]. *)
Definition savePipeline (ts : string) (discoveredCases : list caseInfo)
    (f : file) : file :=
  Some {| timestamp := ts;
          totalCases := length discoveredCases;
          cases := discoveredCases;
          processedDocuments := Some [];
          status := Some "discovery_complete" |}.

(** Lines 2029-2038. *)
Definition loadPipelineData (f : file) : option pipeline_data := f.

(** Lines 2041-2052. *)
Definition loadPipeline (f : file) : option (list caseInfo) :=
  option_map cases f.

Definition docKey (caseNumber documentName : string) : string :=
  caseNumber ++ ":" ++ documentName.

(** [arr.includes(key)] *)
Definition array_includes (arr : list string) (key : string) : bool :=
  existsb (String.eqb key) arr.

(** Lines 2149-2171. *)
Definition updatePipelineAfterDocument (documentName caseNumber : string)
    (f : file) : file :=
  match loadPipelineData f with
  | None => f
  | Some pipelineData =>
      let processed :=
        match processedDocuments pipelineData with
        | Some l => l
        | None => []
        end in
      if array_includes processed (docKey caseNumber documentName)
      then f
      else Some {| timestamp := timestamp pipelineData;
                   totalCases := totalCases pipelineData;
                   cases := cases pipelineData;
                   processedDocuments :=
                     Some (processed ++ [docKey caseNumber documentName]);
                   status := status pipelineData |}
  end.

(** Lines 2007-2026. *)
Definition removeCompletedCaseFromPipeline (ts : string)
    (completedCaseNumber : string) (f : file) : file :=
  match loadPipelineData f with
  | None => f
  | Some pipelineData =>
      let remaining :=
        List.filter (fun ci => negb (String.eqb (caseNumber ci) completedCaseNumber))
               (cases pipelineData) in
      if length remaining <? length (cases pipelineData)
      then Some {| timestamp := ts;
                   totalCases := length remaining;
                   cases := remaining;
                   processedDocuments := processedDocuments pipelineData;
                   status := status pipelineData |}
      else f
  end.

(** Lines 2351-2360. *)
Definition clearPipeline (f : file) : file := None.

(** The markers a snapshot holds. *)
Definition markers (f : file) : list string :=
  match f with
  | Some {| processedDocuments := Some l |} => l
  | _ => []
  end.

End Pipeline.

(** ** HistoricalCrawler.documentWorker (lines 1743-1962) *)

Module Worker.
Import Store.

(** A queue entry: [{ ...docInfo, caseInfo, queueId }]. *)
Record queued_document := {
  text : string;
  href : string;
  documentType : option string;
  witnessName : option string;
  caseInfo : Store.caseInfo;
  queueId : string
}.

(** The objects a worker pushes to [processedDocuments]. *)
Record document_result := {
  documentName : string;
  pages : nat;
  chunksCreated : option nat;
  success : bool;
  skipped : bool;
  duplicate : bool;
  caseNumber : option string
}.

(** The literal of lines 1853-1861 and 1868-1876. *)
Definition skipped_result (document : queued_document) : document_result :=
  {| documentName := text document;
     pages := 0;
     chunksCreated := None;
     success := true;
     skipped := true;
     duplicate := true;
     caseNumber := Some (Store.caseNumber (caseInfo document)) |}.

(** What [await ... .single()] does at lines 2094-2098: it resolves to a
    response, or it throws. *)
Inductive lookup_outcome :=
| Resolved (r : response document_summary)
| Rejected (msg : string).

(** Lines 2093-2105, the [try] block: the [await] throws, or the two
    tests on its result give the answer. *)
Definition checkDocumentExistsByUrl_try (o : lookup_outcome)
  : Uploader.completion bool :=
  match o with
  | Rejected msg => Uploader.Throw msg
  | Resolved r =>
      match Store.error r with
      | Some e =>
          if negb (String.eqb (code e) "PGRST116")
          then Uploader.Normal false
          else Uploader.Normal (bool_decide (is_Some (data r)))
      | None => Uploader.Normal (bool_decide (is_Some (data r)))
      end
  end.

(** Lines 2091-2110: the [try] block and its [catch] clause. *)
Definition checkDocumentExistsByUrl (o : lookup_outcome)
  : Uploader.completion bool :=
  match checkDocumentExistsByUrl_try o with
  | Uploader.Normal b => Uploader.Normal b
  | Uploader.Throw _ => Uploader.Normal false
  end.

(** Whether the document is in the processed list of the pipeline file
    (line 1849). *)
Definition isInPipeline (pipeline : Pipeline.file) (document : queued_document)
  : bool :=
  match Pipeline.loadPipelineData pipeline with
  | Some {| Pipeline.processedDocuments := Some l |} =>
      Pipeline.array_includes l
        (Pipeline.docKey (Store.caseNumber (caseInfo document)) (text document))
  | _ => false
  end.

(** Lines 1844-1879: the result the optional duplicate check leaves in
    [result]; [lookup] is the store's answer, consulted only when the
    pipeline file does not list the document.  An exception of
    [checkDocumentExistsByUrl] would not be caught here. *)
Definition duplicate_check (checkDuplicates : bool) (pipeline : Pipeline.file)
    (document : queued_document) (lookup : lookup_outcome)
    : Uploader.completion (option document_result) :=
  if checkDuplicates
  then
    if isInPipeline pipeline document
    then Uploader.Normal (Some (skipped_result document))
    else
      match checkDocumentExistsByUrl lookup with
      | Uploader.Throw msg => Uploader.Throw msg
      | Uploader.Normal isDuplicate =>
          if isDuplicate
          then Uploader.Normal (Some (skipped_result document))
          else Uploader.Normal None
      end
  else Uploader.Normal None.

(** The counters of [ProgressTracker] (lines 588-632). *)
Record ProgressTracker := {
  completed : nat;
  errors : nat;
  skippedDuplicates : nat;
  actualNewDocuments : nat
}.

Definition recordSuccess (t : ProgressTracker) : ProgressTracker :=
  {| completed := S (completed t); errors := errors t;
     skippedDuplicates := skippedDuplicates t;
     actualNewDocuments := actualNewDocuments t |}.

Definition recordSkipped (t : ProgressTracker) : ProgressTracker :=
  {| completed := S (completed t); errors := errors t;
     skippedDuplicates := S (skippedDuplicates t);
     actualNewDocuments := actualNewDocuments t |}.

Definition recordNewDocument (t : ProgressTracker) : ProgressTracker :=
  {| completed := completed t; errors := errors t;
     skippedDuplicates := skippedDuplicates t;
     actualNewDocuments := S (actualNewDocuments t) |}.

Definition recordError (t : ProgressTracker) : ProgressTracker :=
  {| completed := completed t; errors := S (errors t);
     skippedDuplicates := skippedDuplicates t;
     actualNewDocuments := actualNewDocuments t |}.

(** The destructured [options] that select the queue pattern. *)
Record options := {
  useCaseQueue : bool;
  checkDuplicates : bool
}.

(** What the workers of one pool share, and the two files they write.
    [sharedQueue] is [None] when the option is left out (the case-based
    pattern), [currentCaseDocumentQueue] is the field of the crawler the
    case-based pattern takes its documents from. *)
Record state := {
  sharedQueue : option (list queued_document);
  currentCaseDocumentQueue : list queued_document;
  processedDocuments : list document_result;
  retryQueue : Retry.SmartRetryQueue;
  progressTracker : option ProgressTracker;
  pipelineFile : Pipeline.file;
  blacklistFile : Retry.blacklist_file;
  documentsProcessed : nat
}.

Definition update_tracker (f : ProgressTracker -> ProgressTracker)
    (st : state) : state :=
  {| sharedQueue := sharedQueue st;
     currentCaseDocumentQueue := currentCaseDocumentQueue st;
     processedDocuments := processedDocuments st;
     retryQueue := retryQueue st;
     progressTracker := option_map f (progressTracker st);
     pipelineFile := pipelineFile st;
     blacklistFile := blacklistFile st;
     documentsProcessed := documentsProcessed st |}.

(** Lines 1900-1924: a result was produced. *)
Definition handle_success (document : queued_document)
    (result : document_result) (st : state) : state :=
  let st1 :=
    {| sharedQueue := sharedQueue st;
       currentCaseDocumentQueue := currentCaseDocumentQueue st;
       processedDocuments := processedDocuments st ++ [result];
       retryQueue := retryQueue st;
       progressTracker := progressTracker st;
       pipelineFile :=
         if skipped result then pipelineFile st
         else Pipeline.updatePipelineAfterDocument (text document)
                (Store.caseNumber (caseInfo document)) (pipelineFile st);
       blacklistFile := blacklistFile st;
       documentsProcessed := S (documentsProcessed st) |} in
  if skipped result || duplicate result
  then update_tracker recordSkipped st1
  else if success result && negb (duplicate result)
       then update_tracker (fun t => recordNewDocument (recordSuccess t)) st1
       else update_tracker recordSuccess st1.

(** Lines 1925-1946: no result, shared queue pattern.  [ts] is the time
    stamp taken by [recordFailure], [ts1] and [ts2] those taken by the
    calls of [shouldBlacklist]. *)
Definition handle_failure (workerId : nat) (document : queued_document)
    (ts ts1 ts2 : string) (queue : list queued_document) (st : state)
    : state :=
  let '(rq, attemptCount) :=
    Retry.recordFailure (retryQueue st) (queueId document)
      {| Retry.error := "No text extracted";
         Retry.workerId := workerId;
         Retry.documentName := text document;
         Retry.caseNumber := Store.caseNumber (caseInfo document);
         Retry.documentUrl := href document |} ts in
  let '(retry, bl1) :=
    if Retry.shouldRetry rq (queueId document)
    then let '(b, f) :=
           Retry.shouldBlacklist rq (queueId document) ts1 (blacklistFile st) in
         (negb b, f)
    else (false, blacklistFile st) in
  if retry
  then {| sharedQueue := Some (queue ++ [document]);
          currentCaseDocumentQueue := currentCaseDocumentQueue st;
          processedDocuments := processedDocuments st;
          retryQueue := rq;
          progressTracker := progressTracker st;
          pipelineFile := pipelineFile st;
          blacklistFile := bl1;
          documentsProcessed := documentsProcessed st |}
  else
    let '(_, bl2) :=
      Retry.shouldBlacklist rq (queueId document) ts2 bl1 in
    update_tracker recordError
      {| sharedQueue := Some queue;
         currentCaseDocumentQueue := currentCaseDocumentQueue st;
         processedDocuments := processedDocuments st;
         retryQueue := rq;
         progressTracker := progressTracker st;
         pipelineFile := pipelineFile st;
         blacklistFile := bl2;
         documentsProcessed := documentsProcessed st |}.

(** Lines 1899-1946: what a worker does with the [result] it holds for
    the [document] it took from the queue ([None] is [null]). *)
Definition handle_result (o : options) (workerId : nat)
    (document : queued_document) (result : option document_result)
    (ts ts1 ts2 : string) (st : state) : state :=
  match result with
  | Some r => handle_success document r st
  | None =>
      if negb (useCaseQueue o)
      then match sharedQueue st with
           | Some queue => handle_failure workerId document ts ts1 ts2 queue st
           | None => st
           end
      else st
  end.

(** [result.caseNumber = document.caseInfo.caseNumber] (line 1895). *)
Definition with_caseNumber (document : queued_document) (r : document_result)
  : document_result :=
  {| documentName := documentName r;
     pages := pages r;
     chunksCreated := chunksCreated r;
     success := success r;
     skipped := skipped r;
     duplicate := duplicate r;
     caseNumber := Some (Store.caseNumber (caseInfo document)) |}.

(** Lines 1842-1946 for one dequeued [document]: [lookup] is the store's
    answer to the duplicate lookup and [extraction] what
    [extractDocumentText] returns, each used only if the code gets
    there.  An exception ends the worker (line 1957). *)
Definition process_document (o : options) (workerId : nat)
    (document : queued_document) (lookup : lookup_outcome)
    (extraction : option document_result)
    (ts ts1 ts2 : string) (st : state) : Uploader.completion state :=
  match duplicate_check (checkDuplicates o) (pipelineFile st) document lookup with
  | Uploader.Throw msg => Uploader.Throw msg
  | Uploader.Normal checked =>
      let result :=
        match checked with
        | Some r => Some r
        | None =>
            if useCaseQueue o then extraction
            else option_map (with_caseNumber document) extraction
        end in
      Uploader.Normal (handle_result o workerId document result ts ts1 ts2 st)
  end.

(** The two ways the pool starts its workers: [multiYearWorker]
    (lines 1965-1975) and [startParallelProcessing] (lines 2753-2762). *)
Definition shared_queue_mode : options :=
  {| useCaseQueue := false; checkDuplicates := false |}.
Definition case_based_mode : options :=
  {| useCaseQueue := true; checkDuplicates := true |}.

End Worker.

(** ** HistoricalCrawler.getNextCase (lines 2771-2821) *)

Module Queue.

Record case_bundle := {
  caseInfo : Store.caseInfo;
  documents : list Worker.queued_document
}.

Definition baseWaitTime : Z := 30000.
Definition extendedWaitTime : Z := 120000.

(** What a stretch of code between two [await]s finds when it starts to
    run: the two readings of [Date.now()] it may take (lines 2783 and
    2785) and the fields of [this] that other tasks write. *)
Record observation := {
  now1 : Z;
  now2 : Z;
  discoveryComplete : bool;
  caseQueue : list case_bundle;
  lockInUse : bool
}.

(** Where the method is suspended: in the [setTimeout] of line 2787 or
    2819 (or not yet started), or in that of line 2797. *)
Inductive position := LoopTop | LockWait.

Inductive outcome :=
| Return (nextCase : option case_bundle) (caseQueue' : list case_bundle)
| Sleep (ms : Z) (resume : position).

(** Lines 2796-2819 once the lock is free. *)
Definition take_case (o : observation) : outcome :=
  match caseQueue o with
  | nextCase :: rest => Return (Some nextCase) rest
  | [] =>
      if discoveryComplete o then Return None []
      else Sleep 1000 LoopTop
  end.

Definition wait_for_lock (o : observation) : outcome :=
  if lockInUse o then Sleep 100 LockWait else take_case o.

(** The code run from [position] to the next [await] or [return]. *)
Definition segment (startTime : Z) (p : position) (o : observation) : outcome :=
  match p with
  | LockWait => wait_for_lock o
  | LoopTop =>
      let maxWaitTime :=
        if discoveryComplete o then baseWaitTime else extendedWaitTime in
      if (maxWaitTime <? now1 o - startTime)%Z
      then
        if negb (discoveryComplete o) && (now2 o - startTime <? extendedWaitTime)%Z
        then Sleep 1000 LoopTop
        else Return None (caseQueue o)
      else wait_for_lock o
  end.

(** The whole call against the successive observations; [None] when it is
    still suspended after the last one. *)
Fixpoint getNextCase_from (startTime : Z) (p : position)
    (obs : list observation) : option (option case_bundle * list case_bundle) :=
  match obs with
  | [] => None
  | o :: obs' =>
      match segment startTime p o with
      | Return r q => Some (r, q)
      | Sleep _ p' => getNextCase_from startTime p' obs'
      end
  end.

Definition getNextCase (startTime : Z) (obs : list observation) :=
  getNextCase_from startTime LoopTop obs.

Definition elapsed (startTime : Z) (o : observation) : Z := now1 o - startTime.

Definition adaptive_timeout (o : observation) : Z :=
  if discoveryComplete o then baseWaitTime else extendedWaitTime.

End Queue.

(** ** HistoricalCrawler.crawlHistoricalData and the final verification
       (lines 1252-1303, 2247-2348, 2362-2422) *)

Module Crawl.
Import Store.

(** [CASE_LISTING_URLS] (lines 85-89). *)
Record listing := {
  listing_url : string;
  listing_type : string;
  listing_status : string
}.

Definition CASE_LISTING_URLS : list listing :=
  [ {| listing_url := "https://puc.idaho.gov/case?util=1&closed=0";
       listing_type := "electric"; listing_status := "open" |};
    {| listing_url := "https://puc.idaho.gov/case?util=4&closed=0";
       listing_type := "natural_gas"; listing_status := "open" |} ].

(** The call of line 2321.  The module declares no [getCasesFromPage]
    (and no [navigateToNextPage], line 2333) and imports none: to
    evaluate the call throws a ReferenceError. *)
Definition getCasesFromPage : Uploader.completion (list caseInfo) :=
  Uploader.Throw "getCasesFromPage is not defined".

Section Scan.
(** The test of lines 2325-2326 on the year of [dateFiled]. *)
Variable in_range : caseInfo -> bool.

(** Lines 2320-2338: one pass of the loop over the pages.  The [catch]
    logs the error and the loop goes on. *)
Definition scan_page (allDiscoveredCases : list caseInfo) (pageNum : nat)
  : list caseInfo :=
  match getCasesFromPage with
  | Uploader.Normal cases => allDiscoveredCases ++ List.filter in_range cases
  | Uploader.Throw _ => allDiscoveredCases
  end.

Definition totalPages (l : listing) : nat :=
  if String.eqb (listing_type l) "electric" then 45 else 4.

(** Lines 2310-2342 for one listing. *)
Definition scan_listing (allDiscoveredCases : list caseInfo) (l : listing)
  : list caseInfo :=
  fold_left scan_page (seq 1 (totalPages l)) allDiscoveredCases.

(** Lines 2300-2348.  [trouble] is the exception of the browser when one
    of [puppeteer.launch], [newPage], [goto], [page.close] and
    [browser.close] throws: none of them is inside the inner [try]. *)
Definition runCompleteDiscoveryScan (trouble : option string)
  : Uploader.completion (list caseInfo) :=
  match trouble with
  | Some msg => Uploader.Throw msg
  | None => Uploader.Normal (fold_left scan_listing CASE_LISTING_URLS [])
  end.

(** What [await ... .from('cases').select('case_number')] does: it
    resolves to a response, or it throws. *)
Inductive query_outcome :=
| Answered (r : response (list string))
| QueryThrows (msg : string).

(** What [performFinalVerification] meets. *)
Record verification_input := {
  scan_trouble : option string;
  query : query_outcome
}.

(** What it prints. *)
Inductive verification_report :=
| VerificationError
| VerificationPassed
| VerificationFailed (missingCases : list caseInfo).

(** Lines 2272-2274. *)
Definition missingCases (allDiscoveredCases : list caseInfo)
    (dbCases : list string) : list caseInfo :=
  List.filter (fun ci => negb (existsb (String.eqb (caseNumber ci)) dbCases))
         allDiscoveredCases.

(** Lines 2247-2297.  The method returns nothing and writes no file.
    With [data: null] and no error, [dbCases.map] throws a TypeError,
    which the [catch] logs. *)
Definition performFinalVerification (v : verification_input)
    : verification_report :=
  match runCompleteDiscoveryScan (scan_trouble v) with
  | Uploader.Throw _ => VerificationError
  | Uploader.Normal allDiscoveredCases =>
      match query v with
      | QueryThrows _ => VerificationError
      | Answered r =>
          match error r, data r with
          | Some _, _ => VerificationError
          | None, None => VerificationError
          | None, Some dbCases =>
              match missingCases allDiscoveredCases dbCases with
              | [] => VerificationPassed
              | missing => VerificationFailed missing
              end
          end
      end
  end.

(** The two files of the crash-recovery machinery. *)
Record files := {
  pipelineFile : Pipeline.file;
  checkpointFile : bool
}.

Definition clearPipeline (f : files) : files :=
  {| pipelineFile := Pipeline.clearPipeline (pipelineFile f);
     checkpointFile := checkpointFile f |}.

(** Lines 201-210. *)
Definition clearCheckpoint (f : files) : files :=
  {| pipelineFile := pipelineFile f; checkpointFile := false |}.

(** Discovery and the worker pool, run to completion
    ([Promise.all] at lines 1296 and 2392): whatever they do to the
    files. *)
Variable discover_and_process : files -> files.
Variable verification : verification_input.

(** Lines 2362-2422, called with a saved pipeline. *)
Definition buildMultiYearQueue (f : files) : files * verification_report :=
  let f1 := discover_and_process f in
  let report := performFinalVerification verification in
  (clearPipeline f1, report).

(** Lines 1252-1303. *)
Definition crawlHistoricalData (f : files) : files * verification_report :=
  match Pipeline.loadPipeline (pipelineFile f) with
  | Some (c :: cs) =>
      let '(f1, report) := buildMultiYearQueue f in
      (clearCheckpoint f1, report)
  | _ =>
      let f1 := discover_and_process f in
      let report := performFinalVerification verification in
      (clearPipeline f1, report)
  end.
End Scan.

End Crawl.

(** ** The duplicate checks of the crawler against the store
       (lines 2055-2110) *)

Module Existence.
Import Store.

(** [checkDocumentExistsByUrl(documentUrl)] when the client resolves with
    the answer of the store.  The method asks for the columns
    [id, document_name] only; which rows answer is the same as for the
    lookup of [uploadDocument]. *)
Definition checkDocumentExistsByUrl (documentUrl : string) (d : db)
  : Uploader.completion bool :=
  Worker.checkDocumentExistsByUrl
    (Worker.Resolved (select_document_by_url documentUrl d)).

(** The columns [id, document_name] of a document row. *)
Record document_brief := {
  brief_id : nat;
  brief_document_name : string
}.

Definition brief (r : document_row) : document_brief :=
  {| brief_id := doc_id r; brief_document_name := document_name r |}.

(** [from('documents').select('id, document_name').eq('case_id', id)
      .eq('document_name', name).single()] *)
Definition select_document_by_name (caseId : nat) (documentName : string)
    (d : db) : response document_brief :=
  single
    (map brief
       (List.filter
          (fun r => Nat.eqb (doc_case_id r) caseId
                    && String.eqb (document_name r) documentName)
          (documents d))).

(** Lines 2055-2087, with a client that resolves with the answers of the
    store (the [catch] clause is for a client that throws). *)
Definition checkDocumentExists (caseNumber documentName : string) (d : db)
  : bool :=
  match data (select_case_id caseNumber d) with
  | None => false
  | Some existingCaseId =>
      let r := select_document_by_name existingCaseId documentName d in
      match error r with
      | Some e =>
          if negb (String.eqb (code e) "PGRST116")
          then false
          else bool_decide (is_Some (data r))
      | None => bool_decide (is_Some (data r))
      end
  end.

End Existence.

(** ** HistoricalCrawler.processMultiYearQueue and its workers
       (lines 1691-1729, 1767-1836, 1965-1975)

    The workers of the shared queue pattern are tasks of one event loop:
    a task runs until its next [await].  A worker that holds the result
    of an extraction handles it (lines 1899-1946), goes back to the top
    of its loop and takes the next document (lines 1817-1836) in one
    stretch; the next [await] is inside [extractDocumentText].  A worker
    that finds the lock in use sleeps and tries again.  Before its loop a
    worker opens a browser and a page (lines 1754-1761): when
    [browser.newPage()] rejects, inside the [try], the worker logs the
    error and returns without having taken a document; when
    [puppeteer.launch()] rejects, outside the [try], the promise of the
    worker is rejected, and with it [Promise.all]. *)

Module Pool.
Import Worker.

(** Where a worker is suspended, with its local counter
    [documentsProcessed]: inside [puppeteer.launch] or [browser.newPage];
    in the sleep of line 1818; inside [extractDocumentText] for the
    document it took; past its loop (it has returned); or ended by the
    exception of [puppeteer.launch]. *)
Inductive worker :=
| Starting
| Waiting (documentsProcessed : nat)
| Extracting (documentsProcessed : nat) (document : queued_document)
| Done
| Failed.

Record pool := {
  lockInUse : bool;
  workers : list worker;
  shared : state
}.

(** The objects the workers share as one worker sees them, with its own
    counter. *)
Definition as_seen_by (documentsProcessed : nat) (st : state) : state :=
  {| sharedQueue := sharedQueue st;
     currentCaseDocumentQueue := currentCaseDocumentQueue st;
     processedDocuments := processedDocuments st;
     retryQueue := retryQueue st;
     progressTracker := progressTracker st;
     pipelineFile := pipelineFile st;
     blacklistFile := blacklistFile st;
     documentsProcessed := documentsProcessed |}.

Definition with_sharedQueue (queue : list queued_document) (st : state) : state :=
  {| sharedQueue := Some queue;
     currentCaseDocumentQueue := currentCaseDocumentQueue st;
     processedDocuments := processedDocuments st;
     retryQueue := retryQueue st;
     progressTracker := progressTracker st;
     pipelineFile := pipelineFile st;
     blacklistFile := blacklistFile st;
     documentsProcessed := documentsProcessed st |}.

(** Lines 1817-1836 for worker [i]: the lock is taken and released
    without an [await] in between; with a document the worker goes into
    [extractDocumentText], without one it leaves its loop. *)
Definition dequeue (i : nat) (st : state) (p : pool) : pool :=
  if lockInUse p
  then {| lockInUse := lockInUse p;
          workers := <[i := Waiting (documentsProcessed st)]> (workers p);
          shared := st |}
  else
    match sharedQueue st with
    | Some (document :: rest) =>
        {| lockInUse := lockInUse p;
           workers :=
             <[i := Extracting (documentsProcessed st) document]> (workers p);
           shared := with_sharedQueue rest st |}
    | _ =>
        {| lockInUse := lockInUse p;
           workers := <[i := Done]> (workers p);
           shared := st |}
    end.

(** What the event loop resumes: the browser and the page of a worker
    are open; [browser.newPage()] rejects; [puppeteer.launch()] rejects;
    the sleep of a waiting worker ends; or the extraction of a worker
    returns.  [lookup], [extraction] and the time stamps are what the
    iteration reads from outside, each used only if the code gets
    there. *)
Inductive event :=
| Started (i : nat)
| PageFails (i : nat)
| LaunchFails (i : nat)
| Wake (i : nat)
| Extracted (i : nat) (lookup : lookup_outcome)
    (extraction : option document_result) (ts ts1 ts2 : string).

(** One stretch of code of worker [i] (its [workerId] is [i + 1]).  An
    event for a worker that is not suspended there changes nothing. *)
Definition step (p : pool) (e : event) : pool :=
  match e with
  | Started i =>
      match workers p !! i with
      | Some Starting => dequeue i (as_seen_by 0 (shared p)) p
      | _ => p
      end
  | PageFails i =>
      match workers p !! i with
      | Some Starting =>
          {| lockInUse := lockInUse p;
             workers := <[i := Done]> (workers p);
             shared := shared p |}
      | _ => p
      end
  | LaunchFails i =>
      match workers p !! i with
      | Some Starting =>
          {| lockInUse := lockInUse p;
             workers := <[i := Failed]> (workers p);
             shared := shared p |}
      | _ => p
      end
  | Wake i =>
      match workers p !! i with
      | Some (Waiting n) => dequeue i (as_seen_by n (shared p)) p
      | _ => p
      end
  | Extracted i lookup extraction ts ts1 ts2 =>
      match workers p !! i with
      | Some (Extracting n document) =>
          match process_document shared_queue_mode (S i) document lookup
                  extraction ts ts1 ts2 (as_seen_by n (shared p)) with
          | Uploader.Normal st' => dequeue i st' p
          | Uploader.Throw _ =>
              {| lockInUse := lockInUse p;
                 workers := <[i := Done]> (workers p);
                 shared := shared p |}
          end
      | _ => p
      end
  end.

Definition run (events : list event) (p : pool) : pool :=
  fold_left step events p.

(** [new ProgressTracker(total, year)]: the counters. *)
Definition new_tracker : ProgressTracker :=
  {| completed := 0; errors := 0;
     skippedDuplicates := 0; actualNewDocuments := 0 |}.

(** Lines 1692-1707: the shared objects and the workers, before any of
    them has run.  The two files and the crawler's own document queue are
    what they are when the method is called. *)
Definition start (maxWorkers : nat) (globalQueue : list queued_document)
    (currentCaseDocumentQueue : list queued_document)
    (pipelineFile : Pipeline.file) (blacklistFile : Retry.blacklist_file)
  : pool :=
  {| lockInUse := false;
     workers := repeat Starting maxWorkers;
     shared :=
       {| sharedQueue := Some globalQueue;
          currentCaseDocumentQueue := currentCaseDocumentQueue;
          processedDocuments := [];
          retryQueue := Retry.new 3;
          progressTracker := Some new_tracker;
          pipelineFile := pipelineFile;
          blacklistFile := blacklistFile;
          documentsProcessed := 0 |} |}.

(** [Promise.all(workerPromises)] has resolved: every worker has
    returned. *)
Definition all_done (p : pool) : bool :=
  forallb (fun w => match w with Done => true | _ => false end) (workers p).

(** No worker is left to run: each has returned or has ended with an
    exception. *)
Definition all_ended (p : pool) : bool :=
  forallb (fun w => match w with Done | Failed => true | _ => false end)
    (workers p).

(** [doc.chunksCreated || 0] *)
Definition chunks_of (doc : document_result) : nat :=
  match chunksCreated doc with Some n => n | None => 0 end.

(** The object returned at lines 1723-1728.  No result carries a
    [sourceYear], so [byYear] has the one key "unknown" when there is a
    result and no key otherwise. *)
Record results := {
  totalCompleted : nat;
  totalChunks : nat;
  result_errors : Z;
  byYear : list (string * (nat * nat))
}.

Definition processMultiYearQueue_results (globalQueue : list queued_document)
    (p : pool) : results :=
  let processed := processedDocuments (shared p) in
  {| totalCompleted := length processed;
     totalChunks := fold_left (fun sum doc => sum + chunks_of doc) processed 0;
     result_errors := Z.of_nat (length globalQueue) - Z.of_nat (length processed);
     byYear :=
       match processed with
       | [] => []
       | _ =>
           [("unknown",
             (length processed,
              fold_left (fun sum doc => sum + chunks_of doc) processed 0))]
       end |}.

End Pool.

(** ** HistoricalCrawler.crawlNightlyUpdates: the counts it returns
       (lines 1330-1349) *)

Module Nightly.
Import Worker.

Record nightly_counts := {
  documentsProcessed : nat;
  documentsChecked : nat
}.

(** [results] is what [startParallelProcessing] resolves to, the array
    the workers push their results to. *)
Definition crawlNightlyUpdates_counts (results : list document_result)
  : nightly_counts :=
  {| documentsProcessed :=
       length (List.filter (fun r => negb (skipped r) && negb (duplicate r))
                 results);
     documentsChecked := length results |}.

End Nightly.

(** ** cleanExtractedText and the end of extractDocumentText
       (lines 679-689, 976-1007) *)

Module Extract.
Import Js.

(** How a regular expression with the flag [i] (and without [u])
    compares code units: by their upper case.  The patterns of
    [cleanExtractedText] are ASCII, and a code unit from 128 on is never
    taken for an ASCII one, so the upper case of the ASCII letters is all
    that matters. *)
Definition to_upper (c : ascii) : ascii :=
  let n := nat_of_ascii c in
  if (97 <=? n) && (n <=? 122) then ascii_of_nat (n - 32) else c.

Definition same_ci (c p : ascii) : bool := Ascii.eqb (to_upper c) (to_upper p).

(** The literal [pattern] matches at the start of [s]. *)
Fixpoint starts_with_ci (pattern s : text) : bool :=
  match pattern, s with
  | [], _ => true
  | p :: pattern', c :: s' => same_ci c p && starts_with_ci pattern' s'
  | _ :: _, [] => false
  end.

(** [s.replace(/pattern/gi, '')] for a literal pattern that is not empty:
    the matches are found from left to right and do not overlap.  [skip]
    is the number of code units of the current match still to drop. *)
Fixpoint remove_ci (pattern : text) (skip : nat) (s : text) : text :=
  match s with
  | [] => []
  | c :: s' =>
      match skip with
      | S k => remove_ci pattern k s'
      | 0 =>
          if starts_with_ci pattern s
          then remove_ci pattern (length pattern - 1) s'
          else c :: remove_ci pattern 0 s'
      end
  end.

(** What [.] does not match: LF and CR (and U+2028, U+2029, which are
    not below 256). *)
Definition is_line_terminator (c : ascii) : bool :=
  let n := nat_of_ascii c in (n =? 10) || (n =? 13).

(** [.*?pattern] at the start of [s]: the length of the shortest match,
    if there is one. *)
Fixpoint lazy_until (pattern s : text) : option nat :=
  if starts_with_ci pattern s
  then Some (length pattern)
  else
    match s with
    | [] => None
    | c :: s' =>
        if is_line_terminator c then None
        else option_map S (lazy_until pattern s')
    end.

(** [s.replace(/first.*?last/gi, '')] for two literals that are not
    empty. *)
Fixpoint remove_between (first last : text) (skip : nat) (s : text) : text :=
  match s with
  | [] => []
  | c :: s' =>
      match skip with
      | S k => remove_between first last k s'
      | 0 =>
          if starts_with_ci first s
          then
            match lazy_until last (drop (length first) s) with
            | Some n => remove_between first last (length first + n - 1) s'
            | None => c :: remove_between first last 0 s'
            end
          else c :: remove_between first last 0 s'
      end
  end.

(** [s.replace(/\s+/g, ' ')]; [in_ws] tells that the last code unit read
    was white space. *)
Fixpoint collapse_aux (in_ws : bool) (s : text) : text :=
  match s with
  | [] => []
  | c :: s' =>
      if is_space c
      then (if in_ws then collapse_aux true s'
            else space :: collapse_aux true s')
      else c :: collapse_aux false s'
  end.

Definition collapse (s : text) : text := collapse_aux false s.

Definition newline : ascii := ascii_of_nat 10.
Definition is_newline (c : ascii) : bool := nat_of_ascii c =? 10.

(** [\s*\n] at the start of [s], greedy: the length of the longest match,
    if there is one. *)
Fixpoint blank_run (s : text) : option nat :=
  match s with
  | [] => None
  | c :: s' =>
      if is_space c
      then
        match blank_run s' with
        | Some n => Some (S n)
        | None => if is_newline c then Some 1 else None
        end
      else None
  end.

(** [s.replace(/\n\s*\n/g, '\n')] *)
Fixpoint squeeze_aux (skip : nat) (s : text) : text :=
  match s with
  | [] => []
  | c :: s' =>
      match skip with
      | S k => squeeze_aux k s'
      | 0 =>
          if is_newline c
          then
            match blank_run s' with
            | Some n => newline :: squeeze_aux n s'
            | None => c :: squeeze_aux 0 s'
            end
          else c :: squeeze_aux 0 s'
      end
  end.

Definition squeeze (s : text) : text := squeeze_aux 0 s.

(** Lines 681-685: the five removals. *)
Definition without_ui (rawText : text) : text :=
  remove_between (of_string "PublicFiles") (of_string "Company") 0
    (remove_ci (of_string "PUC Case Management") 0
       (remove_ci (of_string "Search in document") 0
          (remove_ci (of_string "View images") 0
             (remove_ci (of_string "View plain text") 0 rawText)))).

(** Lines 679-689. *)
Definition cleanExtractedText (rawText : text) : text :=
  trim (squeeze (collapse (without_ui rawText))).

(** *** The page loops (lines 704-764 and 799-862) *)

(** What one pass through the [try] block meets: the text the second
    [evaluate] returns, or an exception thrown by one of its awaits. *)
Inductive page_try :=
| PageText (pageText : text)
| PageThrows.

(** [allText] and [successfulPages], and the two variables of the inner
    loop. *)
Record page_loop := {
  allText : text;
  successfulPages : nat;
  pageExtracted : bool;
  retryCount : nat
}.

(** [`\n--- PAGE ${pageNum} ---\n${pageText}\n`] *)
Definition page_block (pageNum : nat) (pageText : text) : text :=
  newline :: of_string "--- PAGE " ++ of_string (pretty pageNum)
    ++ of_string " ---" ++ newline :: pageText ++ [newline].

Section PageLoop.
(** The two loops differ in the length a page text must exceed (10 and
    20) and in the number of retries.  [look pageNum retryCount] is what
    the viewer gives for the page at the try made with that value of
    [retryCount]: every pass either ends the loop or increments
    [retryCount], so no two tries of a page share it. *)
Variable min_length : nat.
Variable maxRetries : nat.
Variable look : nat -> nat -> page_try.

(** One pass through the body of the [while] loop. *)
Definition try_page (pageNum : nat) (st : page_loop) : page_loop :=
  match look pageNum (retryCount st) with
  | PageText pageText =>
      if min_length <? length pageText
      then {| allText := allText st ++ page_block pageNum pageText;
              successfulPages := S (successfulPages st);
              pageExtracted := true;
              retryCount := retryCount st |}
      else if retryCount st <? maxRetries
           then {| allText := allText st;
                   successfulPages := successfulPages st;
                   pageExtracted := pageExtracted st;
                   retryCount := S (retryCount st) |}
           else {| allText := allText st;
                   successfulPages := successfulPages st;
                   pageExtracted := true;
                   retryCount := retryCount st |}
  | PageThrows =>
      {| allText := allText st;
         successfulPages := successfulPages st;
         pageExtracted :=
           if maxRetries <? S (retryCount st) then true else pageExtracted st;
         retryCount := S (retryCount st) |}
  end.

(** The condition of the [while] loop. *)
Definition goes_on (st : page_loop) : bool :=
  negb (pageExtracted st) && (retryCount st <=? maxRetries).

(** [while (!pageExtracted && retryCount <= maxRetries)]; [fuel] bounds
    the number of passes. *)
Fixpoint while_page (fuel : nat) (pageNum : nat) (st : page_loop) : page_loop :=
  match fuel with
  | 0 => st
  | S fuel' =>
      if goes_on st
      then while_page fuel' pageNum (try_page pageNum st)
      else st
  end.

(** The body of the [for] loop: the two variables are declared anew and
    the inner loop runs. *)
Definition extract_page (st : page_loop) (pageNum : nat) : page_loop :=
  while_page (S maxRetries) pageNum
    {| allText := allText st;
       successfulPages := successfulPages st;
       pageExtracted := false;
       retryCount := 0 |}.

(** [for (let pageNum = 1; pageNum <= totalPages; pageNum++)] *)
Definition extract_pages (totalPages : nat) : page_loop :=
  fold_left extract_page (seq 1 totalPages)
    {| allText := []; successfulPages := 0;
       pageExtracted := false; retryCount := 0 |}.

End PageLoop.

(** [{ text, pages }], with [speed] for the PDF viewer. *)
Record extracted_text := {
  et_text : text;
  et_pages : nat;
  et_speed : option string
}.

(** [HISTORICAL_CONFIG.SPEED.MAX_RETRIES] (line 50). *)
Definition MAX_RETRIES : nat := 2.

(** Lines 698-767. *)
Definition extractLaserFicheTextFast (look : nat -> nat -> page_try)
    (totalPages : nat) : extracted_text :=
  let st := extract_pages 10 MAX_RETRIES look totalPages in
  {| et_text := allText st; et_pages := successfulPages st; et_speed := None |}.

(** Lines 778-865.  [viewer_pages] is the number of pages the PDF viewer
    shows, [None] when [waitForFunction] times out.  The result is [None]
    when the function throws; reading [speedConfig.name] throws when
    [getNextAttemptSpeed] gives [undefined]. *)
Definition extractWebLinkTextProgressive (look : nat -> nat -> page_try)
    (viewer_pages : option nat) (queueId : string)
    (retryQueue : Retry.SmartRetryQueue) (documentType : string)
    : option extracted_text :=
  match Retry.getNextAttemptSpeed retryQueue queueId documentType with
  | None => None
  | Some speedConfig =>
      match viewer_pages with
      | None => None
      | Some totalPages =>
          let maxRetries :=
            if String.eqb (Config.name speedConfig) "fast" then 1 else 2 in
          let st := extract_pages 20 maxRetries look totalPages in
          Some {| et_text := allText st;
                  et_pages := successfulPages st;
                  et_speed := Some (Config.name speedConfig) |}
      end
  end.

(** *** extractDocumentText (lines 879-1013) *)

Inductive document_kind := laserfiche_image | weblink_iframe | unknown.

Definition kind_name (k : document_kind) : string :=
  match k with
  | laserfiche_image => "laserfiche_image"
  | weblink_iframe => "weblink_iframe"
  | unknown => "unknown"
  end.

(** What lines 897-943 read off the page. *)
Record documentTypeInfo := {
  documentType : document_kind;
  pageCount : nat
}.

(** What the browser shows during one call: [opened] is the outcome of
    lines 883-943 ([None] when one of these awaits throws), [frame] tells
    whether lines 963-969 reach the content of the iframe, [viewer_pages]
    and [look] are as above. *)
Record viewer := {
  opened : option documentTypeInfo;
  frame : bool;
  viewer_pages : option nat;
  look : nat -> nat -> page_try
}.

(** The object literal of lines 991-999. *)
Record extraction := {
  ex_success : bool;
  ex_documentName : string;
  ex_pages : nat;
  ex_textLength : nat;
  ex_chunksCreated : option nat;
  ex_documentId : option nat;
  ex_caseId : option nat
}.

(** The object as the worker reads it: it has no field [skipped],
    [duplicate] or [caseNumber], and [undefined] is falsy. *)
Definition as_result (e : extraction) : Worker.document_result :=
  {| Worker.documentName := ex_documentName e;
     Worker.pages := ex_pages e;
     Worker.chunksCreated := ex_chunksCreated e;
     Worker.success := ex_success e;
     Worker.skipped := false;
     Worker.duplicate := false;
     Worker.caseNumber := None |}.

Section WithUploader.
(** The environment of [uploadDocument]. *)
Variable uuidv4 : nat -> string.
Variable now : nat -> string.
Variable extracted_at : string.

(** Lines 976-1007. *)
Definition upload_extracted (documentUrl documentName : string)
    (caseInfo : Store.caseInfo) (documentMetadata : Worker.queued_document)
    (fullText : text) (totalPages : nat)
    : Uploader.prog (option extraction) :=
  if truthy (trim fullText)
  then
    let cleanedText := cleanExtractedText fullText in
    Uploader.bind
      (Uploader.uploadDocument uuidv4 now extracted_at
         {| Uploader.dd_caseInfo := caseInfo;
            Uploader.dd_documentName := documentName;
            Uploader.dd_documentType :=
              Retry.or_unknown (Worker.documentType documentMetadata);
            Uploader.dd_documentUrl := documentUrl;
            Uploader.dd_witnessName := Worker.witnessName documentMetadata;
            Uploader.dd_extractedText := cleanedText |})
      (fun uploadResult =>
         if Uploader.success uploadResult
         then Uploader.Ret
                (Some {| ex_success := true;
                         ex_documentName := documentName;
                         ex_pages := totalPages;
                         ex_textLength := length cleanedText;
                         ex_chunksCreated := Uploader.chunksCreated uploadResult;
                         ex_documentId := Uploader.documentId uploadResult;
                         ex_caseId := Uploader.caseId uploadResult |})
         else Uploader.Ret None)
  else Uploader.Ret None.

(** Lines 879-1013; [None] is [null].  Every exception ends in the
    [catch] clause of line 1009, which returns [null]. *)
Definition extractDocumentText (v : viewer) (documentUrl documentName : string)
    (caseInfo : Store.caseInfo) (documentMetadata : Worker.queued_document)
    (retryQueue : Retry.SmartRetryQueue)
    : Uploader.prog (option extraction) :=
  match opened v with
  | None => Uploader.Ret None
  | Some documentTypeInfo =>
      match documentType documentTypeInfo with
      | laserfiche_image =>
          if pageCount documentTypeInfo =? 0
          then Uploader.Ret None
          else
            let result :=
              extractLaserFicheTextFast (look v) (pageCount documentTypeInfo) in
            upload_extracted documentUrl documentName caseInfo documentMetadata
              (et_text result) (et_pages result)
      | weblink_iframe =>
          if frame v
          then
            match extractWebLinkTextProgressive (look v) (viewer_pages v)
                    (Worker.queueId documentMetadata) retryQueue
                    (kind_name (documentType documentTypeInfo)) with
            | Some result =>
                upload_extracted documentUrl documentName caseInfo
                  documentMetadata (et_text result) (et_pages result)
            | None => Uploader.Ret None
            end
          else Uploader.Ret None
      | unknown =>
          upload_extracted documentUrl documentName caseInfo documentMetadata
            [] 0
      end
  end.

(** Lines 1883-1892: the call a worker makes for a [document] of its
    queue. *)
Definition extract_for_worker (v : viewer)
    (document : Worker.queued_document) (retryQueue : Retry.SmartRetryQueue)
    : Uploader.prog (option Worker.document_result) :=
  Uploader.bind
    (extractDocumentText v (Worker.href document) (Worker.text document)
       (Worker.caseInfo document) document retryQueue)
    (fun result => Uploader.Ret (option_map as_result result)).

End WithUploader.

End Extract.

(** ** getAllExistingDocuments and buildDocumentQueue
       (lines 2424-2453, 2470-2627, 2823-2829) *)

Module Discovery.
Import Store.

(** The objects [getDocumentLinksFromCase] returns (lines 1189-1196). *)
Record docInfo := {
  text : string;
  href : string;
  section : string;
  witnessName : option string;
  documentType : string;
  queueId : string
}.

(** [{ ...docInfo, caseInfo: caseInfo, queueId: uuidv4() }] (lines
    2538-2542), as the worker reads it: it never looks at [section]. *)
Definition documentData (d : docInfo) (caseInfo : Store.caseInfo)
    (queueId : string) : Worker.queued_document :=
  {| Worker.text := text d;
     Worker.href := href d;
     Worker.documentType := Some (documentType d);
     Worker.witnessName := witnessName d;
     Worker.caseInfo := caseInfo;
     Worker.queueId := queueId |}.

(** [set.has(x)] *)
Definition has (s : gset string) (x : string) : bool := bool_decide (x ∈ s).

(** The two fields of the crawler that [getAllExistingDocuments] sets;
    [None] is [undefined], their value before the first call. *)
Record crawler := {
  existingDocumentsByCase : option (gmap nat (gset string));
  existingUrls : option (gset string)
}.

(** What [await ... .select('document_name, document_url, case_id')]
    does: it resolves with rows (or with [data: null]), or throws. *)
Inductive listing :=
| Listed (documents : option (list document_row))
| ListingThrows.

(** The body of the [forEach] of lines 2433-2442. *)
Definition add_existing (acc : gmap nat (gset string) * gset string)
    (doc : document_row) : gmap nat (gset string) * gset string :=
  let '(existingByCase, existingUrls) := acc in
  let existingUrls := {[ document_url doc ]} ∪ existingUrls in
  let existingByCase :=
    match existingByCase !! doc_case_id doc with
    | Some _ => existingByCase
    | None => <[doc_case_id doc := ∅]> existingByCase
    end in
  (<[doc_case_id doc :=
       {[ document_name doc ]} ∪ default ∅ (existingByCase !! doc_case_id doc)]>
     existingByCase,
   existingUrls).

(** Lines 2424-2453: the crawler afterwards and the set returned. *)
Definition getAllExistingDocuments (l : listing) (c : crawler)
  : crawler * gset string :=
  match l with
  | ListingThrows => (c, ∅)
  | Listed documents =>
      let '(existingByCase, existingUrls) :=
        fold_left add_existing (default [] documents) (∅, ∅) in
      ({| existingDocumentsByCase := Some existingByCase;
          existingUrls := Some existingUrls |},
       existingUrls)
  end.

(** The options of [buildDocumentQueue] that select what it does with the
    documents.  The model covers the calls with [startWorkers] left out
    or false, and takes the browser and the page as given. *)
Record options := {
  checkCaseSpecificDupes : bool;
  addToWorkerQueue : bool;
  singleCase : bool;
  useQueueLock : bool;
  returnSimpleArray : bool
}.

(** What the two awaits of lines 2505 and 2512-2516 give for a case: the
    links of its page and the id of its row ([None] when [data] is
    [null]); or one of them throws. *)
Record visit := {
  documentLinks : list docInfo;
  existingCase : option nat
}.

Inductive visit_outcome :=
| Visited (v : visit)
| VisitThrows.

(** The variables of the [forEach] of lines 2522-2547; [drawn] counts the
    calls of [uuidv4]. *)
Record case_loop := {
  caseDocuments : list Worker.queued_document;
  currentCaseDocNames : gset string;
  drawn : nat
}.

(** The variables of the loop over the cases; [pushed] holds the entries
    pushed to [this.caseQueue], in order. *)
Record loop := {
  globalQueue : list Worker.queued_document;
  caseBasedQueue : list Queue.case_bundle;
  pushed : list Queue.case_bundle;
  totalDocuments : nat;
  uuids_drawn : nat
}.

Inductive build_result :=
| Void
| SimpleArray (globalQueue : list Worker.queued_document)
| CaseDocuments (documents : list Worker.queued_document)
| CaseBased (caseBasedQueue : list Queue.case_bundle).

Section WithEnvironment.
(** [uuidv4 k] is the value of the call of [uuidv4()] numbered [k]. *)
Variable uuidv4 : nat -> string.
Variable o : options.
Variable existingDocSet : gset string.
Variable c : crawler.

(** Lines 2523-2535. *)
Definition shouldInclude (caseSpecificDocs currentCaseDocNames : gset string)
    (d : docInfo) : bool :=
  if checkCaseSpecificDupes o
  then
    let isUrlDuplicate :=
      has existingDocSet (href d)
      || match existingUrls c with
         | Some urls => has urls (href d)
         | None => false
         end in
    let isDocNameDuplicateInCase := has caseSpecificDocs (text d) in
    let isDocNameDuplicateInQueue := has currentCaseDocNames (text d) in
    negb isUrlDuplicate && negb isDocNameDuplicateInCase
    && negb isDocNameDuplicateInQueue
  else negb (has existingDocSet (href d)).

(** Lines 2522-2547: the body of the [forEach]. *)
Definition add_link (caseSpecificDocs : gset string)
    (caseInfo : Store.caseInfo) (st : case_loop) (d : docInfo) : case_loop :=
  if shouldInclude caseSpecificDocs (currentCaseDocNames st) d
  then {| caseDocuments :=
            caseDocuments st ++ [documentData d caseInfo (uuidv4 (drawn st))];
          currentCaseDocNames := {[ text d ]} ∪ currentCaseDocNames st;
          drawn := S (drawn st) |}
  else st.

(** Lines 2510-2519. *)
Definition caseSpecificDocs_of (v : visit) : gset string :=
  if checkCaseSpecificDupes o
  then
    match existingDocumentsByCase c, existingCase v with
    | Some byCase, Some id => default ∅ (byCase !! id)
    | _, _ => ∅
    end
  else ∅.

(** Lines 2505-2547 for a case whose awaits do not throw. *)
Definition visit_case (caseInfo : Store.caseInfo) (v : visit) (drawn : nat)
  : case_loop :=
  fold_left (add_link (caseSpecificDocs_of v) caseInfo) (documentLinks v)
    {| caseDocuments := []; currentCaseDocNames := ∅; drawn := drawn |}.

(** Lines 2503-2596: the body of the loop over the cases. *)
Definition collect_case (st : loop) (cv : Store.caseInfo * visit_outcome)
  : loop :=
  let '(caseInfo, outcome) := cv in
  match outcome with
  | VisitThrows => st
  | Visited v =>
      let cl := visit_case caseInfo v (uuids_drawn st) in
      let entry :=
        {| Queue.caseInfo := caseInfo; Queue.documents := caseDocuments cl |} in
      if 0 <? length (caseDocuments cl)
      then
        if returnSimpleArray o
        then {| globalQueue := globalQueue st ++ caseDocuments cl;
                caseBasedQueue := caseBasedQueue st;
                pushed := pushed st;
                totalDocuments := totalDocuments st;
                uuids_drawn := drawn cl |}
        else if addToWorkerQueue o
        then {| globalQueue := globalQueue st;
                caseBasedQueue := caseBasedQueue st;
                pushed := pushed st ++ [entry];
                totalDocuments := totalDocuments st + length (caseDocuments cl);
                uuids_drawn := drawn cl |}
        else {| globalQueue := globalQueue st;
                caseBasedQueue := caseBasedQueue st ++ [entry];
                pushed := pushed st;
                totalDocuments := totalDocuments st + length (caseDocuments cl);
                uuids_drawn := drawn cl |}
      else {| globalQueue := globalQueue st;
              caseBasedQueue := caseBasedQueue st;
              pushed := pushed st;
              totalDocuments := totalDocuments st;
              uuids_drawn := drawn cl |}
  end.

Definition collect (cases : list (Store.caseInfo * visit_outcome)) : loop :=
  fold_left collect_case cases
    {| globalQueue := []; caseBasedQueue := []; pushed := [];
       totalDocuments := 0; uuids_drawn := 0 |}.

(** Lines 2606-2617. *)
Definition result_of (cases : list (Store.caseInfo * visit_outcome))
    (st : loop) : build_result :=
  if addToWorkerQueue o then Void
  else if returnSimpleArray o then SimpleArray (globalQueue st)
  else if singleCase o && (length cases =? 1)
  then CaseDocuments
         (match caseBasedQueue st with
          | entry :: _ => Queue.documents entry
          | [] => []
          end)
  else CaseBased (caseBasedQueue st).

End WithEnvironment.

(** Lines 2470-2627: the crawler afterwards, the entries pushed to
    [this.caseQueue] and the value returned.  [existingDocs] is the
    option of that name ([None] when left out); [l] is what the store
    answers if the method has to ask.  The two fields of the crawler are
    read as this call left them: the model is of a call during which no
    other call of [getAllExistingDocuments] assigns them. *)
Definition buildDocumentQueue (uuidv4 : nat -> string) (o : options)
    (existingDocs : option (gset string)) (l : listing) (c : crawler)
    (cases : list (Store.caseInfo * visit_outcome))
  : crawler * list Queue.case_bundle * build_result :=
  let '(c', existingDocSet) :=
    match existingDocs with
    | Some s => (c, s)
    | None =>
        if checkCaseSpecificDupes o then getAllExistingDocuments l c
        else (c, ∅)
    end in
  let st := collect uuidv4 o existingDocSet c' cases in
  (c', pushed st, result_of o cases st).

(** Lines 2823-2829. *)
Definition buildDocumentQueueForCase (uuidv4 : nat -> string) (l : listing)
    (c : crawler) (caseInfo : Store.caseInfo) (outcome : visit_outcome)
  : crawler * list Queue.case_bundle * build_result :=
  buildDocumentQueue uuidv4
    {| checkCaseSpecificDupes := true; addToWorkerQueue := false;
       singleCase := true; useQueueLock := false;
       returnSimpleArray := false |}
    None l c [(caseInfo, outcome)].

(** Lines 2735-2743. *)
Definition buildDocumentQueueFromCases (uuidv4 : nat -> string)
    (existingDocs : option (gset string)) (l : listing) (c : crawler)
    (allCases : list (Store.caseInfo * visit_outcome))
  : crawler * list Queue.case_bundle * build_result :=
  buildDocumentQueue uuidv4
    {| checkCaseSpecificDupes := false; addToWorkerQueue := false;
       singleCase := false; useQueueLock := false;
       returnSimpleArray := true |}
    existingDocs l c allCases.

(** Lines 2694-2703. *)
Definition addCaseToQueue (uuidv4 : nat -> string)
    (existingDocs : option (gset string)) (l : listing) (c : crawler)
    (caseInfo : Store.caseInfo) (outcome : visit_outcome)
  : crawler * list Queue.case_bundle * build_result :=
  buildDocumentQueue uuidv4
    {| checkCaseSpecificDupes := true; addToWorkerQueue := true;
       singleCase := false; useQueueLock := true;
       returnSimpleArray := false |}
    existingDocs l c [(caseInfo, outcome)].

End Discovery.

(** ** buildGlobalDocumentQueue (lines 1648-1689) *)

Module GlobalQueue.
Import Discovery.

(** [{ ...docInfo, caseInfo: caseInfo, queueId: uuidv4() }] with all its
    fields: the sort of line 1682 reads [section]. *)
Record entry := {
  doc : docInfo;
  caseInfo : Store.caseInfo;
  queueId : string
}.

(** The entry as a worker reads it. *)
Definition as_document (e : entry) : Worker.queued_document :=
  documentData (doc e) (caseInfo e) (queueId e).

(** [(a.section === 'Company' && a.text.includes('DIRECT')) ? 0 : 1] *)
Definition priority (a : entry) : Z :=
  if String.eqb (section (doc a)) "Company" && Js.includes (text (doc a)) "DIRECT"
  then 0%Z else 1%Z.

Definition compare (a b : entry) : Z := (priority a - priority b)%Z.

(** [array.sort(compare)].  The sort of an array is stable, and [compare]
    orders the entries by a number each of them has, so the result does
    not depend on the algorithm; the model inserts the elements one by
    one, from the last to the first, each before the first element that
    must not precede it. *)
Fixpoint insert (compare : entry -> entry -> Z) (a : entry) (l : list entry)
  : list entry :=
  match l with
  | [] => [a]
  | b :: l' =>
      if (compare a b <=? 0)%Z then a :: b :: l'
      else b :: insert compare a l'
  end.

Definition sort (compare : entry -> entry -> Z) (l : list entry) : list entry :=
  fold_right (insert compare) [] l.

(** The variables of lines 1649-1679: the queue, the number of calls of
    [uuidv4] and [this.overallStats.totalErrors]. *)
Record loop := {
  globalQueue : list entry;
  drawn : nat;
  totalErrors : nat
}.

Section WithEnvironment.
Variable uuidv4 : nat -> string.

(** Lines 1662-1668: the entries of the links of a case. *)
Definition push_links (caseInfo : Store.caseInfo) (documentLinks : list docInfo)
    (st : loop) : loop :=
  fold_left
    (fun st d =>
       {| globalQueue :=
            globalQueue st
              ++ [ {| doc := d; caseInfo := caseInfo;
                      queueId := uuidv4 (drawn st) |} ];
          drawn := S (drawn st);
          totalErrors := totalErrors st |})
    documentLinks st.

(** Lines 1653-1674: the body of the loop over the cases; [None] when
    [getDocumentLinksFromCase] throws. *)
Definition visit (st : loop) (cv : Store.caseInfo * option (list docInfo))
  : loop :=
  match snd cv with
  | Some documentLinks => push_links (fst cv) documentLinks st
  | None => {| globalQueue := globalQueue st;
               drawn := drawn st;
               totalErrors := S (totalErrors st) |}
  end.

(** Lines 1648-1689, once the page is open: the queue returned and the
    errors added to [totalErrors]. *)
Definition buildGlobalDocumentQueue
    (allCases : list (Store.caseInfo * option (list docInfo)))
  : list entry * nat :=
  let st :=
    fold_left visit allCases
      {| globalQueue := []; drawn := 0; totalErrors := 0 |} in
  (sort compare (globalQueue st), totalErrors st).

End WithEnvironment.

End GlobalQueue.

(** ** generateYearBatches (lines 28-38) *)

Module Years.

(** [{ start, end, year }]; [end] is a keyword here. *)
Record batch := {
  start : string;
  end_ : string;
  year : Z
}.

(** [for (let year = endYear; year >= startYear; year--)] for integer
    years; [fuel] bounds the number of passes. *)
Fixpoint loop (fuel : nat) (year startYear : Z) (batches : list batch)
  : list batch :=
  match fuel with
  | 0 => batches
  | S fuel' =>
      if (startYear <=? year)%Z
      then loop fuel' (year - 1)%Z startYear
             (batches ++ [ {| start := pretty year +:+ "-01-01";
                              end_ := pretty year +:+ "-12-31";
                              year := year |} ])
      else batches
  end.

Definition generateYearBatches (startYear endYear : Z) : list batch :=
  loop (Z.to_nat (endYear - startYear + 1)) endYear startYear [].

End Years.

(** ** The workers of the case-based pattern
       (startParallelProcessing, lines 2745-2769; documentWorker with
       [useCaseQueue] and [checkDuplicates], lines 1767-1954) *)

Module CasePool.
Import Worker.

(** Where a worker is suspended, with its counter [documentsProcessed]:
    in the sleep of line 1775 or 1951 (or not yet in its loop); in one of
    the sleeps of [getNextCase], which it called at [startTime]; inside
    [buildDocumentQueueForCase]; in the sleep of line 1807; inside
    [checkDocumentExistsByUrl] or inside [extractDocumentText] for the
    document it took; or past its loop. *)
Inductive worker :=
| AtTop (documentsProcessed : nat)
| Fetching (documentsProcessed : nat) (startTime : Z) (position : Queue.position)
| Building (documentsProcessed : nat)
| Locking (documentsProcessed : nat)
| Checking (documentsProcessed : nat) (document : queued_document)
| Extracting (documentsProcessed : nat) (document : queued_document)
| Done.

(** The fields of the crawler and the objects the workers share;
    [currentCaseDocumentQueue] is a field of [shared]. *)
Record pool := {
  lockInUse : bool;
  workers : list worker;
  caseQueue : list Queue.case_bundle;
  discoveryComplete : bool;
  currentCaseInfo : option Store.caseInfo;
  shared : state
}.

(** The readings of [Date.now()] a stretch of code may take: at the
    start of [getNextCase] (line 2776) and at lines 2783 and 2785. *)
Record clock := {
  startTime : Z;
  now1 : Z;
  now2 : Z
}.

Definition with_worker (i : nat) (w : worker) (p : pool) : pool :=
  {| lockInUse := lockInUse p;
     workers := <[i := w]> (workers p);
     caseQueue := caseQueue p;
     discoveryComplete := discoveryComplete p;
     currentCaseInfo := currentCaseInfo p;
     shared := shared p |}.

Definition with_shared (st : state) (p : pool) : pool :=
  {| lockInUse := lockInUse p;
     workers := workers p;
     caseQueue := caseQueue p;
     discoveryComplete := discoveryComplete p;
     currentCaseInfo := currentCaseInfo p;
     shared := st |}.

Definition with_currentCaseDocumentQueue (queue : list queued_document)
    (st : state) : state :=
  {| sharedQueue := sharedQueue st;
     currentCaseDocumentQueue := queue;
     processedDocuments := processedDocuments st;
     retryQueue := retryQueue st;
     progressTracker := progressTracker st;
     pipelineFile := pipelineFile st;
     blacklistFile := blacklistFile st;
     documentsProcessed := documentsProcessed st |}.

Definition with_pipelineFile (f : Pipeline.file) (st : state) : state :=
  {| sharedQueue := sharedQueue st;
     currentCaseDocumentQueue := currentCaseDocumentQueue st;
     processedDocuments := processedDocuments st;
     retryQueue := retryQueue st;
     progressTracker := progressTracker st;
     pipelineFile := f;
     blacklistFile := blacklistFile st;
     documentsProcessed := documentsProcessed st |}.

(** One stretch of [getNextCase] for worker [i], from [position]: it
    returns a case, which the worker makes the current one before it
    calls [buildDocumentQueueForCase] (lines 1799-1800); it returns
    [null] and the worker leaves its loop (line 1796); or it sleeps. *)
Definition next_case (i n : nat) (startTime : Z) (position : Queue.position)
    (now1 now2 : Z) (p : pool) : pool :=
  match Queue.segment startTime position
          {| Queue.now1 := now1; Queue.now2 := now2;
             Queue.discoveryComplete := discoveryComplete p;
             Queue.caseQueue := caseQueue p;
             Queue.lockInUse := lockInUse p |} with
  | Queue.Return (Some nextCase) rest =>
      {| lockInUse := lockInUse p;
         workers := <[i := Building n]> (workers p);
         caseQueue := rest;
         discoveryComplete := discoveryComplete p;
         currentCaseInfo := Some (Queue.caseInfo nextCase);
         shared := shared p |}
  | Queue.Return None rest =>
      {| lockInUse := lockInUse p;
         workers := <[i := Done]> (workers p);
         caseQueue := rest;
         discoveryComplete := discoveryComplete p;
         currentCaseInfo := currentCaseInfo p;
         shared := shared p |}
  | Queue.Sleep _ position' =>
      with_worker i (Fetching n startTime position') p
  end.

(** The iterations of the loop that run without an [await]: the worker
    takes the next document of the current case, finds it in the pipeline
    file and pushes the result that says so (lines 1781-1782, 1845-1862,
    1899-1924).  The function stops at the first document that is not in
    the file, or when the queue is empty. *)
Fixpoint skip_marked (queue : list queued_document) (st : state)
  : option queued_document * list queued_document * state :=
  match queue with
  | [] => (None, [], st)
  | document :: rest =>
      if isInPipeline (pipelineFile st) document
      then skip_marked rest (handle_success document (skipped_result document) st)
      else (Some document, rest, st)
  end.

(** With a document to look up, the worker goes into
    [checkDocumentExistsByUrl] (line 1865); with no document left, it
    calls [getNextCase] (line 1792). *)
Definition go_on (i : nat) (c : clock)
    (r : option queued_document * list queued_document * state) (p : pool)
  : pool :=
  let '(document, rest, st) := r in
  let p' := with_shared (with_currentCaseDocumentQueue rest st) p in
  match document with
  | Some document =>
      with_worker i (Checking (documentsProcessed st) document) p'
  | None =>
      next_case i (documentsProcessed st) (startTime c) Queue.LoopTop
        (now1 c) (now2 c) p'
  end.

(** Worker [i] from the top of its loop (line 1767) to its next
    [await]. *)
Definition from_top (i n : nat) (c : clock) (p : pool) : pool :=
  if lockInUse p
  then with_worker i (AtTop n) p
  else
    match currentCaseInfo p with
    | Some _ =>
        go_on i c
          (skip_marked (currentCaseDocumentQueue (shared p))
             (Pool.as_seen_by n (shared p))) p
    | None =>
        next_case i n (startTime c) Queue.LoopTop (now1 c) (now2 c) p
    end.

(** Lines 1809-1813 and what follows, once the lock is free: the worker
    takes the first document of the queue, or sleeps (line 1951) when
    there is none. *)
Definition locked_take (i n : nat) (c : clock) (p : pool) : pool :=
  match currentCaseDocumentQueue (shared p) with
  | [] => with_worker i (AtTop n) p
  | document :: rest =>
      let st :=
        with_currentCaseDocumentQueue rest (Pool.as_seen_by n (shared p)) in
      if isInPipeline (pipelineFile st) document
      then
        let st' := handle_success document (skipped_result document) st in
        from_top i (documentsProcessed st') c (with_shared st' p)
      else with_worker i (Checking n document) (with_shared st p)
  end.

(** Line 1800 when [buildDocumentQueueForCase] has returned [documents],
    and lines 1806-1813. *)
Definition after_build (i n : nat) (documents : list queued_document)
    (c : clock) (p : pool) : pool :=
  let p1 := with_shared (with_currentCaseDocumentQueue documents (shared p)) p in
  if lockInUse p1
  then with_worker i (Locking n) p1
  else locked_take i n c p1.

(** What the event loop resumes.  For the workers: a sleep of the worker
    loop ends; a sleep of [getNextCase] ends; [buildDocumentQueueForCase]
    returns or throws; [checkDocumentExistsByUrl] returns;
    [extractDocumentText] returns.  For the discovery that runs beside
    them: it pushes a case (lines 2561-2570), it ends (line 1635), or it
    saves the pipeline file (line 1566). *)
Inductive event :=
| Wake (i : nat) (c : clock)
| Tick (i : nat) (now1 now2 : Z)
| Built (i : nat) (documents : list queued_document) (c : clock)
| BuildThrows (i : nat)
| Looked (i : nat) (lookup : lookup_outcome) (c : clock)
| Extracted (i : nat) (extraction : option document_result) (c : clock)
| Discovered (bundle : Queue.case_bundle)
| DiscoveryDone
| Saved (ts : string) (discoveredCases : list Store.caseInfo).

(** One stretch of code.  An event for a worker that is not suspended
    there changes nothing. *)
Definition step (p : pool) (e : event) : pool :=
  match e with
  | Wake i c =>
      match workers p !! i with
      | Some (AtTop n) => from_top i n c p
      | Some (Locking n) => if lockInUse p then p else locked_take i n c p
      | _ => p
      end
  | Tick i now1 now2 =>
      match workers p !! i with
      | Some (Fetching n startTime position) =>
          next_case i n startTime position now1 now2 p
      | _ => p
      end
  | Built i documents c =>
      match workers p !! i with
      | Some (Building n) => after_build i n documents c p
      | _ => p
      end
  | BuildThrows i =>
      match workers p !! i with
      | Some (Building n) => with_worker i Done p
      | _ => p
      end
  | Looked i lookup c =>
      match workers p !! i with
      | Some (Checking n document) =>
          match checkDocumentExistsByUrl lookup with
          | Uploader.Normal true =>
              let st' :=
                handle_success document (skipped_result document)
                  (Pool.as_seen_by n (shared p)) in
              from_top i (documentsProcessed st') c (with_shared st' p)
          | Uploader.Normal false => with_worker i (Extracting n document) p
          | Uploader.Throw _ => with_worker i Done p
          end
      | _ => p
      end
  | Extracted i extraction c =>
      match workers p !! i with
      | Some (Extracting n document) =>
          let st := Pool.as_seen_by n (shared p) in
          let st' :=
            match extraction with
            | Some result => handle_success document result st
            | None => st
            end in
          from_top i (documentsProcessed st') c (with_shared st' p)
      | _ => p
      end
  | Discovered bundle =>
      if lockInUse p then p
      else {| lockInUse := lockInUse p;
              workers := workers p;
              caseQueue := caseQueue p ++ [bundle];
              discoveryComplete := discoveryComplete p;
              currentCaseInfo := currentCaseInfo p;
              shared := shared p |}
  | DiscoveryDone =>
      {| lockInUse := lockInUse p;
         workers := workers p;
         caseQueue := caseQueue p;
         discoveryComplete := true;
         currentCaseInfo := currentCaseInfo p;
         shared := shared p |}
  | Saved ts discoveredCases =>
      with_shared
        (with_pipelineFile
           (Pipeline.savePipeline ts discoveredCases (pipelineFile (shared p)))
           (shared p)) p
  end.

Definition run (events : list event) (p : pool) : pool :=
  fold_left step events p.

(** Lines 2745-2763: the workers before any of them has run, with the
    fields of the crawler and the two files as they are when the method
    is called. *)
Definition start (maxWorkers : nat) (caseQueue : list Queue.case_bundle)
    (discoveryComplete : bool) (currentCaseInfo : option Store.caseInfo)
    (currentCaseDocumentQueue : list queued_document)
    (pipelineFile : Pipeline.file) (blacklistFile : Retry.blacklist_file)
  : pool :=
  {| lockInUse := false;
     workers := repeat (AtTop 0) maxWorkers;
     caseQueue := caseQueue;
     discoveryComplete := discoveryComplete;
     currentCaseInfo := currentCaseInfo;
     shared :=
       {| sharedQueue := None;
          currentCaseDocumentQueue := currentCaseDocumentQueue;
          processedDocuments := [];
          retryQueue := Retry.new 3;
          progressTracker := Some Pool.new_tracker;
          pipelineFile := pipelineFile;
          blacklistFile := blacklistFile;
          documentsProcessed := 0 |} |}.

(** [Promise.all(workerPromises)] has resolved. *)
Definition all_done (p : pool) : bool :=
  forallb (fun w => match w with Done => true | _ => false end) (workers p).

End CasePool.

(** ** EmbeddingService (services/embeddings.js) *)

Module Embeddings.
Import Js.

(** [this.tokenUsage] *)
Record tokenUsage := {
  requests : Z;
  tokens : Z;
  windowStart : Z
}.

Record EmbeddingService := {
  requestsPerMinute : Z;
  tokensPerMinute : Z;
  usage : tokenUsage
}.

(** The constructor (lines 12-29); [now] is [Date.now()]. *)
Definition new (now : Z) : EmbeddingService :=
  {| requestsPerMinute := 2800;
     tokensPerMinute := 950000;
     usage := {| requests := 0; tokens := 0; windowStart := now |} |}.

(** [Math.ceil(text.length / 4)] (lines 292-294). *)
Definition estimateTokens (t : text) : Z := ((Z.of_nat (length t) + 3) / 4)%Z.

Definition windowDuration : Z := 60000.

Definition with_usage (s : EmbeddingService) (u : tokenUsage) : EmbeddingService :=
  {| requestsPerMinute := requestsPerMinute s;
     tokensPerMinute := tokensPerMinute s;
     usage := u |}.

(** Lines 296-322, for a call that no other call overlaps.  [now] is
    the reading of the clock at line 297 and [later] the reading at
    line 317, after the wait.  The second component is the time waited,
    if the call waits. *)
Definition enforceRateLimit (estimatedTokens : Z) (now later : Z)
    (s : EmbeddingService) : EmbeddingService * option Z :=
  let u1 :=
    if (windowDuration <=? now - windowStart (usage s))%Z
    then {| requests := 0; tokens := 0; windowStart := now |}
    else usage s in
  let wouldExceedRequests := (requestsPerMinute s <=? requests u1)%Z in
  let wouldExceedTokens :=
    (tokensPerMinute s <=? tokens u1 + estimatedTokens)%Z in
  let '(u2, waited) :=
    if wouldExceedRequests || wouldExceedTokens
    then
      let waitTime := (windowDuration - (now - windowStart u1))%Z in
      if (0 <? waitTime)%Z
      then ({| requests := 0; tokens := 0; windowStart := later |},
            Some waitTime)
      else (u1, None)
    else (u1, None) in
  (with_usage s {| requests := (requests u2 + 1)%Z;
                   tokens := tokens u2;
                   windowStart := windowStart u2 |},
   waited).

(** Lines 324-326. *)
Definition updateTokenUsage (actualTokens : Z) (s : EmbeddingService)
  : EmbeddingService :=
  with_usage s {| requests := requests (usage s);
                  tokens := (tokens (usage s) + actualTokens)%Z;
                  windowStart := windowStart (usage s) |}.

Section WithVectors.
(** The vectors the embedding API returns. *)
Variable vector : Type.

(** What lines 47-76 meet: a reply with its vectors and its token count,
    or a failure ([fetch] throws, or the status is not ok). *)
Inductive response :=
| Replied (embeddings : list vector) (total_tokens : Z)
| Failed (msg : string).

(** [!t || t.trim().length === 0] *)
Definition empty_text (t : text) : bool :=
  negb (truthy t) || (length (trim t) =? 0).

(** Lines 31-77 for an array of strings; the value is the field
    [embeddings] of the result. *)
Definition generateEmbeddings (textArray : list text) (now later : Z)
    (r : response) (s : EmbeddingService)
  : EmbeddingService * Uploader.completion (list vector) :=
  if (length textArray =? 0) || existsb empty_text textArray
  then (s, Uploader.Throw "All texts must be non-empty")
  else if 2048 <? length textArray
  then (s, Uploader.Throw "Maximum 2048 texts per request")
  else
    let totalTokens :=
      fold_left (fun sum t => (sum + estimateTokens t)%Z) textArray 0%Z in
    let s1 := fst (enforceRateLimit totalTokens now later s) in
    match r with
    | Failed msg => (s1, Uploader.Throw msg)
    | Replied embeddings total_tokens =>
        (updateTokenUsage total_tokens s1, Uploader.Normal embeddings)
    end.

(** A row of [document_chunks] as line 135 selects it; [content] is
    [None] when the column is [null]. *)
Record chunk_row := {
  id : nat;
  content : option text
}.

(** [chunk.content && chunk.content.trim().length > 0] (line 171). *)
Definition has_content (chunk : chunk_row) : bool :=
  match content chunk with
  | Some c => truthy c && (0 <? length (trim c))
  | None => false
  end.

(** What the [await] of lines 184-187 does: the store accepts the
    update, answers with an error, or the [await] throws. *)
Inductive update_outcome := Updated | UpdateError | UpdateThrows.

(** What one pass through lines 169-202 meets: the two readings of the
    clock, the reply of the API, and what the store does with the update
    of the chunk with a given id. *)
Record batch_world := {
  now : Z;
  later : Z;
  reply : response;
  update : nat -> update_outcome
}.

(** [processed], the updates the store has accepted, in order, and the
    service. *)
Record backfill := {
  processed : nat;
  written : list (nat * option vector);
  service : EmbeddingService
}.

(** Lines 180-195, from index [j] on; [chunks] are the chunks from that
    index on.  An update that throws ends the loop: the exception goes
    to the [catch] clause of line 200. *)
Fixpoint update_from (j : nat) (chunks : list chunk_row)
    (embeddings : list vector) (update : nat -> update_outcome)
    (st : backfill) : backfill :=
  match chunks with
  | [] => st
  | chunk :: rest =>
      match update (id chunk) with
      | Updated =>
          update_from (S j) rest embeddings update
            {| processed := S (processed st);
               written := written st ++ [(id chunk, embeddings !! j)];
               service := service st |}
      | UpdateError => update_from (S j) rest embeddings update st
      | UpdateThrows => st
      end
  end.

Definition update_chunks (validChunks : list chunk_row)
    (embeddings : list vector) (update : nat -> update_outcome)
    (st : backfill) : backfill :=
  update_from 0 validChunks embeddings update st.

(** Lines 163-202: one pass of the inner loop.  The texts are the
    contents of the chunks kept by the filter, none of which is
    [null]. *)
Definition process_dbBatch (dbBatch : list chunk_row) (bw : batch_world)
    (st : backfill) : backfill :=
  let validChunks := List.filter has_content dbBatch in
  if length validChunks =? 0
  then st
  else
    let texts := omap content validChunks in
    match generateEmbeddings texts (now bw) (later bw) (reply bw) (service st) with
    | (s1, Uploader.Normal embeddings) =>
        update_chunks validChunks embeddings (update bw)
          {| processed := processed st; written := written st; service := s1 |}
    | (s1, Uploader.Throw _) =>
        {| processed := processed st; written := written st; service := s1 |}
    end.

Definition dbUpdateBatchSize : nat := 200.
Definition batchSize : nat := 500.

(** The loop of line 162 from index [i] on; [worlds i] is what the pass
    for index [i] meets.  [fuel] bounds the number of passes, and
    [length chunks] is always enough. *)
Fixpoint db_batches (fuel i : nat) (chunks : list chunk_row)
    (worlds : nat -> batch_world) (st : backfill) : backfill :=
  match fuel with
  | 0 => st
  | S fuel' =>
      if i <? length chunks
      then db_batches fuel' (i + dbUpdateBatchSize) chunks worlds
             (process_dbBatch (take dbUpdateBatchSize (drop i chunks))
                (worlds i) st)
      else st
  end.

(** What line 143 does: it resolves to rows (or to [data: null]) or to
    an error, or it throws. *)
Inductive fetch :=
| Fetched (chunks : option (list chunk_row))
| FetchFails (msg : string)
| FetchThrows (msg : string).

(** A round of the outer loop: the fetch, and what the passes of the
    inner loop meet afterwards. *)
Record round := {
  fetched : fetch;
  worlds : nat -> batch_world
}.

(** The loop of lines 130-212 over the rounds given; the result is
    [None] when the loop is still running after them. *)
Fixpoint backfill_loop (rounds : list round) (st : backfill)
  : backfill * option (Uploader.completion nat) :=
  match rounds with
  | [] => (st, None)
  | r :: rounds' =>
      match fetched r with
      | FetchFails msg =>
          (st, Some (Uploader.Throw ("Failed to fetch chunk batch: " ++ msg)))
      | FetchThrows msg => (st, Some (Uploader.Throw msg))
      | Fetched None => (st, Some (Uploader.Normal (processed st)))
      | Fetched (Some chunks) =>
          if length chunks =? 0
          then (st, Some (Uploader.Normal (processed st)))
          else
            let st' := db_batches (length chunks) 0 chunks (worlds r) st in
            if length chunks <? batchSize
            then (st', Some (Uploader.Normal (processed st')))
            else backfill_loop rounds' st'
      end
  end.

(** Lines 117-224; the value is the field [processed] of the result. *)
Definition backfillChunkEmbeddings (rounds : list round) (s : EmbeddingService)
  : backfill * option (Uploader.completion nat) :=
  backfill_loop rounds {| processed := 0; written := []; service := s |}.

End WithVectors.

Arguments Replied {vector} _ _.
Arguments Failed {vector} _.
Arguments generateEmbeddings {vector} _ _ _ _ _.
Arguments now {vector} _.
Arguments later {vector} _.
Arguments reply {vector} _.
Arguments update {vector} _ _.
Arguments update_from {vector} _ _ _ _ _.
Arguments processed {vector} _.
Arguments written {vector} _.
Arguments service {vector} _.
Arguments update_chunks {vector} _ _ _ _.
Arguments process_dbBatch {vector} _ _ _.
Arguments db_batches {vector} _ _ _ _ _.
Arguments fetched {vector} _.
Arguments worlds {vector} _ _.
Arguments backfill_loop {vector} _ _.
Arguments backfillChunkEmbeddings {vector} _ _.

End Embeddings.

(* ===================================================================== *)
(** * Part II: predicates used in the statements                          *)
(* ===================================================================== *)

Module Props.
Import Js.

(** A word: a non-empty run of code units none of which is white
    space. *)
Definition nonspace (w : text) : Prop := Forall (fun c => is_space c = false) w.
Definition word (w : text) : Prop := w <> [] /\ nonspace w.

(** The number of words [createChunks] carries over: [Math.floor(200/10)]. *)
Definition overlap_words : nat := Config.CHUNK_OVERLAP / 10.

(** The overlap text of a chunk: its last [overlap_words] words, joined
    by single spaces. *)
Definition overlap_of (previous : text) : text :=
  join (slice_last overlap_words (split_ws previous)).

(** [next] starts with the overlap text of [previous], which is a
    non-empty tail of [previous], followed by a space. *)
Definition seeded_from (previous next : text) : Prop :=
  overlap_of previous <> []
  /\ overlap_of previous `suffix_of` previous
  /\ (overlap_of previous ++ [space]) `prefix_of` next.

(** Every element of [l] with its successor. *)
Fixpoint adjacent {A} (R : A -> A -> Prop) (l : list A) : Prop :=
  match l with
  | a :: (b :: _) as tl => R a b /\ adjacent R tl
  | _ => True
  end.

(** The first buffer of a run holds at most [CHUNK_SIZE] code units or
    is one word of the text. *)
Definition first_ok (words : list text) (x : text) : Prop :=
  length x <= Config.CHUNK_SIZE \/ In x words.

(** A later buffer starts with the overlap of the chunk before it: it is
    the seed a split left, made of that overlap and the word [w] that did
    not fit, followed by the words appended since.  It holds at most
    [CHUNK_SIZE] code units unless it is the bare seed. *)
Definition linked (words : list text) (p x : text) : Prop :=
  seeded_from p x
  /\ exists w rest, In w words /\ x = Chunker.seed p w ++ rest
                    /\ (length x <= Config.CHUNK_SIZE \/ rest = []).

Definition has_nonspace (t : text) : Prop :=
  exists c, In c t /\ is_space c = false.

Definition starts_nonspace (t : text) : Prop :=
  exists c rest, t = c :: rest /\ is_space c = false.

(** No piece, or one empty piece: what a split has before and after its
    words. *)
Definition edge (l : list text) : Prop := l = [] \/ l = [[]].

(** *** Invariants of the loop of [createChunks] *)

(** The buffer with the next word appended (line 305). *)
Definition testChunk (st : Chunker.loop_state) (w : text) : text :=
  Chunker.currentChunk st
    ++ (if truthy (Chunker.currentChunk st) then [space] else []) ++ w.

(** The contents emitted so far, then the buffer. *)
Definition buffers (st : Chunker.loop_state) : list text :=
  map Chunker.content (Chunker.chunks st) ++ [Chunker.currentChunk st].

Record loop_inv (words : list text) (st : Chunker.loop_state) : Prop := {
  inv_indices :
    map Chunker.chunk_index (Chunker.chunks st)
    = seq 0 (length (Chunker.chunks st));
  inv_next_index : Chunker.chunkIndex st = length (Chunker.chunks st);
  inv_lengths :
    Forall (fun c => Chunker.content_length c = length (Chunker.content c))
           (Chunker.chunks st);
  inv_first : forall x, head (buffers st) = Some x -> first_ok words x;
  inv_adjacent : adjacent (linked words) (buffers st)
}.

(** The buffer is a list of words, none longer than [L], joined by single
    spaces. *)
Definition buffer_of_words (L : nat) (st : Chunker.loop_state) : Prop :=
  exists ws, Chunker.currentChunk st = join ws
             /\ Forall word ws
             /\ Forall (fun w => length w <= L) ws.

(** What a split can leave behind when no word is longer than [L]. *)
Definition seed_bound (L : nat) : nat := (overlap_words + 1) * (L + 1) - 1.

Definition bounded (L : nat) (st : Chunker.loop_state) : Prop :=
  Forall (fun x => length x <= Nat.max Config.CHUNK_SIZE (seed_bound L))
         (buffers st).

(** Something has been emitted, or the buffer will be. *)
Definition started (st : Chunker.loop_state) : Prop :=
  Chunker.chunks st <> [] \/ starts_nonspace (Chunker.currentChunk st).

End Props.

(** ** The store and the calls of the uploader *)

Module StoreProps.
Import Store Uploader.

(** The rows of a case number, of a document URL. *)
Definition case_rows (cn : string) (d : db) : list case_row :=
  List.filter (fun r => String.eqb (case_number r) cn) (cases d).
Definition case_ids (cn : string) (d : db) : list nat :=
  map case_id (case_rows cn d).
Definition document_rows (url : string) (d : db) : list document_row :=
  List.filter (fun r => String.eqb (document_url r) url) (documents d).

(** What the store keeps true: one row per case number (the index
    [unique_case_number]), and what the uploader keeps true when its
    calls follow one another: one row per document URL. *)
Definition unique_cases (d : db) : Prop :=
  forall cn, length (case_rows cn d) <= 1.
Definition unique_urls (d : db) : Prop :=
  forall url, length (document_rows url d) <= 1.
Definition store_ok (d : db) : Prop := unique_cases d /\ unique_urls d.

(** The store with one more case, one more document. *)
Definition with_case (ci : caseInfo) (d : db) : db :=
  {| cases := cases d ++ [ {| case_id := next_id d; case_fields := ci |} ];
     documents := documents d;
     document_chunks := document_chunks d;
     next_id := S (next_id d);
     chunk_answers := chunk_answers d |}.

Definition with_document (row : document_insert) (d : db) : db :=
  {| cases := cases d;
     documents := documents d ++ [ {| doc_id := next_id d; doc_fields := row |} ];
     document_chunks := document_chunks d;
     next_id := S (next_id d);
     chunk_answers := chunk_answers d |}.

(** The chunks of a payload (lines 397-407), for the ids the store
    hands out. *)
Definition chunks_for (uuidv4 clock : nat -> string) (dd : documentData)
    (docId caseId : nat) : list Chunker.chunk :=
  Chunker.createChunks uuidv4 clock docId caseId
    {| Chunker.md_caseNumber := caseNumber (dd_caseInfo dd);
       Chunker.md_company := company (dd_caseInfo dd);
       Chunker.md_witnessName := dd_witnessName dd;
       Chunker.md_documentType := dd_documentType dd |}
    (dd_extractedText dd).

(** A request with its answer, and the calls a program makes when the
    answers are the given ones. *)
Inductive exchange : Type :=
| Exchange {X : Type} (e : request X) (x : X).

Inductive leads {R : Type} : prog R -> list exchange -> prog R -> Prop :=
| leads_nil p : leads p [] p
| leads_cons {X} (e : request X) (k : X -> prog R) (x : X) tr q :
    leads (k x) tr q -> leads (Vis e k) (Exchange e x :: tr) q.

(** *** The points of [ensureCaseExists] a call can be suspended at *)

Inductive point :=
| AtStart
| CacheMissed
| LookupMissed
| Duplicated (err : pg_error)
| Caching (id : nat)
| Finished (id : nat).

Definition caching (ci : caseInfo) (id : nat) : prog (completion nat) :=
  let* _ := CacheSet (caseNumber ci) id in Ret (Normal id).

Definition after_duplicate (ci : caseInfo) (err : pg_error)
  : prog (completion nat) :=
  let* raceCase := SelectCaseId (caseNumber ci) in
  match data raceCase with
  | Some id => caching ci id
  | None => Ret (Throw (create_failed ci err))
  end.

Definition after_lookup_miss (ci : caseInfo) : prog (completion nat) :=
  let* inserted := InsertCase ci in
  match error inserted with
  | Some err =>
      if is_duplicate_key err then after_duplicate ci err
      else Ret (Throw (create_failed ci err))
  | None =>
      match data inserted with
      | Some id => caching ci id
      | None => Ret (Throw "Cannot read properties of null (reading 'id')")
      end
  end.

Definition after_cache_miss (ci : caseInfo) : prog (completion nat) :=
  let* existingCase := SelectCaseId (caseNumber ci) in
  match data existingCase with
  | Some id => caching ci id
  | None => after_lookup_miss ci
  end.

Definition prog_at (ci : caseInfo) (pt : point) : prog (completion nat) :=
  match pt with
  | AtStart => ensureCaseExists ci
  | CacheMissed => after_cache_miss ci
  | LookupMissed => after_lookup_miss ci
  | Duplicated err => after_duplicate ci err
  | Caching id => caching ci id
  | Finished id => Ret (Normal id)
  end.

(** The steps a call still has to take, at most. *)
Definition remaining (pt : point) : nat :=
  match pt with
  | AtStart => 5
  | CacheMissed => 4
  | LookupMissed => 3
  | Duplicated _ => 2
  | Caching _ => 1
  | Finished _ => 0
  end.

(** What a suspended call knows about the rows of its case number. *)
Definition point_ok (cn : string) (w : world) (pt : point) : Prop :=
  match pt with
  | Duplicated _ => exists id, case_ids cn (store w) = [id]
  | Caching id | Finished id => case_ids cn (store w) = [id]
  | _ => True
  end.

(** The cache holds the id of the row. *)
Definition world_ok (cn : string) (w : world) : Prop :=
  unique_cases (store w)
  /\ forall id, caseCache w !! cn = Some id -> case_ids cn (store w) = [id].

(** A row of the case number stays the row of the case number. *)
Definition stable (cn : string) (w w' : world) : Prop :=
  forall id, case_ids cn (store w) = [id] -> case_ids cn (store w') = [id].

Definition config_ok (ci1 ci2 : caseInfo) (c : config (completion nat))
    (pt1 pt2 : point) : Prop :=
  world_ok (caseNumber ci1) (shared c)
  /\ first c = prog_at ci1 pt1
  /\ second c = prog_at ci2 pt2
  /\ point_ok (caseNumber ci1) (shared c) pt1
  /\ point_ok (caseNumber ci1) (shared c) pt2.

(** How often a schedule runs the first call, the second call. *)
Definition turns (b : bool) (sched : list bool) : nat :=
  length (List.filter (Bool.eqb b) sched).

End StoreProps.

(** ** The situations [getNextCase] tells apart *)

Module QueueProps.
Import Queue.

(** The test of line 2783 sends the method to its [return null]: at the
    top of the loop, more than the adaptive timeout has passed (and the
    second reading of the clock is not below two minutes while discovery
    is running). *)
Definition timed_out (startTime : Z) (p : position) (o : observation) : Prop :=
  p = LoopTop
  /\ (adaptive_timeout o < elapsed startTime o)%Z
  /\ ~ (discoveryComplete o = false
        /\ (now2 o - startTime < extendedWaitTime)%Z).

(** The method gets to the lock: it was waiting for it, or the timeout
    has not passed. *)
Definition reaches_lock (startTime : Z) (p : position) (o : observation) : Prop :=
  p = LockWait \/ (elapsed startTime o <= adaptive_timeout o)%Z.

(** The queue is found empty after discovery has completed. *)
Definition drained (startTime : Z) (p : position) (o : observation) : Prop :=
  reaches_lock startTime p o
  /\ lockInUse o = false
  /\ caseQueue o = []
  /\ discoveryComplete o = true.

End QueueProps.

(** ** The tracker and the results *)

Module TrackerProps.
Import Worker.

(** A result the worker counts as a skipped duplicate, as a new
    document. *)
Definition counted_skipped (r : document_result) : bool :=
  skipped r || duplicate r.
Definition counted_new (r : document_result) : bool :=
  negb (skipped r || duplicate r) && success r.

(** The counters of the tracker, when there is one, are those of the
    results. *)
Definition tracker_agrees (st : state) : Prop :=
  forall t, progressTracker st = Some t ->
    completed t = length (processedDocuments st)
    /\ skippedDuplicates t
       = length (List.filter counted_skipped (processedDocuments st))
    /\ actualNewDocuments t
       = length (List.filter counted_new (processedDocuments st)).

End TrackerProps.

(** ** The pool of the shared queue pattern *)

Module PoolProps.
Import Worker Pool.

(** The documents that wait in the queue, and those a worker holds. *)
Definition queue_of (st : state) : list queued_document :=
  match sharedQueue st with Some queue => queue | None => [] end.

Definition held (w : worker) : list queued_document :=
  match w with Extracting _ document => [document] | _ => [] end.

Definition in_flight (p : pool) : list queued_document :=
  concat (map held (workers p)).

Definition errors_counted (st : state) : nat :=
  match progressTracker st with Some t => errors t | None => 0 end.

(** Every document of the queue the pool started with is in one place:
    it has a result, it was counted as an error, it waits in the queue
    or a worker holds it. *)
Definition accounted (total : nat) (p : pool) : Prop :=
  length (processedDocuments (shared p)) + errors_counted (shared p)
  + length (queue_of (shared p)) + length (in_flight p) = total.

(** The tracker counts one completion for every result. *)
Definition completions_counted (st : state) : Prop :=
  exists t, progressTracker st = Some t
            /\ completed t = length (processedDocuments st).

(** An event is enabled when the worker it is for is suspended where the
    event resumes it (and, for a worker that goes to the queue, the lock
    is free). *)
Definition enabled (p : pool) (e : event) : bool :=
  match e with
  | Started i =>
      match workers p !! i with
      | Some Starting => negb (lockInUse p)
      | _ => false
      end
  | PageFails i | LaunchFails i =>
      match workers p !! i with
      | Some Starting => true
      | _ => false
      end
  | Wake i =>
      match workers p !! i with
      | Some (Waiting _) => negb (lockInUse p)
      | _ => false
      end
  | Extracted i _ _ _ _ _ =>
      match workers p !! i with
      | Some (Extracting _ _) => true
      | _ => false
      end
  end.

(** The enabled events of a run. *)
Fixpoint enabled_steps (events : list event) (p : pool) : nat :=
  match events with
  | [] => 0
  | e :: events' =>
      (if enabled p e then 1 else 0) + enabled_steps events' (step p e)
  end.

(** The attempts a document may still cost, and the stretches of code a
    worker still has to run for what it holds. *)
Definition weight (q : Retry.SmartRetryQueue) (document : queued_document)
  : nat :=
  S (Retry.maxRetries q - Retry.attemptNumber q (queueId document)).

Definition worker_weight (q : Retry.SmartRetryQueue) (w : worker) : nat :=
  match w with
  | Starting | Waiting _ => 2
  | Extracting _ document => S (weight q document)
  | Done | Failed => 0
  end.

Definition potential (p : pool) : nat :=
  sum_list_with (weight (retryQueue (shared p))) (queue_of (shared p))
  + sum_list_with (worker_weight (retryQueue (shared p))) (workers p).

(** What holds of the pool whenever the event loop is between two
    stretches of code. *)
Definition pool_ok (total : nat) (p : pool) : Prop :=
  lockInUse p = false
  /\ is_Some (sharedQueue (shared p))
  /\ completions_counted (shared p)
  /\ accounted total p
  /\ Retry.maxRetries (retryQueue (shared p)) = 3.

(** The event lets a worker into its loop; some event of the run did. *)
Definition enters (p : pool) (e : event) : bool :=
  match e with
  | Started i =>
      match workers p !! i with
      | Some Starting => true
      | _ => false
      end
  | _ => false
  end.

Fixpoint entered (events : list event) (p : pool) : bool :=
  match events with
  | [] => false
  | e :: events' => enters p e || entered events' (step p e)
  end.



(** Every [puppeteer.launch()] of the run resolves. *)
Definition launched (events : list event) : bool :=
  forallb (fun e => match e with LaunchFails _ => false | _ => true end)
    events.

End PoolProps.

(** ** Rows of a document name *)

Module LookupProps.
Import Store StoreProps.

(** The rows of a document name in a case. *)
Definition name_rows (caseId : nat) (documentName : string) (d : db)
  : list document_row :=
  List.filter
    (fun r => Nat.eqb (doc_case_id r) caseId
              && String.eqb (document_name r) documentName)
    (documents d).

(** What the index [unique_document_per_case] keeps true. *)
Definition unique_names (d : db) : Prop :=
  forall caseId documentName, length (name_rows caseId documentName d) <= 1.

End LookupProps.

(** ** The row of a payload *)

Module UploadProps.
Import Store Uploader.

(** The object [uploadDocument] passes to the insert of lines 377-389,
    for the case id it got from [ensureCaseExists]. *)
Definition inserted_row (extracted_at : string) (dd : documentData)
    (caseId : nat) : document_insert :=
  {| ins_case_id := caseId;
     ins_document_name := dd_documentName dd;
     ins_document_type := dd_documentType dd;
     ins_document_url := dd_documentUrl dd;
     ins_witness_name := dd_witnessName dd;
     ins_extraction_status := "completed";
     ins_extracted_at := extracted_at |}.

End UploadProps.

(** ** Chunks as windows over the words of a text *)

Module WindowProps.
Import Js Props.

(** A text made of the words [ws], in this order, with one space between
    two words and nothing around them. *)
Definition clean (ws : list text) (t : text) : Prop :=
  Forall word ws /\ ws <> [] /\ t = join ws.

(** The words of index [a] to [b - 1], joined by single spaces. *)
Definition window (ws : list text) (ab : nat * nat) : text :=
  join (drop (fst ab) (take (snd ab) ws)).

(** Two successive windows: the next one starts inside the previous one,
    not before it, takes over its last [overlap_words] words (all of
    them, when it has fewer) and ends after it. *)
Definition follows (ab ab' : nat * nat) : Prop :=
  fst ab' = fst ab + (snd ab - fst ab - overlap_words)
  /\ snd ab < snd ab'.

(** Windows that tile the words [0 .. n - 1]: the first starts at the
    first word, the last ends with the last word, none is empty, and each
    one follows the one before it. *)
Definition tiles (n : nat) (bs : list (nat * nat)) : Prop :=
  (exists b, head bs = Some (0, b))
  /\ (exists a, last bs = Some (a, n))
  /\ Forall (fun ab => fst ab < snd ab <= n) bs
  /\ adjacent follows bs.

(** The windows emitted so far, then the one the buffer holds. *)
Definition windows_inv (ws : list text) (k : nat) (st : Chunker.loop_state)
    (bs : list (nat * nat)) (a : nat) : Prop :=
  map Chunker.content (Chunker.chunks st) = map (window ws) bs
  /\ Chunker.currentChunk st = window ws (a, k)
  /\ Chunker.chunkIndex st = length bs
  /\ (a < k \/ (k = 0 /\ a = 0 /\ bs = []))
  /\ (forall b, head (bs ++ [(a, k)]) = Some b -> fst b = 0)
  /\ Forall (fun ab => fst ab < snd ab <= k) bs
  /\ adjacent follows (bs ++ [(a, k)]).

(** What every chunk carries besides its content. *)
Definition stamped (uuidv4 now : nat -> string) (documentId caseId : nat)
    (md : Chunker.documentMetadata) (c : Chunker.chunk) : Prop :=
  Chunker.id c = uuidv4 (Chunker.chunk_index c)
  /\ Chunker.created_at c = now (Chunker.chunk_index c)
  /\ Chunker.document_id c = documentId
  /\ Chunker.case_id c = caseId
  /\ Chunker.case_number c = Chunker.md_caseNumber md
  /\ Chunker.company c = Chunker.md_company md
  /\ Chunker.witness_name c = Chunker.md_witnessName md
  /\ Chunker.document_type c = Chunker.md_documentType md
  /\ Chunker.content_length c = length (Chunker.content c).

End WindowProps.

(** ** Histories of the retry ledger *)

Module ExtractProps.
Import Js Extract.

(** The text of a try, when it is long enough to be taken. *)
Definition good (min_length : nat) (t : page_try) : option text :=
  match t with
  | PageText pageText =>
      if min_length <? length pageText then Some pageText else None
  | PageThrows => None
  end.

(** The text taken for a page: that of the first try, among the first
    [maxRetries + 1], which is long enough. *)
Definition first_good (min_length maxRetries : nat)
    (look : nat -> nat -> page_try) (pageNum : nat) : option text :=
  head (omap (fun k => good min_length (look pageNum k)) (seq 0 (S maxRetries))).

Definition block_of (pageNum : nat) (found : option text) : text :=
  match found with
  | Some pageText => page_block pageNum pageText
  | None => []
  end.

Definition taken (found : option text) : nat :=
  match found with
  | Some _ => 1
  | None => 0
  end.

(** The blocks of the pages 1 to [totalPages] for which a text is taken,
    in the order of the pages. *)
Definition blocks (found : nat -> option text) (totalPages : nat) : text :=
  concat (map (fun pageNum => block_of pageNum (found pageNum))
            (seq 1 totalPages)).

Definition pages_found (found : nat -> option text) (totalPages : nat) : nat :=
  length (List.filter (fun pageNum => bool_decide (is_Some (found pageNum)))
            (seq 1 totalPages)).

(** No try at any page gives more than ten code units. *)
Definition no_text (v : viewer) : Prop :=
  forall pageNum k, good 10 (look v pageNum k) = None.

(** The document [extractDocumentText] hands to the uploader for a text
    [fullText] (lines 979-986). *)
Definition handed_over (documentUrl documentName : string)
    (caseInfo : Store.caseInfo) (documentMetadata : Worker.queued_document)
    (fullText : text) : Uploader.documentData :=
  {| Uploader.dd_caseInfo := caseInfo;
     Uploader.dd_documentName := documentName;
     Uploader.dd_documentType :=
       Retry.or_unknown (Worker.documentType documentMetadata);
     Uploader.dd_documentUrl := documentUrl;
     Uploader.dd_witnessName := Worker.witnessName documentMetadata;
     Uploader.dd_extractedText := cleanExtractedText fullText |}.

End ExtractProps.

Module GlobalQueueProps.
Import Discovery GlobalQueue.

(** The links of the cases whose page could be read, each with its case,
    in the order of the cases and of the pages. *)
Definition listed (allCases : list (Store.caseInfo * option (list docInfo)))
  : list (Store.caseInfo * docInfo) :=
  concat (map (fun cv => match snd cv with
                         | Some documentLinks => map (pair (fst cv)) documentLinks
                         | None => []
                         end) allCases).

(** The cases whose page could not be read. *)
Definition unread (allCases : list (Store.caseInfo * option (list docInfo)))
  : list Store.caseInfo :=
  map fst (List.filter (fun cv => negb (bool_decide (is_Some (snd cv)))) allCases).

(** A direct testimony of the company. *)
Definition company_direct (e : entry) : bool :=
  String.eqb (section (doc e)) "Company" && Js.includes (text (doc e)) "DIRECT".

End GlobalQueueProps.

Module EmbeddingProps.
Import Js Embeddings.

(** The chunks from index [j] on, each with the vector at its own index
    of the reply. *)
Definition paired_from {vector} (j : nat) (chunks : list chunk_row)
    (embeddings : list vector) : list (nat * option vector) :=
  map (fun jc => (id (snd jc), embeddings !! fst jc))
    (zip (seq j (length chunks)) chunks).

Definition paired {vector} (validChunks : list chunk_row)
    (embeddings : list vector) : list (nat * option vector) :=
  paired_from 0 validChunks embeddings.

(** The store accepts the update of every chunk. *)
Definition all_updated (update : nat -> update_outcome)
    (chunks : list chunk_row) : Prop :=
  Forall (fun chunk => update (id chunk) = Updated) chunks.

(** The chunks of the rounds that resolve with rows. *)
Definition fetched_chunks {vector} (rounds : list (round vector))
  : list chunk_row :=
  concat (map (fun r => match fetched r with
                        | Fetched (Some chunks) => chunks
                        | _ => []
                        end) rounds).

(** What holds of [processed] and of the updates at any moment: the
    count is the number of updates, and every update is for a chunk of
    [pool] that has content. *)
Definition counted {vector} (pool : list chunk_row) (st : backfill vector)
  : Prop :=
  processed st = length (written st)
  /\ Forall (fun w => exists chunk,
               In chunk pool /\ has_content chunk = true /\ id chunk = fst w)
       (written st).

(** A round that resolves with a full page of rows. *)
Definition full {vector} (r : round vector) : Prop :=
  exists chunks, fetched r = Fetched (Some chunks)
                 /\ batchSize <= length chunks.

End EmbeddingProps.

Module PipelineProps.
Import Pipeline.

(** The string has no colon. *)
Definition no_colon (s : string) : Prop :=
  ~ In ":"%char (list_ascii_of_string s).

(** Calls of [updatePipelineAfterDocument] one after the other, each
    with a document name and a case number.  The method reads and writes
    the file synchronously, so no two calls overlap. *)
Definition apply_updates (updates : list (string * string)) (f : file) : file :=
  fold_left (fun f u => updatePipelineAfterDocument (fst u) (snd u) f) updates f.

End PipelineProps.

Module DiscoveryProps.
Import Store Discovery.

(** A row of the listing has the URL; a row of the listing has the name
    and belongs to the case with the id. *)
Definition stored_url (rows : list document_row) (url : string) : Prop :=
  exists r, In r rows /\ document_url r = url.

Definition stored_name (rows : list document_row) (id : option nat)
    (name : string) : Prop :=
  exists r, In r rows /\ id = Some (doc_case_id r) /\ document_name r = name.

(** Name and URL of a link and of a queue entry. *)
Definition link (d : docInfo) : string * string := (text d, href d).
Definition link_of (doc : Worker.queued_document) : string * string :=
  (Worker.text doc, Worker.href doc).

(** The tests of lines 2527-2528: neither the URL nor the name is known. *)
Definition passes (existingDocSet : gset string) (c : crawler)
    (caseSpecificDocs : gset string) (d : docInfo) : Prop :=
  (href d ∉ existingDocSet)
  /\ (forall urls, existingUrls c = Some urls -> href d ∉ urls)
  /\ (text d ∉ caseSpecificDocs).

(** What the loop over the links of a case leaves in [caseDocuments]. *)
Record filtered (uuidv4 : nat -> string) (caseInfo : Store.caseInfo)
    (ok : docInfo -> Prop) (links : list docInfo) (first : nat)
    (docs : list Worker.queued_document) : Prop := {
  names_distinct : NoDup (map Worker.text docs);
  from_links :
    Forall (fun doc => exists d,
              In d links /\ ok d /\ link_of doc = link d
              /\ Worker.caseInfo doc = caseInfo
              /\ Worker.witnessName doc = witnessName d
              /\ Worker.documentType doc = Some (documentType d)) docs;
  in_order : (map link_of docs) `sublist_of` (map link links);
  none_missed :
    forall d, In d links -> ok d -> In (text d) (map Worker.text docs);
  fresh_ids : map Worker.queueId docs = map uuidv4 (seq first (length docs))
}.

End DiscoveryProps.

(** ** The pool of the case-based pattern *)

Module CasePoolProps.
Import Worker CasePool.

(** The documents that wait in the queue of the current case, and those
    a worker holds. *)
Definition queue_of (p : pool) : list queued_document :=
  currentCaseDocumentQueue (shared p).

Definition held (w : worker) : list queued_document :=
  match w with
  | Checking _ document | Extracting _ document => [document]
  | _ => []
  end.

Definition in_flight (p : pool) : list queued_document :=
  concat (map held (workers p)).

(** The books kept beside a run: the documents of the queues built so
    far, those that were waiting in [currentCaseDocumentQueue] when a
    worker assigned a new queue to the field (line 1800), and those whose
    extraction returned [null]. *)
Record ledger := {
  built : list queued_document;
  lost : list queued_document;
  failed : list queued_document
}.

Definition account (p : pool) (e : event) (l : ledger) : ledger :=
  match e with
  | Built i documents _ =>
      match workers p !! i with
      | Some (Building _) =>
          {| built := built l ++ documents;
             lost := lost l ++ queue_of p;
             failed := failed l |}
      | _ => l
      end
  | Extracted i None _ =>
      match workers p !! i with
      | Some (Extracting _ document) =>
          {| built := built l;
             lost := lost l;
             failed := failed l ++ [document] |}
      | _ => l
      end
  | _ => l
  end.

Fixpoint ledger_of (events : list event) (p : pool) (l : ledger) : ledger :=
  match events with
  | [] => l
  | e :: events' => ledger_of events' (step p e) (account p e l)
  end.

(** Every document built is in one place, and there is one result for
    every document that is in none of the other places. *)
Definition conserved (p : pool) (l : ledger) : Prop :=
  exists resolved,
    built l ≡ₚ resolved ++ failed l ++ queue_of p ++ in_flight p ++ lost l
    /\ length (processedDocuments (shared p)) = length resolved.

(** A worker that is inside [getNextCase] or [buildDocumentQueueForCase],
    or has left its loop; a worker that may run while no case is the
    current one. *)
Definition quiet (w : worker) : bool :=
  match w with
  | Fetching _ _ _ | Building _ | Done => true
  | _ => false
  end.

Definition idle (w : worker) : bool :=
  match w with
  | AtTop _ | Fetching _ _ _ | Done => true
  | _ => false
  end.

(** What a stretch of worker [i] that starts from the pool [p] with the
    lock free leaves behind: it gave results to the first documents of
    the queue, holds the next one or none, and left the rest. *)
Definition moves (i : nat) (p p' : pool) : Prop :=
  lockInUse p' = false
  /\ exists w' done,
       workers p' = <[i := w']> (workers p)
       /\ queue_of p = done ++ held w' ++ queue_of p'
       /\ length (processedDocuments (shared p'))
          = length (processedDocuments (shared p)) + length done
       /\ ((currentCaseInfo p = None -> queue_of p = []) ->
           (quiet w' = true -> queue_of p' = [])
           /\ (currentCaseInfo p' = None ->
               idle w' = true /\ queue_of p' = [])).

(** What the workers of this pattern leave as it was: the retry ledger
    and the blacklist file; the tracker counts no error and one
    completion for every result. *)
Definition books (blacklist : Retry.blacklist_file) (st : state) : Prop :=
  retryQueue st = Retry.new 3
  /\ blacklistFile st = blacklist
  /\ exists t, progressTracker st = Some t
               /\ errors t = 0
               /\ completed t = length (processedDocuments st).

(** A pool of one worker: no queue is built while documents wait. *)
Definition alone (p : pool) (l : ledger) : Prop :=
  lost l = []
  /\ exists w,
       workers p = [w]
       /\ (quiet w = true -> queue_of p = [])
       /\ (currentCaseInfo p = None -> idle w = true /\ queue_of p = []).

End CasePoolProps.

Module RetryProps.
Import Retry.

(** One call [recordFailure(queueId, attemptInfo)], with the time stamp
    it takes. *)
Record call := {
  call_queueId : string;
  call_info : attemptInfo;
  call_timestamp : string
}.

(** The ledger after a sequence of calls. *)
Definition recordFailures (q : SmartRetryQueue) (calls : list call)
  : SmartRetryQueue :=
  fold_left
    (fun q c =>
       fst (recordFailure q (call_queueId c) (call_info c) (call_timestamp c)))
    calls q.

(** The calls made for one queue id, in order. *)
Definition calls_of (queueId : string) (calls : list call) : list call :=
  List.filter (fun c => String.eqb (call_queueId c) queueId) calls.

Definition attempt_of (c : call) : attempt :=
  {| info := call_info c; timestamp := call_timestamp c |}.

(** The record a ledger should hold for a queue id, from the calls made
    for it: nothing without a call; otherwise every attempt in order, the
    names of the first call and the error of the last. *)
Definition ledger_entry (cs : list call) : option failure_record :=
  match cs with
  | [] => None
  | c :: _ =>
      Some {| attempts := map attempt_of cs;
              lastError :=
                match last cs with
                | Some l => error (call_info l)
                | None => ""
                end;
              rec_documentName := documentName (call_info c);
              rec_caseNumber := caseNumber (call_info c) |}
  end.

End RetryProps.

(** ** Concrete inputs *)

Module Examples.
Import Js.

Definition uuids (k : nat) : string := "00000000-0000-4000-8000-000000000000".
Definition clock (k : nat) : string := "2025-01-01T00:00:00.000Z".

Definition metadata : Chunker.documentMetadata :=
  {| Chunker.md_caseNumber := "IPC-E-24-01";
     Chunker.md_company := "Idaho Power";
     Chunker.md_witnessName := None;
     Chunker.md_documentType := "Testimony" |}.

Definition createChunks (t : text) : list Chunker.chunk :=
  Chunker.createChunks uuids clock 1 1 metadata t.

(** A text that is one space. *)
Definition blank : text := of_string " ".

Definition hello : text := of_string "hello world".

(** Twenty-one words of 74 code units each, separated by single
    spaces. *)
Definition word74 : text := repeat "x"%char 74.
Definition long_words : text := join (repeat word74 21).

(** ["a " * 1000 + "b " * 1000] *)
Definition a_then_b : text :=
  concat (repeat (of_string "a ") 1000) ++ concat (repeat (of_string "b ") 1000).

(** A case, a store without rows and a schedule that alternates between
    two calls. *)
Definition ipc_case : Store.caseInfo :=
  {| Store.caseNumber := "IPC-E-24-01";
     Store.company := "Idaho Power";
     Store.utilityType := "electric";
     Store.caseStatus := "open";
     Store.dateFiled := "2024-01-15";
     Store.description := "General rate case";
     Store.caseUrl := "https://puc.idaho.gov/case/Details/7001" |}.

Definition fresh_world : Uploader.world :=
  {| Uploader.store := Store.empty; Uploader.caseCache := ∅ |}.

Definition alternate : list bool :=
  [true; false; true; false; true; false; true; false; true; false].

Definition two_calls : Uploader.config (Uploader.completion nat) :=
  Uploader.run_schedule alternate
    {| Uploader.shared := fresh_world;
       Uploader.first := Uploader.ensureCaseExists ipc_case;
       Uploader.second := Uploader.ensureCaseExists ipc_case |}.

(** A store that holds the case and one document of it, named
    "Application", and a payload for another URL of the same case under
    the same name. *)
Definition application : Store.document_row :=
  {| Store.doc_id := 1;
     Store.doc_fields :=
       {| Store.ins_case_id := 0;
          Store.ins_document_name := "Application";
          Store.ins_document_type := "Application";
          Store.ins_document_url := "https://puc.idaho.gov/doc/1001";
          Store.ins_witness_name := None;
          Store.ins_extraction_status := "completed";
          Store.ins_extracted_at := "2024-02-01T00:00:00.000Z" |} |}.

Definition one_document : Uploader.world :=
  {| Uploader.store :=
       {| Store.cases := [ {| Store.case_id := 0; Store.case_fields := ipc_case |} ];
          Store.documents := [application];
          Store.document_chunks := [];
          Store.next_id := 2;
          Store.chunk_answers := [] |};
     Uploader.caseCache := ∅ |}.

Definition same_name : Uploader.documentData :=
  {| Uploader.dd_caseInfo := ipc_case;
     Uploader.dd_documentName := "Application";
     Uploader.dd_documentType := "Application";
     Uploader.dd_documentUrl := "https://puc.idaho.gov/doc/2002";
     Uploader.dd_witnessName := None;
     Uploader.dd_extractedText := hello |}.

Definition new_name : Uploader.documentData :=
  {| Uploader.dd_caseInfo := ipc_case;
     Uploader.dd_documentName := "Direct Testimony";
     Uploader.dd_documentType := "Testimony";
     Uploader.dd_documentUrl := "https://puc.idaho.gov/doc/2002";
     Uploader.dd_witnessName := None;
     Uploader.dd_extractedText := hello |}.

Definition upload (dd : Uploader.documentData) :=
  Uploader.uploadDocument uuids clock "2025-01-01T00:00:00.000Z" dd.

(** Two calls of [uploadDocument] in flight for one URL under two
    names: each looks the URL up before the other inserts its row.  A
    third payload for the URL. *)
Definition rebuttal : Uploader.documentData :=
  {| Uploader.dd_caseInfo := ipc_case;
     Uploader.dd_documentName := "Rebuttal Testimony";
     Uploader.dd_documentType := "Testimony";
     Uploader.dd_documentUrl := "https://puc.idaho.gov/doc/2002";
     Uploader.dd_witnessName := None;
     Uploader.dd_extractedText := hello |}.

Definition surrebuttal : Uploader.documentData :=
  {| Uploader.dd_caseInfo := ipc_case;
     Uploader.dd_documentName := "Surrebuttal Testimony";
     Uploader.dd_documentType := "Testimony";
     Uploader.dd_documentUrl := "https://puc.idaho.gov/doc/2002";
     Uploader.dd_witnessName := None;
     Uploader.dd_extractedText := hello |}.

Definition lookups_first : list bool :=
  [true; true; true; true; false; false; true; true; false; false].

Definition two_uploads : Uploader.config Uploader.upload_result :=
  Uploader.run_schedule lookups_first
    {| Uploader.shared := one_document;
       Uploader.first := upload new_name;
       Uploader.second := upload rebuttal |}.

(** A store that refuses the next batch of chunks. *)
Definition refusing (d : Store.db) : Store.db :=
  {| Store.cases := Store.cases d;
     Store.documents := Store.documents d;
     Store.document_chunks := Store.document_chunks d;
     Store.next_id := Store.next_id d;
     Store.chunk_answers :=
       [Some {| Store.code := "22001"; Store.message := "value too long" |}] |}.

(** Two calls of [uploadDocument] one after the other: the two results
    and the store at the end. *)
Definition upload_twice (dd : Uploader.documentData) (w : Uploader.world)
  : Uploader.upload_result * Uploader.upload_result * Store.db :=
  let '(w1, r1) := Uploader.run (upload dd) w in
  let '(w2, r2) := Uploader.run (upload dd) w1 in
  (r1, r2, Uploader.store w2).

(** A document that fails three times. *)
Definition no_text (worker : nat) : Retry.attemptInfo :=
  {| Retry.error := "No text extracted";
     Retry.workerId := worker;
     Retry.documentName := "Direct Testimony";
     Retry.caseNumber := "IPC-E-24-01";
     Retry.documentUrl := "https://puc.idaho.gov/doc/2002" |}.

Definition failed_once : Retry.SmartRetryQueue :=
  fst (Retry.recordFailure (Retry.new 3) "q-1" (no_text 1) "2025-01-01T00:00:01.000Z").
Definition failed_twice : Retry.SmartRetryQueue :=
  fst (Retry.recordFailure failed_once "q-1" (no_text 2) "2025-01-01T00:00:02.000Z").
Definition failed_three_times : Retry.SmartRetryQueue :=
  fst (Retry.recordFailure failed_twice "q-1" (no_text 1) "2025-01-01T00:00:03.000Z").

(** A queue entry and the state of a pool that has done nothing yet. *)
Definition testimony : Worker.queued_document :=
  {| Worker.text := "Direct Testimony";
     Worker.href := "https://puc.idaho.gov/doc/2002";
     Worker.documentType := Some "Testimony";
     Worker.witnessName := None;
     Worker.caseInfo := ipc_case;
     Worker.queueId := "q-1" |}.

Definition idle_pool (queue : option (list Worker.queued_document))
  : Worker.state :=
  {| Worker.sharedQueue := queue;
     Worker.currentCaseDocumentQueue := [];
     Worker.processedDocuments := [];
     Worker.retryQueue := Retry.new 3;
     Worker.progressTracker :=
       Some {| Worker.completed := 0; Worker.errors := 0;
               Worker.skippedDuplicates := 0; Worker.actualNewDocuments := 0 |};
     Worker.pipelineFile := None;
     Worker.blacklistFile := None;
     Worker.documentsProcessed := 0 |}.

(** Answers of the store to the duplicate lookup: no row, and a
    failure. *)
Definition not_found : Worker.lookup_outcome :=
  Worker.Resolved (Store.failed Store.no_single_row).
Definition gateway_timeout : Worker.lookup_outcome :=
  Worker.Resolved
    (Store.failed {| Store.code := "504";
                     Store.message := "upstream request timeout" |}).

(** What [getNextCase] can find. *)
Definition bundle : Queue.case_bundle :=
  {| Queue.caseInfo := ipc_case; Queue.documents := [testimony] |}.

Definition done_and_empty : Queue.observation :=
  {| Queue.now1 := 0; Queue.now2 := 0;
     Queue.discoveryComplete := true;
     Queue.caseQueue := [];
     Queue.lockInUse := false |}.

Definition late_with_work : Queue.observation :=
  {| Queue.now1 := 120001; Queue.now2 := 120001;
     Queue.discoveryComplete := false;
     Queue.caseQueue := [bundle];
     Queue.lockInUse := false |}.

(** A pipeline file with one processed document. *)
Definition marked_file : Pipeline.file :=
  Some {| Pipeline.timestamp := "2025-01-01T00:00:00.000Z";
          Pipeline.totalCases := 1;
          Pipeline.cases := [ipc_case];
          Pipeline.processedDocuments := Some ["IPC-E-24-01:Application"];
          Pipeline.status := Some "discovery_complete" |}.

(** A run that discovers one case and uploads nothing of it. *)
Definition no_files : Crawl.files :=
  {| Crawl.pipelineFile := None; Crawl.checkpointFile := false |}.

Definition discover_one (f : Crawl.files) : Crawl.files :=
  {| Crawl.pipelineFile :=
       Pipeline.savePipeline "2025-01-01T00:00:00.000Z" [ipc_case]
         (Crawl.pipelineFile f);
     Crawl.checkpointFile := Crawl.checkpointFile f |}.

(** The verification on a day on which the browser works: the store
    holds no case at all; the store answers with an error. *)
Definition empty_store : Crawl.verification_input :=
  {| Crawl.scan_trouble := None;
     Crawl.query := Crawl.Answered (Store.ok []) |}.

Definition store_down : Crawl.verification_input :=
  {| Crawl.scan_trouble := None;
     Crawl.query :=
       Crawl.Answered
         (Store.failed {| Store.code := "57P01";
                          Store.message := "terminating connection" |}) |}.

Definition filed_2010_to_2024 (ci : Store.caseInfo) : bool := true.

(** The first two chunks of [long_words]. *)
Definition no_chunk : Chunker.chunk :=
  Chunker.make_chunk uuids clock 1 1 metadata [] 0.
Definition long_first : Chunker.chunk := nth 0 (createChunks long_words) no_chunk.
Definition long_second : Chunker.chunk := nth 1 (createChunks long_words) no_chunk.

(** A pool that resumes with the marked pipeline file, and the result
    of an extraction. *)
Definition resumed_pool : Worker.state :=
  {| Worker.sharedQueue := None;
     Worker.currentCaseDocumentQueue := [];
     Worker.processedDocuments := [];
     Worker.retryQueue := Retry.new 3;
     Worker.progressTracker := Some Pool.new_tracker;
     Worker.pipelineFile := marked_file;
     Worker.blacklistFile := None;
     Worker.documentsProcessed := 0 |}.

Definition extracted : Worker.document_result :=
  {| Worker.documentName := "Direct Testimony";
     Worker.pages := 12;
     Worker.chunksCreated := Some 30;
     Worker.success := true;
     Worker.skipped := false;
     Worker.duplicate := false;
     Worker.caseNumber := None |}.

(** Two workers on a queue of two documents: the first document is
    extracted at once, the second fails three times. *)
Definition exhibit : Worker.queued_document :=
  {| Worker.text := "Exhibit 1";
     Worker.href := "https://puc.idaho.gov/doc/2003";
     Worker.documentType := Some "Exhibit";
     Worker.witnessName := None;
     Worker.caseInfo := ipc_case;
     Worker.queueId := "q-2" |}.

Definition two_workers : Pool.pool :=
  Pool.start 2 [testimony; exhibit] [] None None.

Definition fails (i : nat) : Pool.event :=
  Pool.Extracted i not_found None "2025-01-01T00:00:01.000Z"
    "2025-01-01T00:00:01.000Z" "2025-01-01T00:00:01.000Z".

Definition busy_day : list Pool.event :=
  [ Pool.Started 0; Pool.Started 1;
    Pool.Extracted 0 not_found (Some extracted) "2025-01-01T00:00:01.000Z"
      "2025-01-01T00:00:01.000Z" "2025-01-01T00:00:01.000Z";
    fails 1; fails 1; fails 1 ].

(** What the viewer hands over: the buttons of the page, then the text
    of the document over several lines. *)
Definition raw_page : text :=
  of_string "View plain text  View images
   Direct   Testimony
of  Jane Doe ".

(** A viewer that shows one scanned page, a queue entry for the URL of
    the stored document, and what the extraction returns for it. *)
Definition scanned : Extract.viewer :=
  {| Extract.opened :=
       Some {| Extract.documentType := Extract.laserfiche_image;
               Extract.pageCount := 1 |};
     Extract.frame := false;
     Extract.viewer_pages := None;
     Extract.look := fun _ _ => Extract.PageText raw_page |}.

Definition application_again : Worker.queued_document :=
  {| Worker.text := "Application";
     Worker.href := "https://puc.idaho.gov/doc/1001";
     Worker.documentType := Some "Application";
     Worker.witnessName := None;
     Worker.caseInfo := ipc_case;
     Worker.queueId := "q-3" |}.

Definition stored_again : Worker.document_result :=
  {| Worker.documentName := "Application";
     Worker.pages := 1;
     Worker.chunksCreated := Some 0;
     Worker.success := true;
     Worker.skipped := false;
     Worker.duplicate := false;
     Worker.caseNumber := None |}.

(** A second case with one document, and a moment at which no call of
    [getNextCase] has waited yet. *)
Definition avu_case : Store.caseInfo :=
  {| Store.caseNumber := "AVU-G-24-02";
     Store.company := "Avista";
     Store.utilityType := "gas";
     Store.caseStatus := "open";
     Store.dateFiled := "2024-02-01";
     Store.description := "Purchased gas cost adjustment";
     Store.caseUrl := "https://puc.idaho.gov/case/Details/7002" |}.

Definition avu_notice : Worker.queued_document :=
  {| Worker.text := "Notice of Application";
     Worker.href := "https://puc.idaho.gov/doc/3001";
     Worker.documentType := Some "Notice";
     Worker.witnessName := None;
     Worker.caseInfo := avu_case;
     Worker.queueId := "q-4" |}.

Definition avu_bundle : Queue.case_bundle :=
  {| Queue.caseInfo := avu_case; Queue.documents := [avu_notice] |}.

Definition on_time : CasePool.clock :=
  {| CasePool.startTime := 0; CasePool.now1 := 0; CasePool.now2 := 0 |}.

End Examples.

(* ===================================================================== *)
(** * Part III: theorems                                                  *)
(* ===================================================================== *)

(** ** Facts about the string primitives *)

Section JsFacts.
Import Js Props.

Lemma split_aux_app_nonspace (w : text) : forall cur s,
  nonspace w ->
  split_aux cur false (w ++ s) = split_aux (rev w ++ cur) false s.
Proof.
  induction w as [|c w IH]; intros cur s Hw; [reflexivity|].
  inversion Hw as [|? ? Hc Hw']; subst. simpl. rewrite Hc.
  rewrite IH by assumption. now rewrite <- app_assoc.
Qed.

Lemma split_aux_after_space (c : ascii) (s : text) :
  is_space c = false ->
  split_aux [] true (c :: s) = split_aux [] false (c :: s).
Proof. intros Hc. simpl. now rewrite Hc. Qed.

Lemma split_ws_word (w : text) : nonspace w -> split_ws w = [w].
Proof.
  intros Hw. unfold split_ws.
  rewrite <- (app_nil_r w) at 1.
  rewrite split_aux_app_nonspace by assumption.
  simpl. now rewrite app_nil_r, rev_involutive.
Qed.

Lemma join_cons (w : text) (ws : list text) :
  ws <> [] -> join (w :: ws) = w ++ space :: join ws.
Proof. destruct ws; [congruence | reflexivity]. Qed.

Lemma join_starts_nonspace (w : text) (ws : list text) :
  word w -> starts_nonspace (join (w :: ws)).
Proof.
  intros [Hne Hw]. destruct w as [|c w]; [congruence|].
  inversion Hw; subst.
  destruct ws; simpl; eexists _, _; split; eauto.
Qed.

(** Splitting a buffer made of words gives the words back. *)
Lemma split_join (ws : list text) :
  Forall word ws -> ws <> [] -> split_ws (join ws) = ws.
Proof.
  induction ws as [|w ws IH]; intros Hws Hne; [congruence|].
  inversion Hws as [|? ? [Hw0 Hw] Hws']; subst.
  destruct ws as [|w2 ws].
  - simpl. now apply split_ws_word.
  - rewrite join_cons by discriminate.
    assert (Hs : starts_nonspace (join (w2 :: ws))).
    { apply join_starts_nonspace. now inversion Hws'. }
    specialize (IH Hws' ltac:(discriminate)).
    remember (join (w2 :: ws)) as J eqn:HJ. clear HJ.
    unfold split_ws.
    rewrite split_aux_app_nonspace by assumption.
    destruct Hs as (c & rest & -> & Hc).
    cbn [split_aux]. change (is_space space) with true. cbv iota.
    rewrite app_nil_r, rev_involutive. f_equal.
    rewrite <- IH. unfold split_ws. cbn [split_aux]. now rewrite Hc.
Qed.

Lemma join_app (pre suf : list text) :
  pre <> [] -> suf <> [] ->
  join (pre ++ suf) = join pre ++ space :: join suf.
Proof.
  induction pre as [|w pre IH]; intros Hp Hs; [congruence|].
  destruct pre as [|w2 pre].
  - simpl app. now rewrite join_cons.
  - change ((w :: w2 :: pre) ++ suf) with (w :: ((w2 :: pre) ++ suf)).
    rewrite join_cons by discriminate.
    rewrite IH by (assumption || discriminate).
    rewrite (join_cons w (w2 :: pre)) by discriminate.
    now rewrite <- app_assoc.
Qed.

Lemma join_snoc (ws : list text) (w : text) :
  ws <> [] -> join (ws ++ [w]) = join ws ++ space :: w.
Proof. intros H. now rewrite join_app. Qed.

Lemma join_nonempty (ws : list text) :
  Forall word ws -> ws <> [] -> join ws <> [].
Proof.
  intros Hws Hne. destruct ws as [|w ws]; [congruence|].
  inversion Hws; subst.
  destruct (join_starts_nonspace w ws) as (c & r & -> & _); [assumption|discriminate].
Qed.

Lemma length_join (L : nat) (ws : list text) :
  Forall (fun w => length w <= L) ws ->
  length (join ws) + 1 <= length ws * (L + 1) + (match ws with [] => 1 | _ => 0 end).
Proof.
  induction ws as [|w ws IH]; intros H; [simpl; lia|].
  inversion H; subst. destruct ws as [|w2 ws].
  - simpl. lia.
  - rewrite join_cons by discriminate. rewrite length_app.
    specialize (IH ltac:(assumption)). simpl length in *. lia.
Qed.

Lemma slice_last_suffix {A} (n : nat) (l : list A) :
  slice_last n l `suffix_of` l.
Proof.
  unfold slice_last. destruct (n =? 0); [reflexivity|].
  apply suffix_drop.
Qed.

Lemma slice_last_length {A} (n : nat) (l : list A) :
  n <> 0 -> length (slice_last n l) <= n.
Proof.
  intros Hn. unfold slice_last.
  destruct (Nat.eqb_spec n 0); [congruence|].
  rewrite length_drop. lia.
Qed.

Lemma slice_last_nonempty {A} (n : nat) (l : list A) :
  n <> 0 -> l <> [] -> slice_last n l <> [].
Proof.
  intros Hn Hl. unfold slice_last.
  destruct (Nat.eqb_spec n 0); [congruence|].
  intros Heq. apply (f_equal length) in Heq.
  rewrite length_drop in Heq. simpl in Heq.
  destruct l; [congruence|]. simpl in Heq. lia.
Qed.

Lemma slice_last_Forall {A} (P : A -> Prop) (n : nat) (l : list A) :
  Forall P l -> Forall P (slice_last n l).
Proof.
  intros H. destruct (slice_last_suffix n l) as [k Hk].
  rewrite Hk in H. now apply Forall_app in H.
Qed.

Lemma join_suffix (suf ws : list text) :
  suf `suffix_of` ws -> join suf `suffix_of` join ws.
Proof.
  intros [pre ->]. destruct pre as [|p pre]; [reflexivity|].
  destruct suf as [|s suf].
  - simpl. apply suffix_nil.
  - rewrite join_app by discriminate.
    exists (join (p :: pre) ++ [space]). now rewrite <- app_assoc.
Qed.

(** Concatenating the pieces of a split gives the text without its
    white space. *)
Lemma concat_split_aux (s : text) : forall cur b,
  (b = true -> cur = []) ->
  concat (split_aux cur b s)
  = rev cur ++ List.filter (fun c => negb (is_space c)) s.
Proof.
  induction s as [|c s IH]; intros cur b Hb; simpl.
  - now rewrite app_nil_r.
  - destruct (is_space c) eqn:Hc; simpl.
    + destruct b; simpl; rewrite IH by reflexivity; simpl; [|reflexivity].
      now rewrite Hb.
    + rewrite IH by discriminate. simpl. now rewrite <- app_assoc.
Qed.

(** A text that is not all white space has a non-empty piece. *)
Lemma split_ws_has_word (t : text) :
  has_nonspace t -> exists w, In w (split_ws t) /\ w <> [].
Proof.
  intros (c & Hin & Hc).
  assert (Hcat : concat (split_ws t) <> []).
  { unfold split_ws. rewrite concat_split_aux by discriminate. simpl.
    intros Heq.
    assert (Hf : In c (List.filter (fun c => negb (is_space c)) t)).
    { apply filter_In. split; [assumption | now rewrite Hc]. }
    rewrite Heq in Hf. destruct Hf. }
  induction (split_ws t) as [|w l IH]; [now destruct Hcat|].
  destruct w as [|a w].
  - simpl in Hcat. destruct (IH Hcat) as (w' & ? & ?).
    exists w'. split; [now right | assumption].
  - exists (a :: w). split; [now left | discriminate].
Qed.

(** The shape of a split: words, with possibly an empty piece in front
    and an empty piece at the end. *)
Lemma split_aux_shape (s : text) : forall cur b,
  (b = true -> cur = []) -> (b = false -> word (rev cur)) ->
  exists mids tl, split_aux cur b s = mids ++ tl /\ Forall word mids /\ edge tl.
Proof.
  induction s as [|c s IH]; intros cur b Ht Hf; simpl.
  - destruct b.
    + rewrite (Ht eq_refl). exists [], [[]]. repeat split; [constructor | now right].
    + exists [rev cur], []. repeat split; [|now left].
      constructor; [now apply Hf | constructor].
  - destruct (is_space c) eqn:Hc.
    + destruct b.
      * apply IH; [reflexivity | discriminate].
      * destruct (IH [] true (fun _ => eq_refl) ltac:(discriminate)) as (mids & tl & -> & Hm & Ht').
        exists (rev cur :: mids), tl. repeat split; [|assumption].
        constructor; [now apply Hf | assumption].
    + apply IH; [discriminate|]. intros _. simpl. split.
      * intros Heq. now apply app_eq_nil in Heq as [_ Heq].
      * apply Forall_app. split.
        -- destruct b; [rewrite (Ht eq_refl); constructor | now apply Hf].
        -- now repeat constructor.
Qed.

Lemma split_ws_shape (t : text) :
  exists hd mids tl,
    split_ws t = hd ++ mids ++ tl /\ edge hd /\ Forall word mids /\ edge tl.
Proof.
  unfold split_ws. destruct t as [|c s]; simpl.
  - exists [], [], [[]]. repeat split; [now left | constructor | now right].
  - destruct (is_space c) eqn:Hc.
    + destruct (split_aux_shape s [] true (fun _ => eq_refl) ltac:(discriminate))
        as (mids & tl & -> & Hm & Ht).
      exists [[]], mids, tl. repeat split; [now right | assumption | assumption].
    + destruct (split_aux_shape s [c] false ltac:(discriminate)) as (mids & tl & -> & Hm & Ht).
      { intros _. simpl. split; [discriminate | now repeat constructor]. }
      exists [], mids, tl. repeat split; [now left | assumption | assumption].
Qed.

End JsFacts.

(** ** The chunker *)

Section AdjacentFacts.
Import Props.

Lemma adjacent_snoc {A} (R : A -> A -> Prop) (l : list A) (x : A) :
  adjacent R (l ++ [x])
  <-> adjacent R l /\ (forall p, last l = Some p -> R p x).
Proof.
  induction l as [|a l IH].
  - simpl. split; [intros _; split; [exact I | discriminate] | intros _; exact I].
  - destruct l as [|b l].
    + simpl. split.
      * intros [H _]. split; [exact I|]. now intros p [= <-].
      * intros [_ H]. split; [now apply H | exact I].
    + change (adjacent R ((a :: b :: l) ++ [x]))
        with (R a b /\ adjacent R ((b :: l) ++ [x])).
      change (adjacent R (a :: b :: l)) with (R a b /\ adjacent R (b :: l)).
      change (last (a :: b :: l)) with (last (b :: l)).
      rewrite IH. tauto.
Qed.

Lemma adjacent_app_l {A} (R : A -> A -> Prop) (l1 l2 : list A) :
  adjacent R (l1 ++ l2) -> adjacent R l1.
Proof.
  induction l1 as [|a l1 IH]; [intros _; exact I|].
  destruct l1 as [|b l1]; [intros _; exact I|].
  intros [H1 H2]. split; [assumption | now apply IH].
Qed.

Lemma adjacent_lookup {A} (R : A -> A -> Prop) (l : list A) :
  adjacent R l -> forall i a b, l !! i = Some a -> l !! S i = Some b -> R a b.
Proof.
  induction l as [|x l IH]; intros Hadj i a b Ha Hb; [discriminate|].
  destruct l as [|y l]; [destruct i; discriminate|].
  destruct Hadj as [Hxy Hadj].
  destruct i as [|i].
  - simpl in Ha, Hb. now injection Ha as <-; injection Hb as <-.
  - now apply (IH Hadj i).
Qed.

End AdjacentFacts.

Section ChunkerFacts.
Import Js Props.

Variable uuidv4 : nat -> string.
Variable clock : nat -> string.
Variables (documentId caseId : nat) (md : Chunker.documentMetadata).

Local Abbreviation make_chunk := (Chunker.make_chunk uuidv4 clock documentId caseId md).
Local Abbreviation loop_body := (Chunker.loop_body uuidv4 clock documentId caseId md).
Local Abbreviation run_loop := (Chunker.run_loop uuidv4 clock documentId caseId md).
Local Abbreviation finish := (Chunker.finish uuidv4 clock documentId caseId md).
Local Abbreviation createChunks := (Chunker.createChunks uuidv4 clock documentId caseId md).

(** The seed of a split is the overlap of the chunk just emitted, a
    space and the word that did not fit. *)
Lemma seed_unfold (cur w : text) :
  Chunker.seed cur w = (overlap_of cur ++ [space]) ++ w.
Proof. unfold Chunker.seed, overlap_of, overlap_words. now rewrite <- app_assoc. Qed.

Lemma overlap_words_pos : overlap_words <> 0.
Proof. discriminate. Qed.

Lemma overlap_of_join (ws : list text) :
  Forall word ws -> ws <> [] ->
  overlap_of (join ws) = join (slice_last overlap_words ws).
Proof. intros Hws Hne. unfold overlap_of. now rewrite split_join. Qed.

Lemma seeded_from_seed (ws : list text) (w : text) :
  Forall word ws -> ws <> [] -> seeded_from (join ws) (Chunker.seed (join ws) w).
Proof.
  intros Hws Hne. unfold seeded_from. rewrite seed_unfold.
  rewrite overlap_of_join by assumption. repeat split.
  - apply join_nonempty.
    + now apply slice_last_Forall.
    + apply slice_last_nonempty; [apply overlap_words_pos | assumption].
  - apply join_suffix, slice_last_suffix.
  - now exists w.
Qed.

Lemma seeded_from_extend (p x y : text) :
  seeded_from p x -> seeded_from p (x ++ y).
Proof.
  intros (H1 & H2 & H3). repeat split; [assumption .. |].
  now apply prefix_app_r.
Qed.

Lemma seeded_from_nonempty (p x : text) : seeded_from p x -> x <> [].
Proof.
  intros (_ & _ & [k ->]). destruct (overlap_of p); discriminate.
Qed.

Lemma seed_of_words (ws : list text) (w : text) :
  Forall word ws -> ws <> [] ->
  Chunker.seed (join ws) w = join (slice_last overlap_words ws ++ [w]).
Proof.
  intros Hws Hne. rewrite join_snoc.
  - unfold Chunker.seed. fold overlap_words.
    now rewrite split_join.
  - apply slice_last_nonempty; [apply overlap_words_pos | assumption].
Qed.

Lemma truthy_true (s : text) : truthy s = true <-> s <> [].
Proof. destruct s; simpl; split; congruence. Qed.

(** The two ways an iteration can go. *)
Lemma loop_body_cases (st : Chunker.loop_state) (w : text) :
  (Config.CHUNK_SIZE < length (testChunk st w)
   /\ Chunker.currentChunk st <> []
   /\ loop_body st w
      = {| Chunker.chunks :=
             Chunker.chunks st
               ++ [make_chunk (Chunker.currentChunk st) (Chunker.chunkIndex st)];
           Chunker.currentChunk := Chunker.seed (Chunker.currentChunk st) w;
           Chunker.chunkIndex := S (Chunker.chunkIndex st) |})
  \/ ((length (testChunk st w) <= Config.CHUNK_SIZE
       \/ Chunker.currentChunk st = [])
      /\ loop_body st w
         = {| Chunker.chunks := Chunker.chunks st;
              Chunker.currentChunk := testChunk st w;
              Chunker.chunkIndex := Chunker.chunkIndex st |}).
Proof.
  unfold Chunker.loop_body. fold (testChunk st w).
  destruct (Nat.ltb_spec Config.CHUNK_SIZE (length (testChunk st w))) as [Hlt|Hle];
    destruct (Nat.ltb_spec 0 (length (Chunker.currentChunk st))) as [Hpos|Hzero];
    simpl.
  - left. repeat split; [assumption|].
    intros Heq. rewrite Heq in Hpos. simpl in Hpos. lia.
  - right. split; [|reflexivity]. right.
    destruct (Chunker.currentChunk st); [reflexivity | simpl in Hzero; lia].
  - right. split; [now left | reflexivity].
  - right. split; [now left | reflexivity].
Qed.

Lemma testChunk_empty (st : Chunker.loop_state) (w : text) :
  Chunker.currentChunk st = [] -> testChunk st w = w.
Proof. intros H. unfold testChunk. now rewrite H. Qed.

Lemma testChunk_nonempty (st : Chunker.loop_state) (w : text) :
  Chunker.currentChunk st <> [] ->
  testChunk st w = Chunker.currentChunk st ++ space :: w.
Proof.
  intros H. unfold testChunk.
  apply truthy_true in H. now rewrite H.
Qed.

Lemma last_buffers (st : Chunker.loop_state) :
  last (buffers st) = Some (Chunker.currentChunk st).
Proof. unfold buffers. apply last_snoc. Qed.

Lemma buffer_words_nonempty (L : nat) (st : Chunker.loop_state) :
  buffer_of_words L st -> Chunker.currentChunk st <> [] ->
  exists ws, Chunker.currentChunk st = join ws /\ ws <> []
             /\ Forall word ws /\ Forall (fun w => length w <= L) ws.
Proof.
  intros (ws & Hcur & Hw & HL) Hne. exists ws. repeat split; try assumption.
  intros ->. now apply Hne.
Qed.

(** The invariant of the chunks and the buffer is kept by an iteration
    on any piece of the text, as long as the buffer was made of words. *)
Lemma loop_inv_step (words : list text) (L : nat)
    (st : Chunker.loop_state) (w : text) :
  loop_inv words st -> buffer_of_words L st -> In w words ->
  loop_inv words (loop_body st w).
Proof.
  intros [Hidx Hnext Hlen Hfirst Hadj] Hbuf Hin.
  destruct (loop_body_cases st w) as [(Hbig & Hne & ->)|(Hsmall & ->)].
  - destruct (buffer_words_nonempty L st Hbuf Hne) as (ws & Hcur & Hwsne & Hws & _).
    constructor; cbn [Chunker.chunks Chunker.currentChunk Chunker.chunkIndex].
    + rewrite map_app, length_app, Hidx. simpl. rewrite Nat.add_1_r, seq_S.
      now rewrite Hnext.
    + rewrite length_app. simpl. lia.
    + apply Forall_app. split; [assumption | now apply Forall_singleton].
    + intros x Hx. apply Hfirst. revert Hx. unfold buffers.
      cbn [Chunker.chunks Chunker.currentChunk].
      rewrite map_app. simpl map. rewrite <- app_assoc.
      change ([Chunker.currentChunk st] ++ [Chunker.seed (Chunker.currentChunk st) w])
        with ([Chunker.currentChunk st; Chunker.seed (Chunker.currentChunk st) w]).
      destruct (map Chunker.content (Chunker.chunks st)); simpl; auto.
    + unfold buffers. cbn [Chunker.chunks Chunker.currentChunk].
      rewrite map_app. simpl map. fold (buffers st).
      apply adjacent_snoc. split; [assumption|].
      intros p Hp. rewrite last_buffers in Hp. injection Hp as <-.
      split.
      * rewrite Hcur. now apply seeded_from_seed.
      * exists w, []. rewrite app_nil_r. repeat split; [assumption | now right].
  - constructor; cbn [Chunker.chunks Chunker.currentChunk Chunker.chunkIndex];
      try assumption.
    + intros x Hx. unfold buffers in Hx, Hfirst.
      cbn [Chunker.chunks Chunker.currentChunk] in Hx.
      destruct (map Chunker.content (Chunker.chunks st)) as [|c0 cs] eqn:Hcs.
      * simpl in Hx. injection Hx as <-.
        destruct Hsmall as [Hsmall|Hempty]; [now left|].
        right. now rewrite testChunk_empty.
      * apply Hfirst. exact Hx.
    + unfold buffers in *. cbn [Chunker.chunks Chunker.currentChunk].
      apply adjacent_snoc in Hadj as [Hadj Hlast].
      apply adjacent_snoc. split; [assumption|].
      intros p Hp. destruct (Hlast p Hp) as (Hseed & w0 & rest & Hw0 & Hx & _).
      pose proof (seeded_from_nonempty _ _ Hseed) as Hne.
      split.
      * rewrite testChunk_nonempty by assumption.
        now apply seeded_from_extend.
      * exists w0, (rest ++ space :: w). repeat split; [assumption | |].
        -- rewrite testChunk_nonempty by assumption.
           rewrite Hx at 1. now rewrite <- app_assoc.
        -- left. destruct Hsmall as [Hsmall|Hempty]; [assumption | congruence].
Qed.

(** A word keeps the buffer a list of words. *)
Lemma buffer_step (L : nat) (st : Chunker.loop_state) (w : text) :
  buffer_of_words L st -> word w -> length w <= L ->
  buffer_of_words L (loop_body st w).
Proof.
  intros Hbuf Hw HwL.
  destruct (loop_body_cases st w) as [(Hbig & Hne & ->)|(Hsmall & ->)];
    cbn [Chunker.currentChunk]; unfold buffer_of_words;
    cbn [Chunker.currentChunk].
  - destruct (buffer_words_nonempty L st Hbuf Hne) as (ws & Hcur & Hwsne & Hws & HL).
    exists (slice_last overlap_words ws ++ [w]). repeat split.
    + rewrite Hcur. now apply seed_of_words.
    + apply Forall_app. split; [now apply slice_last_Forall | now apply Forall_singleton].
    + apply Forall_app. split; [now apply slice_last_Forall | now apply Forall_singleton].
  - destruct Hbuf as (ws & Hcur & Hws & HL).
    exists (ws ++ [w]). repeat split.
    + destruct ws as [|w0 ws].
      * simpl in Hcur. now rewrite testChunk_empty.
      * rewrite testChunk_nonempty.
        -- rewrite Hcur. now rewrite join_snoc.
        -- rewrite Hcur. now apply join_nonempty.
    + apply Forall_app. split; [assumption | now apply Forall_singleton].
    + apply Forall_app. split; [assumption | now apply Forall_singleton].
Qed.

Lemma seed_length (L : nat) (ws : list text) (w : text) :
  Forall word ws -> ws <> [] -> Forall (fun w => length w <= L) ws ->
  length w <= L ->
  length (Chunker.seed (join ws) w) <= seed_bound L.
Proof.
  intros Hws Hne HL HwL. rewrite seed_of_words by assumption.
  set (l := slice_last overlap_words ws ++ [w]).
  assert (Hl : Forall (fun w => length w <= L) l).
  { apply Forall_app. split; [now apply slice_last_Forall | now apply Forall_singleton]. }
  assert (Hn : length l <= overlap_words + 1).
  { unfold l. rewrite length_app. cbn [length].
    pose proof (slice_last_length overlap_words ws overlap_words_pos). lia. }
  pose proof (length_join L l Hl) as Hj.
  assert (Hlne : l <> []) by (unfold l; intros H; now apply app_eq_nil in H as [_ H]).
  destruct l as [|x l']; [congruence|].
  unfold seed_bound.
  pose proof (Nat.mul_le_mono_r _ _ (L + 1) Hn). lia.
Qed.

(** Nothing grows beyond [CHUNK_SIZE] or the bound of a seed. *)
Lemma bounded_step (L : nat) (st : Chunker.loop_state) (w : text) :
  bounded L st -> buffer_of_words L st -> length w <= L ->
  bounded L (loop_body st w).
Proof.
  intros Hb Hbuf HwL. unfold bounded in *.
  destruct (loop_body_cases st w) as [(Hbig & Hne & ->)|(Hsmall & ->)];
    unfold buffers in *; cbn [Chunker.chunks Chunker.currentChunk].
  - destruct (buffer_words_nonempty L st Hbuf Hne) as (ws & Hcur & Hwsne & Hws & HL).
    rewrite map_app. simpl map. apply Forall_app. split; [assumption|].
    repeat constructor. rewrite Hcur.
    pose proof (seed_length L ws w Hws Hwsne HL HwL). lia.
  - apply Forall_app in Hb as [Hb _].
    apply Forall_app. split; [assumption|]. repeat constructor.
    destruct Hsmall as [Hsmall|Hempty]; [lia|].
    rewrite testChunk_empty by assumption.
    unfold seed_bound. pose proof overlap_words_pos. nia.
Qed.

Lemma started_step (st : Chunker.loop_state) (w : text) :
  started st -> started (loop_body st w).
Proof.
  intros Hs.
  destruct (loop_body_cases st w) as [(Hbig & Hne & ->)|(Hsmall & ->)];
    unfold started; cbn [Chunker.chunks Chunker.currentChunk].
  - left. intros H. now apply app_eq_nil in H as [_ H].
  - destruct Hs as [Hs|(c & rest & Hcur & Hc)]; [now left|].
    right. exists c, (rest ++ space :: w). split; [|assumption].
    rewrite testChunk_nonempty by (rewrite Hcur; discriminate).
    now rewrite Hcur.
Qed.

Lemma started_step_word (L : nat) (st : Chunker.loop_state) (w : text) :
  buffer_of_words L st -> word w -> started (loop_body st w).
Proof.
  intros Hbuf Hw.
  destruct (loop_body_cases st w) as [(Hbig & Hne & ->)|(Hsmall & ->)];
    unfold started; cbn [Chunker.chunks Chunker.currentChunk].
  - left. intros H. now apply app_eq_nil in H as [_ H].
  - right. destruct Hbuf as (ws & Hcur & Hws & _).
    destruct ws as [|w0 ws].
    + simpl in Hcur. rewrite testChunk_empty by assumption.
      apply (join_starts_nonspace w []). assumption.
    + inversion Hws; subst.
      destruct (join_starts_nonspace w0 ws) as (c & rest & Hj & Hc); [assumption|].
      rewrite testChunk_nonempty by (rewrite Hcur, Hj; discriminate).
      rewrite Hcur, Hj. now exists c, (rest ++ space :: w).
Qed.

Lemma run_loop_app (l1 l2 : list text) (st : Chunker.loop_state) :
  run_loop (l1 ++ l2) st = run_loop l2 (run_loop l1 st).
Proof. apply fold_left_app. Qed.

(** An empty piece in front of the words changes nothing. *)
Lemma run_loop_leading_edge (hd : list text) :
  edge hd -> run_loop hd Chunker.init = Chunker.init.
Proof. intros [-> | ->]; reflexivity. Qed.

Lemma init_inv (words : list text) (L : nat) :
  loop_inv words Chunker.init
  /\ buffer_of_words L Chunker.init
  /\ bounded L Chunker.init.
Proof.
  split; [|split].
  - constructor; [reflexivity | reflexivity | constructor | | exact I].
    intros x [= <-]. left. apply Nat.le_0_l.
  - exists []. repeat split; constructor.
  - apply Forall_singleton. apply Nat.le_0_l.
Qed.

(** The iterations over the words of the text. *)
Lemma run_loop_words (words : list text) (L : nat) (mids : list text) :
  forall st,
    Forall word mids -> Forall (fun w => In w words) mids ->
    Forall (fun w => length w <= L) mids ->
    loop_inv words st -> buffer_of_words L st -> bounded L st ->
    loop_inv words (run_loop mids st)
    /\ buffer_of_words L (run_loop mids st)
    /\ bounded L (run_loop mids st)
    /\ (mids <> [] \/ started st -> started (run_loop mids st)).
Proof.
  induction mids as [|w mids IH]; intros st Hw Hin HL Hinv Hbuf Hb.
  - simpl. split; [|split; [|split]]; try assumption.
    intros [H|H]; [congruence | assumption].
  - inversion Hw; inversion Hin; inversion HL; subst.
    change (run_loop (w :: mids) st) with (run_loop mids (loop_body st w)).
    destruct (IH (loop_body st w)) as (R1 & R2 & R3 & R4); try assumption.
    + now apply loop_inv_step with (L := L).
    + now apply buffer_step.
    + now apply bounded_step.
    + split; [|split; [|split]]; try assumption. intros _. apply R4. right.
      now apply started_step_word with (L := L).
Qed.

(** An empty piece after the words: one more iteration, on [""]. *)
Lemma run_loop_trailing_edge (words : list text) (L : nat) (tl : list text)
    (st : Chunker.loop_state) :
  edge tl -> Forall (fun w => In w words) tl ->
  loop_inv words st -> buffer_of_words L st -> bounded L st ->
  loop_inv words (run_loop tl st)
  /\ bounded L (run_loop tl st)
  /\ (started st -> started (run_loop tl st)).
Proof.
  intros [-> | ->] Hin Hinv Hbuf Hb.
  - simpl. split; [|split]; assumption || auto.
  - apply Forall_inv in Hin.
    change (run_loop [[]] st) with (loop_body st []).
    split; [|split].
    + now apply loop_inv_step with (L := L).
    + apply bounded_step; [assumption | assumption | apply Nat.le_0_l].
    + apply started_step.
Qed.

(** The state the loop of [createChunks] ends in. *)
Lemma final_state_in (words : list text) (t : text) (L : nat) :
  Forall (fun w => In w words) (split_ws t) ->
  Forall (fun w => length w <= L) (split_ws t) ->
  let st := run_loop (split_ws t) Chunker.init in
  loop_inv words st /\ bounded L st /\ (has_nonspace t -> started st).
Proof.
  intros Hin HL st. subst st.
  destruct (split_ws_shape t) as (hd & mids & tl & Hsplit & Hhd & Hmids & Htl).
  assert (Hword : has_nonspace t -> mids <> []).
  { intros Ht. destruct (split_ws_has_word t Ht) as (w & Hw & Hne).
    rewrite Hsplit in Hw. intros ->. simpl in Hw.
    apply in_app_or in Hw as [Hw|Hw].
    - destruct Hhd as [-> | ->]; simpl in Hw; intuition congruence.
    - destruct Htl as [-> | ->]; simpl in Hw; intuition congruence. }
  rewrite Hsplit in *.
  apply Forall_app in HL as [_ HL]. apply Forall_app in HL as [HLm _].
  apply Forall_app in Hin as [_ Hin]. apply Forall_app in Hin as [Hinm Hint].
  rewrite !run_loop_app, run_loop_leading_edge by assumption.
  destruct (init_inv words L) as (I1 & I2 & I3).
  destruct (run_loop_words words L mids Chunker.init Hmids Hinm HLm I1 I2 I3)
    as (M1 & M2 & M3 & M4).
  destruct (run_loop_trailing_edge words L tl _ Htl Hint M1 M2 M3)
    as (T1 & T2 & T3).
  split; [|split]; try assumption.
  intros Ht. apply T3, M4. left. now apply Hword.
Qed.

Lemma final_state (t : text) (L : nat) :
  Forall (fun w => length w <= L) (split_ws t) ->
  let st := run_loop (split_ws t) Chunker.init in
  loop_inv (split_ws t) st /\ bounded L st /\ (has_nonspace t -> started st).
Proof.
  apply final_state_in. apply List.Forall_forall. auto.
Qed.

Lemma trim_start_snoc (l : text) (c : ascii) :
  is_space c = false -> trim_start (l ++ [c]) <> [].
Proof.
  intros Hc. induction l as [|a l IH]; simpl.
  - rewrite Hc. discriminate.
  - destruct (is_space a); [assumption | discriminate].
Qed.

(** A buffer that starts with a word passes the test of line 330. *)
Lemma truthy_trim (s : text) : starts_nonspace s -> truthy (trim s) = true.
Proof.
  intros (c & rest & -> & Hc). apply truthy_true. unfold trim.
  simpl trim_start at 2. rewrite Hc. simpl rev at 2.
  intros H. apply (f_equal (@rev ascii)) in H. rewrite rev_involutive in H.
  now apply (trim_start_snoc (rev rest) c).
Qed.

(** The chunks returned are those emitted by the loop, with the buffer
    as one more chunk when it passes the test. *)
Lemma finish_cases (st : Chunker.loop_state) :
  (truthy (trim (Chunker.currentChunk st)) = true
   /\ finish st
      = Chunker.chunks st
          ++ [make_chunk (Chunker.currentChunk st) (Chunker.chunkIndex st)])
  \/ (truthy (trim (Chunker.currentChunk st)) = false
      /\ finish st = Chunker.chunks st).
Proof.
  unfold Chunker.finish.
  destruct (truthy (trim (Chunker.currentChunk st))); [left | right]; now split.
Qed.

Lemma finish_contents (st : Chunker.loop_state) :
  map Chunker.content (finish st) `prefix_of` buffers st.
Proof.
  unfold buffers.
  destruct (finish_cases st) as [(_ & ->)|(_ & ->)].
  - rewrite map_app. reflexivity.
  - now eexists.
Qed.

Lemma finish_indices (words : list text) (st : Chunker.loop_state) :
  loop_inv words st ->
  map Chunker.chunk_index (finish st) = seq 0 (length (finish st))
  /\ Forall (fun c => Chunker.content_length c = length (Chunker.content c))
            (finish st).
Proof.
  intros [Hidx Hnext Hlen _ _].
  destruct (finish_cases st) as [(_ & ->)|(_ & ->)]; [|now split].
  split.
  - rewrite map_app, length_app, Hidx. simpl. rewrite Nat.add_1_r, seq_S.
    now rewrite Hnext.
  - apply Forall_app. split; [assumption | now apply Forall_singleton].
Qed.

Lemma finish_nonempty (st : Chunker.loop_state) :
  started st -> 1 <= length (finish st).
Proof.
  intros [Hc|Hs].
  - destruct (finish_cases st) as [(_ & ->)|(_ & ->)].
    + rewrite length_app. simpl. lia.
    + destruct (Chunker.chunks st); [congruence | simpl; lia].
  - destruct (finish_cases st) as [(_ & ->)|(Hf & _)].
    + rewrite length_app. simpl. lia.
    + rewrite truthy_trim in Hf by assumption. discriminate.
Qed.

Lemma words_bounded (words : list text) :
  Forall (fun w => length w <= list_max (map length words)) words.
Proof.
  assert (H : Forall (fun k => k <= list_max (map length words)) (map length words))
    by now apply list_max_le.
  now apply Forall_map in H.
Qed.

(** Consecutive chunks of the result. *)
Lemma createChunks_linked (t : text) (i : nat) (p c : Chunker.chunk) :
  createChunks t !! i = Some p -> createChunks t !! S i = Some c ->
  linked (split_ws t) (Chunker.content p) (Chunker.content c).
Proof.
  intros Hp Hc. unfold Chunker.createChunks in *.
  destruct (final_state t _ (words_bounded (split_ws t))) as ([_ _ _ _ Hadj] & _ & _).
  destruct (finish_contents (run_loop (split_ws t) Chunker.init)) as [k Hk].
  rewrite Hk in Hadj. apply adjacent_app_l in Hadj.
  apply (adjacent_lookup _ _ Hadj i); rewrite list_lookup_fmap.
  - now rewrite Hp.
  - now rewrite Hc.
Qed.

Lemma loop_body_split (st : Chunker.loop_state) (w : text) :
  Config.CHUNK_SIZE < length (testChunk st w) ->
  Chunker.currentChunk st <> [] ->
  loop_body st w
  = {| Chunker.chunks :=
         Chunker.chunks st
           ++ [make_chunk (Chunker.currentChunk st) (Chunker.chunkIndex st)];
       Chunker.currentChunk :=
         overlap_of (Chunker.currentChunk st) ++ [space] ++ w;
       Chunker.chunkIndex := S (Chunker.chunkIndex st) |}.
Proof.
  intros Hbig Hne.
  destruct (loop_body_cases st w) as [(_ & _ & ->)|([Hsmall|Hempty] & _)];
    [reflexivity | lia | congruence].
Qed.

Lemma prefix_head {A} (l1 l2 : list A) (x : A) :
  l1 `prefix_of` l2 -> head l1 = Some x -> head l2 = Some x.
Proof. intros [k ->]. destruct l1; [discriminate | trivial]. Qed.

(** C4 (amended).  For a text with at least one code unit that is not
    white space, [createChunks] returns at least one chunk; the
    [chunk_index] values are 0, 1, ..., n-1 in this order and
    [content_length] is the length of [content].  The first chunk holds at
    most [CHUNK_SIZE] code units unless it is a single word of the text; a
    later chunk holds at most [CHUNK_SIZE] code units unless it is exactly
    the seed of the split before it (the overlap of the previous chunk, a
    space and the word that did not fit).  So no chunk exceeds
    [max CHUNK_SIZE (21 * (L + 1) - 1)] when no word is longer than [L],
    and none exceeds [CHUNK_SIZE] when no word is longer than 70. *)
Theorem createChunks_invariants (t : text) :
  has_nonspace t ->
  let result := createChunks t in
  1 <= length result
  /\ map Chunker.chunk_index result = seq 0 (length result)
  /\ Forall (fun c => Chunker.content_length c = length (Chunker.content c)) result
  /\ (forall c, head result = Some c ->
        Chunker.content_length c <= Config.CHUNK_SIZE
        \/ In (Chunker.content c) (split_ws t))
  /\ (forall i p c, result !! i = Some p -> result !! S i = Some c ->
        Chunker.content_length c <= Config.CHUNK_SIZE
        \/ exists w, In w (split_ws t)
                     /\ Chunker.content c = Chunker.seed (Chunker.content p) w)
  /\ (forall L, Forall (fun w => length w <= L) (split_ws t) ->
        Forall (fun c => Chunker.content_length c
                         <= Nat.max Config.CHUNK_SIZE (seed_bound L)) result)
  /\ (Forall (fun w => length w <= 70) (split_ws t) ->
        Forall (fun c => Chunker.content_length c <= Config.CHUNK_SIZE) result).
Proof.
  intros Ht result. subst result. unfold Chunker.createChunks.
  set (st := run_loop (split_ws t) Chunker.init).
  destruct (final_state t _ (words_bounded (split_ws t))) as (Hinv & _ & Hstart).
  fold st in Hinv, Hstart.
  destruct (finish_indices _ st Hinv) as [Hidx Hlen].
  pose proof (finish_contents st) as Hpre.
  assert (Hcl : forall c, In c (finish st) ->
                  Chunker.content_length c = length (Chunker.content c)).
  { now apply List.Forall_forall. }
  assert (Hbound : forall L, Forall (fun w => length w <= L) (split_ws t) ->
            Forall (fun c => Chunker.content_length c
                             <= Nat.max Config.CHUNK_SIZE (seed_bound L)) (finish st)).
  { intros L HL. destruct (final_state t L HL) as (_ & Hb & _). fold st in Hb.
    unfold bounded in Hb. destruct Hpre as [k Hk]. rewrite Hk in Hb.
    apply Forall_app in Hb as [Hb _]. apply Forall_map in Hb.
    apply List.Forall_forall. intros c Hc. rewrite (Hcl c Hc).
    revert c Hc. now apply List.Forall_forall. }
  split; [now apply finish_nonempty, Hstart|].
  split; [assumption|]. split; [assumption|]. split; [|split; [|split]].
  - intros c Hc.
    assert (Hin : In c (finish st)) by (destruct (finish st); [discriminate | injection Hc as ->; now left]).
    rewrite (Hcl c Hin). apply (inv_first _ _ Hinv).
    apply (prefix_head _ _ _ Hpre). destruct (finish st); [discriminate|].
    simpl in *. now injection Hc as ->.
  - intros i p c Hp Hc.
    assert (Hin : In c (finish st)).
    { apply list_elem_of_In. now apply list_elem_of_lookup_2 in Hc. }
    rewrite (Hcl c Hin).
    destruct (createChunks_linked t i p c Hp Hc)
      as (_ & w & rest & Hw & Hx & [Hle | ->]); [now left|].
    right. exists w. rewrite app_nil_r in Hx. now split.
  - exact Hbound.
  - intros H70. specialize (Hbound 70 H70).
    replace (Nat.max Config.CHUNK_SIZE (seed_bound 70)) with Config.CHUNK_SIZE
      in Hbound by (vm_compute; reflexivity).
    exact Hbound.
Qed.

(** C9.  When the next word does not fit, the buffer is emitted and the
    new buffer is the overlap of the emitted chunk (its last 20 words), a
    space and that word.  Hence each chunk after the first starts with
    the overlap of the chunk before it: a non-empty text that the
    previous chunk ends with, followed by a space and the word that
    triggered the split. *)
Theorem createChunks_overlap (t : text) (i : nat) (p c : Chunker.chunk) :
  createChunks t !! i = Some p -> createChunks t !! S i = Some c ->
  seeded_from (Chunker.content p) (Chunker.content c)
  /\ (exists w rest,
        In w (split_ws t)
        /\ Chunker.content c
           = (overlap_of (Chunker.content p) ++ [space] ++ w) ++ rest)
  /\ (forall st w,
        Config.CHUNK_SIZE < length (testChunk st w) ->
        Chunker.currentChunk st <> [] ->
        loop_body st w
        = {| Chunker.chunks :=
               Chunker.chunks st
                 ++ [make_chunk (Chunker.currentChunk st) (Chunker.chunkIndex st)];
             Chunker.currentChunk :=
               overlap_of (Chunker.currentChunk st) ++ [space] ++ w;
             Chunker.chunkIndex := S (Chunker.chunkIndex st) |}).
Proof.
  intros Hp Hc.
  destruct (createChunks_linked t i p c Hp Hc) as (Hseed & w & rest & Hw & Hx & _).
  split; [assumption|]. split; [|apply loop_body_split].
  exists w, rest. split; [assumption|]. exact Hx.
Qed.

End ChunkerFacts.

(** The claim that every non-empty text gives a chunk, and that only a
    word longer than [CHUNK_SIZE] makes a chunk longer than [CHUNK_SIZE],
    fails: a text of one space gives no chunk, and 21 words of 74 code
    units give a second chunk of 1574. *)
Lemma createChunks_counterexample :
  (Examples.blank <> [] /\ Examples.createChunks Examples.blank = [])
  /\ (Forall (fun w => length w = 74) (Js.split_ws Examples.long_words)
      /\ map Chunker.content_length (Examples.createChunks Examples.long_words)
         = [1499; 1574]
      /\ Config.CHUNK_SIZE = 1500).
Proof.
  split; [split; [discriminate | reflexivity]|].
  split; [|split; [vm_compute; reflexivity | reflexivity]].
  vm_compute. repeat constructor.
Qed.

(** ["a " * 1000 + "b " * 1000] gives three chunks. *)
Example a_then_b_chunks :
  map Chunker.content_length (Examples.createChunks Examples.a_then_b)
  = [1499; 1499; 1080].
Proof. vm_compute. reflexivity. Qed.

Lemma createChunks_invariants_witness :
  Props.has_nonspace Examples.hello
  /\ 1 <= length (Examples.createChunks Examples.hello).
Proof.
  assert (H : Props.has_nonspace Examples.hello).
  { exists "h"%char. split; [now left | reflexivity]. }
  split; [exact H|].
  exact (proj1 (createChunks_invariants Examples.uuids Examples.clock 1 1
                  Examples.metadata Examples.hello H)).
Defined.

Lemma createChunks_overlap_witness :
  Props.seeded_from (Chunker.content Examples.long_first)
                    (Chunker.content Examples.long_second).
Proof.
  refine (proj1 (createChunks_overlap Examples.uuids Examples.clock 1 1
                   Examples.metadata Examples.long_words 0
                   Examples.long_first Examples.long_second _ _));
    vm_compute; reflexivity.
Defined.

(** ** The store *)

Section StoreFacts.
Import Store Uploader StoreProps.

Lemma short_list {A} (l : list A) :
  length l <= 1 -> l = [] \/ exists r, l = [r].
Proof.
  destruct l as [|r [|r' l]]; simpl; intros H; [now left | right; now exists r | lia].
Qed.

Lemma existsb_filter {A} (f : A -> bool) (l : list A) :
  existsb f l = false <-> List.filter f l = [].
Proof.
  induction l as [|a l IH]; simpl; [tauto|].
  destruct (f a); simpl; [split; discriminate | exact IH].
Qed.

(** A lookup finds the row of a case number, if there is one. *)
Lemma select_case_id_found (cn : string) (d : db) (id : nat) :
  case_ids cn d = [id] -> select_case_id cn d = ok id.
Proof. unfold select_case_id. fold (case_rows cn d). fold (case_ids cn d). now intros ->. Qed.

Lemma select_case_id_none (cn : string) (d : db) :
  case_ids cn d = [] -> select_case_id cn d = failed no_single_row.
Proof. unfold select_case_id. fold (case_rows cn d). fold (case_ids cn d). now intros ->. Qed.

Lemma case_ids_cases (cn : string) (d : db) :
  unique_cases d -> case_ids cn d = [] \/ exists id, case_ids cn d = [id].
Proof.
  intros Hu. unfold case_ids.
  destruct (short_list _ (Hu cn)) as [-> | [r ->]]; [now left | right; now exists (case_id r)].
Qed.

(** An insert is refused when the case number has a row. *)
Lemma insert_case_refused (ci : caseInfo) (d : db) :
  case_ids (caseNumber ci) d <> [] ->
  insert_case ci d = (d, failed (unique_violation "unique_case_number")).
Proof.
  intros H. unfold insert_case.
  destruct (existsb _ (cases d)) eqn:E; [reflexivity|].
  apply existsb_filter in E. unfold case_ids, case_rows in H.
  rewrite E in H. now destruct H.
Qed.

(** Otherwise it adds the row. *)
Lemma insert_case_accepted (ci : caseInfo) (d : db) :
  case_ids (caseNumber ci) d = [] ->
  insert_case ci d = (with_case ci d, ok (next_id d)).
Proof.
  intros H. unfold insert_case.
  destruct (existsb _ (cases d)) eqn:E; [|reflexivity].
  apply not_false_iff_true in E. exfalso. apply E.
  apply existsb_filter. unfold case_ids, case_rows in H.
  now destruct (List.filter _ (cases d)).
Qed.

Lemma case_rows_with_case (cn : string) (ci : caseInfo) (d : db) :
  case_rows cn (with_case ci d)
  = case_rows cn d
      ++ (if String.eqb (caseNumber ci) cn
          then [ {| case_id := next_id d; case_fields := ci |} ] else []).
Proof. unfold case_rows, with_case. simpl. now rewrite List.filter_app. Qed.

Lemma unique_cases_with_case (ci : caseInfo) (d : db) :
  unique_cases d -> case_ids (caseNumber ci) d = [] ->
  unique_cases (with_case ci d).
Proof.
  intros Hu Hnone cn. rewrite case_rows_with_case, length_app.
  destruct (String.eqb_spec (caseNumber ci) cn) as [<-|Hne].
  - unfold case_ids in Hnone. apply map_eq_nil in Hnone. rewrite Hnone. simpl. lia.
  - specialize (Hu cn). simpl. lia.
Qed.

(** A store with at most one case and one document is as it should
    be. *)
Lemma store_ok_small (d : db) :
  length (cases d) <= 1 -> length (documents d) <= 1 -> store_ok d.
Proof.
  intros Hc Hd. split; intros k.
  - unfold case_rows. etransitivity; [apply List.filter_length_le | exact Hc].
  - unfold document_rows. etransitivity; [apply List.filter_length_le | exact Hd].
Qed.

End StoreFacts.

(** ** Two calls of [ensureCaseExists] in flight *)

Section RaceFacts.
Import Store Uploader StoreProps.

Lemma point_ok_stable (cn : string) (w w' : world) (pt : point) :
  stable cn w w' -> point_ok cn w pt -> point_ok cn w' pt.
Proof.
  intros Hs. destruct pt; simpl; auto.
  intros [id H]. exists id. auto.
Qed.

Lemma stable_refl (cn : string) (w : world) : stable cn w w.
Proof. now intros id. Qed.

(** One step of a call: where it gets, and what it keeps true. *)
Lemma step_point (cn : string) (ci : caseInfo) (w : world) (pt : point) :
  caseNumber ci = cn -> world_ok cn w -> point_ok cn w pt ->
  exists w' pt',
    step (prog_at ci pt) w = (w', prog_at ci pt')
    /\ world_ok cn w' /\ point_ok cn w' pt' /\ stable cn w w'
    /\ remaining pt' <= remaining pt - 1.
Proof.
  intros <- Hw Hpt. pose proof (proj1 Hw) as Hu. pose proof (proj2 Hw) as Hc.
  destruct pt as [| | |err|id|id].
  - (* the cache *)
    destruct (caseCache w !! caseNumber ci) as [id|] eqn:E.
    + exists w, (Finished id). cbn. rewrite E.
      split; [reflexivity|]. split; [assumption|]. split; [now apply Hc|].
      split; [apply stable_refl | lia].
    + exists w, CacheMissed. cbn. rewrite E.
      split; [reflexivity|]. split; [assumption|]. split; [exact I|].
      split; [apply stable_refl | lia].
  - (* the first lookup *)
    destruct (case_ids_cases (caseNumber ci) (store w) Hu) as [Hn | [id Hid]].
    + exists w, LookupMissed. cbn. rewrite select_case_id_none by assumption.
      split; [reflexivity|]. split; [assumption|]. split; [exact I|].
      split; [apply stable_refl | lia].
    + exists w, (Caching id). cbn.
      rewrite select_case_id_found with (id := id) by assumption.
      split; [reflexivity|]. split; [assumption|]. split; [assumption|].
      split; [apply stable_refl | lia].
  - (* the insert *)
    destruct (case_ids_cases (caseNumber ci) (store w) Hu) as [Hn | [id Hid]].
    + exists (with_store w (with_case ci (store w))), (Caching (next_id (store w))).
      cbn. rewrite insert_case_accepted by assumption. cbn.
      assert (Hnew : case_ids (caseNumber ci) (with_case ci (store w))
                     = [next_id (store w)]).
      { unfold case_ids. rewrite case_rows_with_case, String.eqb_refl.
        unfold case_ids in Hn. apply map_eq_nil in Hn. now rewrite Hn. }
      split; [reflexivity|]. split; [split|].
      * now apply unique_cases_with_case.
      * intros id Hid. apply Hc in Hid. congruence.
      * split; [exact Hnew|]. split; [|lia].
        intros id Hid. congruence.
    + exists (with_store w (store w)),
             (Duplicated (unique_violation "unique_case_number")).
      cbn. rewrite insert_case_refused by (rewrite Hid; discriminate). cbn.
      split; [reflexivity|]. split; [split; assumption|].
      split; [now exists id|]. split; [now intros id'|lia].
  - (* the lookup after a refused insert *)
    destruct Hpt as [id Hid].
    exists w, (Caching id). cbn.
    rewrite select_case_id_found with (id := id) by assumption.
    split; [reflexivity|]. split; [assumption|]. split; [assumption|].
    split; [apply stable_refl | lia].
  - (* the cache is told *)
    exists {| store := store w; caseCache := <[caseNumber ci := id]> (caseCache w) |},
           (Finished id).
    cbn. split; [reflexivity|]. split; [split; [assumption|]|].
    + cbn. intros id'. rewrite lookup_insert_eq. now intros [= <-].
    + split; [assumption|]. split; [now intros id'|lia].
  - exists w, (Finished id). cbn.
    split; [reflexivity|]. split; [assumption|]. split; [assumption|].
    split; [apply stable_refl | lia].
Qed.

Lemma schedule_step_ok (ci1 ci2 : caseInfo) (c : config (completion nat))
    (pt1 pt2 : point) (b : bool) :
  caseNumber ci2 = caseNumber ci1 ->
  config_ok ci1 ci2 c pt1 pt2 ->
  exists pt1' pt2',
    config_ok ci1 ci2 (schedule_step c b) pt1' pt2'
    /\ remaining pt1' <= remaining pt1 - (if b then 1 else 0)
    /\ remaining pt2' <= remaining pt2 - (if b then 0 else 1).
Proof.
  intros Hcn (Hw & H1 & H2 & Hp1 & Hp2). destruct b.
  - destruct (step_point _ ci1 (shared c) pt1 eq_refl Hw Hp1)
      as (w' & pt1' & Hstep & Hw' & Hp1' & Hst & Hrem).
    exists pt1', pt2. unfold schedule_step. rewrite H1, Hstep.
    split; [|split; [assumption | lia]].
    split; [assumption|]. split; [reflexivity|]. split; [assumption|].
    split; [assumption|]. now apply point_ok_stable with (w := shared c).
  - destruct (step_point _ ci2 (shared c) pt2 Hcn Hw Hp2)
      as (w' & pt2' & Hstep & Hw' & Hp2' & Hst & Hrem).
    exists pt1, pt2'. unfold schedule_step. rewrite H2, Hstep.
    split; [|split; [lia | assumption]].
    split; [assumption|]. split; [assumption|]. split; [reflexivity|].
    split; [|assumption]. now apply point_ok_stable with (w := shared c).
Qed.

Lemma turns_cons (b b' : bool) (sched : list bool) :
  turns b (b' :: sched) = (if Bool.eqb b b' then 1 else 0) + turns b sched.
Proof. unfold turns. simpl. now destruct (Bool.eqb b b'). Qed.

Lemma run_schedule_ok (ci1 ci2 : caseInfo) (sched : list bool) :
  caseNumber ci2 = caseNumber ci1 ->
  forall (c : config (completion nat)) (pt1 pt2 : point),
    config_ok ci1 ci2 c pt1 pt2 ->
    exists pt1' pt2',
      config_ok ci1 ci2 (run_schedule sched c) pt1' pt2'
      /\ remaining pt1' <= remaining pt1 - turns true sched
      /\ remaining pt2' <= remaining pt2 - turns false sched.
Proof.
  intros Hcn. induction sched as [|b sched IH]; intros c pt1 pt2 Hok.
  - exists pt1, pt2. split; [assumption|]. unfold turns. simpl. lia.
  - destruct (schedule_step_ok ci1 ci2 c pt1 pt2 b Hcn Hok)
      as (q1 & q2 & Hok' & Hr1 & Hr2).
    destruct (IH _ _ _ Hok') as (r1 & r2 & Hok'' & Hs1 & Hs2).
    exists r1, r2. split; [exact Hok''|].
    rewrite !turns_cons. destruct b; simpl; lia.
Qed.

Lemma returned_point (ci : caseInfo) (pt : point) (r : completion nat) :
  returned (prog_at ci pt) = Some r -> exists id, pt = Finished id /\ r = Normal id.
Proof.
  destruct pt; cbn; try discriminate.
  intros [= <-]. now eexists.
Qed.

Lemma finished_point (pt : point) :
  remaining pt = 0 -> exists id, pt = Finished id.
Proof. destruct pt; cbn; try discriminate. now eexists. Qed.

(** The path of lines 262-278, whatever the store is. *)
Lemma race_resolved (ci : caseInfo) (miss inserted raceCase : response nat)
    (err : pg_error) (id : nat) :
  data miss = None ->
  error inserted = Some err ->
  code err = "23505" \/ Js.includes (message err) "duplicate key" = true ->
  data raceCase = Some id ->
  leads (ensureCaseExists ci)
    [ Exchange (CacheGet (caseNumber ci)) None;
      Exchange (SelectCaseId (caseNumber ci)) miss;
      Exchange (InsertCase ci) inserted;
      Exchange (SelectCaseId (caseNumber ci)) raceCase;
      Exchange (CacheSet (caseNumber ci) id) tt ]
    (Ret (Normal id)).
Proof.
  intros Hmiss Hins Hdup Hrace.
  assert (Hd : is_duplicate_key err = true).
  { unfold is_duplicate_key. destruct Hdup as [-> | ->]; [reflexivity|].
    apply orb_true_r. }
  unfold ensureCaseExists.
  apply leads_cons. cbn beta iota.
  apply leads_cons. cbn beta. rewrite Hmiss.
  apply leads_cons. cbn beta. rewrite Hins, Hd.
  apply leads_cons. cbn beta. rewrite Hrace.
  apply leads_cons. apply leads_nil.
Qed.

(** C1.  When the insert of [ensureCaseExists] is refused for a
    duplicate key (code 23505, or a message with "duplicate key") and the
    lookup that follows finds a row, the call stores the id of that row in
    the cache and returns it.  Hence, for two calls with the same case
    number on a store that keeps case numbers unique, interleaved in any
    way: when both have returned, they have returned the same id, the id
    of the one row of that case number; and both have returned once each
    has taken five steps. *)
Theorem ensureCaseExists_race (ci1 ci2 : caseInfo) (w : world)
    (sched : list bool) :
  caseNumber ci1 = caseNumber ci2 ->
  world_ok (caseNumber ci1) w ->
  let c := run_schedule sched
             {| shared := w;
                first := ensureCaseExists ci1;
                second := ensureCaseExists ci2 |} in
  (forall miss inserted raceCase err id,
      data miss = None ->
      error inserted = Some err ->
      code err = "23505" \/ Js.includes (message err) "duplicate key" = true ->
      data raceCase = Some id ->
      leads (ensureCaseExists ci1)
        [ Exchange (CacheGet (caseNumber ci1)) None;
          Exchange (SelectCaseId (caseNumber ci1)) miss;
          Exchange (InsertCase ci1) inserted;
          Exchange (SelectCaseId (caseNumber ci1)) raceCase;
          Exchange (CacheSet (caseNumber ci1) id) tt ]
        (Ret (Normal id)))
  /\ (forall r1 r2,
        returned (first c) = Some r1 -> returned (second c) = Some r2 ->
        exists id row,
          r1 = Normal id /\ r2 = Normal id
          /\ case_rows (caseNumber ci1) (store (shared c)) = [row]
          /\ case_id row = id)
  /\ (5 <= turns true sched -> 5 <= turns false sched ->
      is_Some (returned (first c)) /\ is_Some (returned (second c))).
Proof.
  intros Hcn Hw c.
  split; [intros; now apply race_resolved with (err := err)|].
  destruct (run_schedule_ok ci1 ci2 sched (eq_sym Hcn)
              {| shared := w; first := ensureCaseExists ci1;
                 second := ensureCaseExists ci2 |} AtStart AtStart)
    as (pt1 & pt2 & (Hw' & H1 & H2 & Hp1 & Hp2) & Hr1 & Hr2).
  { split; [assumption|]. repeat split. }
  fold c in Hw', H1, H2, Hp1, Hp2. split.
  - intros r1 r2 Hret1 Hret2. rewrite H1 in Hret1. rewrite H2 in Hret2.
    apply returned_point in Hret1 as (id1 & -> & ->).
    apply returned_point in Hret2 as (id2 & -> & ->).
    cbn in Hp1, Hp2. unfold case_ids in Hp1, Hp2.
    destruct (case_rows (caseNumber ci1) (store (shared c))) as [|row [|row' l]];
      try discriminate.
    cbn in Hp1, Hp2. injection Hp1 as Hp1. injection Hp2 as Hp2.
    exists id1, row. repeat split; congruence.
  - intros Ht Hf. cbn in Hr1, Hr2.
    destruct (finished_point pt1) as [id1 ->]; [lia|].
    destruct (finished_point pt2) as [id2 ->]; [lia|].
    rewrite H1, H2. cbn. split; eexists; reflexivity.
Qed.

End RaceFacts.

Lemma ensureCaseExists_race_witness :
  is_Some (Uploader.returned (Uploader.first Examples.two_calls))
  /\ is_Some (Uploader.returned (Uploader.second Examples.two_calls)).
Proof.
  refine (proj2 (proj2 (ensureCaseExists_race Examples.ipc_case Examples.ipc_case
                          Examples.fresh_world Examples.alternate eq_refl _)) _ _).
  - split.
    + intros cn. cbn. lia.
    + intros id H. cbn in H. rewrite lookup_empty in H. discriminate.
  - cbn. lia.
  - cbn. lia.
Defined.

Example two_calls_return :
  Uploader.returned (Uploader.first Examples.two_calls) = Some (Uploader.Normal 0)
  /\ Uploader.returned (Uploader.second Examples.two_calls) = Some (Uploader.Normal 0)
  /\ map Store.case_id (Store.cases (Uploader.store (Uploader.shared Examples.two_calls)))
     = [0].
Proof. vm_compute. repeat split. Qed.

(** ** [uploadDocument] run on its own *)

Section UploadFacts.
Import Store Uploader StoreProps.

(** Run alone on a store with one row per case number,
    [ensureCaseExists] returns an id, and touches neither documents nor
    chunks. *)
Lemma ensureCaseExists_run (ci : caseInfo) (w : world) :
  unique_cases (store w) ->
  exists w' id,
    run (ensureCaseExists ci) w = (w', Normal id)
    /\ unique_cases (store w')
    /\ documents (store w') = documents (store w)
    /\ document_chunks (store w') = document_chunks (store w).
Proof.
  intros Hu. unfold ensureCaseExists. cbn [run handle].
  destruct (caseCache w !! caseNumber ci) as [id|] eqn:E.
  { exists w, id. repeat split; assumption || reflexivity. }
  cbn [run handle].
  destruct (case_ids_cases (caseNumber ci) (store w) Hu) as [Hn | [id Hid]].
  - rewrite select_case_id_none by assumption. cbn [data failed run handle].
    rewrite insert_case_accepted by assumption. cbn.
    eexists _, _. split; [reflexivity|]. split; [|split; reflexivity].
    now apply unique_cases_with_case.
  - rewrite select_case_id_found with (id := id) by assumption. cbn.
    eexists _, _. split; [reflexivity|]. repeat split; assumption || reflexivity.
Qed.

Lemma case_ids_with_case (ci : caseInfo) (d : db) :
  case_ids (caseNumber ci) d = [] ->
  case_ids (caseNumber ci) (with_case ci d) = [next_id d].
Proof.
  intros Hnone. unfold case_ids in *. rewrite case_rows_with_case.
  rewrite String.eqb_refl, map_app, Hnone. reflexivity.
Qed.

(** A call that runs alone on a store with one row per case number and
    a cache that agrees with it. *)
Lemma ensureCaseExists_once (ci : caseInfo) (w : world) :
  world_ok (caseNumber ci) w ->
  exists w1 id,
    run (ensureCaseExists ci) w = (w1, Normal id)
    /\ case_ids (caseNumber ci) (store w1) = [id]
    /\ caseCache w1 !! caseNumber ci = Some id
    /\ (case_ids (caseNumber ci) (store w) <> [] -> store w1 = store w)
    /\ (case_ids (caseNumber ci) (store w) = [] ->
        store w1 = with_case ci (store w) /\ id = next_id (store w))
    /\ world_ok (caseNumber ci) w1.
Proof.
  intros Hw. pose proof Hw as [Hu Hcache].
  unfold ensureCaseExists. cbn [run handle].
  destruct (caseCache w !! caseNumber ci) as [id|] eqn:Hc.
  - exists w, id. cbn [run].
    pose proof (Hcache id eq_refl) as Hid.
    split; [reflexivity|]. split; [assumption|]. split; [assumption|].
    split; [reflexivity|]. split; [intros Hn; congruence|]. assumption.
  - cbn [run handle].
    destruct (case_ids_cases (caseNumber ci) (store w) Hu) as [Hn | [id Hid]].
    + rewrite select_case_id_none by assumption. cbn [data failed run handle].
      rewrite insert_case_accepted by assumption. cbn [run handle error data ok].
      eexists _, (next_id (store w)). split; [reflexivity|].
      cbn [store caseCache with_store].
      assert (Hids : case_ids (caseNumber ci) (with_case ci (store w))
                     = [next_id (store w)]) by now apply case_ids_with_case.
      split; [assumption|]. split; [apply lookup_insert_eq|].
      split; [intros Hne; congruence|]. split; [now split|].
      split; cbn [store caseCache].
      * now apply unique_cases_with_case.
      * intros id'. rewrite lookup_insert_eq. now intros [= <-].
    + rewrite select_case_id_found with (id := id) by assumption.
      cbn [data ok run handle].
      eexists _, id. split; [reflexivity|]. cbn [store caseCache].
      split; [assumption|]. split; [apply lookup_insert_eq|].
      split; [reflexivity|]. split; [intros Hn; congruence|].
      split; cbn [store caseCache]; [assumption|].
      intros id'. rewrite lookup_insert_eq. now intros [= <-].
Qed.

Lemma document_rows_cases (url : string) (d : db) :
  unique_urls d ->
  document_rows url d = [] \/ exists row, document_rows url d = [row].
Proof. intros Hu. apply short_list, Hu. Qed.

Lemma select_document_found (url : string) (d : db) (row : document_row) :
  document_rows url d = [row] ->
  select_document_by_url url d = ok (summary row).
Proof. unfold select_document_by_url. fold (document_rows url d). now intros ->. Qed.

Lemma select_document_none (url : string) (d : db) :
  document_rows url d = [] ->
  select_document_by_url url d = failed no_single_row.
Proof. unfold select_document_by_url. fold (document_rows url d). now intros ->. Qed.

Lemma document_rows_with_document (url : string) (row : document_insert) (d : db) :
  document_rows url (with_document row d)
  = document_rows url d
      ++ (if String.eqb (ins_document_url row) url
          then [ {| doc_id := next_id d; doc_fields := row |} ] else []).
Proof. unfold document_rows, with_document. simpl. now rewrite List.filter_app. Qed.

Lemma unique_urls_with_document (row : document_insert) (d : db) :
  unique_urls d -> document_rows (ins_document_url row) d = [] ->
  unique_urls (with_document row d).
Proof.
  intros Hu Hnone url. rewrite document_rows_with_document, length_app.
  destruct (String.eqb_spec (ins_document_url row) url) as [<-|Hne].
  - rewrite Hnone. simpl. lia.
  - specialize (Hu url). simpl. lia.
Qed.

(** The store accepts the row or refuses it, and changes nothing when it
    refuses. *)
Lemma insert_document_cases (row : document_insert) (d : db) :
  insert_document row d = (d, failed (unique_violation "unique_document_per_case"))
  \/ insert_document row d = (with_document row d, ok (next_id d)).
Proof. unfold insert_document. destruct (existsb _ (documents d)); [now left | now right]. Qed.

(** The loop over the batches stores the chunks from index [i] on, in
    their order, up to the first batch the store refuses: all of them
    when it refuses none, when it is given enough iterations. *)
Lemma upload_batches_run (chunks : list Chunker.chunk) (r : upload_result)
    (fuel : nat) : forall (i : nat) (w : world),
  length chunks - i <= fuel ->
  exists w' r',
    run (upload_batches fuel i chunks (Ret r)) w = (w', r')
    /\ cases (store w') = cases (store w)
    /\ documents (store w') = documents (store w)
    /\ ((r' = r
         /\ document_chunks (store w')
            = document_chunks (store w) ++ drop i chunks)
        \/ (exists chunkError stored rest,
              r' = failure_result
                     ("Failed to upload chunks: " ++ message chunkError)
              /\ drop i chunks = stored ++ rest /\ rest <> []
              /\ document_chunks (store w')
                 = document_chunks (store w) ++ stored)).
Proof.
  induction fuel as [|fuel IH]; intros i w Hfuel.
  - exists w, r. do 3 (split; [reflexivity|]). left. split; [reflexivity|].
    rewrite drop_ge by lia. now rewrite app_nil_r.
  - cbn [upload_batches]. destruct (Nat.ltb_spec i (length chunks)) as [Hlt|Hge].
    + assert (Hsplit : drop i chunks
                       = take batchSize (drop i chunks)
                           ++ drop (i + batchSize) chunks).
      { rewrite <- (drop_drop chunks batchSize i). symmetry. apply take_drop. }
      assert (Hany : drop i chunks <> []).
      { intros Hnil. apply (f_equal length) in Hnil.
        rewrite length_drop in Hnil. cbn in Hnil. lia. }
      assert (Haccept : forall w1,
                cases (store w1) = cases (store w) ->
                documents (store w1) = documents (store w) ->
                document_chunks (store w1)
                = document_chunks (store w) ++ take batchSize (drop i chunks) ->
                exists w' r',
                  run (upload_batches fuel (i + batchSize) chunks (Ret r)) w1
                  = (w', r')
                  /\ cases (store w') = cases (store w)
                  /\ documents (store w') = documents (store w)
                  /\ ((r' = r
                       /\ document_chunks (store w')
                          = document_chunks (store w) ++ drop i chunks)
                      \/ (exists chunkError stored rest,
                            r' = failure_result
                                   ("Failed to upload chunks: "
                                    ++ message chunkError)
                            /\ drop i chunks = stored ++ rest /\ rest <> []
                            /\ document_chunks (store w')
                               = document_chunks (store w) ++ stored))).
      { intros w1 Hc1 Hd1 Hch1.
        destruct (IH (i + batchSize) w1 ltac:(unfold batchSize; lia))
          as (w' & r' & Hrun & Hc & Hd & Hres).
        exists w', r'. split; [exact Hrun|].
        split; [congruence|]. split; [congruence|].
        destruct Hres
          as [[-> Hall] | (e & stored & rest & -> & Hdrop & Hrest & Hst)].
        - left. split; [reflexivity|].
          rewrite Hall, Hch1, <- app_assoc. now rewrite <- Hsplit.
        - right. exists e, (take batchSize (drop i chunks) ++ stored), rest.
          split; [reflexivity|]. split.
          { rewrite <- app_assoc, <- Hdrop. exact Hsplit. }
          split; [exact Hrest|]. rewrite Hst, Hch1. now rewrite <- app_assoc. }
      cbn [run handle]. unfold insert_chunks.
      destruct (chunk_answers (store w)) as [|[chunkError|] answers].
      * cbn [error]. now apply Haccept.
      * cbn [error run]. eexists _, _. split; [reflexivity|].
        do 2 (split; [reflexivity|]). right.
        exists chunkError, [], (drop i chunks).
        cbn. rewrite app_nil_r. now repeat split.
      * cbn [error]. now apply Haccept.
    + exists w, r. do 3 (split; [reflexivity|]). left. split; [reflexivity|].
      rewrite drop_ge by lia. now rewrite app_nil_r.
Qed.

Lemma run_bind {A B} (p : prog A) (f : A -> prog B) (w : world) :
  run (bind p f) w = let '(w1, a) := run p w in run (f a) w1.
Proof.
  revert w. induction p as [a | X e k IH]; intros w; cbn [bind run].
  - reflexivity.
  - destruct (handle e w) as [w1 x]. apply IH.
Qed.

Lemma unique_urls_same (d d' : db) :
  documents d' = documents d -> unique_urls d -> unique_urls d'.
Proof. intros H Hu url. unfold document_rows. rewrite H. apply Hu. Qed.

Lemma unique_cases_same (d d' : db) :
  cases d' = cases d -> unique_cases d -> unique_cases d'.
Proof. intros H Hu cn. unfold case_rows. rewrite H. apply Hu. Qed.

Section OneCall.
Variable uuidv4 : nat -> string.
Variable clock : nat -> string.
Variable extracted_at : string.
Variable dd : documentData.

Local Abbreviation url := (dd_documentUrl dd).

Local Abbreviation chunks_for := (chunks_for uuidv4 clock dd).

(** The four ways a call of [uploadDocument] ends when it runs alone
    on a store with one row per case number and per URL: the URL has a
    row and nothing is inserted; the store refuses the document and
    nothing is inserted; the document and all its chunks are inserted;
    or the document is inserted and the store refuses a batch of chunks,
    so that only the chunks of the batches before it are stored. *)
Lemma uploadDocument_run (w : world) :
  store_ok (store w) ->
  exists w' r,
    run (uploadDocument uuidv4 clock extracted_at dd) w = (w', r)
    /\ store_ok (store w')
    /\ ((exists row,
           document_rows url (store w) = [row]
           /\ r = duplicate_result (doc_id row) (doc_case_id row)
           /\ documents (store w') = documents (store w)
           /\ document_chunks (store w') = document_chunks (store w))
        \/ (document_rows url (store w) = []
            /\ success r = false /\ duplicate r = None
            /\ documents (store w') = documents (store w)
            /\ document_chunks (store w') = document_chunks (store w))
        \/ (document_rows url (store w) = []
            /\ success r = true /\ duplicate r = None
            /\ exists row caseId,
                 documents (store w') = documents (store w) ++ [row]
                 /\ document_url row = url
                 /\ chunksCreated r
                    = Some (length (chunks_for (doc_id row) caseId))
                 /\ document_chunks (store w')
                    = document_chunks (store w)
                        ++ chunks_for (doc_id row) caseId)
        \/ (document_rows url (store w) = []
            /\ success r = false /\ duplicate r = None
            /\ exists row caseId stored rest,
                 documents (store w') = documents (store w) ++ [row]
                 /\ document_url row = url
                 /\ chunks_for (doc_id row) caseId = stored ++ rest
                 /\ rest <> []
                 /\ document_chunks (store w')
                    = document_chunks (store w) ++ stored)).
Proof.
  intros [Hcases Hurls]. unfold uploadDocument. rewrite run_bind.
  destruct (ensureCaseExists_run (dd_caseInfo dd) w Hcases)
    as (w1 & caseId & -> & Hcases1 & Hdocs1 & Hchunks1).
  assert (Hurls1 : unique_urls (store w1)) by now apply (unique_urls_same (store w)).
  assert (Hrows : document_rows url (store w1) = document_rows url (store w))
    by (unfold document_rows; now rewrite Hdocs1).
  cbn [run handle].
  destruct (document_rows_cases url (store w1) Hurls1) as [Hnone | [row Hrow]].
  - rewrite select_document_none by assumption. cbn [data failed run handle].
    match goal with
    | |- context [insert_document ?r _] => set (ins := r)
    end.
    destruct (insert_document_cases ins (store w1)) as [-> | ->].
    + (* refused *)
      cbn. eexists _, _. split; [reflexivity|]. split; [now split|].
      right. left. rewrite <- Hrows. repeat split; assumption.
    + (* accepted *)
      cbn [with_store store caseCache error data ok run].
      set (docId := next_id (store w1)).
      fold (chunks_for docId caseId).
      set (chunks := chunks_for docId caseId).
      set (w2 := with_store w1 (with_document ins (store w1))).
      assert (Hok2 : store_ok (store w2)).
      { split; [now apply (unique_cases_same (store w1))|].
        now apply unique_urls_with_document. }
      destruct (upload_batches_run chunks
                  (uploaded_result docId caseId (length chunks))
                  (length chunks) 0 w2 ltac:(lia))
        as (w3 & r3 & -> & Hc3 & Hd3 & Hres).
      cbn [drop] in Hres.
      exists w3, r3. split; [reflexivity|]. split.
      { split.
        - apply (unique_cases_same (store w2)); [exact Hc3 | apply Hok2].
        - apply (unique_urls_same (store w2)); [exact Hd3 | apply Hok2]. }
      right. right. rewrite <- Hrows.
      destruct Hres
        as [[-> Hall] | (e & stored & rest & -> & Hsplit & Hrest & Hst)].
      * left. split; [assumption|].
        split; [reflexivity|]. split; [reflexivity|].
        exists {| doc_id := docId; doc_fields := ins |}, caseId.
        rewrite Hd3, Hall. cbn. rewrite Hdocs1, Hchunks1. repeat split.
      * right. split; [assumption|].
        split; [reflexivity|]. split; [reflexivity|].
        exists {| doc_id := docId; doc_fields := ins |}, caseId, stored, rest.
        rewrite Hd3, Hst. cbn. rewrite Hdocs1, Hchunks1. repeat split;
          assumption.
  - rewrite select_document_found with (row := row) by assumption. cbn.
    eexists _, _. split; [reflexivity|]. split; [now split|].
    left. exists row. rewrite <- Hrows. repeat split; assumption.
Qed.

End OneCall.

Lemma document_rows_same (url : string) (d d' : db) :
  documents d' = documents d -> document_rows url d' = document_rows url d.
Proof. intros H. unfold document_rows. now rewrite H. Qed.

(** A call on a store where the URL has its row. *)
Lemma uploadDocument_existing (uuidv4 clock : nat -> string)
    (extracted_at : string) (dd : documentData) (w w' : world)
    (r : upload_result) (row : document_row) :
  store_ok (store w) ->
  document_rows (dd_documentUrl dd) (store w) = [row] ->
  run (uploadDocument uuidv4 clock extracted_at dd) w = (w', r) ->
  r = duplicate_result (doc_id row) (doc_case_id row)
  /\ documents (store w') = documents (store w)
  /\ document_chunks (store w') = document_chunks (store w).
Proof.
  intros Hok Hrow Hrun.
  destruct (uploadDocument_run uuidv4 clock extracted_at dd w Hok)
    as (w0 & r0 & Hrun0 & _ & Hcases).
  rewrite Hrun in Hrun0. injection Hrun0 as <- <-.
  destruct Hcases
    as [(row' & Hrow' & -> & Hd & Hc)
       | [(Hnone & _) | [(Hnone & _) | (Hnone & _)]]];
    try congruence.
  rewrite Hrow in Hrow'. injection Hrow' as <-. now repeat split.
Qed.

(** C2 (amended).  On a store with one row per case number and per URL,
    a call of [uploadDocument] for a URL that has a row returns
    [success: true], [duplicate: true] and [chunksCreated: 0], and
    inserts no document and no chunk.  Consequently, when two calls for
    the same URL follow one another and the first returns
    [success: true], the URL has exactly one row afterwards and the second
    call returns [duplicate: true] and [chunksCreated: 0] and inserts
    nothing.  When the URL has no row and the case of the payload has a
    document of the payload's name, the store refuses the document of the
    first call: the call returns [success: false] with the message of
    the index [unique_document_per_case] and leaves the store as it
    was. *)
Theorem uploadDocument_duplicate
    (uuid1 clock1 : nat -> string) (at1 : string)
    (uuid2 clock2 : nat -> string) (at2 : string)
    (dd1 dd2 : documentData) (w w1 w2 : world) (r1 r2 : upload_result) :
  store_ok (store w) ->
  dd_documentUrl dd2 = dd_documentUrl dd1 ->
  run (uploadDocument uuid1 clock1 at1 dd1) w = (w1, r1) ->
  run (uploadDocument uuid2 clock2 at2 dd2) w1 = (w2, r2) ->
  (document_rows (dd_documentUrl dd1) (store w) <> [] ->
     success r1 = true /\ duplicate r1 = Some true /\ chunksCreated r1 = Some 0
     /\ documents (store w1) = documents (store w)
     /\ document_chunks (store w1) = document_chunks (store w))
  /\ (success r1 = true ->
      (exists row, document_rows (dd_documentUrl dd1) (store w2) = [row])
      /\ success r2 = true /\ duplicate r2 = Some true
      /\ chunksCreated r2 = Some 0
      /\ documents (store w2) = documents (store w1)
      /\ document_chunks (store w2) = document_chunks (store w1))
  /\ (forall crow drow,
        world_ok (caseNumber (dd_caseInfo dd1)) w ->
        document_rows (dd_documentUrl dd1) (store w) = [] ->
        case_rows (caseNumber (dd_caseInfo dd1)) (store w) = [crow] ->
        In drow (documents (store w)) ->
        doc_case_id drow = case_id crow ->
        document_name drow = dd_documentName dd1 ->
        r1 = failure_result
               ("Failed to create document: "
                ++ message (unique_violation "unique_document_per_case"))
        /\ store w1 = store w).
Proof.
  intros Hok Hurl Hrun1 Hrun2.
  assert (Hrefused : forall crow drow,
            world_ok (caseNumber (dd_caseInfo dd1)) w ->
            document_rows (dd_documentUrl dd1) (store w) = [] ->
            case_rows (caseNumber (dd_caseInfo dd1)) (store w) = [crow] ->
            In drow (documents (store w)) ->
            doc_case_id drow = case_id crow ->
            document_name drow = dd_documentName dd1 ->
            r1 = failure_result
                   ("Failed to create document: "
                    ++ message (unique_violation "unique_document_per_case"))
            /\ store w1 = store w).
  { intros crow drow Hw Hnone Hcrow Hin Hcase Hname.
    destruct (ensureCaseExists_once (dd_caseInfo dd1) w Hw)
      as (w0 & id & Hrun0 & Hids & _ & Hsame & _).
    assert (Hids0 : case_ids (caseNumber (dd_caseInfo dd1)) (store w)
                    = [case_id crow])
      by (unfold case_ids; now rewrite Hcrow).
    assert (Hstore : store w0 = store w)
      by (apply Hsame; rewrite Hids0; discriminate).
    assert (Hid : id = case_id crow) by (rewrite Hstore in Hids; congruence).
    destruct w0 as [d0 cache0]. cbn [store] in Hstore. subst d0 id.
    revert Hrun1. unfold uploadDocument. rewrite run_bind, Hrun0.
    cbn [run handle store].
    rewrite select_document_none by assumption.
    cbn [data failed run handle store]. unfold insert_document.
    match goal with
    | |- context [existsb ?f (documents (store w))] =>
        assert (Hex : existsb f (documents (store w)) = true)
    end.
    { apply existsb_exists. exists drow. split; [exact Hin|].
      cbn. rewrite Hcase, Nat.eqb_refl, Hname. cbn.
      apply String.eqb_refl. }
    rewrite Hex. cbn. intros [= <- <-]. now split. }
  destruct (uploadDocument_run uuid1 clock1 at1 dd1 w Hok)
    as (w0 & r0 & Hrun0 & Hok1 & Hcases).
  rewrite Hrun1 in Hrun0. injection Hrun0 as <- <-.
  assert (Hsecond : forall row,
            document_rows (dd_documentUrl dd1) (store w1) = [row] ->
            (exists row, document_rows (dd_documentUrl dd1) (store w2) = [row])
            /\ success r2 = true /\ duplicate r2 = Some true
            /\ chunksCreated r2 = Some 0
            /\ documents (store w2) = documents (store w1)
            /\ document_chunks (store w2) = document_chunks (store w1)).
  { intros row Hrow. rewrite <- Hurl in Hrow.
    destruct (uploadDocument_existing uuid2 clock2 at2 dd2 w1 w2 r2 row Hok1 Hrow Hrun2)
      as (-> & Hd & Hc).
    split; [|now repeat split].
    exists row. rewrite <- Hurl. now rewrite (document_rows_same _ _ _ Hd). }
  split; [|split; [|exact Hrefused]].
  - intros Hhas.
    destruct Hcases
      as [(row & Hrow & -> & Hd & Hc)
         | [(Hnone & _) | [(Hnone & _) | (Hnone & _)]]];
      try congruence.
    now repeat split.
  - intros Hsucc.
    destruct Hcases
      as [(row & Hrow & -> & Hd & Hc)
         | [(Hnone & Hfail & _)
           | [(Hnone & _ & _ & row & caseId & Hd & Hu & _)
             | (Hnone & Hfail & _)]]].
    + apply (Hsecond row). now rewrite (document_rows_same _ _ _ Hd).
    + congruence.
    + apply (Hsecond row). unfold document_rows in *. rewrite Hd, List.filter_app, Hnone.
      simpl. now rewrite Hu, String.eqb_refl.
    + congruence.
Qed.

End UploadFacts.

(** The claim that two calls for one URL create one row and that the
    second reports a duplicate fails when the store refuses the document:
    the case already has a document of that name under another URL, both
    calls return [success: false] and the store is left as it was, without
    a row for the URL.  The claim that a call for a URL that has a row
    reports a duplicate fails when the URL has two rows: two calls in
    flight for one URL under two names both find no row and both insert
    theirs; the lookup of a later call for the URL then gets no single
    row, and the call inserts a third row and reports no duplicate. *)
Lemma uploadDocument_counterexample :
  StoreProps.store_ok (Uploader.store Examples.one_document)
  /\ Examples.upload_twice Examples.same_name Examples.one_document
     = (Uploader.failure_result
          "Failed to create document: duplicate key value violates unique constraint unique_document_per_case",
        Uploader.failure_result
          "Failed to create document: duplicate key value violates unique constraint unique_document_per_case",
        Uploader.store Examples.one_document)
  /\ StoreProps.document_rows (Uploader.dd_documentUrl Examples.same_name)
       (Uploader.store Examples.one_document) = []
  /\ Uploader.returned (Uploader.first Examples.two_uploads)
     = Some (Uploader.uploaded_result 2 0 1)
  /\ Uploader.returned (Uploader.second Examples.two_uploads)
     = Some (Uploader.uploaded_result 3 0 1)
  /\ map Store.doc_id
       (StoreProps.document_rows (Uploader.dd_documentUrl Examples.surrebuttal)
          (Uploader.store (Uploader.shared Examples.two_uploads)))
     = [2; 3]
  /\ (let '(w, r) :=
         Uploader.run (Examples.upload Examples.surrebuttal)
           (Uploader.shared Examples.two_uploads) in
       r = Uploader.uploaded_result 4 0 1
       /\ map Store.doc_id
            (StoreProps.document_rows
               (Uploader.dd_documentUrl Examples.surrebuttal)
               (Uploader.store w))
          = [2; 3; 4]).
Proof.
  split; [apply store_ok_small; cbn; lia|].
  vm_compute. repeat split.
Qed.

Lemma uploadDocument_duplicate_witness :
  Uploader.duplicate
    (snd (Uploader.run (Examples.upload Examples.new_name)
            (fst (Uploader.run (Examples.upload Examples.new_name)
                    Examples.one_document))))
  = Some true.
Proof.
  refine (proj1 (proj2 (proj2 (proj1 (proj2
    (uploadDocument_duplicate _ _ _ _ _ _ Examples.new_name Examples.new_name
       Examples.one_document _ _ _ _ _ eq_refl
       (surjective_pairing _) (surjective_pairing _))) _)))).
  - apply store_ok_small; cbn; lia.
  - vm_compute. reflexivity.
Defined.

Example upload_twice_new_name :
  let '(r1, r2, d) := Examples.upload_twice Examples.new_name Examples.one_document in
  r1 = Uploader.uploaded_result 2 0 1
  /\ r2 = Uploader.duplicate_result 2 0
  /\ map Store.doc_id (Store.documents d) = [1; 2]
  /\ length (Store.document_chunks d) = 1.
Proof. vm_compute. repeat split. Qed.

(** ** The retry ledger *)

Section RetryFacts.
Import Retry.

Lemma recordFailure_lookup (q : SmartRetryQueue) (queueId : string)
    (a : attemptInfo) (ts : string) :
  exists record,
    failedDocuments (fst (recordFailure q queueId a ts)) !! queueId = Some record
    /\ length (attempts record) = S (attemptNumber q queueId)
    /\ snd (recordFailure q queueId a ts) = S (attemptNumber q queueId)
    /\ maxRetries (fst (recordFailure q queueId a ts)) = maxRetries q.
Proof.
  unfold recordFailure, attemptNumber. cbn [fst snd failedDocuments maxRetries].
  eexists. split; [apply lookup_insert_eq|].
  cbn [attempts]. rewrite length_app.
  destruct (failedDocuments q !! queueId); cbn; repeat split; lia.
Qed.

Lemma attemptNumber_recordFailure (q : SmartRetryQueue) (queueId : string)
    (a : attemptInfo) (ts : string) :
  attemptNumber (fst (recordFailure q queueId a ts)) queueId
  = S (attemptNumber q queueId).
Proof.
  destruct (recordFailure_lookup q queueId a ts) as (record & Hl & Hn & _).
  unfold attemptNumber at 1. now rewrite Hl.
Qed.

Lemma shouldRetry_recorded (q : SmartRetryQueue) (queueId : string)
    (record : failure_record) :
  failedDocuments q !! queueId = Some record ->
  shouldRetry q queueId = (attemptNumber q queueId <? maxRetries q).
Proof. intros H. unfold shouldRetry, attemptNumber. now rewrite H. Qed.

Lemma shouldBlacklist_recorded (scope : module_kind) (q : SmartRetryQueue)
    (queueId ts : string) (file : blacklist_file) (record : failure_record) :
  failedDocuments q !! queueId = Some record ->
  fst (shouldBlacklist_in scope q queueId ts file)
  = (maxRetries q <=? attemptNumber q queueId).
Proof.
  intros H. unfold shouldBlacklist_in, attemptNumber. rewrite H.
  now destruct (maxRetries q <=? length (attempts record)).
Qed.

(** In this module nothing reaches the blacklist file. *)
Lemma shouldBlacklist_file (q : SmartRetryQueue) (queueId ts : string)
    (file : blacklist_file) :
  snd (shouldBlacklist q queueId ts file) = file.
Proof.
  unfold shouldBlacklist, shouldBlacklist_in.
  destruct (failedDocuments q !! queueId) as [record|]; [|reflexivity].
  now destruct (maxRetries q <=? length (attempts record)).
Qed.

(** Where [require] is in scope, a call that answers [true] appends one
    entry. *)
Lemma shouldBlacklist_logs_with_require (q : SmartRetryQueue)
    (queueId ts : string) (file : blacklist_file) :
  fst (shouldBlacklist_in CommonJS q queueId ts file) = true ->
  exists entry,
    snd (shouldBlacklist_in CommonJS q queueId ts file)
    = Some (match file with Some l => l | None => [] end ++ [entry])
    /\ bl_queueId entry = queueId
    /\ bl_attempts entry = attemptNumber q queueId.
Proof.
  unfold shouldBlacklist_in, attemptNumber.
  destruct (failedDocuments q !! queueId) as [record|]; [|discriminate].
  destruct (maxRetries q <=? length (attempts record)); [|discriminate].
  intros _. cbn. eexists. split; [reflexivity|]. now split.
Qed.

(** The tier of an attempt: the entry at [min(attempts, length - 1)]. *)
Lemma getNextAttemptSpeed_index (q : SmartRetryQueue)
    (queueId documentType : string) :
  getNextAttemptSpeed q queueId documentType
  = timingConfig documentType
      !! Nat.min (attemptNumber q queueId)
                 (length (timingConfig documentType) - 1).
Proof.
  unfold getNextAttemptSpeed, at_index.
  set (n := attemptNumber q queueId). set (table := timingConfig documentType).
  destruct (Z.ltb_spec (Z.min (Z.of_nat n) (Z.of_nat (length table) - 1)) 0) as [Hneg|Hpos].
  - assert (Hlen : length table = 0) by lia.
    destruct table; [now rewrite lookup_nil | discriminate].
  - f_equal. lia.
Qed.

Lemma timingConfig_length (documentType : string) :
  length (timingConfig documentType) = 3.
Proof. unfold timingConfig. now destruct (String.eqb documentType "weblink_iframe"). Qed.

(** The waits of a table do not decrease with the number of failed
    attempts. *)
Lemma timing_monotone (documentType : string) (n m : nat) :
  n <= m ->
  exists s t,
    timingConfig documentType !! Nat.min n 2 = Some s
    /\ timingConfig documentType !! Nat.min m 2 = Some t
    /\ (Config.wait s <= Config.wait t)%Z.
Proof.
  intros Hnm. unfold timingConfig.
  destruct (String.eqb documentType "weblink_iframe");
    destruct n as [|[|[|n]]]; destruct m as [|[|[|m]]]; try lia;
    cbn; eexists _, _; (split; [reflexivity|]); (split; [reflexivity|]); cbn; lia.
Qed.

(** C3 (code bug).  For a document that fails three times in a row,
    the timing of each attempt is the entry of the table of the viewer
    kind at index [min(attempts, length - 1)], the three waits do not
    decrease, and after the third failure [shouldBlacklist] answers
    [true].  But the blacklist file is left as it was: no entry is
    appended. *)
Theorem retry_escalation (q : SmartRetryQueue) (queueId documentType : string)
    (a1 a2 a3 : attemptInfo) (t1 t2 t3 ts : string) (file : blacklist_file) :
  maxRetries q = 3 ->
  attemptNumber q queueId = 0 ->
  let q1 := fst (recordFailure q queueId a1 t1) in
  let q2 := fst (recordFailure q1 queueId a2 t2) in
  let q3 := fst (recordFailure q2 queueId a3 t3) in
  (forall q', getNextAttemptSpeed q' queueId documentType
              = timingConfig documentType
                  !! Nat.min (attemptNumber q' queueId)
                             (length (timingConfig documentType) - 1))
  /\ (exists s0 s1 s2,
        getNextAttemptSpeed q queueId documentType = Some s0
        /\ getNextAttemptSpeed q1 queueId documentType = Some s1
        /\ getNextAttemptSpeed q2 queueId documentType = Some s2
        /\ (Config.wait s0 <= Config.wait s1 <= Config.wait s2)%Z)
  /\ shouldRetry q2 queueId = true
  /\ shouldRetry q3 queueId = false
  /\ fst (shouldBlacklist q3 queueId ts file) = true
  /\ snd (shouldBlacklist q3 queueId ts file) = file.
Proof.
  intros Hmax Hzero q1 q2 q3.
  assert (H1 : attemptNumber q1 queueId = 1)
    by (unfold q1; now rewrite attemptNumber_recordFailure, Hzero).
  assert (H2 : attemptNumber q2 queueId = 2)
    by (unfold q2; now rewrite attemptNumber_recordFailure, H1).
  assert (H3 : attemptNumber q3 queueId = 3)
    by (unfold q3; now rewrite attemptNumber_recordFailure, H2).
  destruct (recordFailure_lookup q queueId a1 t1) as (r1 & _ & _ & _ & Hm1).
  destruct (recordFailure_lookup q1 queueId a2 t2) as (r2 & Hl2 & _ & _ & Hm2).
  destruct (recordFailure_lookup q2 queueId a3 t3) as (r3 & Hl3 & _ & _ & Hm3).
  fold q1 in Hm1. fold q2 in Hl2, Hm2. fold q3 in Hl3, Hm3.
  split; [intros q'; apply getNextAttemptSpeed_index|].
  split; [|split; [|split; [|split]]].
  - rewrite !getNextAttemptSpeed_index, timingConfig_length, Hzero, H1, H2.
    destruct (timing_monotone documentType 0 1 ltac:(lia)) as (s0 & s1 & E0 & E1 & L01).
    destruct (timing_monotone documentType 1 2 ltac:(lia)) as (s1' & s2 & E1' & E2 & L12).
    cbn [Nat.min Nat.sub] in *. rewrite E1 in E1'. injection E1' as <-.
    exists s0, s1, s2. repeat split; assumption.
  - rewrite (shouldRetry_recorded q2 queueId r2 Hl2), H2. now rewrite Hm2, Hm1, Hmax.
  - rewrite (shouldRetry_recorded q3 queueId r3 Hl3), H3.
    now rewrite Hm3, Hm2, Hm1, Hmax.
  - unfold shouldBlacklist.
    rewrite (shouldBlacklist_recorded _ q3 queueId ts file r3 Hl3), H3.
    now rewrite Hm3, Hm2, Hm1, Hmax.
  - apply shouldBlacklist_file.
Qed.

End RetryFacts.

Lemma retry_escalation_witness :
  fst (Retry.shouldBlacklist Examples.failed_three_times "q-1"
         "2025-01-01T00:00:04.000Z" None) = true
  /\ snd (Retry.shouldBlacklist Examples.failed_three_times "q-1"
            "2025-01-01T00:00:04.000Z" None) = None.
Proof.
  exact (proj2 (proj2 (proj2 (proj2
    (retry_escalation (Retry.new 3) "q-1" "weblink_iframe"
       (Examples.no_text 1) (Examples.no_text 2) (Examples.no_text 1)
       "2025-01-01T00:00:01.000Z" "2025-01-01T00:00:02.000Z"
       "2025-01-01T00:00:03.000Z" "2025-01-01T00:00:04.000Z" None
       eq_refl eq_refl))))).
Defined.

(** ** The document worker *)

Section WorkerFacts.
Import Worker.

(** What the shared queue pattern does with a unit that gave no
    result. *)
Lemma handle_failure_spec (workerId : nat) (document : queued_document)
    (ts ts1 ts2 : string) (queue : list queued_document) (st : state) :
  let n := S (Retry.attemptNumber (retryQueue st) (queueId document)) in
  let st' := handle_failure workerId document ts ts1 ts2 queue st in
  Retry.attemptNumber (retryQueue st') (queueId document) = n
  /\ Retry.maxRetries (retryQueue st') = Retry.maxRetries (retryQueue st)
  /\ processedDocuments st' = processedDocuments st
  /\ documentsProcessed st' = documentsProcessed st
  /\ pipelineFile st' = pipelineFile st
  /\ (if n <? Retry.maxRetries (retryQueue st)
      then sharedQueue st' = Some (queue ++ [document])
           /\ progressTracker st' = progressTracker st
      else sharedQueue st' = Some queue
           /\ progressTracker st' = option_map recordError (progressTracker st)).
Proof.
  intros n st'. subst n st'. unfold handle_failure.
  set (a := {| Retry.error := "No text extracted"; Retry.workerId := workerId;
               Retry.documentName := text document;
               Retry.caseNumber := Store.caseNumber (caseInfo document);
               Retry.documentUrl := href document |}).
  destruct (recordFailure_lookup (retryQueue st) (queueId document) a ts)
    as (record & Hl & Hn & _ & Hm).
  pose proof (attemptNumber_recordFailure (retryQueue st) (queueId document) a ts) as Ha.
  destruct (Retry.recordFailure (retryQueue st) (queueId document) a ts) as [rq count].
  cbn [fst snd] in *.
  rewrite (shouldRetry_recorded rq _ record Hl), Ha, Hm.
  pose proof (shouldBlacklist_recorded Retry.historical_crawler_js rq
                (queueId document) ts1 (blacklistFile st) record Hl) as Hb.
  fold (Retry.shouldBlacklist rq (queueId document) ts1 (blacklistFile st)) in Hb.
  rewrite Ha, Hm in Hb.
  destruct (Nat.ltb_spec (S (Retry.attemptNumber (retryQueue st) (queueId document)))
              (Retry.maxRetries (retryQueue st))) as [Hlt|Hge].
  - destruct (Retry.shouldBlacklist rq (queueId document) ts1 (blacklistFile st))
      as [b f]. cbn [fst] in Hb. subst b.
    destruct (Nat.leb_spec (Retry.maxRetries (retryQueue st))
                (S (Retry.attemptNumber (retryQueue st) (queueId document))));
      [lia|].
    cbn. repeat split; assumption.
  - destruct (Retry.shouldBlacklist rq (queueId document) ts2 (blacklistFile st))
      as [b f]. cbn. repeat split; assumption.
Qed.

(** C5 (amended).  In the shared queue pattern, a dequeued unit whose
    extraction gives no result is recorded in the retry ledger and then,
    while fewer than [maxRetries] failures are recorded for it, put back
    at the end of the shared queue; otherwise it is not put back and an
    error is counted.  In the case-based pattern such a unit is dropped:
    nothing is recorded and nothing is put back. *)
Theorem worker_failure (workerId : nat) (document : queued_document)
    (lookup : lookup_outcome) (ts ts1 ts2 : string)
    (queue : list queued_document) (st : state) :
  sharedQueue st = Some queue ->
  let n := S (Retry.attemptNumber (retryQueue st) (queueId document)) in
  (exists st',
      process_document shared_queue_mode workerId document lookup None
        ts ts1 ts2 st = Uploader.Normal st'
      /\ Retry.attemptNumber (retryQueue st') (queueId document) = n
      /\ processedDocuments st' = processedDocuments st
      /\ (if n <? Retry.maxRetries (retryQueue st)
          then sharedQueue st' = Some (queue ++ [document])
               /\ progressTracker st' = progressTracker st
          else sharedQueue st' = Some queue
               /\ progressTracker st'
                  = option_map recordError (progressTracker st)))
  /\ (forall o st0,
        useCaseQueue o = true ->
        handle_result o workerId document None ts ts1 ts2 st0 = st0).
Proof.
  intros Hq n. split.
  - exists (handle_failure workerId document ts ts1 ts2 queue st). split.
    + unfold process_document, duplicate_check, handle_result. cbn.
      now rewrite Hq.
    + destruct (handle_failure_spec workerId document ts ts1 ts2 queue st)
        as (H1 & _ & H3 & _ & _ & H6).
      now repeat split.
  - intros o st0 Ho. unfold handle_result. now rewrite Ho.
Qed.

(** C10.  [checkDocumentExistsByUrl] does not throw, and it answers
    [false] when the lookup fails with an error whose code is not
    PGRST116 (or when the lookup throws); the worker then goes on to the
    extraction and handles its result. *)
Theorem checkDocumentExistsByUrl_failure (r : Store.response Store.document_summary)
    (e : Store.pg_error) :
  Store.error r = Some e ->
  Store.code e <> "PGRST116" ->
  (forall o, exists b, checkDocumentExistsByUrl o = Uploader.Normal b)
  /\ checkDocumentExistsByUrl (Resolved r) = Uploader.Normal false
  /\ (forall msg, checkDocumentExistsByUrl (Rejected msg) = Uploader.Normal false)
  /\ (forall o workerId document extraction ts ts1 ts2 st,
        checkDuplicates o = true -> useCaseQueue o = true ->
        isInPipeline (pipelineFile st) document = false ->
        process_document o workerId document (Resolved r) extraction
          ts ts1 ts2 st
        = Uploader.Normal
            (handle_result o workerId document extraction ts ts1 ts2 st)).
Proof.
  intros He Hcode.
  assert (Hfalse : checkDocumentExistsByUrl (Resolved r) = Uploader.Normal false).
  { unfold checkDocumentExistsByUrl, checkDocumentExistsByUrl_try. rewrite He.
    destruct (String.eqb_spec (Store.code e) "PGRST116"); [contradiction | reflexivity]. }
  split; [|split; [exact Hfalse | split; [reflexivity|]]].
  - intros o. unfold checkDocumentExistsByUrl.
    destruct (checkDocumentExistsByUrl_try o); eexists; reflexivity.
  - intros o workerId document extraction ts ts1 ts2 st Hd Hc Hp.
    unfold process_document, duplicate_check. now rewrite Hd, Hp, Hfalse, Hc.
Qed.

End WorkerFacts.

(** The claim that every worker mode records the failure fails for the
    case-based pattern: the unit is not a duplicate, its extraction gives
    no result, and the worker leaves everything as it was; the ledger has
    no failure for the unit. *)
Lemma worker_failure_counterexample :
  Worker.process_document Worker.case_based_mode 1 Examples.testimony
    Examples.not_found None
    "2025-01-01T00:00:01.000Z" "2025-01-01T00:00:01.000Z"
    "2025-01-01T00:00:01.000Z" (Examples.idle_pool None)
  = Uploader.Normal (Examples.idle_pool None)
  /\ Retry.attemptNumber (Worker.retryQueue (Examples.idle_pool None)) "q-1" = 0.
Proof. split; reflexivity. Qed.

Lemma worker_failure_witness :
  exists st',
    Worker.process_document Worker.shared_queue_mode 1 Examples.testimony
      Examples.not_found None
      "2025-01-01T00:00:01.000Z" "2025-01-01T00:00:01.000Z"
      "2025-01-01T00:00:01.000Z" (Examples.idle_pool (Some []))
    = Uploader.Normal st'
    /\ Retry.attemptNumber (Worker.retryQueue st') "q-1" = 1
    /\ Worker.sharedQueue st' = Some [Examples.testimony].
Proof.
  destruct (proj1 (worker_failure 1 Examples.testimony Examples.not_found
                     "2025-01-01T00:00:01.000Z" "2025-01-01T00:00:01.000Z"
                     "2025-01-01T00:00:01.000Z" [] (Examples.idle_pool (Some []))
                     eq_refl))
    as (st' & Hrun & Hn & _ & Hq).
  exists st'. split; [exact Hrun|]. split; [exact Hn|]. exact (proj1 Hq).
Defined.

Lemma checkDocumentExistsByUrl_failure_witness :
  Worker.checkDocumentExistsByUrl Examples.gateway_timeout = Uploader.Normal false.
Proof.
  refine (proj1 (proj2 (checkDocumentExistsByUrl_failure
                          (Store.failed {| Store.code := "504";
                                           Store.message := "upstream request timeout" |})
                          _ eq_refl _))).
  discriminate.
Defined.

(** ** The case queue *)

Section QueueFacts.
Import Queue QueueProps.

Ltac segment_cases :=
  unfold drained, timed_out, reaches_lock, segment, wait_for_lock, take_case,
    elapsed, adaptive_timeout, baseWaitTime, extendedWaitTime;
  cbn [now1 now2 discoveryComplete caseQueue lockInUse].

(** When a stretch of [getNextCase] returns [null]. *)
Lemma segment_null (startTime : Z) (p : position) (o : observation)
    (q : list case_bundle) :
  segment startTime p o = Return None q
  <-> q = caseQueue o
      /\ (timed_out startTime p o \/ drained startTime p o).
Proof.
  destruct o as [n1 n2 dc cq lk]. segment_cases.
  destruct p, dc, lk, cq as [|c cq];
    repeat match goal with
           | |- context [Z.ltb ?a ?b] => destruct (Z.ltb_spec a b)
           end;
    cbn; split; intros Hseg;
    try discriminate;
    try (injection Hseg as <-);
    try solve [intuition (try discriminate; try congruence; try lia)].
Qed.

(** When it returns a case. *)
Lemma segment_case (startTime : Z) (p : position) (o : observation)
    (c : case_bundle) (q : list case_bundle) :
  segment startTime p o = Return (Some c) q
  <-> reaches_lock startTime p o
      /\ lockInUse o = false
      /\ caseQueue o = c :: q.
Proof.
  destruct o as [n1 n2 dc cq lk]. segment_cases.
  destruct p, dc, lk, cq as [|c0 cq];
    repeat match goal with
           | |- context [Z.ltb ?a ?b] => destruct (Z.ltb_spec a b)
           end;
    cbn; split; intros Hseg;
    try discriminate;
    try (injection Hseg as <- <-);
    try solve [intuition (try discriminate; try congruence; try lia)].
Qed.

(** When it goes on waiting for a case. *)
Lemma segment_waits (startTime : Z) (p : position) (o : observation) :
  reaches_lock startTime p o -> lockInUse o = false ->
  caseQueue o = [] -> discoveryComplete o = false ->
  segment startTime p o = Sleep 1000 LoopTop.
Proof.
  destruct o as [n1 n2 dc cq lk]. segment_cases.
  intros Hr -> -> ->. destruct p; [|reflexivity].
  destruct (Z.ltb_spec 120000 (n1 - startTime)); [|reflexivity].
  destruct Hr; [discriminate | lia].
Qed.

(** The result of a call is the result of one of its stretches. *)
Lemma getNextCase_from_segment (startTime : Z) (obs : list observation) :
  forall p r q,
    getNextCase_from startTime p obs = Some (r, q) ->
    exists p' o, In o obs /\ segment startTime p' o = Return r q.
Proof.
  induction obs as [|o obs IH]; intros p r q H; [discriminate|].
  cbn [getNextCase_from] in H.
  destruct (segment startTime p o) as [r' q'|ms p'] eqn:E.
  - injection H as <- <-. exists p, o. split; [now left | assumption].
  - destruct (IH _ _ _ H) as (p'' & o' & Hin & Hseg).
    exists p'', o'. split; [now right | assumption].
Qed.

(** C6 (amended).  [getNextCase] returns [null] in two situations: at
    the top of its loop when more than the adaptive timeout (30 s once
    discovery is complete, 120 s before) has passed since the call,
    whatever the flag and the queue hold; or, before that, as soon as it
    finds the queue empty with discovery complete.  Before the timeout,
    with the lock free, it returns the front of a non-empty queue and
    removes it, and with an empty queue and discovery not complete it
    sleeps a second and tries again. *)
Theorem getNextCase_returns (startTime : Z) (obs : list observation) :
  (forall q,
      getNextCase startTime obs = Some (None, q) ->
      exists p o,
        In o obs /\ q = caseQueue o
        /\ (timed_out startTime p o \/ drained startTime p o))
  /\ (forall c q,
        getNextCase startTime obs = Some (Some c, q) ->
        exists p o,
          In o obs /\ reaches_lock startTime p o
          /\ lockInUse o = false /\ caseQueue o = c :: q)
  /\ (forall p o q,
        segment startTime p o = Return None q
        <-> q = caseQueue o
            /\ (timed_out startTime p o \/ drained startTime p o))
  /\ (forall p o c q,
        segment startTime p o = Return (Some c) q
        <-> reaches_lock startTime p o
            /\ lockInUse o = false /\ caseQueue o = c :: q)
  /\ (forall p o,
        reaches_lock startTime p o -> lockInUse o = false ->
        caseQueue o = [] -> discoveryComplete o = false ->
        segment startTime p o = Sleep 1000 LoopTop).
Proof.
  split; [|split; [|split; [|split]]].
  - intros q H. destruct (getNextCase_from_segment _ _ _ _ _ H) as (p & o & Hin & Hseg).
    exists p, o. split; [assumption|]. now apply segment_null.
  - intros c q H. destruct (getNextCase_from_segment _ _ _ _ _ H) as (p & o & Hin & Hseg).
    exists p, o. split; [assumption|]. now apply segment_case.
  - intros p o q. apply segment_null.
  - intros p o c q. apply segment_case.
  - intros p o. apply segment_waits.
Qed.

End QueueFacts.

(** The claim that [null] comes only after the timeout, with discovery
    complete and the queue empty, fails twice: with discovery complete and
    the queue empty the call returns [null] at once, and after two minutes
    it returns [null] although discovery is not complete and the queue
    holds a case. *)
Lemma getNextCase_counterexample :
  (Queue.getNextCase 0 [Examples.done_and_empty] = Some (None, [])
   /\ (Queue.elapsed 0 Examples.done_and_empty
       < Queue.adaptive_timeout Examples.done_and_empty)%Z)
  /\ (Queue.getNextCase 0 [Examples.late_with_work]
      = Some (None, [Examples.bundle])
      /\ Queue.discoveryComplete Examples.late_with_work = false
      /\ Queue.caseQueue Examples.late_with_work = [Examples.bundle]).
Proof. repeat split. Qed.

(** ** The pipeline snapshot *)

Section PipelineFacts.
Import Pipeline.

(** Marking a document keeps the case list and the markers, and adds the
    marker of the document if it is new. *)
Lemma updatePipelineAfterDocument_markers (documentName caseNumber : string)
    (pd : pipeline_data) :
  let f' := updatePipelineAfterDocument documentName caseNumber (Some pd) in
  option_map cases f' = Some (cases pd)
  /\ markers f'
     = if array_includes (markers (Some pd)) (docKey caseNumber documentName)
       then markers (Some pd)
       else markers (Some pd) ++ [docKey caseNumber documentName].
Proof.
  unfold updatePipelineAfterDocument, loadPipelineData, markers.
  destruct pd as [ts n cs [l|] st];
    cbn [processedDocuments cases timestamp totalCases status].
  - destruct (array_includes l (docKey caseNumber documentName)); now split.
  - unfold array_includes. cbn. split; reflexivity.
Qed.

(** Removing a completed case keeps the markers. *)
Lemma removeCompletedCaseFromPipeline_markers (ts completedCaseNumber : string)
    (f : file) :
  markers (removeCompletedCaseFromPipeline ts completedCaseNumber f) = markers f.
Proof.
  unfold removeCompletedCaseFromPipeline, loadPipelineData.
  destruct f as [[ts' n cs [l|] st]|]; [| |reflexivity];
    cbn [cases processedDocuments];
    now destruct (length _ <? length cs).
Qed.

(** C7 (code bug).  [savePipeline] overwrites the file with the case
    list it is given, and with an empty list of processed documents: the
    markers recorded before are gone. *)
Theorem savePipeline_markers (ts : string) (discoveredCases : list Store.caseInfo)
    (f : file) :
  option_map cases (savePipeline ts discoveredCases f) = Some discoveredCases
  /\ option_map totalCases (savePipeline ts discoveredCases f)
     = Some (length discoveredCases)
  /\ markers (savePipeline ts discoveredCases f) = [].
Proof. repeat split. Qed.

(** A document is marked, the next discovery batch is saved, and the
    marker is gone. *)
Example savePipeline_marked_file :
  markers Examples.marked_file = ["IPC-E-24-01:Application"]
  /\ markers (updatePipelineAfterDocument "Direct Testimony" "IPC-E-24-01"
                Examples.marked_file)
     = ["IPC-E-24-01:Application"; "IPC-E-24-01:Direct Testimony"]
  /\ markers (savePipeline "2025-01-01T00:10:00.000Z" [Examples.ipc_case]
                (updatePipelineAfterDocument "Direct Testimony" "IPC-E-24-01"
                   Examples.marked_file))
     = [].
Proof. repeat split. Qed.

End PipelineFacts.

(** ** The run and its final verification *)

Section CrawlFacts.
Import Crawl.

Lemma scan_listing_nothing (in_range : Store.caseInfo -> bool) (l : listing)
    (allDiscoveredCases : list Store.caseInfo) :
  scan_listing in_range allDiscoveredCases l = allDiscoveredCases.
Proof.
  unfold scan_listing. generalize (seq 1 (totalPages l)).
  intros pages. induction pages as [|pageNum pages IH]; [reflexivity|].
  exact IH.
Qed.

(** C8.  The scan of the final verification finds no case: every pass
    of its loop over the pages ends in the ReferenceError of line 2321,
    so it returns the empty list whenever the browser works.  Hence the
    verification never reports a missing case: it passes whenever the
    scan returns and the store answers with rows, whatever the store
    holds, and it reports an error otherwise.  When discovery and the
    workers return, [crawlHistoricalData] deletes the pipeline file once
    the verification has run, whatever it reports. *)
Theorem crawlHistoricalData_clears (in_range : Store.caseInfo -> bool)
    (discover_and_process : files -> files)
    (verification : verification_input) (f : files) :
  let '(f', report) :=
    crawlHistoricalData in_range discover_and_process verification f in
  pipelineFile f' = None
  /\ report = performFinalVerification in_range verification
  /\ runCompleteDiscoveryScan in_range None = Uploader.Normal []
  /\ (forall missing, report <> VerificationFailed missing)
  /\ (report = VerificationPassed
      <-> scan_trouble verification = None
          /\ exists dbCases,
               query verification
               = Answered {| Store.data := Some dbCases;
                             Store.error := None |}).
Proof.
  assert (Hscan : runCompleteDiscoveryScan in_range None = Uploader.Normal []).
  { unfold runCompleteDiscoveryScan, CASE_LISTING_URLS. cbn [fold_left].
    now rewrite !scan_listing_nothing. }
  assert (Hreport :
            (forall missing,
               performFinalVerification in_range verification
               <> VerificationFailed missing)
            /\ (performFinalVerification in_range verification
                = VerificationPassed
                <-> scan_trouble verification = None
                    /\ exists dbCases,
                         query verification
                         = Answered {| Store.data := Some dbCases;
                                       Store.error := None |})).
  { unfold performFinalVerification.
    destruct (scan_trouble verification) as [msg|].
    - cbn. split; [discriminate|]. split; [discriminate|].
      now intros [[=] _].
    - rewrite Hscan.
      destruct (query verification) as [[[dbCases|] [e|]]|msg]; cbn;
        (split; [discriminate|]); split;
        try discriminate; try (now intros [_ [? [=]]]).
      intros _. split; [reflexivity|]. now exists dbCases. }
  unfold crawlHistoricalData, buildMultiYearQueue.
  destruct (Pipeline.loadPipeline (pipelineFile f)) as [[|c cs]|];
    (split; [reflexivity|]; split; [reflexivity|]; split; [exact Hscan|];
     exact Hreport).
Qed.

End CrawlFacts.

(** The pipeline file is deleted although nothing was verified: the run
    has written the file for a case and the store holds no case, and the
    verification passes; the store answers the verification with an
    error, and the file is deleted as well. *)
Lemma crawlHistoricalData_counterexample :
  Crawl.pipelineFile (Examples.discover_one Examples.no_files) <> None
  /\ Crawl.crawlHistoricalData Examples.filed_2010_to_2024
       Examples.discover_one Examples.empty_store Examples.no_files
     = ({| Crawl.pipelineFile := None; Crawl.checkpointFile := false |},
        Crawl.VerificationPassed)
  /\ Crawl.crawlHistoricalData Examples.filed_2010_to_2024
       Examples.discover_one Examples.store_down Examples.no_files
     = ({| Crawl.pipelineFile := None; Crawl.checkpointFile := false |},
        Crawl.VerificationError).
Proof. split; [discriminate|]. split; reflexivity. Qed.

(** ** The retry ledger over a history of failures *)

Section LedgerFacts.
Import Retry RetryProps.

Lemma calls_of_app (queueId : string) (l1 l2 : list call) :
  calls_of queueId (l1 ++ l2) = calls_of queueId l1 ++ calls_of queueId l2.
Proof. apply List.filter_app. Qed.

Lemma ledger_entry_snoc (cs : list call) (c : call) :
  ledger_entry (cs ++ [c])
  = Some {| attempts :=
              match ledger_entry cs with
              | Some r => attempts r
              | None => []
              end ++ [attempt_of c];
            lastError := error (call_info c);
            rec_documentName :=
              match ledger_entry cs with
              | Some r => rec_documentName r
              | None => documentName (call_info c)
              end;
            rec_caseNumber :=
              match ledger_entry cs with
              | Some r => rec_caseNumber r
              | None => caseNumber (call_info c)
              end |}.
Proof.
  destruct cs as [|c0 cs]; [reflexivity|].
  cbn [ledger_entry app]. rewrite app_comm_cons, last_snoc.
  cbn [attempts rec_documentName rec_caseNumber].
  now rewrite map_app.
Qed.

Lemma recordFailure_entry (q : SmartRetryQueue) (c : call) (cs : list call) :
  failedDocuments q !! call_queueId c = ledger_entry cs ->
  failedDocuments
    (fst (recordFailure q (call_queueId c) (call_info c) (call_timestamp c)))
    !! call_queueId c
  = ledger_entry (cs ++ [c]).
Proof.
  intros Hq. rewrite ledger_entry_snoc.
  unfold recordFailure. cbn [fst failedDocuments].
  rewrite lookup_insert_eq, Hq.
  now destruct (ledger_entry cs).
Qed.

Lemma recordFailure_other (q : SmartRetryQueue) (queueId other : string)
    (a : attemptInfo) (ts : string) :
  other <> queueId ->
  failedDocuments (fst (recordFailure q queueId a ts)) !! other
  = failedDocuments q !! other.
Proof.
  intros Hne. unfold recordFailure. cbn [fst failedDocuments].
  now rewrite lookup_insert_ne.
Qed.

Lemma recordFailures_cons (q : SmartRetryQueue) (c : call) (calls : list call) :
  recordFailures q (c :: calls)
  = recordFailures
      (fst (recordFailure q (call_queueId c) (call_info c) (call_timestamp c)))
      calls.
Proof. reflexivity. Qed.

Lemma recordFailures_entry (queueId : string) (calls : list call) :
  forall (q : SmartRetryQueue) (before : list call),
    failedDocuments q !! queueId = ledger_entry (calls_of queueId before) ->
    failedDocuments (recordFailures q calls) !! queueId
    = ledger_entry (calls_of queueId (before ++ calls)).
Proof.
  induction calls as [|c calls IH]; intros q before Hq.
  - now rewrite app_nil_r.
  - rewrite recordFailures_cons.
    replace (before ++ c :: calls) with ((before ++ [c]) ++ calls)
      by now rewrite <- app_assoc.
    apply IH. rewrite calls_of_app. unfold calls_of at 2. cbn [List.filter].
    destruct (String.eqb_spec (call_queueId c) queueId) as [<-|Hne].
    + now apply recordFailure_entry.
    + rewrite app_nil_r, recordFailure_other by congruence. exact Hq.
Qed.

Lemma recordFailures_maxRetries (calls : list call) :
  forall q, maxRetries (recordFailures q calls) = maxRetries q.
Proof.
  induction calls as [|c calls IH]; intros q; [reflexivity|].
  rewrite recordFailures_cons. now rewrite IH.
Qed.

Lemma ledger_entry_length (cs : list call) :
  match ledger_entry cs with
  | Some r => length (attempts r) = length cs /\ cs <> []
  | None => cs = []
  end.
Proof.
  destruct cs as [|c cs]; [reflexivity|].
  cbn [ledger_entry attempts]. now rewrite length_map.
Qed.

(** X1.  After any sequence of [recordFailure] calls on a new ledger, the
    record of a queue id is determined by the calls made for that id: it
    is missing when there was none, and otherwise holds their attempts in
    order, the document and case names of the first call and the error of
    the last.  The id is retried exactly while it has no failure or fewer
    than [maxRetries], and [shouldBlacklist] answers the opposite of
    [shouldRetry]. *)
Theorem ledger_after_failures (maxRetries : nat) (calls : list call)
    (queueId : string) :
  let q := recordFailures (new maxRetries) calls in
  let n := length (calls_of queueId calls) in
  failedDocuments q !! queueId = ledger_entry (calls_of queueId calls)
  /\ attemptNumber q queueId = n
  /\ shouldRetry q queueId = (n =? 0) || (n <? maxRetries)
  /\ (forall ts file,
        fst (shouldBlacklist q queueId ts file) = negb (shouldRetry q queueId)).
Proof.
  intros q n.
  assert (Hq : failedDocuments q !! queueId = ledger_entry (calls_of queueId calls)).
  { apply (recordFailures_entry queueId calls (new maxRetries) []).
    apply lookup_empty. }
  assert (Hm : Retry.maxRetries q = maxRetries)
    by apply recordFailures_maxRetries.
  pose proof (ledger_entry_length (calls_of queueId calls)) as Hlen.
  unfold attemptNumber, shouldRetry, shouldBlacklist, shouldBlacklist_in.
  rewrite Hq, Hm. fold n in Hlen |- *.
  destruct (ledger_entry (calls_of queueId calls)) as [r|].
  - destruct Hlen as [Hlen Hne]. rewrite Hlen.
    assert (n <> 0) by (unfold n; now destruct (calls_of queueId calls)).
    destruct (Nat.eqb_spec n 0) as [|_]; [lia|]. cbn [orb].
    repeat split; try reflexivity. intros ts file.
    rewrite Nat.ltb_antisym.
    now destruct (maxRetries <=? n).
  - unfold n. rewrite Hlen. cbn. repeat split; reflexivity.
Qed.

End LedgerFacts.

(** ** Progressive timing *)

Section SpeedFacts.
Import Retry.

Lemma at_index_min {A} (l : list A) (n : nat) :
  l <> [] ->
  at_index l (Z.min (Z.of_nat n) (Z.of_nat (length l) - 1))
  = l !! Nat.min n (length l - 1).
Proof.
  intros Hl. unfold at_index.
  assert (0 < length l) by (destruct l; [congruence | cbn; lia]).
  destruct (Z.ltb_spec (Z.min (Z.of_nat n) (Z.of_nat (length l) - 1)) 0);
    [lia|].
  f_equal. lia.
Qed.

(** The entry of a table of three that an attempt number selects. *)
Lemma tier_cases (n : nat) :
  Nat.min n 2 = 0 /\ n = 0 \/ Nat.min n 2 = 1 /\ n = 1
  \/ Nat.min n 2 = 2 /\ 2 <= n.
Proof. lia. Qed.

(** X2.  Whatever the ledger holds, [getNextAttemptSpeed] and
    [getIframeAttemptSpeed] return an entry of their table (never
    [undefined]); recording one more failure for the document never
    shortens the wait, leaves the timing of every other document as it
    was, and from the second failure on the entry is the last one of the
    table ("slow", "very_patient"). *)
Theorem attempt_speed_escalates (q : SmartRetryQueue)
    (queueId documentType : string) (a : attemptInfo) (ts : string) :
  let q' := fst (recordFailure q queueId a ts) in
  (exists s s',
      getNextAttemptSpeed q queueId documentType = Some s
      /\ getNextAttemptSpeed q' queueId documentType = Some s'
      /\ In s (timingConfig documentType)
      /\ (Config.wait s <= Config.wait s')%Z
      /\ (2 <= attemptNumber q queueId ->
          Config.name s = "slow" /\ s' = s))
  /\ (exists i i',
        getIframeAttemptSpeed q queueId = Some i
        /\ getIframeAttemptSpeed q' queueId = Some i'
        /\ In i Config.IFRAME_ACCESS_ATTEMPTS
        /\ (Config.wait i <= Config.wait i')%Z
        /\ (2 <= attemptNumber q queueId ->
            Config.name i = "very_patient" /\ i' = i))
  /\ (forall other,
        other <> queueId ->
        getNextAttemptSpeed q' other documentType
        = getNextAttemptSpeed q other documentType
        /\ getIframeAttemptSpeed q' other = getIframeAttemptSpeed q other).
Proof.
  intros q'.
  assert (Hn : attemptNumber q' queueId = S (attemptNumber q queueId))
    by apply attemptNumber_recordFailure.
  assert (Hother : forall other, other <> queueId ->
            attemptNumber q' other = attemptNumber q other).
  { intros other Hne. unfold attemptNumber, q', recordFailure.
    cbn [fst failedDocuments]. now rewrite lookup_insert_ne. }
  split; [|split].
  - unfold getNextAttemptSpeed.
    rewrite !at_index_min, Hn
      by (unfold timingConfig; destruct (String.eqb _ _); discriminate).
    rewrite timingConfig_length. change (3 - 1) with 2.
    unfold timingConfig.
    destruct (String.eqb documentType "weblink_iframe");
      destruct (tier_cases (attemptNumber q queueId))
        as [[-> ->]|[[-> ->]|[-> Hge]]];
      try replace (Nat.min (S (attemptNumber q queueId)) 2) with 2 by lia;
      cbn; eexists; eexists;
      (split; [reflexivity|]); (split; [reflexivity|]);
      (split; [tauto|]); (split; [cbn; lia|]);
      intros; try lia; split; reflexivity.
  - unfold getIframeAttemptSpeed.
    rewrite !at_index_min, Hn by discriminate.
    change (length Config.IFRAME_ACCESS_ATTEMPTS - 1) with 2.
    destruct (tier_cases (attemptNumber q queueId))
      as [[-> ->]|[[-> ->]|[-> Hge]]];
      try replace (Nat.min (S (attemptNumber q queueId)) 2) with 2 by lia;
      cbn; eexists; eexists;
      (split; [reflexivity|]); (split; [reflexivity|]);
      (split; [tauto|]); (split; [cbn; lia|]);
      intros; try lia; split; reflexivity.
  - intros other Hne.
    unfold getNextAttemptSpeed, getIframeAttemptSpeed.
    now rewrite (Hother other Hne).
Qed.

End SpeedFacts.

(** ** The chunks of a clean text are windows over its words *)

Section WindowFacts.
Import Js Props WindowProps.

Variable uuidv4 : nat -> string.
Variable clock : nat -> string.
Variables (documentId caseId : nat) (md : Chunker.documentMetadata).

Local Abbreviation make_chunk := (Chunker.make_chunk uuidv4 clock documentId caseId md).
Local Abbreviation loop_body := (Chunker.loop_body uuidv4 clock documentId caseId md).
Local Abbreviation run_loop := (Chunker.run_loop uuidv4 clock documentId caseId md).
Local Abbreviation finish := (Chunker.finish uuidv4 clock documentId caseId md).
Local Abbreviation createChunks := (Chunker.createChunks uuidv4 clock documentId caseId md).

Lemma window_words (ws : list text) (a k : nat) :
  Forall word ws -> Forall word (drop a (take k ws)).
Proof. intros H. now apply Forall_drop, Forall_take. Qed.

Lemma window_grows (ws : list text) (a k : nat) (w : text) :
  ws !! k = Some w -> a <= k ->
  drop a (take (S k) ws) = drop a (take k ws) ++ [w].
Proof.
  intros Hw Hak. rewrite (take_S_r ws k w Hw).
  apply drop_app_le. rewrite length_take.
  apply lookup_lt_Some in Hw. lia.
Qed.

Lemma window_empty (ws : list text) (a k : nat) :
  Forall word ws -> k <= length ws ->
  window ws (a, k) = [] <-> k <= a.
Proof.
  intros Hws Hk. unfold window. cbn [fst snd]. split.
  - intros Hnil. destruct (Nat.le_gt_cases k a) as [|Hlt]; [assumption|].
    exfalso. revert Hnil. apply join_nonempty; [now apply window_words|].
    intros Hd. apply (f_equal length) in Hd.
    rewrite length_drop, length_take in Hd. cbn in Hd. lia.
  - intros Hle. rewrite drop_ge; [reflexivity|]. rewrite length_take. lia.
Qed.

Lemma window_overlap (ws : list text) (a k : nat) :
  a < k -> k <= length ws ->
  slice_last overlap_words (drop a (take k ws))
  = drop (a + (k - a - overlap_words)) (take k ws).
Proof.
  intros Hak Hk. unfold slice_last.
  destruct (Nat.eqb_spec overlap_words 0) as [H0|_];
    [now destruct overlap_words_pos|].
  rewrite drop_drop, length_drop, length_take.
  replace (Nat.min k (length ws)) with k by lia. reflexivity.
Qed.

Lemma follows_grows (p : nat * nat) (a k : nat) :
  follows p (a, k) -> follows p (a, S k).
Proof. unfold follows. cbn [fst snd]. lia. Qed.

Lemma adjacent_grows (bs : list (nat * nat)) (a k : nat) :
  adjacent follows (bs ++ [(a, k)]) -> adjacent follows (bs ++ [(a, S k)]).
Proof.
  rewrite !adjacent_snoc. intros [Hadj Hlast]. split; [assumption|].
  intros p Hp. now apply follows_grows, Hlast.
Qed.

Lemma head_snoc_grows (bs : list (nat * nat)) (a k k' : nat) :
  (forall b, head (bs ++ [(a, k)]) = Some b -> fst b = 0) ->
  forall b, head (bs ++ [(a, k')]) = Some b -> fst b = 0.
Proof.
  destruct bs as [|b0 bs]; cbn; intros H b [= <-]; [|now apply H].
  now apply (H (a, k)).
Qed.

(** One iteration on the next word keeps the buffer a window that ends
    with that word. *)
Lemma windows_step (ws : list text) (k : nat) (st : Chunker.loop_state)
    (bs : list (nat * nat)) (a : nat) (w : text) :
  Forall word ws -> ws !! k = Some w ->
  windows_inv ws k st bs a ->
  exists bs' a', windows_inv ws (S k) (loop_body st w) bs' a'.
Proof.
  intros Hws Hw (Hcont & Hcur & Hidx & Hak & Hhead & Hall & Hadj).
  assert (Hk : k < length ws) by now apply lookup_lt_Some in Hw.
  destruct (loop_body_cases uuidv4 clock documentId caseId md st w)
    as [(Hbig & Hne & ->)|(Hsmall & ->)].
  - assert (Hlt : a < k).
    { destruct Hak as [|(-> & -> & _)]; [assumption|].
      now rewrite Hcur in Hne. }
    exists (bs ++ [(a, k)]), (a + (k - a - overlap_words)).
    unfold windows_inv.
    cbn [Chunker.chunks Chunker.currentChunk Chunker.chunkIndex].
    split; [|split; [|split; [|split; [|split; [|split]]]]].
    + rewrite !map_app, Hcont. cbn [map Chunker.content]. now rewrite Hcur.
    + rewrite Hcur. unfold window at 1. cbn [fst snd].
      rewrite seed_of_words.
      * rewrite window_overlap by lia. unfold window. cbn [fst snd].
        rewrite (window_grows ws _ k w Hw) by lia. reflexivity.
      * now apply window_words.
      * intros Hd. apply (f_equal length) in Hd.
        rewrite length_drop, length_take in Hd. cbn in Hd. lia.
    + rewrite length_app. cbn. lia.
    + left. lia.
    + intros b Hb. apply Hhead. revert Hb. rewrite <- app_assoc.
      destruct bs; cbn; [intros [= <-]|]; trivial.
    + apply Forall_app. split.
      * eapply Forall_impl; [exact Hall|]. cbn. intros. lia.
      * apply Forall_singleton. cbn. lia.
    + apply adjacent_snoc. split; [assumption|].
      intros p Hp. rewrite last_snoc in Hp. injection Hp as <-.
      unfold follows. cbn [fst snd]. lia.
  - exists bs, a. unfold windows_inv.
    cbn [Chunker.chunks Chunker.currentChunk Chunker.chunkIndex].
    split; [assumption|].
    split; [|split; [assumption|split; [|split; [|split]]]].
    + destruct Hak as [Hlt|(-> & -> & _)].
      * assert (Hne : Chunker.currentChunk st <> []).
        { rewrite Hcur. intros Hnil. apply window_empty in Hnil; [lia|assumption|lia]. }
        rewrite testChunk_nonempty, Hcur by assumption.
        unfold window. cbn [fst snd].
        rewrite (window_grows ws a k w Hw) by lia.
        rewrite join_snoc; [reflexivity|].
        intros Hd. apply (f_equal length) in Hd.
        rewrite length_drop, length_take in Hd. cbn in Hd. lia.
      * rewrite testChunk_empty by (rewrite Hcur; reflexivity).
        unfold window. cbn [fst snd].
        now rewrite (window_grows ws 0 0 w Hw) by lia.
    + destruct Hak as [|(_ & -> & _)]; left; lia.
    + now apply head_snoc_grows with (k := k).
    + eapply Forall_impl; [exact Hall|]. cbn. intros. lia.
    + now apply adjacent_grows.
Qed.

Lemma windows_run (ws : list text) (k : nat) :
  Forall word ws -> k <= length ws ->
  exists bs a, windows_inv ws k (run_loop (take k ws) Chunker.init) bs a.
Proof.
  intros Hws. induction k as [|k IH]; intros Hk.
  - exists [], 0. unfold windows_inv. cbn.
    repeat split; try reflexivity; auto.
    intros b [= <-]. reflexivity.
  - destruct IH as (bs & a & Hinv); [lia|].
    destruct (lookup_lt_is_Some_2 ws k) as [w Hw]; [lia|].
    rewrite (take_S_r ws k w Hw), run_loop_app.
    now apply windows_step with (bs := bs) (a := a).
Qed.

(** A window lies in the text it is taken from. *)
Lemma window_infix (ws : list text) (a b : nat) :
  a < b <= length ws ->
  exists pre post, join ws = pre ++ window ws (a, b) ++ post.
Proof.
  intros Hab. unfold window. cbn [fst snd].
  set (m := drop a (take b ws)).
  assert (Hm : m <> []).
  { intros Hd. apply (f_equal length) in Hd. unfold m in Hd.
    rewrite length_drop, length_take in Hd. cbn in Hd. lia. }
  assert (Hsplit : ws = (take a (take b ws) ++ m) ++ drop b ws)
    by (unfold m; now rewrite !take_drop).
  enough (Hgoal : exists pre post,
            join ((take a (take b ws) ++ m) ++ drop b ws)
            = pre ++ join m ++ post)
    by now rewrite <- Hsplit in Hgoal.
  clear Hsplit.
  assert (Hpm : exists pre, join (take a (take b ws) ++ m) = pre ++ join m).
  { destruct (take a (take b ws)) as [|x l] eqn:Hp.
    - now exists [].
    - rewrite join_app by (assumption || discriminate).
      exists (join (x :: l) ++ [space]). now rewrite <- app_assoc. }
  destruct Hpm as [pre Hpre].
  destruct (drop b ws) as [|y s'] eqn:Hs.
  - rewrite app_nil_r, Hpre. exists pre, []. now rewrite app_nil_r.
  - rewrite join_app; [|now destruct (take a (take b ws))|discriminate].
    rewrite Hpre. exists pre, (space :: join (y :: s')).
    now rewrite <- app_assoc.
Qed.

(** Windows that tile the words leave no word out. *)
Lemma tiles_cover (n : nat) (rest : list (nat * nat)) :
  forall a b i,
    adjacent follows ((a, b) :: rest) ->
    Forall (fun ab => fst ab < snd ab <= n) ((a, b) :: rest) ->
    (exists a', last ((a, b) :: rest) = Some (a', n)) ->
    a <= i < n ->
    Exists (fun ab => fst ab <= i < snd ab) ((a, b) :: rest).
Proof.
  induction rest as [|[a1 b1] rest IH]; intros a b i Hadj Hall [a' Hlast] Hi.
  - cbn in Hlast. injection Hlast as <- <-. now left.
  - destruct (Nat.lt_ge_cases i b) as [Hlt|Hge]; [left; cbn; lia|].
    right. destruct Hadj as [[Ha1 _] Hadj]. cbn [fst snd] in Ha1.
    apply Forall_cons in Hall as [Hab Hall]. cbn [fst snd] in Hab.
    apply IH; try assumption; [now exists a' | lia].
Qed.

(** X3.  For a text made of words with single spaces between them, the
    contents of the chunks are windows over the words: the first starts
    with the first word, the last ends with the last word, each next
    window starts with the last 20 words of the one before it (all its
    words, when it has fewer) and goes on after it.  So every word of the
    text lies in some chunk, and every chunk is a piece of the text. *)
Theorem createChunks_windows (ws : list text) (t : text) :
  clean ws t ->
  exists bs,
    map Chunker.content (createChunks t) = map (window ws) bs
    /\ tiles (length ws) bs
    /\ (forall i, i < length ws ->
          Exists (fun ab => fst ab <= i < snd ab) bs)
    /\ (forall c, In c (createChunks t) ->
          exists pre post, t = pre ++ Chunker.content c ++ post).
Proof.
  intros (Hws & Hne & ->).
  destruct (windows_run ws (length ws) Hws (Nat.le_refl _))
    as (bs & a & Hcont & Hcur & Hidx & Hak & Hhead & Hall & Hadj).
  rewrite take_ge in * by lia.
  assert (Hn : 0 < length ws) by (destruct ws; [congruence | cbn; lia]).
  assert (Hlt : a < length ws) by (destruct Hak as [|[? _]]; lia).
  assert (Hfin : createChunks (join ws)
                 = Chunker.chunks (run_loop ws Chunker.init)
                   ++ [make_chunk (window ws (a, length ws))
                         (Chunker.chunkIndex (run_loop ws Chunker.init))]).
  { unfold Chunker.createChunks. rewrite split_join by assumption.
    destruct (finish_cases uuidv4 clock documentId caseId md
                (run_loop ws Chunker.init)) as [[_ ->]|[Hblank _]].
    - now rewrite Hcur.
    - exfalso. rewrite Hcur in Hblank.
      assert (Hd : drop a (take (length ws) ws) <> []).
      { intros Hd. apply (f_equal length) in Hd.
        rewrite length_drop, length_take in Hd. cbn in Hd. lia. }
      unfold window in Hblank. cbn [fst snd] in Hblank.
      destruct (drop a (take (length ws) ws)) as [|x l] eqn:Hl; [congruence|].
      rewrite truthy_trim in Hblank; [discriminate|].
      apply join_starts_nonspace.
      pose proof (window_words ws a (length ws) Hws) as Hww.
      rewrite Hl in Hww. now apply Forall_cons in Hww as [? _]. }
  assert (Htiles : tiles (length ws) (bs ++ [(a, length ws)])).
  { split; [|split; [|split]].
    - destruct (head (bs ++ [(a, length ws)])) as [[a0 b0]|] eqn:Hh.
      + exists b0. now rewrite (Hhead (a0, b0) eq_refl : a0 = 0).
      + now destruct bs.
    - exists a. apply last_snoc.
    - apply Forall_app. split; [assumption|].
      apply Forall_singleton. cbn. lia.
    - assumption. }
  exists (bs ++ [(a, length ws)]).
  split; [|split; [assumption|split]].
  - rewrite Hfin, !map_app, Hcont. reflexivity.
  - intros i Hi. destruct Htiles as ([b0 Hh] & Hl & Hforall & Hadj').
    destruct (bs ++ [(a, length ws)]) as [|[a0 b1] rest]; [discriminate|].
    injection Hh as -> ->.
    apply (tiles_cover (length ws)); try assumption. lia.
  - intros c Hc.
    assert (Hin : In (Chunker.content c)
                     (map (window ws) (bs ++ [(a, length ws)]))).
    { rewrite map_app, <- Hcont. cbn [map].
      change [window ws (a, length ws)]
        with (map Chunker.content
                [make_chunk (window ws (a, length ws))
                   (Chunker.chunkIndex (run_loop ws Chunker.init))]).
      rewrite <- map_app, <- Hfin. now apply in_map. }
    apply in_map_iff in Hin as ([a0 b0] & <- & Hin).
    destruct Htiles as (_ & _ & Hforall & _).
    rewrite List.Forall_forall in Hforall.
    apply window_infix. exact (Hforall _ Hin).
Qed.

End WindowFacts.

Lemma createChunks_windows_witness :
  exists bs,
    map Chunker.content (Examples.createChunks Examples.long_words)
    = map (WindowProps.window (repeat Examples.word74 21)) bs
    /\ WindowProps.tiles 21 bs.
Proof.
  assert (Hword : Props.word Examples.word74).
  { split; [discriminate|]. apply List.Forall_forall. intros c Hc.
    apply repeat_spec in Hc. now subst c. }
  assert (Hclean : WindowProps.clean (repeat Examples.word74 21)
                     Examples.long_words).
  { split; [|split; [discriminate | reflexivity]].
    apply List.Forall_forall. intros w Hw. apply repeat_spec in Hw. now subst w. }
  destruct (createChunks_windows Examples.uuids Examples.clock 1 1
              Examples.metadata _ _ Hclean) as (bs & Hmap & Htiles & _).
  exists bs. split; [exact Hmap | exact Htiles].
Defined.

(** ** What every chunk carries *)

Section StampFacts.
Import Js Props WindowProps.

Variable uuidv4 : nat -> string.
Variable clock : nat -> string.
Variables (documentId caseId : nat) (md : Chunker.documentMetadata).

Local Abbreviation make_chunk := (Chunker.make_chunk uuidv4 clock documentId caseId md).
Local Abbreviation loop_body := (Chunker.loop_body uuidv4 clock documentId caseId md).
Local Abbreviation run_loop := (Chunker.run_loop uuidv4 clock documentId caseId md).
Local Abbreviation finish := (Chunker.finish uuidv4 clock documentId caseId md).
Local Abbreviation createChunks := (Chunker.createChunks uuidv4 clock documentId caseId md).
Local Abbreviation stamped := (stamped uuidv4 clock documentId caseId md).

(** A chunk that is stamped and whose content is not blank. *)
Local Abbreviation sound :=
  (fun c => stamped c /\ truthy (trim (Chunker.content c)) = true).

Lemma make_chunk_stamped (cur : text) (idx : nat) : stamped (make_chunk cur idx).
Proof. repeat split. Qed.

Lemma sound_step (L : nat) (st : Chunker.loop_state) (w : text) :
  buffer_of_words L st ->
  Forall sound (Chunker.chunks st) ->
  Forall sound (Chunker.chunks (loop_body st w)).
Proof.
  intros Hbuf Hall.
  destruct (loop_body_cases uuidv4 clock documentId caseId md st w)
    as [(_ & Hne & ->)|(_ & ->)]; [|assumption].
  cbn [Chunker.chunks]. apply Forall_app. split; [assumption|].
  apply Forall_singleton. split; [apply make_chunk_stamped|].
  cbn [Chunker.content Chunker.make_chunk].
  destruct (buffer_words_nonempty L st Hbuf Hne) as (ws & -> & Hwsne & Hws & _).
  destruct ws as [|x ws]; [congruence|].
  apply truthy_trim, join_starts_nonspace.
  now apply Forall_cons in Hws as [? _].
Qed.

Lemma sound_run (L : nat) (mids : list text) :
  Forall word mids -> Forall (fun w => length w <= L) mids ->
  forall st,
    buffer_of_words L st -> Forall sound (Chunker.chunks st) ->
    buffer_of_words L (run_loop mids st)
    /\ Forall sound (Chunker.chunks (run_loop mids st)).
Proof.
  induction mids as [|w mids IH]; intros Hw HL st Hbuf Hall; [now split|].
  apply Forall_cons in Hw as [Hw Hws]. apply Forall_cons in HL as [HL HLs].
  cbn [Chunker.run_loop fold_left]. apply IH; try assumption.
  - now apply buffer_step.
  - now apply sound_step with (L := L).
Qed.

(** X4.  Whatever the text, every chunk [createChunks] returns carries
    the document id, the case id and the four metadata fields it was
    called with, the identifier and the time stamp drawn for it, and the
    length of its content; and its content is never blank. *)
Theorem createChunks_stamped (t : text) :
  Forall (fun c => stamped c /\ truthy (trim (Chunker.content c)) = true)
         (createChunks t).
Proof.
  unfold Chunker.createChunks.
  destruct (split_ws_shape t) as (hd & mids & tl & -> & Hhd & Hmids & Htl).
  rewrite !run_loop_app, run_loop_leading_edge by assumption.
  destruct (init_inv [] (list_max (map length mids))) as (_ & Hbuf0 & _).
  destruct (sound_run (list_max (map length mids)) mids Hmids
              (words_bounded mids) Chunker.init Hbuf0 (List.Forall_nil _))
    as [Hbuf Hall].
  set (st := run_loop mids Chunker.init) in *.
  assert (Htail : Forall sound (Chunker.chunks (run_loop tl st))).
  { destruct Htl as [->| ->]; [assumption|].
    now apply sound_step with (L := list_max (map length mids)). }
  destruct (finish_cases uuidv4 clock documentId caseId md (run_loop tl st))
    as [[Htrim ->]|[_ ->]]; [|assumption].
  apply Forall_app. split; [assumption|].
  apply Forall_singleton. split; [apply make_chunk_stamped | exact Htrim].
Qed.

End StampFacts.

(** ** Calls of the uploader that follow one another *)

Section SequentialFacts.
Import Store Uploader StoreProps.

(** X5.  On a store with one row per case number and a cache that agrees
    with it, [ensureCaseExists] does not throw: it returns the id of the
    row of the case number, which it inserts when there is none and
    leaves alone otherwise, and it caches the id, so that a later call
    for the same case number returns the same id without touching the
    store or the cache. *)
Theorem ensureCaseExists_sequential (ci : caseInfo) (w : world) :
  world_ok (caseNumber ci) w ->
  exists w1 id,
    run (ensureCaseExists ci) w = (w1, Normal id)
    /\ case_ids (caseNumber ci) (store w1) = [id]
    /\ caseCache w1 !! caseNumber ci = Some id
    /\ (case_ids (caseNumber ci) (store w) <> [] -> store w1 = store w)
    /\ (case_ids (caseNumber ci) (store w) = [] ->
        store w1 = with_case ci (store w) /\ id = next_id (store w))
    /\ (forall ci', caseNumber ci' = caseNumber ci ->
          run (ensureCaseExists ci') w1 = (w1, Normal id)
          /\ run (bind (ensureCaseExists ci') (fun _ => ensureCaseExists ci)) w1
             = (w1, Normal id)).
Proof.
  intros Hw.
  destruct (ensureCaseExists_once ci w Hw)
    as (w1 & id & Hrun & Hids & Hc & Hkeep & Hnew & Hw1).
  exists w1, id. repeat (split; [assumption|]).
  assert (Hagain : forall ci', caseNumber ci' = caseNumber ci ->
            run (ensureCaseExists ci') w1 = (w1, Normal id)).
  { intros ci' Hcn. unfold ensureCaseExists.
    cbn [run handle]. rewrite Hcn, Hc. reflexivity. }
  intros ci' Hcn. split; [now apply Hagain|].
  rewrite run_bind, (Hagain ci' Hcn). now apply Hagain.
Qed.

End SequentialFacts.

Lemma ensureCaseExists_sequential_witness :
  exists w1 id,
    Uploader.run (Uploader.ensureCaseExists Examples.ipc_case) Examples.fresh_world
    = (w1, Uploader.Normal id)
    /\ Uploader.run (Uploader.ensureCaseExists Examples.ipc_case) w1
       = (w1, Uploader.Normal id).
Proof.
  assert (Hok : StoreProps.world_ok (Store.caseNumber Examples.ipc_case)
                  Examples.fresh_world).
  { split; [intros cn; cbn; lia|]. intros id. cbn. now rewrite lookup_empty. }
  destruct (ensureCaseExists_sequential Examples.ipc_case Examples.fresh_world Hok)
    as (w1 & id & Hrun & _ & _ & _ & _ & Hagain).
  exists w1, id.
  split; [exact Hrun | exact (proj1 (Hagain Examples.ipc_case eq_refl))].
Defined.

(** ** The duplicate checks against the store *)

Section ExistenceFacts.
Import Store Uploader StoreProps LookupProps.

Lemma checkDocumentExistsByUrl_rows (url : string) (d : db) :
  Existence.checkDocumentExistsByUrl url d
  = Normal (match document_rows url d with [_] => true | _ => false end).
Proof.
  unfold Existence.checkDocumentExistsByUrl, select_document_by_url.
  fold (document_rows url d).
  now destruct (document_rows url d) as [|row [|row' rows]].
Qed.

Lemma filter_one {A} (f : A -> bool) (l : list A) :
  length (List.filter f l) <= 1 ->
  (exists r, List.filter f l = [r]) <-> (exists r, In r l /\ f r = true).
Proof.
  intros Hlen. split.
  - intros [r Hr]. exists r. apply List.filter_In. rewrite Hr. now left.
  - intros (r & Hin & Hf).
    assert (Hr : In r (List.filter f l)) by now apply List.filter_In.
    destruct (List.filter f l) as [|x [|y rest]];
      [contradiction | now exists x | cbn in Hlen; lia].
Qed.

(** X6.  [checkDocumentExistsByUrl] answers [true] exactly when the store
    holds one row, and only one, with the URL; so on a store with one row
    per URL it answers [true] exactly for the URLs that are stored.  After
    a call of [uploadDocument] that reports success the check answers
    [true] for the URL of the payload.  A call that reports failure has
    either inserted no document, and then leaves the answer as it was; or
    the store refused a batch of its chunks, and then the row of the
    document is stored with the chunks of the batches before only, and
    the check, which answered [false], answers [true] from then on. *)
Theorem checkDocumentExistsByUrl_exact (url : string) (d : db) :
  (exists b,
      Existence.checkDocumentExistsByUrl url d = Normal b
      /\ (b = true <-> exists row, document_rows url d = [row]))
  /\ (unique_urls d ->
      (Existence.checkDocumentExistsByUrl url d = Normal true
       <-> exists row, In row (documents d) /\ document_url row = url))
  /\ (forall uuidv4 clock extracted_at dd w w' r,
        store w = d -> dd_documentUrl dd = url ->
        store_ok d ->
        run (uploadDocument uuidv4 clock extracted_at dd) w = (w', r) ->
        (success r = true ->
         Existence.checkDocumentExistsByUrl url (store w') = Normal true)
        /\ (success r = false ->
            (documents (store w') = documents d
             /\ document_chunks (store w') = document_chunks d
             /\ Existence.checkDocumentExistsByUrl url (store w')
                = Existence.checkDocumentExistsByUrl url d)
            \/ (exists row caseId stored rest,
                  documents (store w') = documents d ++ [row]
                  /\ document_url row = url
                  /\ chunks_for uuidv4 clock dd (doc_id row) caseId
                     = stored ++ rest
                  /\ rest <> []
                  /\ document_chunks (store w') = document_chunks d ++ stored
                  /\ Existence.checkDocumentExistsByUrl url d = Normal false
                  /\ Existence.checkDocumentExistsByUrl url (store w')
                     = Normal true))).
Proof.
  split; [|split].
  - rewrite checkDocumentExistsByUrl_rows. eexists. split; [reflexivity|].
    destruct (document_rows url d) as [|row [|row' rows]]; split;
      try discriminate; try (intros [? [=]]); eauto.
  - intros Hu. rewrite checkDocumentExistsByUrl_rows.
    unfold document_rows at 1.
    transitivity (exists row, document_rows url d = [row]).
    + fold (document_rows url d).
      destruct (document_rows url d) as [|row [|row' rows]]; split;
        try discriminate; try (intros [? [=]]); eauto.
    + unfold document_rows. rewrite filter_one by apply Hu.
      split; intros (row & Hin & Hrow); exists row; (split; [assumption|]).
      * now apply String.eqb_eq.
      * now apply String.eqb_eq.
  - intros uuidv4 clock extracted_at dd w w' r <- <- Hok Hrun.
    destruct (uploadDocument_run uuidv4 clock extracted_at dd w Hok)
      as (w2 & r2 & Hrun2 & _ & Hcases).
    rewrite Hrun in Hrun2. injection Hrun2 as <- <-.
    rewrite !checkDocumentExistsByUrl_rows.
    assert (Hadded : forall row,
              document_rows (dd_documentUrl dd) (store w) = [] ->
              documents (store w') = documents (store w) ++ [row] ->
              document_url row = dd_documentUrl dd ->
              document_rows (dd_documentUrl dd) (store w') = [row]).
    { intros row Hnone Hdocs Hurl. unfold document_rows at 1.
      rewrite Hdocs, List.filter_app.
      fold (document_rows (dd_documentUrl dd) (store w)). rewrite Hnone.
      cbn. now rewrite Hurl, String.eqb_refl. }
    destruct Hcases
      as [(row & Hrow & -> & Hdocs & _)
         |[(Hnone & Hfail & _ & Hdocs & Hchunks)
          |[(Hnone & Hsucc & _ & row & caseId & Hdocs & Hurl & _)
           |(Hnone & Hfail & _ & row & caseId & stored & rest
             & Hdocs & Hurl & Hsplit & Hrest & Hchunks)]]].
    + rewrite (document_rows_same _ _ _ Hdocs), Hrow. split; [reflexivity|].
      discriminate.
    + split; [congruence|]. intros _. left.
      rewrite (document_rows_same _ _ _ Hdocs). now repeat split.
    + split; [|congruence]. intros _.
      now rewrite (Hadded row Hnone Hdocs Hurl).
    + split; [congruence|]. intros _. right.
      exists row, caseId, stored, rest.
      rewrite (Hadded row Hnone Hdocs Hurl), Hnone. now repeat split.
Qed.

(** The second way to fail is taken: the store refuses the only batch of
    chunks of a document it has accepted. *)
Example upload_chunks_refused :
  let w := Uploader.with_store Examples.one_document
             (Examples.refusing (Uploader.store Examples.one_document)) in
  let '(w', r) := Uploader.run (Examples.upload Examples.new_name) w in
  r = failure_result "Failed to upload chunks: value too long"
  /\ map doc_id (documents (store w')) = [1; 2]
  /\ document_chunks (store w') = []
  /\ Existence.checkDocumentExistsByUrl
       (dd_documentUrl Examples.new_name) (store w) = Normal false
  /\ Existence.checkDocumentExistsByUrl
       (dd_documentUrl Examples.new_name) (store w') = Normal true.
Proof. vm_compute. repeat split. Qed.

Lemma checkDocumentExists_rows (caseNumber documentName : string) (d : db) :
  Existence.checkDocumentExists caseNumber documentName d
  = match case_rows caseNumber d with
    | [crow] =>
        match name_rows (case_id crow) documentName d with
        | [_] => true
        | _ => false
        end
    | _ => false
    end.
Proof.
  unfold Existence.checkDocumentExists, select_case_id.
  fold (case_rows caseNumber d).
  destruct (case_rows caseNumber d) as [|crow [|crow' rows]]; try reflexivity.
  cbn [map single data ok]. unfold Existence.select_document_by_name.
  fold (name_rows (case_id crow) documentName d).
  now destruct (name_rows (case_id crow) documentName d) as [|drow [|drow' l]].
Qed.

Lemma name_rows_with_document (caseId : nat) (name : string)
    (row : document_insert) (d : db) :
  name_rows caseId name (with_document row d)
  = name_rows caseId name d
      ++ (if Nat.eqb (ins_case_id row) caseId
             && String.eqb (ins_document_name row) name
          then [ {| doc_id := next_id d; doc_fields := row |} ] else []).
Proof. unfold name_rows, with_document. cbn. now rewrite List.filter_app. Qed.

(** X7.  [checkDocumentExists] answers [true] exactly when the case
    number has one row, and only one, and the document name has one row,
    and only one, in that case; on a store that keeps the two unique
    indexes this is: exactly when a document of that name is stored for
    the case.  The store keeps the index on document names whatever row
    it is asked to insert. *)
Theorem checkDocumentExists_exact (caseNumber documentName : string) (d : db) :
  (Existence.checkDocumentExists caseNumber documentName d = true
   <-> exists crow drow,
         case_rows caseNumber d = [crow]
         /\ name_rows (case_id crow) documentName d = [drow])
  /\ (unique_cases d -> unique_names d ->
      (Existence.checkDocumentExists caseNumber documentName d = true
       <-> exists crow drow,
             In crow (cases d) /\ case_number crow = caseNumber
             /\ In drow (documents d)
             /\ doc_case_id drow = case_id crow
             /\ document_name drow = documentName))
  /\ (forall row, unique_names d -> unique_names (fst (insert_document row d))).
Proof.
  assert (Hrows : Existence.checkDocumentExists caseNumber documentName d = true
                  <-> exists crow drow,
                        case_rows caseNumber d = [crow]
                        /\ name_rows (case_id crow) documentName d = [drow]).
  { rewrite checkDocumentExists_rows.
    destruct (case_rows caseNumber d) as [|crow [|crow' rows]].
    - split; [discriminate | now intros (? & ? & [=] & _)].
    - destruct (name_rows (case_id crow) documentName d)
        as [|drow [|drow' l]] eqn:Hn.
      + split; [discriminate|]. intros (c & ? & [= <-] & Hd). congruence.
      + split; [|reflexivity]. intros _. now exists crow, drow.
      + split; [discriminate|]. intros (c & ? & [= <-] & Hd). congruence.
    - split; [discriminate | now intros (? & ? & [=] & _)]. }
  split; [exact Hrows|split].
  - intros Hc Hn. rewrite Hrows. split.
    + intros (crow & drow & Hcrow & Hdrow).
      assert (Hinc : In crow (case_rows caseNumber d)) by (rewrite Hcrow; now left).
      assert (Hind : In drow (name_rows (case_id crow) documentName d))
        by (rewrite Hdrow; now left).
      apply List.filter_In in Hinc as [Hinc Hcn].
      apply List.filter_In in Hind as [Hind Hdn].
      apply andb_true_iff in Hdn as [Hid Hname].
      exists crow, drow. repeat split; try assumption.
      * now apply String.eqb_eq.
      * now apply Nat.eqb_eq.
      * now apply String.eqb_eq.
    + intros (crow & drow & Hinc & Hcn & Hind & Hid & Hname).
      destruct (proj2 (filter_one _ (cases d) (Hc caseNumber))) as [crow' Hcrow'].
      { exists crow. split; [assumption | now apply String.eqb_eq]. }
      assert (crow' = crow) as ->.
      { assert (Hin : In crow (case_rows caseNumber d)).
        { apply List.filter_In. split; [assumption | now apply String.eqb_eq]. }
        unfold case_rows in Hin. rewrite Hcrow' in Hin.
        now destruct Hin as [|[]]. }
      destruct (proj2 (filter_one _ (documents d)
                         (Hn (case_id crow) documentName))) as [drow' Hdrow'].
      { exists drow. split; [assumption|]. apply andb_true_iff.
        split; [now apply Nat.eqb_eq | now apply String.eqb_eq]. }
      now exists crow, drow'.
  - intros row Hn caseId name. unfold insert_document.
    destruct (existsb _ (documents d)) eqn:Hex; cbn [fst]; [apply Hn|].
    fold (with_document row d). rewrite name_rows_with_document, length_app.
    destruct (Nat.eqb_spec (ins_case_id row) caseId) as [<-|];
      [|cbn; specialize (Hn caseId name); lia].
    destruct (String.eqb_spec (ins_document_name row) name) as [<-|];
      [|cbn; specialize (Hn (ins_case_id row) name); lia].
    apply existsb_filter in Hex. unfold name_rows.
    cbn [andb length]. unfold doc_case_id, document_name in *.
    rewrite Hex. reflexivity.
Qed.

End ExistenceFacts.

(** ** A payload that is stored *)

Section CountFacts.
Import Js Props.

Variable uuidv4 : nat -> string.
Variable clock : nat -> string.
Variables (documentId caseId : nat) (md : Chunker.documentMetadata).

Local Abbreviation createChunks := (Chunker.createChunks uuidv4 clock documentId caseId md).

Lemma blank_no_word (t : text) (mids : list text) :
  ~ has_nonspace t ->
  Forall word mids ->
  (exists hd tl, split_ws t = hd ++ mids ++ tl) ->
  mids = [].
Proof.
  intros Hblank Hmids (hd & tl & Hsplit).
  destruct mids as [|w mids]; [reflexivity|]. exfalso.
  apply Forall_cons in Hmids as [[Hne Hw] _].
  destruct w as [|c w]; [congruence|].
  apply Hblank. exists c.
  assert (Hin : In c (concat (split_ws t))).
  { rewrite Hsplit, !concat_app. apply in_or_app. right.
    apply in_or_app. left. cbn. now left. }
  unfold split_ws in Hin. rewrite concat_split_aux in Hin by discriminate.
  cbn in Hin. apply List.filter_In in Hin as [Hin Hc].
  split; [assumption|]. now apply negb_true_iff.
Qed.

(** A text without a code unit that is not white space gives no chunk;
    any other text gives one at least. *)
Lemma createChunks_count (t : text) :
  (~ has_nonspace t -> createChunks t = [])
  /\ (has_nonspace t -> 1 <= length (createChunks t)).
Proof.
  split.
  - intros Hblank. unfold Chunker.createChunks.
    destruct (split_ws_shape t) as (hd & mids & tl & Hsplit & Hhd & Hmids & Htl).
    assert (mids = []) as -> by (apply (blank_no_word t); eauto).
    rewrite Hsplit.
    destruct Hhd as [-> | ->]; destruct Htl as [-> | ->]; reflexivity.
  - intros Hsome. unfold Chunker.createChunks.
    destruct (final_state uuidv4 clock documentId caseId md t
                (list_max (map length (split_ws t))) (words_bounded _))
      as (_ & _ & Hstarted).
    now apply finish_nonempty, Hstarted.
Qed.

End CountFacts.

Section FreshFacts.
Import Store Uploader StoreProps UploadProps.

Variable uuidv4 : nat -> string.
Variable clock : nat -> string.
Variable extracted_at : string.
Variable dd : documentData.

Local Abbreviation cn := (caseNumber (dd_caseInfo dd)).
Local Abbreviation url := (dd_documentUrl dd).
Local Abbreviation chunks_for := (chunks_for uuidv4 clock dd).

(** X8.  When [uploadDocument] reports success without the duplicate
    flag, it has stored exactly one new document row, made of the fields
    of the payload and the id of the row of the case number, and after
    the chunks that were stored before exactly the chunks that
    [createChunks] makes of the extracted text for the ids of these two
    rows, in their order; the result names the two ids and the number of
    chunks.  That number is 0 when the text has no code unit that is not
    white space, and at least 1 otherwise. *)
Theorem uploadDocument_fresh (w w' : world) (r : upload_result) :
  world_ok cn w -> unique_urls (store w) ->
  run (uploadDocument uuidv4 clock extracted_at dd) w = (w', r) ->
  success r = true -> duplicate r = None ->
  exists caseId docId,
    r = uploaded_result docId caseId (length (chunks_for docId caseId))
    /\ case_ids cn (store w') = [caseId]
    /\ document_rows url (store w) = []
    /\ documents (store w')
       = documents (store w)
           ++ [ {| doc_id := docId;
                   doc_fields := inserted_row extracted_at dd caseId |} ]
    /\ document_chunks (store w')
       = document_chunks (store w) ++ chunks_for docId caseId
    /\ (~ Props.has_nonspace (dd_extractedText dd) ->
        chunksCreated r = Some 0)
    /\ (Props.has_nonspace (dd_extractedText dd) ->
        exists n, chunksCreated r = Some (S n)).
Proof.
  intros Hw Hurls Hrun Hsucc Hdup.
  pose proof Hw as [Hcases _].
  destruct (ensureCaseExists_once (dd_caseInfo dd) w Hw)
    as (w1 & caseId & Hrun1 & Hids1 & _ & _ & _ & _).
  destruct (ensureCaseExists_run (dd_caseInfo dd) w Hcases)
    as (w1' & caseId' & Hrun1' & Hcases1 & Hdocs1 & Hchunks1).
  rewrite Hrun1 in Hrun1'. injection Hrun1' as <- <-.
  assert (Hurls1 : unique_urls (store w1)) by now apply (unique_urls_same (store w)).
  assert (Hrows : document_rows url (store w1) = document_rows url (store w))
    by now apply document_rows_same.
  revert Hrun. unfold uploadDocument. rewrite run_bind, Hrun1.
  cbn [run handle].
  destruct (document_rows_cases url (store w1) Hurls1) as [Hnone | [row Hrow]].
  - rewrite select_document_none by assumption. cbn [data failed run handle].
    fold (inserted_row extracted_at dd caseId).
    destruct (insert_document_cases (inserted_row extracted_at dd caseId)
                (store w1)) as [-> | ->].
    + cbn. intros [= <- <-]. discriminate.
    + cbn [with_store store caseCache error data ok run].
      set (docId := next_id (store w1)).
      fold (chunks_for docId caseId).
      set (chunks := chunks_for docId caseId).
      set (w2 := with_store w1
                   (with_document (inserted_row extracted_at dd caseId) (store w1))).
      assert (Hstored : forall w3,
                document_chunks (store w3) = document_chunks (store w2) ++ chunks ->
                cases (store w3) = cases (store w2) ->
                documents (store w3) = documents (store w2) ->
                (w3, uploaded_result docId caseId (length chunks)) = (w', r) ->
                exists caseId0 docId0,
                  r = uploaded_result docId0 caseId0
                        (length (chunks_for docId0 caseId0))
                  /\ case_ids cn (store w') = [caseId0]
                  /\ document_rows url (store w) = []
                  /\ documents (store w')
                     = documents (store w)
                         ++ [ {| doc_id := docId0;
                                 doc_fields := inserted_row extracted_at dd caseId0 |} ]
                  /\ document_chunks (store w')
                     = document_chunks (store w) ++ chunks_for docId0 caseId0
                  /\ (~ Props.has_nonspace (dd_extractedText dd) ->
                      chunksCreated r = Some 0)
                  /\ (Props.has_nonspace (dd_extractedText dd) ->
                      exists n, chunksCreated r = Some (S n))).
      { intros w3 Hc3 Hcases3 Hdocs3 [= <- <-]. exists caseId, docId.
        split; [reflexivity|]. split.
        { unfold case_ids, case_rows. rewrite Hcases3. exact Hids1. }
        split; [now rewrite <- Hrows|]. split.
        { rewrite Hdocs3. cbn. now rewrite Hdocs1. }
        split.
        { rewrite Hc3. cbn. now rewrite Hchunks1. }
        cbn [chunksCreated uploaded_result].
        destruct (createChunks_count uuidv4 clock docId caseId
                    {| Chunker.md_caseNumber := cn;
                       Chunker.md_company := company (dd_caseInfo dd);
                       Chunker.md_witnessName := dd_witnessName dd;
                       Chunker.md_documentType := dd_documentType dd |}
                    (dd_extractedText dd)) as [Hblank Hsome].
        fold (chunks_for docId caseId) in Hblank, Hsome. fold chunks in Hblank, Hsome.
        split.
        - intros Hb. now rewrite (Hblank Hb).
        - intros Hs. specialize (Hsome Hs).
          destruct chunks as [|c l]; [cbn in Hsome; lia|].
          now exists (length l). }
      destruct (upload_batches_run chunks
                  (uploaded_result docId caseId (length chunks))
                  (length chunks) 0 w2 ltac:(lia))
        as (w3 & r3 & -> & Hc3 & Hd3 & Hres).
      cbn [drop] in Hres.
      destruct Hres as [[-> Hall] | (e & stored & rest & -> & _)].
      * now apply Hstored.
      * intros [= <- <-]. discriminate.
  - rewrite select_document_found with (row := row) by assumption. cbn.
    intros [= <- <-]. discriminate.
Qed.

End FreshFacts.

Lemma uploadDocument_fresh_witness :
  exists caseId docId,
    snd (Uploader.run (Examples.upload Examples.new_name) Examples.one_document)
    = Uploader.uploaded_result docId caseId
        (length (StoreProps.chunks_for Examples.uuids Examples.clock
                   Examples.new_name docId caseId)).
Proof.
  assert (Hok : StoreProps.world_ok "IPC-E-24-01" Examples.one_document).
  { split; [|intros id; cbn; now rewrite lookup_empty].
    apply store_ok_small; cbn; lia. }
  assert (Hurls : StoreProps.unique_urls (Uploader.store Examples.one_document)).
  { apply store_ok_small; cbn; lia. }
  destruct (uploadDocument_fresh Examples.uuids Examples.clock
              "2025-01-01T00:00:00.000Z" Examples.new_name
              Examples.one_document _ _ Hok Hurls
              (surjective_pairing _) eq_refl eq_refl)
    as (caseId & docId & Hr & _).
  exists caseId, docId. exact Hr.
Defined.

(** ** The pool of the shared queue pattern *)

Section PoolFacts.
Import Worker Pool PoolProps.

(** In the shared queue pattern an iteration never throws. *)
Lemma process_shared (workerId : nat) (document : queued_document)
    (lookup : lookup_outcome) (extraction : option document_result)
    (ts ts1 ts2 : string) (queue : list queued_document) (st : state) :
  sharedQueue st = Some queue ->
  process_document shared_queue_mode workerId document lookup extraction
    ts ts1 ts2 st
  = Uploader.Normal
      match extraction with
      | Some r => handle_success document (with_caseNumber document r) st
      | None => handle_failure workerId document ts ts1 ts2 queue st
      end.
Proof.
  intros Hq. unfold process_document, duplicate_check, handle_result.
  cbn [shared_queue_mode checkDuplicates useCaseQueue negb].
  destruct extraction as [r|]; cbn [option_map]; [reflexivity|].
  now rewrite Hq.
Qed.

Lemma handle_success_spec (document : queued_document) (r : document_result)
    (st : state) :
  let st' := handle_success document r st in
  sharedQueue st' = sharedQueue st
  /\ retryQueue st' = retryQueue st
  /\ processedDocuments st' = processedDocuments st ++ [r]
  /\ documentsProcessed st' = S (documentsProcessed st)
  /\ (forall t, progressTracker st = Some t ->
        exists t', progressTracker st' = Some t'
                   /\ completed t' = S (completed t)
                   /\ errors t' = errors t).
Proof.
  unfold handle_success.
  destruct (skipped r || duplicate r);
    [|destruct (success r && negb (duplicate r))];
    (repeat split; try reflexivity;
     intros t Ht; cbn; rewrite Ht; cbn; eexists; repeat split).
Qed.

Lemma handle_failure_other (workerId : nat) (document : queued_document)
    (ts ts1 ts2 : string) (queue : list queued_document) (st : state)
    (other : string) :
  other <> queueId document ->
  Retry.attemptNumber
    (retryQueue (handle_failure workerId document ts ts1 ts2 queue st)) other
  = Retry.attemptNumber (retryQueue st) other.
Proof.
  intros Hne. unfold handle_failure.
  destruct (Retry.recordFailure _ _ _ _) as [rq n] eqn:Hrec.
  assert (Hrq : Retry.attemptNumber rq other
                = Retry.attemptNumber (retryQueue st) other).
  { apply (f_equal fst) in Hrec. cbn [fst] in Hrec. subst rq.
    unfold Retry.attemptNumber. now rewrite recordFailure_other. }
  destruct (Retry.shouldRetry rq (queueId document)).
  - destruct (Retry.shouldBlacklist rq (queueId document) ts1 (blacklistFile st))
      as [b f]. destruct (negb b); [exact Hrq|].
    destruct (Retry.shouldBlacklist rq (queueId document) ts2 f). exact Hrq.
  - destruct (Retry.shouldBlacklist rq (queueId document) ts2 (blacklistFile st)).
    exact Hrq.
Qed.

Lemma sum_list_with_cons {A} (f : A -> nat) (x : A) (l : list A) :
  sum_list_with f (x :: l) = f x + sum_list_with f l.
Proof. reflexivity. Qed.

Lemma sum_list_with_lookup {A} (f : A -> nat) (l : list A) (i : nat) (x : A) :
  l !! i = Some x ->
  sum_list_with f l
  = sum_list_with f (take i l) + f x + sum_list_with f (drop (S i) l).
Proof.
  intros Hx. rewrite <- (take_drop_middle l i x Hx) at 1.
  rewrite sum_list_with_app. cbn. lia.
Qed.

Lemma sum_list_with_insert {A} (f : A -> nat) (l : list A) (i : nat) (x y : A) :
  l !! i = Some x ->
  sum_list_with f (<[i := y]> l) + f x = sum_list_with f l + f y.
Proof.
  intros Hx. rewrite (sum_list_with_lookup f l i x Hx).
  rewrite insert_take_drop by (now apply lookup_lt_Some in Hx).
  rewrite sum_list_with_app. cbn. lia.
Qed.

Lemma sum_list_with_le {A} (f g : A -> nat) (l : list A) :
  (forall x, f x <= g x) -> sum_list_with f l <= sum_list_with g l.
Proof.
  intros Hfg. induction l as [|x l IH]; cbn; [lia|].
  specialize (Hfg x). lia.
Qed.

Lemma length_in_flight (ws : list worker) :
  length (concat (map held ws)) = sum_list_with (fun w => length (held w)) ws.
Proof.
  induction ws as [|w ws IH]; [reflexivity|].
  cbn. now rewrite length_app, IH.
Qed.

Lemma handle_failure_documents (workerId : nat) (document : queued_document)
    (ts ts1 ts2 : string) (queue : list queued_document) (st : state) :
  documentsProcessed (handle_failure workerId document ts ts1 ts2 queue st)
  = documentsProcessed st.
Proof. apply (handle_failure_spec workerId document ts ts1 ts2 queue st). Qed.

Lemma dequeue_ok (total i : nat) (w0 : worker)
    (queue : list queued_document) (st : state) (p : pool) :
  lockInUse p = false ->
  workers p !! i = Some w0 ->
  sharedQueue st = Some queue ->
  completions_counted st ->
  Retry.maxRetries (retryQueue st) = 3 ->
  length (processedDocuments st) + errors_counted st + length queue
  + length (in_flight p) = total + length (held w0) ->
  pool_ok total (dequeue i st p)
  /\ length (workers (dequeue i st p)) = length (workers p)
  /\ potential (dequeue i st p) + worker_weight (retryQueue st) w0
     <= sum_list_with (weight (retryQueue st)) queue
        + sum_list_with (worker_weight (retryQueue st)) (workers p) + 1.
Proof.
  intros Hlock Hw Hq Hcount Hmax Hacc.
  assert (Hi : i < length (workers p)) by now apply lookup_lt_Some in Hw.
  unfold in_flight in Hacc. rewrite length_in_flight in Hacc.
  unfold dequeue. rewrite Hlock, Hq.
  destruct queue as [|document rest].
  - split; [|split].
    + unfold pool_ok, accounted, in_flight, queue_of.
      cbn [lockInUse workers shared]. rewrite Hq, length_in_flight.
      pose proof (sum_list_with_insert (fun w => length (held w))
                    (workers p) i w0 Done Hw) as Hsum.
      cbn [held length] in Hsum, Hacc |- *.
      repeat split; try assumption; try (now eexists); try lia.
    + cbn [workers]. apply length_insert.
    + unfold potential, queue_of. cbn [workers shared]. rewrite Hq.
      pose proof (sum_list_with_insert (worker_weight (retryQueue st))
                    (workers p) i w0 Done Hw) as Hsum.
      cbn in Hsum |- *. lia.
  - split; [|split].
    + unfold pool_ok, accounted, in_flight, queue_of.
      cbn [lockInUse workers shared with_sharedQueue sharedQueue
           processedDocuments retryQueue].
      rewrite length_in_flight.
      pose proof (sum_list_with_insert (fun w => length (held w))
                    (workers p) i w0
                    (Extracting (documentsProcessed st) document) Hw) as Hsum.
      cbn [held length] in Hsum, Hacc |- *.
      split; [reflexivity|]. split; [now eexists|]. split; [exact Hcount|].
      split; [unfold errors_counted in *;
              cbn [progressTracker with_sharedQueue]; lia|].
      assumption.
    + cbn [workers]. apply length_insert.
    + unfold potential, queue_of.
      cbn [workers shared with_sharedQueue sharedQueue retryQueue].
      pose proof (sum_list_with_insert (worker_weight (retryQueue st))
                    (workers p) i w0
                    (Extracting (documentsProcessed st) document) Hw) as Hsum.
      rewrite sum_list_with_cons. cbn [worker_weight] in Hsum. lia.
Qed.

Lemma weight_le (q q' : Retry.SmartRetryQueue) (document : queued_document) :
  Retry.maxRetries q' = Retry.maxRetries q ->
  (forall id, Retry.attemptNumber q id <= Retry.attemptNumber q' id) ->
  weight q' document <= weight q document.
Proof.
  intros Hmax Hatt. unfold weight. rewrite Hmax.
  specialize (Hatt (queueId document)). lia.
Qed.

Lemma worker_weight_le (q q' : Retry.SmartRetryQueue) (w : worker) :
  Retry.maxRetries q' = Retry.maxRetries q ->
  (forall id, Retry.attemptNumber q id <= Retry.attemptNumber q' id) ->
  worker_weight q' w <= worker_weight q w.
Proof.
  intros Hmax Hatt. destruct w as [|n|n document| |]; cbn; try lia.
  pose proof (weight_le q q' document Hmax Hatt). lia.
Qed.

(** One stretch of code keeps the pool in order and, when the event was
    enabled, uses up some of the work that is left. *)
Lemma step_ok (total : nat) (p : pool) (e : event) :
  pool_ok total p ->
  pool_ok total (step p e)
  /\ length (workers (step p e)) = length (workers p)
  /\ potential (step p e) + (if enabled p e then 1 else 0) <= potential p.
Proof.
  intros Hok. pose proof Hok as (Hlock & [queue Hq] & Hcount & Hacc & Hmax).
  assert (Hqueue : queue_of (shared p) = queue) by (unfold queue_of; now rewrite Hq).
  unfold accounted in Hacc. rewrite Hqueue in Hacc.
  assert (Hpot : potential p
                 = sum_list_with (weight (retryQueue (shared p))) queue
                   + sum_list_with (worker_weight (retryQueue (shared p)))
                       (workers p))
    by (unfold potential; now rewrite Hqueue).
  assert (Hends : forall i w',
            workers p !! i = Some Starting -> held w' = [] ->
            worker_weight (retryQueue (shared p)) w' = 0 ->
            let p' := {| lockInUse := lockInUse p;
                         workers := <[i := w']> (workers p);
                         shared := shared p |} in
            pool_ok total p'
            /\ length (workers p') = length (workers p)
            /\ potential p' + 1 <= potential p).
  { intros i w' Hw Hheld Hweight p'. split; [|split].
    - unfold pool_ok, accounted, in_flight.
      cbn [p' lockInUse workers shared]. rewrite Hqueue.
      unfold in_flight in Hacc. rewrite length_in_flight in Hacc |- *.
      pose proof (sum_list_with_insert (fun w => length (held w))
                    (workers p) i Starting w' Hw) as Hsum.
      cbn beta in Hsum. rewrite Hheld in Hsum. cbn [held length] in Hsum.
      split; [exact Hlock|]. split; [now exists queue|].
      split; [exact Hcount|]. split; [lia | exact Hmax].
    - cbn [p' workers]. apply length_insert.
    - rewrite Hpot. unfold potential. cbn [p' workers shared]. rewrite Hqueue.
      pose proof (sum_list_with_insert (worker_weight (retryQueue (shared p)))
                    (workers p) i Starting w' Hw) as Hsum.
      rewrite Hweight in Hsum. cbn [worker_weight] in Hsum. lia. }
  destruct e as [i | i | i | i | i lookup extraction ts ts1 ts2];
    unfold step, enabled.
  - destruct (workers p !! i) as [[|n|n document| |]|] eqn:Hw;
      try (split; [assumption|]; split; [reflexivity|]; lia).
    rewrite Hlock. cbn [negb].
    destruct (dequeue_ok total i Starting queue (as_seen_by 0 (shared p)) p
                Hlock Hw Hq Hcount Hmax) as (Hok' & Hlen & Hle).
    { cbn [held length as_seen_by processedDocuments].
      unfold errors_counted in *. cbn [progressTracker as_seen_by]. lia. }
    split; [assumption|]. split; [assumption|].
    cbn [worker_weight as_seen_by retryQueue] in Hle. lia.
  - destruct (workers p !! i) as [[|n|n document| |]|] eqn:Hw;
      try (split; [assumption|]; split; [reflexivity|]; lia).
    now apply Hends.
  - destruct (workers p !! i) as [[|n|n document| |]|] eqn:Hw;
      try (split; [assumption|]; split; [reflexivity|]; lia).
    now apply Hends.
  - destruct (workers p !! i) as [[|n|n document| |]|] eqn:Hw;
      try (split; [assumption|]; split; [reflexivity|]; lia).
    rewrite Hlock. cbn [negb].
    destruct (dequeue_ok total i (Waiting n) queue (as_seen_by n (shared p)) p
                Hlock Hw Hq Hcount Hmax) as (Hok' & Hlen & Hle).
    { cbn [held length as_seen_by processedDocuments]. 
      unfold errors_counted in *. cbn [progressTracker as_seen_by]. lia. }
    split; [assumption|]. split; [assumption|].
    cbn [worker_weight as_seen_by retryQueue] in Hle. lia.
  - destruct (workers p !! i) as [[|n|n document| |]|] eqn:Hw;
      try (split; [assumption|]; split; [reflexivity|]; lia).
    rewrite (process_shared (S i) document lookup extraction ts ts1 ts2 queue)
      by exact Hq.
    set (st0 := as_seen_by n (shared p)).
    destruct extraction as [r|].
    + destruct (handle_success_spec document (with_caseNumber document r) st0)
        as (Hq1 & Hrq1 & Hproc1 & _ & Htr1).
      destruct Hcount as (t & Ht & Hcompleted).
      destruct (Htr1 t Ht) as (t' & Ht' & Hcompleted' & Herrors').
      set (st1 := handle_success document (with_caseNumber document r) st0) in *.
      destruct (dequeue_ok total i (Extracting n document) queue st1 p
                  Hlock Hw) as (Hok' & Hlen & Hle).
      { now rewrite Hq1. }
      { exists t'. split; [assumption|]. rewrite Hproc1, length_app. cbn.
        cbn [st0 as_seen_by processedDocuments]. lia. }
      { now rewrite Hrq1. }
      { rewrite Hproc1, length_app. unfold errors_counted in *.
        rewrite Ht'. rewrite Ht in Hacc.
        cbn [held length st0 as_seen_by processedDocuments]. lia. }
      split; [assumption|]. split; [assumption|].
      rewrite Hrq1 in Hle. cbn [worker_weight st0 as_seen_by retryQueue] in Hle.
      unfold weight in Hle at 1. lia.
    + pose proof (handle_failure_spec (S i) document ts ts1 ts2 queue st0) as Hspec.
      cbv zeta in Hspec.
      set (st1 := handle_failure (S i) document ts ts1 ts2 queue st0) in *.
      destruct Hspec as (Hatt1 & Hmax1 & Hproc1 & _ & _ & Hbranch).
      cbn [st0 as_seen_by retryQueue processedDocuments progressTracker] in
        Hatt1, Hmax1, Hproc1, Hbranch.
      set (rq := retryQueue (shared p)) in *.
      set (rq1 := retryQueue st1) in *.
      assert (Hmono : forall id,
                Retry.attemptNumber rq id <= Retry.attemptNumber rq1 id).
      { intros id. destruct (String.eqb_spec id (queueId document)) as [->|Hne].
        - rewrite Hatt1. lia.
        - unfold rq1, st1. rewrite handle_failure_other by assumption.
          apply Nat.eq_le_incl. reflexivity. }
      pose proof (sum_list_with_le (weight rq1) (weight rq) queue
                    (fun d => weight_le rq rq1 d Hmax1 Hmono)) as Hqueue_le.
      pose proof (sum_list_with_lookup (worker_weight rq) (workers p) i _ Hw)
        as Hsplit.
      pose proof (sum_list_with_lookup (worker_weight rq1) (workers p) i _ Hw)
        as Hsplit1.
      pose proof (sum_list_with_le (worker_weight rq1) (worker_weight rq)
                    (take i (workers p))
                    (fun w => worker_weight_le rq rq1 w Hmax1 Hmono)) as Hbefore.
      pose proof (sum_list_with_le (worker_weight rq1) (worker_weight rq)
                    (drop (S i) (workers p))
                    (fun w => worker_weight_le rq rq1 w Hmax1 Hmono)) as Hafter.
      cbn [worker_weight] in Hsplit, Hsplit1. unfold weight in Hsplit, Hsplit1.
      rewrite Hatt1, Hmax1 in Hsplit1. fold rq in Hmax. rewrite Hmax in *.
      destruct Hcount as (t & Ht & Hcompleted).
      destruct (Nat.ltb_spec (S (Retry.attemptNumber rq (queueId document))) 3)
        as [Hretry|Hgive_up]; destruct Hbranch as [Hq1 Htr1].
      * destruct (dequeue_ok total i (Extracting n document)
                    (queue ++ [document]) st1 p Hlock Hw Hq1)
          as (Hok' & Hlen & Hle).
        { exists t. split; [now rewrite Htr1|]. now rewrite Hproc1. }
        { fold rq1. now rewrite Hmax1. }
        { rewrite Hproc1, length_app. unfold errors_counted in *.
          rewrite Htr1. cbn [held length]. lia. }
        split; [assumption|]. split; [assumption|].
        fold rq1 in Hle. rewrite sum_list_with_app in Hle.
        cbn [sum_list_with worker_weight] in Hle. unfold weight in Hle at 1 3.
        rewrite Hatt1, Hmax1 in Hle. lia.
      * destruct (dequeue_ok total i (Extracting n document) queue st1 p
                    Hlock Hw Hq1) as (Hok' & Hlen & Hle).
        { exists (recordError t). split; [rewrite Htr1, Ht; reflexivity|].
          now rewrite Hproc1. }
        { fold rq1. now rewrite Hmax1. }
        { rewrite Hproc1. unfold errors_counted in *.
          rewrite Htr1, Ht. rewrite Ht in Hacc. cbn [held length option_map recordError errors]. lia. }
        split; [assumption|]. split; [assumption|].
        fold rq1 in Hle. cbn [worker_weight] in Hle. unfold weight in Hle at 1.
        rewrite Hatt1, Hmax1 in Hle. lia.
Qed.

Lemma run_ok (total : nat) (events : list event) :
  forall p,
    pool_ok total p ->
    pool_ok total (run events p)
    /\ length (workers (run events p)) = length (workers p)
    /\ potential (run events p) + enabled_steps events p <= potential p.
Proof.
  induction events as [|e events IH]; intros p Hok.
  - cbn. split; [assumption|]. split; [reflexivity | lia].
  - destruct (step_ok total p e Hok) as (Hok1 & Hlen1 & Hpot1).
    destruct (IH (step p e) Hok1) as (Hok2 & Hlen2 & Hpot2).
    cbn [run fold_left enabled_steps]. fold (run events (step p e)).
    split; [assumption|]. split; [congruence|]. lia.
Qed.

Lemma start_ok (maxWorkers : nat) (globalQueue cq : list queued_document)
    (pf : Pipeline.file) (bf : Retry.blacklist_file) :
  pool_ok (length globalQueue) (start maxWorkers globalQueue cq pf bf)
  /\ potential (start maxWorkers globalQueue cq pf bf)
     = 4 * length globalQueue + 2 * maxWorkers.
Proof.
  assert (Hheld : forall k, concat (map held (repeat Starting k)) = [])
    by (induction k; [reflexivity | assumption]).
  split.
  - unfold pool_ok, accounted, in_flight, queue_of, all_done, start.
    cbn [lockInUse workers shared sharedQueue processedDocuments
         progressTracker retryQueue].
    rewrite Hheld. cbn [length].
    split; [reflexivity|]. split; [now eexists|].
    split; [exists new_tracker; now split|].
    split; [cbn; lia|]. reflexivity.
  - unfold potential, queue_of, start.
    cbn [workers shared sharedQueue retryQueue].
    assert (Hq : sum_list_with (weight (Retry.new 3)) globalQueue
                 = 4 * length globalQueue).
    { induction globalQueue as [|d l IH]; [reflexivity|].
      rewrite sum_list_with_cons, IH. unfold weight, Retry.attemptNumber.
      cbn [Retry.new Retry.failedDocuments Retry.maxRetries].
      rewrite lookup_empty. cbn [length]. lia. }
    assert (Hws : forall k,
              sum_list_with (worker_weight (Retry.new 3)) (repeat Starting k)
              = 2 * k).
    { induction k as [|k IH]; [reflexivity|].
      cbn [repeat]. rewrite sum_list_with_cons, IH. cbn [worker_weight]. lia. }
    rewrite Hq, Hws. reflexivity.
Qed.


Lemma busy_worker (ws : list worker) :
  forallb (fun w => match w with Done | Failed => true | _ => false end) ws
  = false ->
  exists i, ws !! i = Some Starting
            \/ (exists n, ws !! i = Some (Waiting n))
            \/ (exists n document, ws !! i = Some (Extracting n document)).
Proof.
  induction ws as [|w ws IH]; [discriminate|].
  cbn [forallb]. destruct w as [|n|n document| |].
  - intros _. exists 0. now left.
  - intros _. exists 0. right. left. now exists n.
  - intros _. exists 0. right. right. now exists n, document.
  - cbn [andb]. intros H. destruct (IH H) as [i Hi]. now exists (S i).
  - cbn [andb]. intros H. destruct (IH H) as [i Hi]. now exists (S i).
Qed.









Lemma dequeue_launched (i : nat) (st : state) (p : pool) :
  Forall (fun w => w <> Failed) (workers p) ->
  Forall (fun w => w <> Failed) (workers (dequeue i st p)).
Proof.
  intros H. unfold dequeue.
  destruct (lockInUse p); [|destruct (sharedQueue st) as [[|d rest]|]];
    cbn [workers]; apply Forall_insert; (assumption || discriminate).
Qed.

Lemma run_launched (events : list event) (p : pool) :
  launched events = true ->
  Forall (fun w => w <> Failed) (workers p) ->
  Forall (fun w => w <> Failed) (workers (run events p)).
Proof.
  revert p. induction events as [|e events IH]; intros p Hl Hp;
    [exact Hp|].
  cbn [launched forallb] in Hl. apply andb_prop in Hl as [He Hl].
  cbn [run fold_left]. apply (IH _ Hl).
  destruct e as [i | i | i | i | i lookup extraction ts ts1 ts2];
    try discriminate; cbn [step];
    (destruct (workers p !! i) as [[|n|n document| |]|]; try exact Hp).
  - now apply dequeue_launched.
  - cbn [workers]. apply Forall_insert; (assumption || discriminate).
  - now apply dequeue_launched.
  - destruct (process_document _ _ _ _ _ _ _ _ _).
    + now apply dequeue_launched.
    + cbn [workers]. apply Forall_insert; (assumption || discriminate).
Qed.

Lemma all_ended_launched (ws : list worker) :
  Forall (fun w => w <> Failed) ws ->
  forallb (fun w => match w with Done | Failed => true | _ => false end) ws
  = forallb (fun w => match w with Done => true | _ => false end) ws.
Proof.
  induction 1 as [|w ws Hw _ IH]; [reflexivity|].
  cbn [forallb]. rewrite IH. now destruct w.
Qed.

(** X10.  The workers of [processMultiYearQueue] come to an end.  For a
    queue of [n] documents and [k] workers, at most [4 n + 2 k] of the
    events the event loop delivers find the worker they are for suspended
    where they resume it; every other event changes nothing; and as long
    as a worker has neither returned nor ended with the exception of
    [puppeteer.launch()], some event is enabled.  In a run in which
    every [puppeteer.launch()] resolves, some event is enabled as long as
    a worker has not returned. *)
Theorem pool_terminates (maxWorkers : nat)
    (globalQueue cq : list queued_document) (pf : Pipeline.file)
    (bf : Retry.blacklist_file) (events : list event) :
  let p0 := start maxWorkers globalQueue cq pf bf in
  let p := run events p0 in
  enabled_steps events p0 <= 4 * length globalQueue + 2 * maxWorkers
  /\ (all_ended p = false -> exists e, enabled p e = true)
  /\ (forall e, enabled p e = false -> step p e = p)
  /\ (launched events = true -> all_done p = false ->
      exists e, enabled p e = true).
Proof.
  intros p0 p.
  assert (Hlaunched : launched events = true -> all_ended p = all_done p).
  { intros Hl. apply all_ended_launched, (run_launched events p0 Hl).
    apply Forall_forall. intros w Hw.
    apply list_elem_of_In, repeat_spec in Hw. now subst w. }
  destruct (start_ok maxWorkers globalQueue cq pf bf) as [Hstart Hpot0].
  destruct (run_ok (length globalQueue) events _ Hstart)
    as ((Hlock & _) & _ & Hpot).
  change (lockInUse p = false) in Hlock.
  change (potential p + enabled_steps events p0 <= potential p0) in Hpot.
  change (potential p0 = 4 * length globalQueue + 2 * maxWorkers) in Hpot0.
  clearbody p p0.
  assert (Hprogress : all_ended p = false -> exists e, enabled p e = true).
  { intros Hbusy. destruct (busy_worker (workers p) Hbusy)
      as [i [Hw|[[n Hw]|(n & document & Hw)]]].
    - exists (PageFails i). cbn. now rewrite Hw.
    - exists (Wake i). cbn. now rewrite Hw, Hlock.
    - exists (Extracted i (Rejected "") None "" "" ""). cbn. now rewrite Hw. }
  split; [lia|]. split; [exact Hprogress|]. split.
  - intros e.
    destruct e as [i | i | i | i | i lookup extraction ts ts1 ts2]; cbn;
      (destruct (workers p !! i) as [[|n|n document| |]|]; try reflexivity);
      try discriminate; rewrite Hlock; discriminate.
  - intros Hl Hdone. apply Hprogress. now rewrite (Hlaunched Hl).
Qed.

End PoolFacts.

(** Two workers, two documents: one result, one error after three
    failures, and both workers have returned. *)
Example busy_day_results :
  let p := Pool.run Examples.busy_day Examples.two_workers in
  Pool.all_done p = true
  /\ Pool.processMultiYearQueue_results [Examples.testimony; Examples.exhibit] p
     = {| Pool.totalCompleted := 1;
          Pool.totalChunks := 30;
          Pool.result_errors := 1;
          Pool.byYear := [("unknown", (1, 30))] |}
  /\ PoolProps.errors_counted (Pool.shared p) = 1
  /\ PoolProps.enabled_steps Examples.busy_day Examples.two_workers = 6.
Proof. vm_compute. repeat split. Qed.

(** Two workers, two documents, and [browser.newPage()] rejects for
    both: both have returned, the queue is as it was, and the method
    returns two errors where the tracker has counted none. *)
Example pages_rejected :
  let events := [Pool.PageFails 0; Pool.PageFails 1] in
  let p := Pool.run events Examples.two_workers in
  Pool.all_done p = true
  /\ PoolProps.entered events Examples.two_workers = false
  /\ PoolProps.queue_of (Pool.shared p) = [Examples.testimony; Examples.exhibit]
  /\ Pool.result_errors
       (Pool.processMultiYearQueue_results
          [Examples.testimony; Examples.exhibit] p) = 2%Z
  /\ PoolProps.errors_counted (Pool.shared p) = 0.
Proof. vm_compute. repeat split. Qed.

(** ** The pipeline file as memory of the workers *)

Section ResumeFacts.
Import Worker.

Lemma array_includes_snoc (l : list string) (key : string) :
  Pipeline.array_includes (l ++ [key]) key = true.
Proof.
  unfold Pipeline.array_includes. rewrite existsb_app. cbn.
  rewrite String.eqb_refl. now rewrite orb_true_r.
Qed.

Lemma handle_success_pipeline (document : queued_document)
    (r : document_result) (st : state) :
  pipelineFile (handle_success document r st)
  = if skipped r then pipelineFile st
    else Pipeline.updatePipelineAfterDocument (text document)
           (Store.caseNumber (caseInfo document)) (pipelineFile st).
Proof.
  unfold handle_success.
  destruct (skipped r || duplicate r);
    [|destruct (success r && negb (duplicate r))]; reflexivity.
Qed.

Lemma marked_after_update (document : queued_document)
    (pd : Pipeline.pipeline_data) :
  isInPipeline
    (Pipeline.updatePipelineAfterDocument (text document)
       (Store.caseNumber (caseInfo document)) (Some pd)) document = true.
Proof.
  unfold isInPipeline, Pipeline.updatePipelineAfterDocument,
    Pipeline.loadPipelineData.
  destruct pd as [ts total cases [processed|] status];
    cbn [Pipeline.processedDocuments].
  - destruct (Pipeline.array_includes processed _) eqn:Hin.
    + exact Hin.
    + apply array_includes_snoc.
  - cbn. now rewrite String.eqb_refl.
Qed.

(** X11.  When the pipeline file exists, a worker that gets a result for
    a document (one that is not itself a skip) leaves the document marked
    in the file; and a worker that checks for duplicates and is given the
    same document again skips it without a look at the store or an
    extraction: it pushes the skip result, counts it as skipped, and
    leaves the file, the retry ledger and the queue as they are. *)
Theorem marked_document_is_skipped (o : options) (document : queued_document)
    (r : document_result) (pd : Pipeline.pipeline_data) (st : state) :
  pipelineFile st = Some pd ->
  skipped r = false ->
  checkDuplicates o = true ->
  let st1 := handle_success document r st in
  isInPipeline (pipelineFile st1) document = true
  /\ (forall workerId lookup extraction ts ts1 ts2,
        exists st2,
          process_document o workerId document lookup extraction ts ts1 ts2 st1
          = Uploader.Normal st2
          /\ processedDocuments st2
             = processedDocuments st1 ++ [skipped_result document]
          /\ progressTracker st2
             = option_map recordSkipped (progressTracker st1)
          /\ pipelineFile st2 = pipelineFile st1
          /\ retryQueue st2 = retryQueue st1
          /\ sharedQueue st2 = sharedQueue st1
          /\ blacklistFile st2 = blacklistFile st1).
Proof.
  intros Hfile Hskip Hcheck st1.
  assert (Hmarked : isInPipeline (pipelineFile st1) document = true).
  { unfold st1. rewrite handle_success_pipeline, Hskip, Hfile.
    apply marked_after_update. }
  split; [exact Hmarked|].
  intros workerId lookup extraction ts ts1 ts2.
  unfold process_document, duplicate_check. rewrite Hcheck, Hmarked.
  cbn [handle_result]. eexists. split; [reflexivity|].
  unfold handle_success. cbn [skipped_result skipped duplicate orb].
  repeat split.
Qed.

End ResumeFacts.

Lemma marked_document_is_skipped_witness :
  Worker.isInPipeline
    (Worker.pipelineFile
       (Worker.handle_success Examples.testimony Examples.extracted
          Examples.resumed_pool))
    Examples.testimony = true.
Proof.
  exact (proj1 (marked_document_is_skipped Worker.case_based_mode
                  Examples.testimony Examples.extracted _
                  Examples.resumed_pool eq_refl eq_refl eq_refl)).
Defined.

(** ** The counters of the tracker and the counts of a nightly run *)

Section TrackerFacts.
Import Worker TrackerProps Nightly.

Lemma filter_snoc {A} (f : A -> bool) (l : list A) (x : A) :
  length (List.filter f (l ++ [x]))
  = length (List.filter f l) + (if f x then 1 else 0).
Proof.
  rewrite List.filter_app, length_app. cbn. now destruct (f x).
Qed.

Lemma handle_success_agrees (document : queued_document)
    (r : document_result) (st : state) :
  tracker_agrees st -> tracker_agrees (handle_success document r st).
Proof.
  intros Hagree t'. unfold handle_success.
  destruct (progressTracker st) as [t|] eqn:Ht.
  - destruct (Hagree t Ht) as (Hc & Hs & Hn).
    unfold counted_skipped, counted_new in *.
    destruct (skipped r || duplicate r) eqn:Hsk;
      [|destruct (success r && negb (duplicate r)) eqn:Hnew];
      cbn; intros [= <-]; cbn;
      rewrite length_app, !filter_snoc; cbn beta; rewrite Hsk; cbn.
    + lia.
    + apply andb_true_iff in Hnew as [-> _]. lia.
    + apply orb_false_iff in Hsk as [_ Hd]. rewrite Hd in Hnew.
      cbn in Hnew. rewrite andb_true_r in Hnew. rewrite Hnew. lia.
  - destruct (skipped r || duplicate r);
      [|destruct (success r && negb (duplicate r))];
      cbn; discriminate.
Qed.

Lemma handle_failure_agrees (workerId : nat) (document : queued_document)
    (ts ts1 ts2 : string) (queue : list queued_document) (st : state) :
  tracker_agrees st ->
  tracker_agrees (handle_failure workerId document ts ts1 ts2 queue st).
Proof.
  intros Hagree t'.
  pose proof (handle_failure_spec workerId document ts ts1 ts2 queue st) as Hspec.
  cbv zeta in Hspec. destruct Hspec as (_ & _ & Hproc & _ & _ & Hbranch).
  rewrite Hproc.
  destruct (_ <? _); destruct Hbranch as [_ ->].
  - apply Hagree.
  - unfold tracker_agrees in Hagree.
    destruct (progressTracker st) as [t|]; [|discriminate].
    cbn. intros [= <-]. cbn. exact (Hagree t eq_refl).
Qed.

(** X12.  Whatever a worker does with a document, in either queue
    pattern, the counters of the tracker stay those of the results: one
    completion per result, one skipped duplicate per result marked
    skipped or duplicate, one new document per other result that reports
    success.  Hence the counts a nightly run returns are those of the
    tracker: it has checked as many documents as were completed, and the
    documents it reports as processed are the completed ones that were
    not skipped, which are the new documents of the tracker as soon as
    every result that is not a skip reports success. *)
Theorem tracker_counts_results (st : state) :
  (tracker_agrees st ->
   forall o workerId document lookup extraction ts ts1 ts2 st',
     process_document o workerId document lookup extraction ts ts1 ts2 st
     = Uploader.Normal st' ->
     tracker_agrees st')
  /\ (tracker_agrees st ->
      forall t, progressTracker st = Some t ->
        let counts := crawlNightlyUpdates_counts (processedDocuments st) in
        documentsChecked counts = completed t
        /\ documentsProcessed counts + skippedDuplicates t = completed t
        /\ actualNewDocuments t <= documentsProcessed counts
        /\ (Forall (fun r => counted_skipped r = false -> success r = true)
                   (processedDocuments st) ->
            documentsProcessed counts = actualNewDocuments t)).
Proof.
  split.
  - intros Hagree o workerId document lookup extraction ts ts1 ts2 st'.
    unfold process_document.
    destruct (duplicate_check _ _ _ _) as [checked|msg]; [|discriminate].
    intros [= <-]. unfold handle_result.
    destruct (match checked with Some r => Some r | None => _ end) as [r|].
    + now apply handle_success_agrees.
    + destruct (negb (useCaseQueue o)); [|assumption].
      destruct (sharedQueue st); [|assumption].
      now apply handle_failure_agrees.
  - intros Hagree t Ht. destruct (Hagree t Ht) as (Hc & Hs & Hn).
    cbn [crawlNightlyUpdates_counts documentsChecked documentsProcessed].
    rewrite Hc, Hs, Hn. clear. split; [reflexivity|].
    induction (processedDocuments st) as [|r l IH].
    + cbn. split; [reflexivity|]. split; [lia | reflexivity].
    + destruct IH as (IH1 & IH2 & IH3).
      unfold counted_skipped, counted_new in *. cbn [List.filter length].
      split; [|split].
      * destruct (skipped r), (duplicate r); cbn; lia.
      * destruct (skipped r), (duplicate r), (success r); cbn; lia.
      * intros Hall. apply Forall_cons in Hall as [Hr Hall].
        specialize (IH3 Hall).
        destruct (skipped r), (duplicate r); cbn in *; try lia.
        rewrite (Hr eq_refl). cbn. lia.
Qed.

End TrackerFacts.

(** ** Cleaning the extracted text *)

Section CleanFacts.
Import Js Props Extract.

Lemma split_aux_nonempty (s : text) : forall cur b, split_aux cur b s <> [].
Proof.
  induction s as [|c s IH]; intros cur b; simpl; [discriminate|].
  destruct (is_space c); [destruct b; [apply IH | discriminate] | apply IH].
Qed.

(** Replacing every run of white space by one space is splitting at the
    runs and joining the pieces with spaces. *)
Lemma collapse_aux_join (s : text) : forall cur b,
  (b = true -> cur = []) ->
  rev cur ++ collapse_aux b s = join (split_aux cur b s).
Proof.
  induction s as [|c s IH]; intros cur b Hb; cbn [collapse_aux split_aux].
  - cbn [join]. now rewrite app_nil_r.
  - destruct (is_space c) eqn:Hc.
    + destruct b.
      * rewrite (Hb eq_refl). apply (IH [] true). reflexivity.
      * rewrite join_cons by apply split_aux_nonempty.
        f_equal. f_equal. apply (IH [] true). reflexivity.
    + rewrite <- (IH (c :: cur) false) by discriminate.
      cbn [rev]. now rewrite <- app_assoc.
Qed.

Lemma is_newline_space (c : ascii) : is_newline c = true -> is_space c = true.
Proof.
  unfold is_newline, is_space. intros H. apply Nat.eqb_eq in H.
  rewrite H. reflexivity.
Qed.

(** After the collapse no line feed is left, so the next replacement
    finds nothing. *)
Lemma collapse_aux_no_newline (s : text) : forall b,
  Forall (fun c => is_newline c = false) (collapse_aux b s).
Proof.
  induction s as [|c s IH]; intros b; cbn [collapse_aux]; [constructor|].
  destruct (is_space c) eqn:Hc.
  - destruct b; [apply IH | constructor; [reflexivity | apply IH]].
  - constructor; [|apply IH].
    destruct (is_newline c) eqn:Hn; [|reflexivity].
    apply is_newline_space in Hn. congruence.
Qed.

Lemma squeeze_aux_no_newline (s : text) :
  Forall (fun c => is_newline c = false) s -> squeeze_aux 0 s = s.
Proof.
  induction 1 as [|c s Hc _ IH]; cbn [squeeze_aux]; [reflexivity|].
  rewrite Hc. now f_equal.
Qed.

Lemma trim_space_l (c : ascii) (x : text) :
  is_space c = true -> trim (c :: x) = trim x.
Proof. intros Hc. unfold trim. cbn [trim_start]. now rewrite Hc. Qed.

Lemma trim_start_space_r (x : text) (c : ascii) :
  is_space c = true ->
  trim_start (x ++ [c])
  = match trim_start x with [] => [] | _ :: _ => trim_start x ++ [c] end.
Proof.
  intros Hc. induction x as [|a x IH]; cbn [app trim_start].
  - now rewrite Hc.
  - destruct (is_space a) eqn:Ha; [exact IH | reflexivity].
Qed.

Lemma trim_space_r (x : text) (c : ascii) :
  is_space c = true -> trim (x ++ [c]) = trim x.
Proof.
  intros Hc. unfold trim. rewrite trim_start_space_r by assumption.
  destruct (trim_start x) as [|a y]; [reflexivity|].
  rewrite rev_app_distr. cbn [rev app trim_start]. now rewrite Hc.
Qed.

Lemma trim_fixed (x : text) :
  starts_nonspace x -> starts_nonspace (rev x) -> trim x = x.
Proof.
  intros (c & r & -> & Hc) (d & r' & Hr & Hd). unfold trim.
  cbn [trim_start]. rewrite Hc, Hr. cbn [trim_start]. rewrite Hd, <- Hr.
  apply rev_involutive.
Qed.

Lemma word_ends_nonspace (w : text) : word w -> starts_nonspace (rev w).
Proof.
  intros [Hne Hw]. destruct w as [|a w _] using rev_ind; [congruence|].
  apply Forall_app in Hw as [_ Ha]. inversion Ha; subst.
  rewrite rev_app_distr. now exists a, (rev w).
Qed.

Lemma join_ends_nonspace (ws : list text) :
  Forall word ws -> ws <> [] -> starts_nonspace (rev (join ws)).
Proof.
  induction ws as [|w ws IH]; intros Hws Hne; [congruence|].
  inversion Hws as [|? ? Hw Hws']; subst.
  destruct ws as [|w2 ws]; [now apply word_ends_nonspace|].
  rewrite join_cons by discriminate.
  destruct (IH Hws' ltac:(discriminate)) as (d & r & Hr & Hd).
  rewrite rev_app_distr. cbn [rev]. rewrite Hr.
  exists d, ((r ++ [space]) ++ rev w). split; [|assumption].
  now rewrite <- !app_assoc.
Qed.

(** Trimming the joined pieces of a split leaves the words, joined. *)
Lemma trim_join_split (hd mids tl : list text) :
  edge hd -> Forall word mids -> edge tl ->
  trim (join (hd ++ mids ++ tl)) = join mids.
Proof.
  intros Hhd Hmids Htl. destruct mids as [|w mids].
  - destruct Hhd as [-> | ->], Htl as [-> | ->]; reflexivity.
  - assert (Hwords : trim (join (w :: mids)) = join (w :: mids)).
    { apply trim_fixed; [inversion Hmids; now apply join_starts_nonspace|].
      now apply join_ends_nonspace. }
    assert (Hright : trim (join ((w :: mids) ++ tl)) = join (w :: mids)).
    { destruct Htl as [-> | ->]; [now rewrite app_nil_r|].
      rewrite join_app by discriminate. cbn [join].
      now rewrite trim_space_r. }
    destruct Hhd as [-> | ->]; [exact Hright|].
    change ([[]] ++ (w :: mids) ++ tl) with ([] :: (w :: mids) ++ tl).
    rewrite join_cons by discriminate. cbn [app].
    now rewrite trim_space_l.
Qed.

Lemma concat_edge (hd mids tl : list text) :
  edge hd -> edge tl -> concat (hd ++ mids ++ tl) = concat mids.
Proof.
  intros Hhd Htl. rewrite !concat_app.
  destruct Hhd as [-> | ->], Htl as [-> | ->]; cbn [concat app];
    now rewrite ?app_nil_r.
Qed.

Lemma remove_ci_length (pattern s : text) : forall skip,
  length (remove_ci pattern skip s) <= length s.
Proof.
  induction s as [|c s IH]; intros skip; cbn [remove_ci]; [reflexivity|].
  destruct skip as [|k].
  - destruct (starts_with_ci pattern (c :: s)); cbn [length].
    + specialize (IH (length pattern - 1)). lia.
    + specialize (IH 0). lia.
  - cbn [length]. specialize (IH k). lia.
Qed.

Lemma remove_between_length (first last s : text) : forall skip,
  length (remove_between first last skip s) <= length s.
Proof.
  induction s as [|c s IH]; intros skip; cbn [remove_between]; [reflexivity|].
  destruct skip as [|k].
  - destruct (starts_with_ci first (c :: s)).
    + destruct (lazy_until last (drop (length first) (c :: s))) as [n|];
        cbn [length].
      * specialize (IH (length first + n - 1)). lia.
      * specialize (IH 0). lia.
    + cbn [length]. specialize (IH 0). lia.
  - cbn [length]. specialize (IH k). lia.
Qed.

Lemma collapse_aux_length (s : text) : forall b,
  length (collapse_aux b s) <= length s.
Proof.
  induction s as [|c s IH]; intros b; cbn [collapse_aux]; [reflexivity|].
  destruct (is_space c); [destruct b|]; cbn [length];
    [specialize (IH true) | specialize (IH true) | specialize (IH false)]; lia.
Qed.

Lemma trim_start_length (s : text) : length (trim_start s) <= length s.
Proof.
  induction s as [|c s IH]; cbn [trim_start]; [reflexivity|].
  destruct (is_space c); cbn [length] in *; lia.
Qed.

Lemma trim_length (s : text) : length (trim s) <= length s.
Proof.
  unfold trim. rewrite length_rev.
  etransitivity; [apply trim_start_length|]. rewrite length_rev.
  apply trim_start_length.
Qed.

Lemma without_ui_length (rawText : text) :
  length (without_ui rawText) <= length rawText.
Proof.
  unfold without_ui.
  etransitivity; [apply remove_between_length|].
  do 3 (etransitivity; [apply remove_ci_length|]).
  apply remove_ci_length.
Qed.

(** X13. The text [cleanExtractedText] returns is a list of words joined
    by single spaces: it has no white space at either end, no two white
    spaces in a row and no white space other than the space.  The words
    are what is left of the raw text once the five patterns are removed:
    their code units are its code units that are not white space, in
    order.  The text is never longer than the raw text.  The replacement
    of line 687 never changes anything, since line 686 leaves no line
    feed. *)
Theorem cleanExtractedText_normal_form (rawText : text) :
  exists ws,
    Forall word ws
    /\ cleanExtractedText rawText = join ws
    /\ concat ws = List.filter (fun c => negb (is_space c)) (without_ui rawText)
    /\ squeeze (collapse (without_ui rawText)) = collapse (without_ui rawText)
    /\ length (cleanExtractedText rawText) <= length rawText.
Proof.
  destruct (split_ws_shape (without_ui rawText))
    as (hd & mids & tl & Hsplit & Hhd & Hmids & Htl).
  assert (Hcollapse : collapse (without_ui rawText)
                      = join (split_ws (without_ui rawText))).
  { unfold collapse, split_ws.
    now rewrite <- (collapse_aux_join _ [] false) by discriminate. }
  assert (Hsqueeze : squeeze (collapse (without_ui rawText))
                     = collapse (without_ui rawText)).
  { apply squeeze_aux_no_newline, collapse_aux_no_newline. }
  exists mids. split; [assumption|]. split; [|split; [|split]].
  - unfold cleanExtractedText.
    rewrite Hsqueeze, Hcollapse, Hsplit. now apply trim_join_split.
  - rewrite <- (concat_edge hd mids tl) by assumption.
    rewrite <- Hsplit. unfold split_ws.
    now rewrite concat_split_aux by discriminate.
  - exact Hsqueeze.
  - unfold cleanExtractedText. rewrite Hsqueeze.
    etransitivity; [apply trim_length|].
    etransitivity; [apply collapse_aux_length|].
    apply without_ui_length.
Qed.

End CleanFacts.

Example cleanExtractedText_raw_page :
  Extract.cleanExtractedText Examples.raw_page
  = Js.of_string "Direct Testimony of Jane Doe".
Proof. vm_compute. reflexivity. Qed.

(** ** Reading the pages of a document *)

Section PageFacts.
Import Js Props Extract ExtractProps.

Section Loop.
Variable min_length maxRetries : nat.
Variable look : nat -> nat -> page_try.

Local Abbreviation found_from pageNum k n :=
  (head (omap (fun k => good min_length (look pageNum k)) (seq k n))).

Lemma while_page_stopped (n pageNum : nat) (st : page_loop) :
  goes_on maxRetries st = false ->
  while_page min_length maxRetries look n pageNum st = st.
Proof. intros H. destruct n; cbn [while_page]; [reflexivity | now rewrite H]. Qed.

(** The inner loop from the try numbered [k] on: it takes the first text
    that is long enough, and it has ended after the try numbered
    [maxRetries]. *)
Lemma while_page_spec (pageNum : nat) : forall n k st,
  retryCount st = k -> pageExtracted st = false -> k + n = S maxRetries ->
  let st' := while_page min_length maxRetries look n pageNum st in
  allText st' = allText st ++ block_of pageNum (found_from pageNum k n)
  /\ successfulPages st'
     = successfulPages st + taken (found_from pageNum k n)
  /\ goes_on maxRetries st' = false.
Proof.
  induction n as [|n IH]; intros k st Hk Hex Hsum;
    cbn [while_page seq omap list_omap].
  - cbn. rewrite app_nil_r, Nat.add_0_r. repeat split.
    unfold goes_on. rewrite Hex, Hk. cbn.
    apply Nat.leb_gt. lia.
  - assert (Hon : goes_on maxRetries st = true).
    { unfold goes_on. rewrite Hex, Hk. cbn. apply Nat.leb_le. lia. }
    rewrite Hon. unfold try_page. rewrite Hk. cbn beta.
    destruct (look pageNum k) as [pageText|]; cbn [good].
    + destruct (min_length <? length pageText).
      * rewrite while_page_stopped by reflexivity. cbn. repeat split. lia.
      * destruct (Nat.ltb_spec k maxRetries) as [Hlt|Hge].
        -- match goal with
           | |- context [while_page _ _ _ n pageNum ?s] => apply (IH (S k) s)
           end; [reflexivity | assumption | lia].
        -- assert (n = 0) by lia. subst n. cbn.
           rewrite app_nil_r, Nat.add_0_r. repeat split.
    + destruct (Nat.ltb_spec maxRetries (S k)) as [Hlt|Hge].
      * assert (n = 0) by lia. subst n. cbn.
        rewrite app_nil_r, Nat.add_0_r. repeat split.
      * match goal with
        | |- context [while_page _ _ _ n pageNum ?s] => apply (IH (S k) s)
        end; [reflexivity | assumption | lia].
Qed.

Lemma extract_page_spec (st : page_loop) (pageNum : nat) :
  let st' := extract_page min_length maxRetries look st pageNum in
  let found := first_good min_length maxRetries look pageNum in
  allText st' = allText st ++ block_of pageNum found
  /\ successfulPages st' = successfulPages st + taken found
  /\ goes_on maxRetries st' = false.
Proof.
  unfold extract_page.
  apply (while_page_spec pageNum (S maxRetries) 0
           {| allText := allText st; successfulPages := successfulPages st;
              pageExtracted := false; retryCount := 0 |});
    reflexivity.
Qed.

Lemma fold_extract_page (l : list nat) : forall st,
  let st' := fold_left (extract_page min_length maxRetries look) l st in
  let found := first_good min_length maxRetries look in
  allText st'
  = allText st ++ concat (map (fun pageNum => block_of pageNum (found pageNum)) l)
  /\ successfulPages st'
     = successfulPages st
       + length (List.filter (fun pageNum => bool_decide (is_Some (found pageNum))) l).
Proof.
  induction l as [|p l IH]; intros st; cbn [fold_left map concat List.filter].
  - cbn. now rewrite app_nil_r, Nat.add_0_r.
  - destruct (extract_page_spec st p) as (Htext & Hpages & _).
    destruct (IH (extract_page min_length maxRetries look st p)) as (-> & ->).
    rewrite Htext, Hpages, <- app_assoc. split; [reflexivity|].
    destruct (first_good min_length maxRetries look p); cbn; lia.
Qed.

Lemma extract_pages_spec (totalPages : nat) :
  let st := extract_pages min_length maxRetries look totalPages in
  let found := first_good min_length maxRetries look in
  allText st = blocks found totalPages
  /\ successfulPages st = pages_found found totalPages.
Proof. unfold extract_pages. apply fold_extract_page. Qed.

End Loop.

Lemma pages_found_le (found : nat -> option text) (totalPages : nat) :
  pages_found found totalPages <= totalPages.
Proof.
  unfold pages_found. etransitivity; [apply List.filter_length_le|].
  now rewrite length_seq.
Qed.

Lemma trim_start_has_nonspace (t : text) :
  has_nonspace t -> has_nonspace (trim_start t).
Proof.
  induction t as [|c t IH]; intros (x & Hin & Hx); [destruct Hin|].
  cbn [trim_start]. destruct (is_space c) eqn:Hc.
  - apply IH. exists x. split; [|assumption].
    destruct Hin as [-> | Hin]; [congruence | assumption].
  - now exists x.
Qed.

Lemma truthy_trim_nonspace (t : text) :
  has_nonspace t -> truthy (trim t) = true.
Proof.
  intros H. apply trim_start_has_nonspace in H.
  assert (H' : has_nonspace (rev (trim_start t))).
  { destruct H as (x & Hin & Hx). exists x. split; [|assumption].
    now apply in_rev in Hin. }
  apply trim_start_has_nonspace in H'. destruct H' as (x & Hin & _).
  unfold trim. destruct (trim_start (rev (trim_start t))) as [|a l];
    [destruct Hin|].
  cbn [rev]. now destruct (rev l).
Qed.

Lemma page_block_has_nonspace (pageNum : nat) (pageText : text) :
  has_nonspace (page_block pageNum pageText).
Proof. exists "-"%char. split; [right; left|]; reflexivity. Qed.

(** The blocks hold something other than white space exactly when a page
    was taken. *)
Lemma blocks_truthy (found : nat -> option text) (totalPages : nat) :
  truthy (trim (blocks found totalPages)) = (0 <? pages_found found totalPages).
Proof.
  unfold blocks, pages_found.
  induction (seq 1 totalPages) as [|p l IH]; [reflexivity|].
  cbn [map concat List.filter].
  destruct (found p) as [pageText|]; cbn [block_of].
  - rewrite bool_decide_eq_true_2 by eauto. cbn [length].
    change (0 <? S _) with true.
    apply truthy_trim_nonspace.
    destruct (page_block_has_nonspace p pageText) as (x & Hin & Hx).
    exists x. split; [|assumption]. apply in_or_app. now left.
  - rewrite bool_decide_eq_false_2 by (intros [? ?]; discriminate).
    exact IH.
Qed.

Lemma weblink_speed (retryQueue : Retry.SmartRetryQueue) (queueId : string) :
  let n := Retry.attemptNumber retryQueue queueId in
  exists speedConfig,
    Retry.getNextAttemptSpeed retryQueue queueId "weblink_iframe" = Some speedConfig
    /\ Config.name speedConfig
       = (if n =? 0 then "fast" else if n =? 1 then "medium" else "slow")
    /\ (if String.eqb (Config.name speedConfig) "fast" then 1 else 2)
       = (if n =? 0 then 1 else 2).
Proof.
  intros n. rewrite getNextAttemptSpeed_index. fold n.
  change (length (Retry.timingConfig "weblink_iframe") - 1) with 2.
  destruct (tier_cases n) as [[-> ->] | [[-> ->] | [-> Hn]]];
    eexists; (split; [reflexivity|]).
  - split; reflexivity.
  - split; reflexivity.
  - destruct n as [|[|n]]; [lia | lia |]. split; reflexivity.
Qed.

Lemma page_loops_first (look : nat -> nat -> page_try) (totalPages : nat) :
  let r := extractLaserFicheTextFast look totalPages in
  let found := first_good 10 MAX_RETRIES look in
  truthy (trim (et_text r)) = (0 <? et_pages r)
  /\ et_pages r = pages_found found totalPages
  /\ et_text r = blocks found totalPages.
Proof.
  cbn zeta. unfold extractLaserFicheTextFast. cbn [et_text et_pages].
  destruct (extract_pages_spec 10 MAX_RETRIES look totalPages) as [-> ->].
  split; [apply blocks_truthy | split; reflexivity].
Qed.

Lemma page_loops_second (look : nat -> nat -> page_try) (totalPages : nat)
    (queueId : string) (retryQueue : Retry.SmartRetryQueue) :
  let n := Retry.attemptNumber retryQueue queueId in
  let found := first_good 20 (if n =? 0 then 1 else 2) look in
  exists r,
    extractWebLinkTextProgressive look (Some totalPages) queueId retryQueue
      "weblink_iframe" = Some r
    /\ truthy (trim (et_text r)) = (0 <? et_pages r)
    /\ et_pages r = pages_found found totalPages
    /\ et_text r = blocks found totalPages
    /\ et_speed r
       = Some (if n =? 0 then "fast" else if n =? 1 then "medium" else "slow").
Proof.
  intros n found.
  destruct (weblink_speed retryQueue queueId) as (speedConfig & Hs & Hname & Hmax).
  unfold extractWebLinkTextProgressive. rewrite Hs, Hmax, Hname. fold n.
  destruct (extract_pages_spec 20 (if n =? 0 then 1 else 2) look totalPages)
    as [-> ->].
  eexists. split; [reflexivity|]. cbn [et_text et_pages et_speed].
  split; [apply blocks_truthy | repeat split].
Qed.

(** X14.  [extractLaserFicheTextFast] takes for every page the text of
    the first of at most three tries that gives more than ten code units,
    and goes on to the next page when none does, whether the tries return
    short texts or throw.  Its text is the blocks of the pages taken, in
    page order, its page count their number; the text holds something
    other than white space exactly when a page was taken.
    [extractWebLinkTextProgressive] does the same with more than twenty
    code units and two tries at a document that has not failed before,
    three tries afterwards.  The inner loop of a page always ends within
    [maxRetries + 1] passes. *)
Theorem page_loops_take_first_good (look : nat -> nat -> page_try)
    (totalPages : nat) :
  (let r := extractLaserFicheTextFast look totalPages in
   let found := first_good 10 MAX_RETRIES look in
   et_text r = blocks found totalPages
   /\ et_pages r = pages_found found totalPages
   /\ et_pages r <= totalPages
   /\ truthy (trim (et_text r)) = (0 <? et_pages r))
  /\ (forall queueId retryQueue,
        let n := Retry.attemptNumber retryQueue queueId in
        let found := first_good 20 (if n =? 0 then 1 else 2) look in
        extractWebLinkTextProgressive look (Some totalPages) queueId
          retryQueue "weblink_iframe"
        = Some {| et_text := blocks found totalPages;
                  et_pages := pages_found found totalPages;
                  et_speed :=
                    Some (if n =? 0 then "fast"
                          else if n =? 1 then "medium" else "slow") |})
  /\ (forall min_length maxRetries st pageNum,
        goes_on maxRetries
          (extract_page min_length maxRetries look st pageNum) = false).
Proof.
  split; [|split].
  - destruct (page_loops_first look totalPages) as (Ht & Hp & Hb).
    cbn zeta. split; [exact Hb|]. split; [exact Hp|]. split; [|exact Ht].
    rewrite Hp. apply pages_found_le.
  - intros queueId retryQueue n found.
    destruct (page_loops_second look totalPages queueId retryQueue)
      as (r & -> & _ & Hp & Hb & Hs).
    f_equal. destruct r as [t p sp]. cbn [et_text et_pages et_speed] in *.
    now subst.
  - intros min_length maxRetries st pageNum.
    apply (extract_page_spec min_length maxRetries look st pageNum).
Qed.

End PageFacts.

(** ** From the viewer to the store *)

Section ExtractionFacts.
Import Js Props Store Uploader StoreProps Extract ExtractProps.

Variable uuidv4 : nat -> string.
Variable now : nat -> string.
Variable extracted_at : string.

Lemma upload_extracted_run (documentUrl documentName : string)
    (caseInfo : Store.caseInfo) (documentMetadata : Worker.queued_document)
    (fullText : text) (totalPages : nat) (w : world) :
  run (upload_extracted uuidv4 now extracted_at documentUrl documentName
         caseInfo documentMetadata fullText totalPages) w
  = if truthy (trim fullText)
    then
      let '(w', u) :=
        run (uploadDocument uuidv4 now extracted_at
               (handed_over documentUrl documentName caseInfo documentMetadata
                  fullText)) w in
      (w', if success u
           then Some {| ex_success := true;
                        ex_documentName := documentName;
                        ex_pages := totalPages;
                        ex_textLength := length (cleanExtractedText fullText);
                        ex_chunksCreated := chunksCreated u;
                        ex_documentId := documentId u;
                        ex_caseId := caseId u |}
           else None)
    else (w, None).
Proof.
  unfold upload_extracted, handed_over.
  destruct (truthy (trim fullText)); [|reflexivity].
  rewrite run_bind.
  destruct (run (uploadDocument _ _ _ _) w) as [w' u].
  now destruct (success u).
Qed.

Lemma first_good_none (min_length maxRetries : nat)
    (look : nat -> nat -> page_try) (pageNum : nat) :
  (forall k, good min_length (look pageNum k) = None) ->
  first_good min_length maxRetries look pageNum = None.
Proof.
  intros H. unfold first_good.
  induction (seq 0 (S maxRetries)) as [|k l IH]; [reflexivity|].
  cbn [omap list_omap]. now rewrite H.
Qed.

Lemma pages_found_none (found : nat -> option text) (totalPages : nat) :
  (forall pageNum, found pageNum = None) -> pages_found found totalPages = 0.
Proof.
  intros H. unfold pages_found.
  induction (seq 1 totalPages) as [|p l IH]; [reflexivity|].
  cbn [List.filter]. rewrite H.
  now rewrite bool_decide_eq_false_2 by (intros [? ?]; discriminate).
Qed.

Lemma good_weaker (t : page_try) : good 10 t = None -> good 20 t = None.
Proof.
  destruct t as [pageText|]; [|reflexivity]. cbn [good].
  destruct (Nat.ltb_spec 10 (length pageText)); [discriminate|].
  intros _. destruct (Nat.ltb_spec 20 (length pageText)); [lia | reflexivity].
Qed.

(** Whatever the viewer shows, [extractDocumentText] comes down to lines
    976-1007 for some text and page count; the text holds something other
    than white space exactly when the count is not zero. *)
Lemma extractDocumentText_cases (v : viewer) (documentUrl documentName : string)
    (caseInfo : Store.caseInfo) (documentMetadata : Worker.queued_document)
    (retryQueue : Retry.SmartRetryQueue) :
  exists fullText totalPages,
    extractDocumentText uuidv4 now extracted_at v documentUrl documentName
      caseInfo documentMetadata retryQueue
    = upload_extracted uuidv4 now extracted_at documentUrl documentName
        caseInfo documentMetadata fullText totalPages
    /\ truthy (trim fullText) = (0 <? totalPages)
    /\ (no_text v -> totalPages = 0).
Proof.
  assert (Hnull : exists fullText totalPages,
            Ret None
            = upload_extracted uuidv4 now extracted_at documentUrl documentName
                caseInfo documentMetadata fullText totalPages
            /\ truthy (trim fullText) = (0 <? totalPages)
            /\ (no_text v -> totalPages = 0)).
  { exists [], 0. repeat split. }
  unfold extractDocumentText.
  destruct (opened v) as [info|]; [|exact Hnull].
  destruct (documentType info) eqn:Hkind.
  - destruct (pageCount info =? 0); [exact Hnull|].
    destruct (page_loops_first (look v) (pageCount info)) as (Ht & Hp & _).
    eexists _, _. split; [reflexivity|]. split; [exact Ht|].
    intros Hno. rewrite Hp. apply pages_found_none. intros pageNum.
    apply first_good_none. intros k. apply Hno.
  - destruct (frame v); [|exact Hnull].
    destruct (viewer_pages v) as [totalPages|] eqn:Hpages.
    + destruct (page_loops_second (look v) totalPages
                  (Worker.queueId documentMetadata) retryQueue)
        as (r & Hr & Ht & Hp & _).
      cbn [kind_name]. rewrite Hr.
      eexists _, _. split; [reflexivity|]. split; [exact Ht|].
      intros Hno. rewrite Hp. apply pages_found_none. intros pageNum.
      apply first_good_none. intros k. apply good_weaker, Hno.
    + unfold extractWebLinkTextProgressive.
      destruct (Retry.getNextAttemptSpeed _ _ _); exact Hnull.
  - exists [], 0. repeat split.
Qed.

(** X15.  [extractDocumentText] returns a result only after it has read
    at least one page and [uploadDocument] has reported success for the
    cleaned text of the pages; the result then has [success: true], the
    name of the document, the number of pages read and the uploader's
    chunk count and document id.  It returns [null] when the upload
    fails.  When no try at any page gives more than ten code units it
    returns [null] without calling the uploader: store and case cache
    stay as they were. *)
Theorem extractDocumentText_result (v : viewer)
    (documentUrl documentName : string) (caseInfo : Store.caseInfo)
    (documentMetadata : Worker.queued_document)
    (retryQueue : Retry.SmartRetryQueue) (w : world) :
  let '(w', result) :=
    run (extractDocumentText uuidv4 now extracted_at v documentUrl
           documentName caseInfo documentMetadata retryQueue) w in
  (forall e, result = Some e ->
     ex_success e = true /\ ex_documentName e = documentName
     /\ 1 <= ex_pages e
     /\ exists fullText u,
          truthy (trim fullText) = true
          /\ run (uploadDocument uuidv4 now extracted_at
                    (handed_over documentUrl documentName caseInfo
                       documentMetadata fullText)) w = (w', u)
          /\ success u = true
          /\ ex_chunksCreated e = chunksCreated u
          /\ ex_documentId e = documentId u
          /\ ex_textLength e = length (cleanExtractedText fullText))
  /\ (result = None ->
      w' = w
      \/ exists fullText u,
           run (uploadDocument uuidv4 now extracted_at
                  (handed_over documentUrl documentName caseInfo
                     documentMetadata fullText)) w = (w', u)
           /\ success u = false)
  /\ (no_text v -> result = None /\ w' = w).
Proof.
  destruct (extractDocumentText_cases v documentUrl documentName caseInfo
              documentMetadata retryQueue)
    as (fullText & totalPages & -> & Ht & Hno).
  rewrite upload_extracted_run.
  destruct (truthy (trim fullText)) eqn:Htext.
  - symmetry in Ht. apply Nat.ltb_lt in Ht.
    destruct (run (uploadDocument _ _ _ _) w) as [w' u] eqn:Hrun.
    destruct (success u) eqn:Hsucc.
    + split; [|split].
      * intros e [= <-]. cbn. repeat split; [lia|].
        exists fullText, u. now repeat split.
      * discriminate.
      * intros Hv. apply Hno in Hv. lia.
    + split; [|split].
      * discriminate.
      * intros _. right. now exists fullText, u.
      * intros Hv. apply Hno in Hv. lia.
  - split; [|split].
    + discriminate.
    + intros _. now left.
    + now intros _.
Qed.

(** X16.  When the store already has a row for the URL of a document,
    the extraction a worker runs for it inserts neither a document nor a
    chunk, and still returns a result: one with no chunk and without the
    uploader's [duplicate] mark.  A worker of the shared queue that goes
    on with this result pushes it to the processed documents and records
    a new document in the progress tracker, not a skipped duplicate. *)
Theorem stored_document_counted_as_new (v : viewer)
    (document : Worker.queued_document) (retryQueue : Retry.SmartRetryQueue)
    (w w' : world) (r : Worker.document_result) (row : document_row)
    (workerId : nat) (lookup : Worker.lookup_outcome) (ts ts1 ts2 : string)
    (st : Worker.state) (t : Worker.ProgressTracker) :
  store_ok (store w) ->
  document_rows (Worker.href document) (store w) = [row] ->
  run (extract_for_worker uuidv4 now extracted_at v document retryQueue) w
  = (w', Some r) ->
  Worker.progressTracker st = Some t ->
  documents (store w') = documents (store w)
  /\ document_chunks (store w') = document_chunks (store w)
  /\ Worker.chunksCreated r = Some 0
  /\ Worker.duplicate r = false
  /\ Worker.skipped r = false
  /\ exists st',
       Worker.process_document Worker.shared_queue_mode workerId document
         lookup (Some r) ts ts1 ts2 st = Normal st'
       /\ Worker.progressTracker st'
          = Some (Worker.recordNewDocument (Worker.recordSuccess t))
       /\ Worker.processedDocuments st'
          = Worker.processedDocuments st ++ [Worker.with_caseNumber document r].
Proof.
  intros Hok Hrow Hrun Htracker.
  unfold extract_for_worker in Hrun. rewrite run_bind in Hrun.
  destruct (extractDocumentText_cases v (Worker.href document)
              (Worker.text document) (Worker.caseInfo document) document
              retryQueue)
    as (fullText & totalPages & Hcase & _ & _).
  rewrite Hcase, upload_extracted_run in Hrun.
  destruct (truthy (trim fullText)); [|discriminate].
  destruct (run (uploadDocument _ _ _ _) w) as [w1 u] eqn:Hupload.
  destruct (uploadDocument_existing uuidv4 now extracted_at
              (handed_over (Worker.href document) (Worker.text document)
                 (Worker.caseInfo document) document fullText)
              w w1 u row Hok Hrow Hupload)
    as (-> & Hdocs & Hchunks).
  cbn in Hrun. injection Hrun as <- <-.
  split; [assumption|]. split; [assumption|].
  split; [reflexivity|]. split; [reflexivity|]. split; [reflexivity|].
  eexists. split; [reflexivity|].
  cbn. rewrite Htracker. split; reflexivity.
Qed.

End ExtractionFacts.

Lemma stored_document_counted_as_new_witness :
  Worker.actualNewDocuments
    (default Pool.new_tracker
       (Worker.progressTracker
          (Worker.handle_success Examples.application_again
             (Worker.with_caseNumber Examples.application_again
                Examples.stored_again)
             (Examples.idle_pool (Some [])))))
  = 1.
Proof.
  destruct (stored_document_counted_as_new Examples.uuids Examples.clock
              "2025-01-01T00:00:00.000Z" Examples.scanned
              Examples.application_again (Retry.new 3)
              Examples.one_document
              (fst (Uploader.run
                      (Extract.extract_for_worker Examples.uuids Examples.clock
                         "2025-01-01T00:00:00.000Z" Examples.scanned
                         Examples.application_again (Retry.new 3))
                      Examples.one_document))
              Examples.stored_again Examples.application 0
              Examples.not_found "2025-01-01T00:00:01.000Z"
              "2025-01-01T00:00:01.000Z" "2025-01-01T00:00:01.000Z"
              (Examples.idle_pool (Some []))
              {| Worker.completed := 0; Worker.errors := 0;
                 Worker.skippedDuplicates := 0;
                 Worker.actualNewDocuments := 0 |})
    as (_ & _ & _ & _ & _ & st' & Hst & Htracker & _).
  - apply store_ok_small; cbn; lia.
  - vm_compute. reflexivity.
  - vm_compute. reflexivity.
  - reflexivity.
  - cbn in Hst. injection Hst as <-. cbn. reflexivity.
Defined.

(** ** Building the document queue of a case *)

Section DiscoveryFacts.
Import Store Discovery DiscoveryProps.

Lemma has_true (s : gset string) (x : string) : has s x = true <-> x ∈ s.
Proof. unfold has. apply bool_decide_eq_true. Qed.

Lemma has_false (s : gset string) (x : string) : has s x = false <-> x ∉ s.
Proof. unfold has. apply bool_decide_eq_false. Qed.

(** One row more in the two collections of [getAllExistingDocuments]. *)
Lemma add_existing_spec (m : gmap nat (gset string)) (u : gset string)
    (doc : document_row) :
  let '(m', u') := add_existing (m, u) doc in
  (forall x, x ∈ u' <-> x = document_url doc \/ x ∈ u)
  /\ (forall id n,
        n ∈ default ∅ (m' !! id)
        <-> (id = doc_case_id doc /\ n = document_name doc)
            \/ n ∈ default ∅ (m !! id)).
Proof.
  unfold add_existing. split; [set_solver|].
  intros id n. destruct (m !! doc_case_id doc) as [names|] eqn:Hm.
  - rewrite Hm. destruct (decide (id = doc_case_id doc)) as [->|Hne].
    + rewrite lookup_insert_eq, Hm. cbn.
      rewrite elem_of_union, elem_of_singleton. split.
      * intros [-> | H]; [now left | now right].
      * intros [[_ ->] | H]; [now left | now right].
    + rewrite lookup_insert_ne by congruence. tauto.
  - rewrite lookup_insert_eq. cbn.
    destruct (decide (id = doc_case_id doc)) as [->|Hne].
    + rewrite lookup_insert_eq, Hm. cbn.
      rewrite elem_of_union, elem_of_singleton. split.
      * intros [-> | H]; [now left | now right].
      * intros [[_ ->] | H]; [now left | now right].
    + rewrite !lookup_insert_ne by congruence. tauto.
Qed.

Lemma fold_add_existing (rows : list document_row) :
  forall (m : gmap nat (gset string)) (u : gset string),
  let '(m', u') := fold_left add_existing rows (m, u) in
  (forall x, x ∈ u' <-> stored_url rows x \/ x ∈ u)
  /\ (forall id n,
        n ∈ default ∅ (m' !! id)
        <-> stored_name rows (Some id) n \/ n ∈ default ∅ (m !! id)).
Proof.
  induction rows as [|doc rows IH]; intros m u; cbn [fold_left].
  - split; [intros x | intros id n]; split; try tauto;
      intros [(r & [] & _) | H]; exact H.
  - pose proof (add_existing_spec m u doc) as Hstep.
    destruct (add_existing (m, u) doc) as [m1 u1].
    destruct Hstep as [Hu1 Hm1].
    specialize (IH m1 u1).
    destruct (fold_left add_existing rows (m1, u1)) as [m' u'].
    destruct IH as [Hu Hm]. split.
    + intros x. rewrite Hu, Hu1. unfold stored_url. split.
      * intros [(r & Hin & Hr) | [-> | Hx]].
        -- left. exists r. split; [now right | assumption].
        -- left. exists doc. split; [now left | reflexivity].
        -- now right.
      * intros [(r & [<- | Hin] & Hr) | Hx].
        -- right. left. now symmetry.
        -- left. now exists r.
        -- right. now right.
    + intros id n. rewrite Hm, Hm1. unfold stored_name. split.
      * intros [(r & Hin & Hid & Hr) | [[-> ->] | Hx]].
        -- left. exists r. split; [now right | now split].
        -- left. exists doc. split; [now left | now split].
        -- now right.
      * intros [(r & [<- | Hin] & Hid & Hr) | Hx].
        -- right. left. split; [congruence | now symmetry].
        -- left. now exists r.
        -- right. now right.
Qed.

(** After a listing that resolves with rows, the crawler's collections
    hold the URLs of the rows and, case by case, their names. *)
Lemma getAllExistingDocuments_listed (rows : list document_row) (c : crawler) :
  exists byCase urls,
    getAllExistingDocuments (Listed (Some rows)) c
    = ({| existingDocumentsByCase := Some byCase; existingUrls := Some urls |},
       urls)
    /\ (forall x, x ∈ urls <-> stored_url rows x)
    /\ (forall id n, n ∈ default ∅ (byCase !! id) <-> stored_name rows (Some id) n).
Proof.
  unfold getAllExistingDocuments. simpl default.
  pose proof (fold_add_existing rows ∅ ∅) as H.
  destruct (fold_left add_existing rows (∅, ∅)) as [byCase urls].
  destruct H as [Hu Hm]. exists byCase, urls. split; [reflexivity|]. split.
  - intros x. rewrite Hu, elem_of_empty. tauto.
  - intros id n. rewrite Hm, lookup_empty. cbn. rewrite elem_of_empty. tauto.
Qed.

Section OneCase.
Variable uuidv4 : nat -> string.
Variable o : options.
Variable existingDocSet : gset string.
Variable c : crawler.
Variable caseSpecificDocs : gset string.
Variable caseInfo : Store.caseInfo.
Hypothesis Hfull : checkCaseSpecificDupes o = true.

Local Abbreviation ok := (passes existingDocSet c caseSpecificDocs).

Lemma shouldInclude_spec (names : gset string) (d : docInfo) :
  shouldInclude o existingDocSet c caseSpecificDocs names d = true
  <-> ok d /\ text d ∉ names.
Proof.
  unfold shouldInclude, passes. rewrite Hfull. cbn zeta.
  rewrite !andb_true_iff, !negb_true_iff, orb_false_iff, !has_false.
  destruct (existingUrls c) as [urls|].
  - rewrite has_false. split.
    + intros [[[H1 H2] H3] H4]. repeat split; try assumption.
      now intros ? [= <-].
    + intros [(H1 & H2 & H3) H4]. repeat split; try assumption.
      now apply H2.
  - split.
    + intros [[[H1 _] H3] H4]. repeat split; try assumption. discriminate.
    + intros [(H1 & _ & H3) H4]. now repeat split.
Qed.

(** The loop over the links, from any state on. *)
Lemma fold_add_link (links : list docInfo) : forall st,
  let st' :=
    fold_left (add_link uuidv4 o existingDocSet c caseSpecificDocs caseInfo)
      links st in
  exists new,
    caseDocuments st' = caseDocuments st ++ new
    /\ drawn st' = drawn st + length new
    /\ (forall n, n ∈ currentCaseDocNames st'
                  <-> n ∈ currentCaseDocNames st \/ In n (map Worker.text new))
    /\ (forall n, In n (map Worker.text new) -> n ∉ currentCaseDocNames st)
    /\ filtered uuidv4 caseInfo
         (fun d => ok d /\ text d ∉ currentCaseDocNames st)
         links (drawn st) new.
Proof.
  induction links as [|d links IH]; intros st; cbn [fold_left].
  - exists []. rewrite app_nil_r, Nat.add_0_r.
    split; [reflexivity|]. split; [reflexivity|]. split; [|split].
    + intros n. cbn. tauto.
    + intros n [].
    + split; try constructor. intros d [].
  - destruct (shouldInclude o existingDocSet c caseSpecificDocs
                (currentCaseDocNames st) d) eqn:Hinc.
    + assert (Hstep :
        add_link uuidv4 o existingDocSet c caseSpecificDocs caseInfo st d
        = {| caseDocuments :=
               caseDocuments st ++ [documentData d caseInfo (uuidv4 (drawn st))];
             currentCaseDocNames := {[ text d ]} ∪ currentCaseDocNames st;
             drawn := S (drawn st) |})
        by (unfold add_link; now rewrite Hinc).
      rewrite Hstep. clear Hstep.
      apply shouldInclude_spec in Hinc as [Hok Hnew].
      match goal with
      | |- context [fold_left _ links ?s] => destruct (IH s)
          as (new & Hdocs & Hdrawn & Hnames & Hfresh & [Hnd Hfrom Hord Hall Hids])
      end.
      cbn [caseDocuments currentCaseDocNames drawn] in *.
      set (doc := documentData d caseInfo (uuidv4 (drawn st))) in *.
      exists (doc :: new). rewrite Hdocs, <- app_assoc. split; [reflexivity|].
      split; [rewrite Hdrawn; cbn [length]; lia|].
      assert (Hd : forall n, In n (map Worker.text new) -> n <> text d).
      { intros n Hn ->. apply (Hfresh _ Hn).
        apply elem_of_union_l, elem_of_singleton. reflexivity. }
      split; [|split].
      * intros n. rewrite Hnames. cbn [map In].
        change (Worker.text doc) with (text d).
        rewrite elem_of_union, elem_of_singleton. split.
        -- intros [[-> | H] | H];
             [right; now left | now left | right; now right].
        -- intros [H | [<- | H]];
             [left; now right | left; now left | now right].
      * intros n [<- | Hn]; [exact Hnew|].
        intros Hin. apply (Hfresh _ Hn). now apply elem_of_union_r.
      * split.
        -- cbn [map]. constructor; [|exact Hnd].
           rewrite list_elem_of_In. intros Hin. now apply (Hd _ Hin).
        -- constructor.
           ++ exists d. split; [now left|]. split; [now split|].
              now repeat split.
           ++ eapply Forall_impl; [exact Hfrom|].
              intros doc' (d' & Hin & [Hok' Hn'] & Hrest).
              exists d'. split; [now right|]. split; [|exact Hrest].
              split; [exact Hok'|].
              intros H. now apply Hn', elem_of_union_r.
        -- cbn [map]. now apply sublist_skip.
        -- intros d' [<- | Hin] [Hok' Hn']; [now left|].
           destruct (decide (text d' = text d)) as [Heq|Hne].
           ++ left. now symmetry.
           ++ right. apply Hall; [assumption|]. split; [assumption|].
              rewrite elem_of_union, elem_of_singleton. tauto.
        -- cbn [map length seq]. f_equal. exact Hids.
    + assert (Hstep :
        add_link uuidv4 o existingDocSet c caseSpecificDocs caseInfo st d = st)
        by (unfold add_link; now rewrite Hinc).
      rewrite Hstep. clear Hstep.
      destruct (IH st)
        as (new & Hdocs & Hdrawn & Hnames & Hfresh & [Hnd Hfrom Hord Hall Hids]).
      exists new. do 4 (split; [assumption|]).
      split; [exact Hnd | | | | exact Hids].
      * eapply Forall_impl; [exact Hfrom|].
        intros doc' (d' & Hin & Hrest). exists d'. split; [now right | exact Hrest].
      * cbn [map]. now apply sublist_cons.
      * intros d' [Heq | Hin] [Hok' Hn']; [subst d' | now apply Hall].
        assert (Hyes : shouldInclude o existingDocSet c caseSpecificDocs
                         (currentCaseDocNames st) d = true)
          by now apply shouldInclude_spec.
        congruence.
Qed.

End OneCase.

Lemma filtered_iff (uuidv4 : nat -> string) (caseInfo : Store.caseInfo)
    (ok ok' : docInfo -> Prop) (links : list docInfo) (first : nat)
    (docs : list Worker.queued_document) :
  (forall d, ok d <-> ok' d) ->
  filtered uuidv4 caseInfo ok links first docs ->
  filtered uuidv4 caseInfo ok' links first docs.
Proof.
  intros Hiff [Hnd Hfrom Hord Hall Hids].
  split; [exact Hnd | | exact Hord | | exact Hids].
  - eapply Forall_impl; [exact Hfrom|].
    intros doc (d & Hin & Hok & Hrest). exists d.
    split; [assumption|]. split; [now apply Hiff | exact Hrest].
  - intros d Hin Hok. apply Hall; [assumption | now apply Hiff].
Qed.

(** The documents the loop over the links of a case collects, in the
    mode that checks names. *)
Lemma visit_case_filtered (uuidv4 : nat -> string) (o : options)
    (existingDocSet : gset string) (c : crawler) (caseInfo : Store.caseInfo)
    (v : visit) (first : nat) :
  checkCaseSpecificDupes o = true ->
  filtered uuidv4 caseInfo
    (passes existingDocSet c (caseSpecificDocs_of o c v))
    (documentLinks v) first
    (caseDocuments (visit_case uuidv4 o existingDocSet c caseInfo v first)).
Proof.
  intros Hfull. unfold visit_case.
  destruct (fold_add_link uuidv4 o existingDocSet c (caseSpecificDocs_of o c v)
              caseInfo Hfull (documentLinks v)
              {| caseDocuments := []; currentCaseDocNames := ∅; drawn := first |})
    as (new & Hdocs & _ & _ & _ & Hf).
  cbn [caseDocuments currentCaseDocNames drawn app] in Hdocs, Hf.
  rewrite Hdocs. eapply filtered_iff; [|exact Hf].
  intros d. cbn beta. split; [now intros [H _]|].
  intros H. split; [exact H | apply not_elem_of_empty].
Qed.

(** One case in the mode that checks names and returns the documents of
    the case: the loop over the cases and the choice of the result. *)
Lemma collect_one_case (uuidv4 : nat -> string) (o : options)
    (existingDocSet : gset string) (c : crawler) (caseInfo : Store.caseInfo)
    (v : visit) :
  checkCaseSpecificDupes o = true -> returnSimpleArray o = false ->
  let docs := caseDocuments (visit_case uuidv4 o existingDocSet c caseInfo v 0) in
  let st := collect uuidv4 o existingDocSet c [(caseInfo, Visited v)] in
  let entry := {| Queue.caseInfo := caseInfo; Queue.documents := docs |} in
  (addToWorkerQueue o = true ->
     pushed st = (if docs is [] then [] else [entry])
     /\ result_of o [(caseInfo, Visited v)] st = Void)
  /\ (addToWorkerQueue o = false -> singleCase o = true ->
      pushed st = []
      /\ result_of o [(caseInfo, Visited v)] st = CaseDocuments docs).
Proof.
  intros Hfull Hsimple docs st entry.
  unfold st, collect, result_of. cbn [fold_left collect_case uuids_drawn].
  fold docs. rewrite Hsimple.
  split; [intros Hadd | intros Hadd Hsingle]; rewrite Hadd.
  - destruct docs; cbn; now split.
  - rewrite Hsingle. destruct docs; cbn; now split.
Qed.

(** X17.  For a call during which no other task assigns the two sets of
    the crawler: the queue [buildDocumentQueueForCase] builds for a case,
    when the store lists its documents, holds exactly one entry for every
    name among the links of the case page whose URL no listed row has and
    whose name no listed row of the case has: the entries are links of the
    page in page order, their names are pairwise distinct, each carries
    the case and a queue id of its own draw.  [addCaseToQueue] filters in
    the same way against the set it is given and the sets of the crawler,
    and pushes one entry for the case to the case queue, or none when no
    link is left.  When reading the page or looking up the case throws,
    both leave the queues as they were. *)
Theorem buildDocumentQueue_filters (uuidv4 : nat -> string) (c : crawler)
    (caseInfo : Store.caseInfo) :
  (forall rows v,
     exists c' docs,
       buildDocumentQueueForCase uuidv4 (Listed (Some rows)) c caseInfo
         (Visited v)
       = (c', [], CaseDocuments docs)
       /\ filtered uuidv4 caseInfo
            (fun d => ~ stored_url rows (href d)
                      /\ ~ stored_name rows (existingCase v) (text d))
            (documentLinks v) 0 docs)
  /\ (forall existingDocs l v,
        exists docs,
          addCaseToQueue uuidv4 (Some existingDocs) l c caseInfo (Visited v)
          = (c,
             (if docs is [] then []
              else [ {| Queue.caseInfo := caseInfo; Queue.documents := docs |} ]),
             Void)
          /\ filtered uuidv4 caseInfo
               (fun d =>
                  (href d ∉ existingDocs)
                  /\ (forall urls, existingUrls c = Some urls -> href d ∉ urls)
                  /\ forall byCase id,
                       existingDocumentsByCase c = Some byCase ->
                       existingCase v = Some id ->
                       text d ∉ default ∅ (byCase !! id))
               (documentLinks v) 0 docs)
  /\ (forall l,
        snd (buildDocumentQueueForCase uuidv4 l c caseInfo VisitThrows)
        = CaseDocuments []
        /\ forall existingDocs,
             addCaseToQueue uuidv4 (Some existingDocs) l c caseInfo VisitThrows
             = (c, [], Void)).
Proof.
  split; [|split].
  - intros rows v.
    destruct (getAllExistingDocuments_listed rows c)
      as (byCase & urls & Hlist & Hurls & Hnames).
    unfold buildDocumentQueueForCase, buildDocumentQueue.
    cbn [checkCaseSpecificDupes]. rewrite Hlist.
    set (o := {| checkCaseSpecificDupes := true; addToWorkerQueue := false;
                 singleCase := true; useQueueLock := false;
                 returnSimpleArray := false |}).
    set (c' := {| existingDocumentsByCase := Some byCase;
                  existingUrls := Some urls |}).
    destruct (collect_one_case uuidv4 o urls c' caseInfo v eq_refl eq_refl)
      as [_ Hcase].
    destruct (Hcase eq_refl eq_refl) as [-> ->].
    eexists _, _. split; [reflexivity|].
    eapply filtered_iff; [|apply (visit_case_filtered uuidv4 o urls c' caseInfo v 0 eq_refl)].
    intros d. unfold passes, caseSpecificDocs_of. cbn.
    rewrite Hurls. split.
    + intros (Hu & _ & Hn). split; [exact Hu|].
      intros (r & Hin & Hid & Hr). rewrite Hid in Hn. apply Hn.
      apply Hnames. now exists r.
    + intros [Hu Hn]. split; [exact Hu|]. split.
      * intros ? [= <-]. now rewrite Hurls.
      * destruct (existingCase v) as [id|]; [|apply not_elem_of_empty].
        now rewrite Hnames.
  - intros existingDocs l v.
    unfold addCaseToQueue, buildDocumentQueue.
    set (o := {| checkCaseSpecificDupes := true; addToWorkerQueue := true;
                 singleCase := false; useQueueLock := true;
                 returnSimpleArray := false |}).
    destruct (collect_one_case uuidv4 o existingDocs c caseInfo v eq_refl eq_refl)
      as [Hcase _].
    destruct (Hcase eq_refl) as [-> ->].
    eexists. split; [reflexivity|].
    eapply filtered_iff;
      [|apply (visit_case_filtered uuidv4 o existingDocs c caseInfo v 0 eq_refl)].
    intros d. unfold passes, caseSpecificDocs_of. cbn.
    split.
    + intros (Hu & Hu' & Hn). split; [exact Hu|]. split; [exact Hu'|].
      intros byCase id Hc Hv. now rewrite Hc, Hv in Hn.
    + intros (Hu & Hu' & Hn). split; [exact Hu|]. split; [exact Hu'|].
      destruct (existingDocumentsByCase c) as [byCase|];
        [|apply not_elem_of_empty].
      destruct (existingCase v) as [id|]; [|apply not_elem_of_empty].
      now apply Hn.
  - intros l. split.
    + unfold buildDocumentQueueForCase, buildDocumentQueue.
      cbn [checkCaseSpecificDupes].
      now destruct (getAllExistingDocuments l c).
    + reflexivity.
Qed.

End DiscoveryFacts.

(** ** The markers of the pipeline file *)

Section MarkerFacts.
Import Pipeline PipelineProps.

Lemma array_includes_In (arr : list string) (key : string) :
  array_includes arr key = true <-> In key arr.
Proof.
  unfold array_includes. rewrite existsb_exists. split.
  - intros (x & Hin & Heq). apply String.eqb_eq in Heq. now subst.
  - intros Hin. exists key. split; [assumption | apply String.eqb_refl].
Qed.

Lemma isInPipeline_markers (f : file) (document : Worker.queued_document) :
  Worker.isInPipeline f document
  = array_includes (markers f)
      (docKey (Store.caseNumber (Worker.caseInfo document))
         (Worker.text document)).
Proof.
  unfold Worker.isInPipeline, loadPipelineData, markers.
  now destruct f as [[? ? ? [l|] ?]|].
Qed.

(** A key determines the case number and the document name, as long as
    case numbers have no colon. *)
Lemma docKey_inj (cn cn' d d' : string) :
  no_colon cn -> no_colon cn' ->
  docKey cn d = docKey cn' d' -> cn = cn' /\ d = d'.
Proof.
  unfold docKey, no_colon. revert cn'.
  induction cn as [|a cn IH]; intros [|a' cn'] Hcn Hcn' Heq; cbn in *.
  - now injection Heq.
  - injection Heq as <- _. exfalso. apply Hcn'. now left.
  - injection Heq as -> _. exfalso. apply Hcn. now left.
  - injection Heq as -> Heq.
    destruct (IH cn') as [-> ->]; [tauto | tauto | assumption | now split].
Qed.

(** The markers after a run of calls on a file that exists. *)
Lemma apply_updates_markers (updates : list (string * string)) :
  forall pd : pipeline_data,
  let f := apply_updates updates (Some pd) in
  option_map cases f = Some (cases pd)
  /\ (NoDup (markers (Some pd)) -> NoDup (markers f))
  /\ (forall key,
        In key (markers f)
        <-> In key (markers (Some pd))
            \/ exists documentName caseNumber,
                 In (documentName, caseNumber) updates
                 /\ key = docKey caseNumber documentName).
Proof.
  induction updates as [|[documentName caseNumber] updates IH]; intros pd.
  - cbn. split; [reflexivity|]. split; [tauto|].
    intros key. split; [tauto|]. now intros [H | (? & ? & [] & _)].
  - unfold apply_updates. cbn [fold_left fst snd].
    destruct (updatePipelineAfterDocument_markers documentName caseNumber pd)
      as [Hcases Hmarkers].
    destruct (updatePipelineAfterDocument documentName caseNumber (Some pd))
      as [pd1|] eqn:Hupd; [|discriminate].
    cbn [option_map] in Hcases. injection Hcases as Hcases.
    destruct (IH pd1) as (IHcases & IHnd & IHin).
    fold (apply_updates updates (Some pd1)).
    split; [now rewrite IHcases, Hcases|]. split.
    + intros Hnd. apply IHnd. rewrite Hmarkers.
      destruct (array_includes (markers (Some pd))
                  (docKey caseNumber documentName)) eqn:Hinc; [assumption|].
      apply NoDup_app. split; [assumption|]. split; [|apply NoDup_singleton].
      intros x Hx Hx'. apply list_elem_of_In in Hx. apply list_elem_of_In in Hx'.
      destruct Hx' as [<- | []].
      apply array_includes_In in Hx. congruence.
    + intros key. rewrite IHin, Hmarkers. split.
      * intros [Hin | (d & cn & Hin & ->)].
        -- destruct (array_includes (markers (Some pd))
                       (docKey caseNumber documentName)); [now left|].
           apply in_app_or in Hin as [Hin | [<- | []]]; [now left|].
           right. exists documentName, caseNumber. split; [now left | reflexivity].
        -- right. exists d, cn. split; [now right | reflexivity].
      * intros [Hin | (d & cn & [[= <- <-] | Hin] & ->)].
        -- left. destruct (array_includes _ _); [assumption|].
           apply in_or_app. now left.
        -- left.
           destruct (array_includes (markers (Some pd))
                       (docKey caseNumber documentName)) eqn:Hinc.
           ++ now apply array_includes_In.
           ++ apply in_or_app. right. now left.
        -- right. now exists d, cn.
Qed.

(** X18.  From the moment [savePipeline] writes the file, whatever calls
    of [updatePipelineAfterDocument] follow, the file keeps the case list
    that was saved, its markers never repeat, and they are exactly the
    keys of the calls made.  As long as case numbers have no colon, a
    worker finds a document in the file exactly when a call was made for
    that document name and that case number. *)
Theorem pipeline_markers_exact (ts : string)
    (discoveredCases : list Store.caseInfo) (f0 : file)
    (updates : list (string * string)) :
  let f := apply_updates updates (savePipeline ts discoveredCases f0) in
  loadPipeline f = Some discoveredCases
  /\ NoDup (markers f)
  /\ (forall key,
        In key (markers f)
        <-> exists documentName caseNumber,
              In (documentName, caseNumber) updates
              /\ key = docKey caseNumber documentName)
  /\ (forall document : Worker.queued_document,
        no_colon (Store.caseNumber (Worker.caseInfo document)) ->
        (forall documentName caseNumber,
           In (documentName, caseNumber) updates -> no_colon caseNumber) ->
        (Worker.isInPipeline f document = true
         <-> In (Worker.text document,
                 Store.caseNumber (Worker.caseInfo document)) updates)).
Proof.
  intros f. unfold f, savePipeline.
  match goal with
  | |- context [apply_updates updates (Some ?pd)] =>
      destruct (apply_updates_markers updates pd) as (Hcases & Hnd & Hin)
  end.
  cbn [cases markers processedDocuments] in Hcases, Hnd, Hin.
  assert (Hkeys : forall key,
            In key (markers (apply_updates updates
                      (Some {| timestamp := ts;
                               totalCases := length discoveredCases;
                               cases := discoveredCases;
                               processedDocuments := Some [];
                               status := Some "discovery_complete" |})))
            <-> exists documentName caseNumber,
                  In (documentName, caseNumber) updates
                  /\ key = docKey caseNumber documentName).
  { intros key. rewrite Hin. split; [now intros [[] | H] | now right]. }
  split; [exact Hcases|]. split; [apply Hnd; constructor|].
  split; [exact Hkeys|].
  intros document Hcn Hupdates.
  rewrite isInPipeline_markers, array_includes_In, Hkeys. split.
  - intros (d & cn & Hu & Hkey).
    destruct (docKey_inj _ _ _ _ Hcn (Hupdates _ _ Hu) Hkey) as [-> ->].
    exact Hu.
  - intros Hu. eexists _, _. split; [exact Hu | reflexivity].
Qed.

End MarkerFacts.

(** ** The embedding service *)

Section EmbeddingFacts.
Import Js Embeddings EmbeddingProps.
Context {vector : Type}.

(** X19.  A call of [enforceRateLimit] that no other call overlaps lets
    the request through at once only when the window is younger than a
    minute, fewer than [requestsPerMinute] requests were counted in it
    and the tokens counted plus the estimate stay below
    [tokensPerMinute].  Otherwise it waits, always for a positive time
    that ends when the window ends, and then starts a new window with
    this request as its first.  The test [waitTime > 0] of line 315 never
    fails, and the number of requests counted in a window never exceeds
    [requestsPerMinute] (or 1, if that is less). *)
Theorem enforceRateLimit_window (estimatedTokens now later : Z)
    (s : EmbeddingService) :
  let u := usage s in
  let s' := fst (enforceRateLimit estimatedTokens now later s) in
  let u' := usage s' in
  requestsPerMinute s' = requestsPerMinute s
  /\ tokensPerMinute s' = tokensPerMinute s
  /\ ((0 <= requests u)%Z ->
      (1 <= requests u' <= Z.max 1 (requestsPerMinute s))%Z)
  /\ match snd (enforceRateLimit estimatedTokens now later s) with
     | None =>
         (requests u' <= requestsPerMinute s)%Z
         /\ (tokens u' + estimatedTokens < tokensPerMinute s)%Z
         /\ (now - windowStart u' < windowDuration)%Z
         /\ ((windowDuration <= now - windowStart u)%Z
             /\ u' = {| requests := 1; tokens := 0; windowStart := now |}
             \/ (now - windowStart u < windowDuration)%Z
                /\ u' = {| requests := (requests u + 1)%Z;
                           tokens := tokens u;
                           windowStart := windowStart u |})
     | Some waitTime =>
         (0 < waitTime)%Z
         /\ u' = {| requests := 1; tokens := 0; windowStart := later |}
         /\ ((now - windowStart u < windowDuration)%Z
             /\ ((requestsPerMinute s <= requests u)%Z
                 \/ (tokensPerMinute s <= tokens u + estimatedTokens)%Z)
             /\ (now + waitTime = windowStart u + windowDuration)%Z
             \/ (windowDuration <= now - windowStart u)%Z
                /\ ((requestsPerMinute s <= 0)%Z
                    \/ (tokensPerMinute s <= estimatedTokens)%Z)
                /\ waitTime = windowDuration)
     end.
Proof.
  cbn zeta. unfold enforceRateLimit, windowDuration.
  destruct s as [rpm tpm [n t w0]]. cbn [usage requests tokens windowStart
    requestsPerMinute tokensPerMinute].
  destruct (Z.leb_spec 60000 (now - w0)) as [Hold|Hyoung];
    cbn [requests tokens windowStart].
  - destruct (Z.leb_spec rpm 0) as [Hr|Hr];
      destruct (Z.leb_spec tpm (0 + estimatedTokens)) as [Ht|Ht];
      cbn [orb];
      try (destruct (Z.ltb_spec 0 (60000 - (now - now))) as [Hw|Hw]; [|lia]);
      cbn; repeat split; try lia; auto.
    all: try (left; split; [lia | reflexivity]).
    all: right; split; [lia|]; split; lia.
  - destruct (Z.leb_spec rpm n) as [Hr|Hr];
      destruct (Z.leb_spec tpm (t + estimatedTokens)) as [Ht|Ht];
      cbn [orb];
      try (destruct (Z.ltb_spec 0 (60000 - (now - w0))) as [Hw|Hw]; [|lia]);
      cbn; repeat split; try lia; auto.
    all: try (right; split; [lia | reflexivity]).
    all: left; split; [lia|]; split; lia.
Qed.

Lemma update_from_spec (embeddings : list vector)
    (update : nat -> update_outcome) (chunks : list chunk_row) :
  forall (j : nat) (st : backfill vector),
  let st' := update_from j chunks embeddings update st in
  exists ws,
    written st' = written st ++ ws
    /\ processed st' = processed st + length ws
    /\ service st' = service st
    /\ ws `sublist_of` paired_from j chunks embeddings
    /\ (all_updated update chunks -> ws = paired_from j chunks embeddings).
Proof.
  induction chunks as [|chunk rest IH]; intros j st; cbn [update_from].
  - exists []. rewrite app_nil_r, Nat.add_0_r. repeat split. constructor.
  - unfold paired_from. cbn [length seq zip zip_with map fst snd].
    fold (paired_from (S j) rest embeddings).
    destruct (update (id chunk)) eqn:Hu.
    + destruct (IH (S j) {| processed := S (processed st);
                            written := written st ++ [(id chunk, embeddings !! j)];
                            service := service st |})
        as (ws & Hw & Hp & Hs & Hsub & Hall).
      cbn [written processed service] in Hw, Hp, Hs.
      exists ((id chunk, embeddings !! j) :: ws).
      rewrite Hw, Hp, Hs, <- app_assoc. cbn [length app].
      split; [reflexivity|]. split; [lia|]. split; [reflexivity|].
      split; [now apply sublist_skip|].
      intros Hup. inversion Hup; subst. f_equal. now apply Hall.
    + destruct (IH (S j) st) as (ws & Hw & Hp & Hs & Hsub & Hall).
      exists ws. do 3 (split; [assumption|]).
      split; [now apply sublist_cons|].
      intros Hup. inversion Hup; subst. congruence.
    + exists []. rewrite app_nil_r, Nat.add_0_r. do 3 (split; [reflexivity|]).
      split; [apply sublist_nil_l|].
      intros Hup. inversion Hup; subst. congruence.
Qed.

Lemma has_content_text (chunk : chunk_row) :
  has_content chunk = true ->
  exists t, content chunk = Some t /\ empty_text t = false.
Proof.
  unfold has_content, empty_text. destruct (content chunk) as [t|]; [|discriminate].
  intros H. apply andb_true_iff in H as [Ht Hl]. exists t. split; [reflexivity|].
  rewrite Ht. cbn. apply Nat.ltb_lt in Hl. apply Nat.eqb_neq. lia.
Qed.

(** The texts of the chunks the filter keeps: one for every chunk, none
    of them empty. *)
Lemma valid_texts (l : list chunk_row) :
  let validChunks := List.filter has_content l in
  length (omap content validChunks) = length validChunks
  /\ existsb empty_text (omap content validChunks) = false.
Proof.
  induction l as [|chunk l [IHl IHe]]; [now split|].
  cbn [List.filter]. destruct (has_content chunk) eqn:Hc; [|now split].
  destruct (has_content_text chunk Hc) as (t & Ht & He).
  cbn [omap list_omap]. rewrite Ht. cbn [length existsb].
  rewrite He. cbn [orb]. split; [f_equal; exact IHl | exact IHe].
Qed.

(** One pass of the inner loop on a batch that is not too long: the
    validation of [generateEmbeddings] lets the texts through, and the
    updates pair chunks with the vectors of their indices. *)
Lemma process_dbBatch_spec (dbBatch : list chunk_row) (bw : batch_world vector)
    (st : backfill vector) :
  length dbBatch <= 2048 ->
  let validChunks := List.filter has_content dbBatch in
  let st' := process_dbBatch dbBatch bw st in
  match reply bw with
  | Replied embeddings _ =>
      exists ws,
        written st' = written st ++ ws
        /\ processed st' = processed st + length ws
        /\ ws `sublist_of` paired validChunks embeddings
        /\ (all_updated (update bw) validChunks ->
            ws = paired validChunks embeddings)
  | Failed _ => written st' = written st /\ processed st' = processed st
  end.
Proof.
  intros Hlen validChunks st'. unfold st', process_dbBatch. fold validChunks.
  destruct (Nat.eqb_spec (length validChunks) 0) as [Hnone|Hsome].
  - destruct validChunks; [|discriminate].
    destruct (reply bw); [|now split].
    exists []. rewrite app_nil_r, Nat.add_0_r. repeat split. constructor.
  - destruct (valid_texts dbBatch) as [Hl He]. fold validChunks in Hl, He.
    unfold generateEmbeddings. rewrite Hl, He.
    destruct (Nat.eqb_spec (length validChunks) 0) as [|_]; [contradiction|].
    cbn [orb].
    assert (Hshort : length validChunks <= 2048).
    { etransitivity; [apply List.filter_length_le | exact Hlen]. }
    destruct (Nat.ltb_spec 2048 (length validChunks)) as [|_]; [lia|].
    destruct (reply bw) as [embeddings total|msg]; [|now split].
    unfold update_chunks, paired.
    match goal with
    | |- context [update_from 0 validChunks embeddings (update bw) ?s] =>
        destruct (update_from_spec embeddings (update bw) validChunks 0 s)
          as (ws & Hw & Hp & _ & Hsub & Hall)
    end.
    exists ws. now repeat split.
Qed.

Lemma paired_from_chunks (embeddings : list vector) (chunks : list chunk_row) :
  forall j,
  Forall (fun w => exists chunk, In chunk chunks /\ id chunk = fst w)
    (paired_from j chunks embeddings).
Proof.
  induction chunks as [|chunk rest IH]; intros j; [constructor|].
  unfold paired_from. cbn [length seq zip zip_with map fst snd].
  constructor.
  - exists chunk. split; [now left | reflexivity].
  - eapply Forall_impl; [apply (IH (S j))|].
    intros w (c & Hin & Hid). exists c. split; [now right | exact Hid].
Qed.

Lemma Forall_sublist {A} (P : A -> Prop) (l1 l2 : list A) :
  l1 `sublist_of` l2 -> Forall P l2 -> Forall P l1.
Proof.
  induction 1 as [|x l1 l2 _ IH|x l1 l2 _ IH]; intros H;
    [constructor | |]; inversion H; subst; [constructor|]; auto.
Qed.

Lemma counted_weaken (pool pool' : list chunk_row) (st : backfill vector) :
  (forall chunk, In chunk pool -> In chunk pool') ->
  counted pool st -> counted pool' st.
Proof.
  intros Hsub [Hp Hw]. split; [exact Hp|].
  eapply Forall_impl; [exact Hw|].
  intros w (chunk & Hin & Hrest). exists chunk. split; [auto | exact Hrest].
Qed.

Lemma process_dbBatch_counted (pool dbBatch : list chunk_row)
    (bw : batch_world vector) (st : backfill vector) :
  length dbBatch <= 2048 ->
  (forall chunk, In chunk dbBatch -> In chunk pool) ->
  counted pool st -> counted pool (process_dbBatch dbBatch bw st).
Proof.
  intros Hlen Hsub [Hp Hw].
  pose proof (process_dbBatch_spec dbBatch bw st Hlen) as Hspec.
  cbn zeta in Hspec.
  destruct (reply bw) as [embeddings total|msg].
  - destruct Hspec as (ws & Hw' & Hp' & Hsubl & _). split.
    + rewrite Hp', Hw', length_app. lia.
    + rewrite Hw'. apply Forall_app. split; [exact Hw|].
      eapply Forall_impl;
        [eapply Forall_sublist; [exact Hsubl | apply paired_from_chunks]|].
      intros w (chunk & Hin & Hid). apply List.filter_In in Hin as [Hin Hc].
      exists chunk. split; [auto | now split].
  - destruct Hspec as [Hw' Hp'].
    split; [now rewrite Hp', Hw' | now rewrite Hw'].
Qed.

Lemma db_batches_counted (pool chunks : list chunk_row)
    (worlds : nat -> batch_world vector) (fuel : nat) :
  forall (i : nat) (st : backfill vector),
  (forall chunk, In chunk chunks -> In chunk pool) ->
  counted pool st -> counted pool (db_batches fuel i chunks worlds st).
Proof.
  induction fuel as [|fuel IH]; intros i st Hsub Hst; cbn [db_batches];
    [exact Hst|].
  destruct (i <? length chunks); [|exact Hst].
  apply IH; [exact Hsub|].
  apply process_dbBatch_counted; [| |exact Hst].
  - rewrite length_take. unfold dbUpdateBatchSize. lia.
  - intros chunk Hin. apply Hsub.
    rewrite <- (take_drop i chunks). apply in_or_app. right.
    rewrite <- (take_drop dbUpdateBatchSize (drop i chunks)).
    apply in_or_app. now left.
Qed.

Lemma backfill_loop_counted (rounds : list (round vector)) :
  forall (pool : list chunk_row) (st : backfill vector),
  (forall chunk, In chunk (fetched_chunks rounds) -> In chunk pool) ->
  counted pool st ->
  let '(st', result) := backfill_loop rounds st in
  counted pool st'
  /\ (forall n, result = Some (Uploader.Normal n) -> n = processed st')
  /\ (Forall full rounds -> result = None).
Proof.
  induction rounds as [|r rounds IH]; intros pool st Hsub Hst;
    cbn [backfill_loop].
  - split; [exact Hst|]. split; [discriminate | reflexivity].
  - assert (Hrest : forall chunk,
              In chunk (fetched_chunks rounds) -> In chunk pool).
    { intros chunk Hin. apply Hsub. unfold fetched_chunks. cbn [map concat].
      apply in_or_app. now right. }
    destruct (fetched r) as [[chunks|]|msg|msg] eqn:Hf.
    + destruct (Nat.eqb_spec (length chunks) 0) as [Hzero|Hsome].
      * split; [exact Hst|]. split; [now intros n [= <-]|].
        intros Hfull. inversion Hfull as [|? ? (chunks' & Hf' & Hl) _]; subst.
        rewrite Hf in Hf'. injection Hf' as <-.
        unfold batchSize in Hl. lia.
      * assert (Hst' : counted pool
                  (db_batches (length chunks) 0 chunks (worlds r) st)).
        { apply db_batches_counted; [|exact Hst].
          intros chunk Hin. apply Hsub. unfold fetched_chunks.
          cbn [map concat]. rewrite Hf. apply in_or_app. now left. }
        destruct (Nat.ltb_spec (length chunks) batchSize) as [Hshort|Hfull].
        -- split; [exact Hst'|]. split; [now intros n [= <-]|].
           intros Hall. inversion Hall as [|? ? (chunks' & Hf' & Hl) _]; subst.
           rewrite Hf in Hf'. injection Hf' as <-. lia.
        -- specialize (IH pool _ Hrest Hst').
           destruct (backfill_loop rounds _) as [st' result].
           destruct IH as (Hc & Hn & Hnone).
           split; [exact Hc|]. split; [exact Hn|].
           intros Hall. apply Hnone. now inversion Hall.
    + split; [exact Hst|]. split; [now intros n [= <-]|].
      intros Hfull. inversion Hfull as [|? ? (chunks' & Hf' & _) _]; subst.
      congruence.
    + split; [exact Hst|]. split; [discriminate|].
      intros Hfull. inversion Hfull as [|? ? (chunks' & Hf' & _) _]; subst.
      congruence.
    + split; [exact Hst|]. split; [discriminate|].
      intros Hfull. inversion Hfull as [|? ? (chunks' & Hf' & _) _]; subst.
      congruence.
Qed.

(** X20.  Whatever the store and the API answer, [backfillChunkEmbeddings]
    keeps [processed] equal to the number of updates the store accepted,
    and every update is for a fetched chunk whose content is not blank;
    the number it returns is that count.  The texts it sends always pass
    the validation of [generateEmbeddings]: for a batch of the inner
    loop, a reply of the API is used as it is, the updates accepted giving
    chunks that have content the vector at their own index among them, in
    order, and all of them when the store accepts every update; a failure
    of the API leaves count and updates as they were.  The loop goes on
    for as long as every fetch brings a full page of 500 rows. *)
Theorem backfill_updates (rounds : list (round vector)) (s : EmbeddingService) :
  let '(st, result) := backfillChunkEmbeddings rounds s in
  processed st = length (written st)
  /\ Forall (fun w => exists chunk,
               In chunk (fetched_chunks rounds)
               /\ has_content chunk = true /\ id chunk = fst w)
       (written st)
  /\ (forall n, result = Some (Uploader.Normal n) -> n = processed st)
  /\ (Forall full rounds -> result = None)
  /\ (forall chunks i (bw : batch_world vector) (st0 : backfill vector),
        let dbBatch := take dbUpdateBatchSize (drop i chunks) in
        let validChunks := List.filter has_content dbBatch in
        let st1 := process_dbBatch dbBatch bw st0 in
        match reply bw with
        | Replied embeddings _ =>
            exists ws,
              written st1 = written st0 ++ ws
              /\ processed st1 = processed st0 + length ws
              /\ ws `sublist_of` paired validChunks embeddings
              /\ (all_updated (update bw) validChunks ->
                  ws = paired validChunks embeddings)
        | Failed _ => written st1 = written st0 /\ processed st1 = processed st0
        end).
Proof.
  unfold backfillChunkEmbeddings.
  pose proof (backfill_loop_counted rounds (fetched_chunks rounds)
                {| processed := 0; written := []; service := s |}
                (fun _ H => H)) as Hloop.
  destruct (backfill_loop rounds _) as [st result].
  destruct Hloop as ([Hp Hw] & Hn & Hnone); [split; [reflexivity | constructor]|].
  split; [exact Hp|]. split; [exact Hw|]. split; [exact Hn|].
  split; [exact Hnone|].
  intros chunks i bw st0. apply process_dbBatch_spec.
  rewrite length_take. unfold dbUpdateBatchSize. lia.
Qed.

End EmbeddingFacts.

(** ** The queue of a year *)

Section GlobalQueueFacts.
Import Discovery GlobalQueue GlobalQueueProps.

Lemma priority_cases (e : entry) :
  priority e = (if company_direct e then 0 else 1)%Z.
Proof. reflexivity. Qed.

(** Inserting into a list that has the company's direct testimonies in
    front. *)
Lemma insert_partitioned (a : entry) (firsts others : list entry) :
  Forall (fun e => company_direct e = true) firsts ->
  Forall (fun e => company_direct e = false) others ->
  insert compare a (firsts ++ others)
  = if company_direct a then a :: firsts ++ others
    else firsts ++ a :: others.
Proof.
  intros Hf Ho. induction Hf as [|b firsts Hb _ IH]; cbn [app insert].
  - destruct others as [|b others]; [now destruct (company_direct a)|].
    inversion Ho as [|? ? Hb _]; subst.
    cbn [insert]. unfold compare. rewrite !priority_cases, Hb.
    now destruct (company_direct a).
  - unfold compare at 1. rewrite !priority_cases, Hb.
    destruct (company_direct a) eqn:Ha; [reflexivity|].
    cbn. rewrite IH. reflexivity.
Qed.

(** Sorting puts the company's direct testimonies in front and changes
    nothing else. *)
Lemma sort_partitions (l : list entry) :
  sort compare l
  = List.filter company_direct l
      ++ List.filter (fun e => negb (company_direct e)) l.
Proof.
  induction l as [|a l IH]; [reflexivity|].
  unfold sort in *. cbn [fold_right List.filter]. rewrite IH.
  rewrite insert_partitioned.
  - now destruct (company_direct a).
  - apply List.Forall_forall. intros e He. now apply List.filter_In in He.
  - apply List.Forall_forall. intros e He. apply List.filter_In in He as [_ He].
    now apply negb_true_iff in He.
Qed.

Lemma push_links_spec (uuidv4 : nat -> string) (caseInfo : Store.caseInfo)
    (documentLinks : list docInfo) : forall st,
  let st' := push_links uuidv4 caseInfo documentLinks st in
  exists new,
    globalQueue st' = globalQueue st ++ new
    /\ map (fun e => (GlobalQueue.caseInfo e, doc e)) new
       = map (pair caseInfo) documentLinks
    /\ map queueId new = map uuidv4 (seq (drawn st) (length new))
    /\ drawn st' = drawn st + length new
    /\ totalErrors st' = totalErrors st.
Proof.
  unfold push_links.
  induction documentLinks as [|d links IH]; intros st; cbn [fold_left].
  - exists []. rewrite app_nil_r, Nat.add_0_r. now repeat split.
  - match goal with
    | |- context [fold_left _ links ?s] =>
        destruct (IH s) as (new & Hq & Hm & Hid & Hd & He)
    end.
    cbn [globalQueue drawn totalErrors] in Hq, Hm, Hid, Hd, He.
    exists ({| doc := d; caseInfo := caseInfo; queueId := uuidv4 (drawn st) |}
            :: new).
    rewrite Hq, Hd, He, <- app_assoc. cbn [map length seq app].
    rewrite Hm, Hid. repeat split. lia.
Qed.

Lemma fold_visit_spec (uuidv4 : nat -> string)
    (allCases : list (Store.caseInfo * option (list docInfo))) : forall st,
  let st' := fold_left (visit uuidv4) allCases st in
  exists new,
    globalQueue st' = globalQueue st ++ new
    /\ map (fun e => (GlobalQueue.caseInfo e, doc e)) new = listed allCases
    /\ map queueId new = map uuidv4 (seq (drawn st) (length new))
    /\ drawn st' = drawn st + length new
    /\ totalErrors st' = totalErrors st + length (unread allCases).
Proof.
  induction allCases as [|[ci [links|]] allCases IH]; intros st;
    cbn [fold_left].
  - exists []. rewrite app_nil_r, !Nat.add_0_r. now repeat split.
  - change (visit uuidv4 st (ci, Some links))
      with (push_links uuidv4 ci links st).
    destruct (push_links_spec uuidv4 ci links st)
      as (new1 & Hq1 & Hm1 & Hid1 & Hd1 & He1).
    destruct (IH (push_links uuidv4 ci links st))
      as (new2 & Hq2 & Hm2 & Hid2 & Hd2 & He2).
    exists (new1 ++ new2).
    rewrite Hq2, Hq1, Hd2, Hd1, He2, He1, <- app_assoc.
    split; [reflexivity|]. split; [|split; [|split]].
    + rewrite map_app, Hm1, Hm2. reflexivity.
    + rewrite map_app, Hid1, Hid2, Hd1, length_app, seq_app, map_app.
      reflexivity.
    + rewrite length_app. lia.
    + reflexivity.
  - change (visit uuidv4 st (ci, None))
      with {| globalQueue := globalQueue st; drawn := drawn st;
              totalErrors := S (totalErrors st) |}.
    match goal with
    | |- context [fold_left _ allCases ?s] =>
        destruct (IH s) as (new & Hq & Hm & Hid & Hd & He)
    end.
    cbn [globalQueue drawn totalErrors] in Hq, Hm, Hid, Hd, He.
    exists new. rewrite Hq, Hd, He.
    split; [reflexivity|]. split; [exact Hm|]. split; [exact Hid|].
    split; [reflexivity|]. unfold unread. cbn. lia.
Qed.

(** X21.  [buildGlobalDocumentQueue] queues every link of every case whose
    page can be read, without any check for duplicates, each with its
    case and the queue id of its own draw; a case whose page cannot be
    read adds one to [totalErrors] and nothing to the queue.  The queue
    it returns has the direct testimonies of the company in front and the
    other documents behind them, both in the order in which they were
    found. *)
Theorem buildGlobalDocumentQueue_order (uuidv4 : nat -> string)
    (allCases : list (Store.caseInfo * option (list docInfo))) :
  let '(queue, errors) := buildGlobalDocumentQueue uuidv4 allCases in
  exists found,
    map (fun e => (GlobalQueue.caseInfo e, doc e)) found = listed allCases
    /\ map queueId found = map uuidv4 (seq 0 (length found))
    /\ queue
       = List.filter company_direct found
           ++ List.filter (fun e => negb (company_direct e)) found
    /\ length queue = length (listed allCases)
    /\ errors = length (unread allCases).
Proof.
  unfold buildGlobalDocumentQueue.
  destruct (fold_visit_spec uuidv4 allCases
              {| globalQueue := []; drawn := 0; totalErrors := 0 |})
    as (found & Hq & Hm & Hid & _ & He).
  cbn [globalQueue drawn totalErrors app] in Hq, Hid, He.
  rewrite Hq, He, sort_partitions. exists found.
  split; [exact Hm|]. split; [exact Hid|]. split; [reflexivity|].
  split; [|reflexivity].
  rewrite <- Hm, length_map, length_app.
  clear. induction found as [|e found IH]; [reflexivity|].
  cbn [List.filter]. destruct (company_direct e); cbn [negb length]; lia.
Qed.

End GlobalQueueFacts.

(** ** The year batches *)

Section YearFacts.
Import Years.

Lemma year_loop_spec (startYear : Z) : forall (fuel : nat) (year : Z) (batches : list batch),
  (Z.of_nat fuel = Z.max 0 (year - startYear + 1))%Z ->
  loop fuel year startYear batches
  = batches
      ++ map (fun k => {| start := pretty (year - Z.of_nat k)%Z +:+ "-01-01";
                          end_ := pretty (year - Z.of_nat k)%Z +:+ "-12-31";
                          year := (year - Z.of_nat k)%Z |})
           (seq 0 fuel).
Proof.
  induction fuel as [|fuel IH]; intros year batches Hfuel; cbn [loop].
  - cbn. now rewrite app_nil_r.
  - destruct (Z.leb_spec startYear year) as [Hle|Hgt]; [|lia].
    rewrite IH by lia. rewrite <- app_assoc. f_equal.
    cbn [seq map app]. rewrite Z.sub_0_r. f_equal.
    rewrite <- seq_shift, map_map. apply map_ext. intros k.
    replace (year - 1 - Z.of_nat k)%Z with (year - Z.of_nat (S k))%Z by lia.
    reflexivity.
Qed.

(** X22.  For integer years, [generateYearBatches] returns one batch for
    every year from [endYear] down to [startYear], in that order and
    without repetition, each running from the first of January to the
    thirty-first of December of its year; it returns no batch when
    [endYear] is before [startYear]. *)
Theorem generateYearBatches_years (startYear endYear : Z) :
  let batches := generateYearBatches startYear endYear in
  map year batches
  = map (fun k => (endYear - Z.of_nat k)%Z)
      (seq 0 (Z.to_nat (endYear - startYear + 1)))
  /\ Forall (fun b => start b = pretty (year b) +:+ "-01-01"
                      /\ end_ b = pretty (year b) +:+ "-12-31") batches
  /\ (forall y, In y (map year batches) <-> (startYear <= y <= endYear)%Z)
  /\ ((endYear < startYear)%Z -> batches = []).
Proof.
  intros batches. unfold batches, generateYearBatches.
  rewrite year_loop_spec by lia. cbn [app].
  set (n := Z.to_nat (endYear - startYear + 1)).
  split; [|split; [|split]].
  - rewrite map_map. reflexivity.
  - apply List.Forall_forall. intros b Hb.
    apply in_map_iff in Hb as (k & <- & _). now split.
  - intros y. rewrite map_map. cbn [year]. rewrite in_map_iff. split.
    + intros (k & <- & Hk). apply in_seq in Hk. lia.
    + intros Hy. exists (Z.to_nat (endYear - y)). split; [lia|].
      apply in_seq. lia.
  - intros Hlt. replace n with 0 by lia. reflexivity.
Qed.

End YearFacts.

(** ** The workers of the case-based pattern *)

Section CasePoolFacts.
Import Worker CasePool CasePoolProps.

Lemma checkDocumentExistsByUrl_answers (lookup : lookup_outcome) :
  exists b, checkDocumentExistsByUrl lookup = Uploader.Normal b.
Proof.
  unfold checkDocumentExistsByUrl.
  destruct (checkDocumentExistsByUrl_try lookup); eauto.
Qed.

Lemma handle_success_case (document : queued_document) (r : document_result)
    (st : state) :
  currentCaseDocumentQueue (handle_success document r st)
  = currentCaseDocumentQueue st
  /\ processedDocuments (handle_success document r st)
     = processedDocuments st ++ [r].
Proof.
  unfold handle_success.
  destruct (skipped r || duplicate r);
    [|destruct (success r && negb (duplicate r))]; now split.
Qed.

Lemma skip_marked_spec (queue : list queued_document) (st : state) :
  exists done,
    let '(document, rest, st') := skip_marked queue st in
    queue = done ++ from_option (fun d => [d]) [] document ++ rest
    /\ (document = None -> rest = [])
    /\ length (processedDocuments st')
       = length (processedDocuments st) + length done.
Proof.
  revert st. induction queue as [|d queue IH]; intros st; cbn [skip_marked].
  - exists []. cbn. repeat split; lia.
  - destruct (isInPipeline (pipelineFile st) d).
    + destruct (IH (handle_success d (skipped_result d) st)) as [done IHd].
      exists (d :: done).
      destruct (skip_marked queue _) as [[document rest] st'].
      destruct IHd as (Hq & Hnone & Hlen). split; [|split].
      * cbn [app]. now f_equal.
      * exact Hnone.
      * rewrite Hlen.
        rewrite (proj2 (handle_success_case d (skipped_result d) st)).
        rewrite length_app. cbn [length]. lia.
    + exists []. cbn. repeat split; [discriminate | lia].
Qed.

Lemma next_case_spec (i n : nat) (startTime : Z) (position : Queue.position)
    (now1 now2 : Z) (p : pool) :
  let p' := next_case i n startTime position now1 now2 p in
  lockInUse p' = lockInUse p
  /\ shared p' = shared p
  /\ exists w',
       workers p' = <[i := w']> (workers p)
       /\ quiet w' = true
       /\ held w' = []
       /\ (currentCaseInfo p' = None ->
           currentCaseInfo p = None /\ idle w' = true).
Proof.
  unfold next_case.
  destruct (Queue.segment _ _ _) as [[nextCase|] rest|ms position'];
    cbn; (split; [reflexivity|split; [reflexivity|]]);
    eexists; (split; [reflexivity|]); cbn; repeat split; try done.
Qed.

Lemma next_case_moves (i n : nat) (startTime : Z) (position : Queue.position)
    (now1 now2 : Z) (p : pool) :
  lockInUse p = false ->
  queue_of p = [] ->
  moves i p (next_case i n startTime position now1 now2 p).
Proof.
  intros Hlock Hq.
  destruct (next_case_spec i n startTime position now1 now2 p)
    as (Hl & Hs & w' & Hw & Hquiet & Hheld & Hcci).
  split; [congruence|]. exists w', [].
  unfold queue_of in *. rewrite Hs, Hheld, Hq. cbn.
  repeat split; try done; try lia. now apply Hcci.
Qed.

Lemma from_top_moves (i n : nat) (c : clock) (p : pool) :
  lockInUse p = false ->
  moves i p (from_top i n c p).
Proof.
  intros Hlock. unfold from_top. rewrite Hlock.
  destruct (currentCaseInfo p) as [ci|] eqn:Hcci.
  - destruct (skip_marked_spec (currentCaseDocumentQueue (shared p))
                (Pool.as_seen_by n (shared p))) as [done Hdone].
    destruct (skip_marked _ _) as [[document rest] st'].
    destruct Hdone as (Hq & Hnone & Hlen). cbn [go_on].
    destruct document as [document|].
    + split; [exact Hlock|]. exists (Checking (documentsProcessed st') document), done.
      cbn. unfold queue_of. cbn. repeat split; try done; congruence.
    + rewrite (Hnone eq_refl) in *.
      set (p1 := with_shared (with_currentCaseDocumentQueue [] st') p).
      destruct (next_case_spec i (documentsProcessed st') (startTime c)
                  Queue.LoopTop (now1 c) (now2 c) p1)
        as (Hl & Hs & w' & Hw & Hquiet & Hheld & Hnext).
      split; [now rewrite Hl|]. exists w', done.
      unfold queue_of. rewrite Hs, Hheld. cbn.
      repeat split; try done.
      all: try (rewrite Hq; cbn; now rewrite ?app_nil_r).
      all: match goal with
           | Hn : currentCaseInfo (next_case _ _ _ _ _ _ _) = None |- _ =>
               apply Hnext in Hn as [Hn _]; cbn in Hn; congruence
           end.
  - destruct (next_case_spec i n (startTime c) Queue.LoopTop (now1 c) (now2 c) p)
      as (Hl & Hs & w' & Hw & Hquiet & Hheld & Hnext).
    split; [congruence|]. exists w', [].
    unfold queue_of. rewrite Hs, Hheld. cbn.
    repeat split; try done; auto.
    now apply Hnext.
Qed.

Lemma locked_take_moves (i n : nat) (c : clock) (p : pool) :
  lockInUse p = false ->
  moves i p (locked_take i n c p).
Proof.
  intros Hlock. unfold locked_take.
  destruct (currentCaseDocumentQueue (shared p)) as [|document rest] eqn:Hq.
  - split; [exact Hlock|]. exists (AtTop n), [].
    unfold queue_of. cbn. rewrite Hq. repeat split; try done.
  - cbn zeta.
    destruct (isInPipeline _ document).
    + set (st1 := handle_success document (skipped_result document) _).
      set (p' := from_top i _ c _).
      assert (Hm : moves i (with_shared st1 p) p')
        by (apply from_top_moves; exact Hlock).
      clearbody p'.
      destruct Hm as (Hl & w' & done & Hw & Hq2 & Hlen & He).
      unfold queue_of in *.
      cbn [with_shared shared workers currentCaseInfo] in Hw, Hq2, Hlen, He.
      subst st1.
      rewrite (proj1 (handle_success_case _ _ _)) in Hq2, He.
      rewrite (proj2 (handle_success_case _ _ _)) in Hlen.
      cbn [with_currentCaseDocumentQueue currentCaseDocumentQueue
           processedDocuments Pool.as_seen_by] in Hq2, Hlen, He.
      rewrite length_app in Hlen. cbn [length] in Hlen.
      split; [exact Hl|]. exists w', (document :: done).
      split; [exact Hw|]. unfold queue_of. split; [|split].
      * rewrite Hq. cbn [app]. now f_equal.
      * rewrite Hlen. cbn [length]. lia.
      * intros Hnone. apply He. intros Hn.
        specialize (Hnone Hn). congruence.
    + split; [exact Hlock|]. exists (Checking n document), [].
      unfold queue_of. cbn. rewrite Hq.
      repeat split; try done.
      all: match goal with
           | H : ?P -> _ :: _ = [], Hn : ?P |- _ => now specialize (H Hn)
           end.
Qed.

Lemma in_flight_split (ws : list worker) (i : nat) (w : worker) :
  ws !! i = Some w ->
  exists others,
    concat (map held ws) ≡ₚ held w ++ others
    /\ forall w', concat (map held (<[i := w']> ws)) ≡ₚ held w' ++ others.
Proof.
  revert i. induction ws as [|x ws IH]; intros [|i] Hi; try discriminate.
  - injection Hi as ->. exists (concat (map held ws)). now split.
  - cbn in Hi. destruct (IH i Hi) as (others & H1 & H2).
    exists (held x ++ others). split.
    + cbn. rewrite H1. solve_Permutation.
    + intros w'. cbn. rewrite H2. solve_Permutation.
Qed.

Lemma conserved_same (i : nat) (w w' : worker) (p p' : pool) (l : ledger) :
  workers p !! i = Some w ->
  workers p' = <[i := w']> (workers p) ->
  held w' = held w ->
  shared p' = shared p ->
  conserved p l -> conserved p' l.
Proof.
  intros Hi Hw Hh Hs (resolved & Hperm & Hlen).
  destruct (in_flight_split _ _ _ Hi) as (others & H1 & H2).
  exists resolved. unfold queue_of, in_flight in *.
  rewrite Hs, Hw, H2, Hh, <- H1. now split.
Qed.

(** A stretch that starts from the pool [p], reached from [p0] by
    handing in [given] results, and that is booked as [l']. *)
Lemma moves_conserved (i : nat) (w : worker) (p0 p p' : pool) (l l' : ledger)
    (given newly gone unread : list queued_document) :
  workers p0 !! i = Some w ->
  workers p = workers p0 ->
  conserved p0 l ->
  moves i p p' ->
  length (processedDocuments (shared p))
  = length (processedDocuments (shared p0)) + length given ->
  built l' = built l ++ newly ->
  lost l' = lost l ++ gone ->
  failed l' = failed l ++ unread ->
  newly ++ queue_of p0 ++ held w ≡ₚ queue_of p ++ gone ++ unread ++ given ->
  conserved p' l'.
Proof.
  intros Hi Hws (resolved & Hperm & Hlen) (_ & w' & done & Hw' & Hq & Hlen' & _)
    Hgiven Hb Hl Hf Hbal.
  rewrite <- Hws in Hi.
  destruct (in_flight_split _ _ _ Hi) as (others & H1 & H2).
  exists (resolved ++ given ++ done). split.
  - unfold in_flight in *. rewrite Hw', H2, Hb, Hl, Hf, Hperm.
    rewrite <- Hws, H1.
    transitivity ((newly ++ queue_of p0 ++ held w)
                  ++ resolved ++ failed l ++ others ++ lost l);
      [solve_Permutation|].
    rewrite Hbal, Hq. solve_Permutation.
  - rewrite Hlen', Hgiven, Hlen, !length_app. lia.
Qed.

Lemma alone_lookup (p : pool) (l : ledger) (i : nat) (w : worker) :
  alone p l -> workers p !! i = Some w ->
  i = 0 /\ workers p = [w] /\ lost l = []
  /\ (quiet w = true -> queue_of p = [])
  /\ (currentCaseInfo p = None -> idle w = true /\ queue_of p = []).
Proof.
  intros (Hlost & w0 & Hw & Hq & Hc) Hi. rewrite Hw in Hi.
  apply list_lookup_singleton_Some in Hi as [-> ->].
  do 3 (split; [done|]). now split.
Qed.

Lemma moves_alone (p p' : pool) (w : worker) (l : ledger) :
  workers p = [w] -> lost l = [] -> moves 0 p p' ->
  (currentCaseInfo p = None -> queue_of p = []) ->
  alone p' l.
Proof.
  intros Hw Hlost (_ & w' & done & Hw' & _ & _ & He) Hc.
  split; [exact Hlost|]. exists w'. rewrite Hw', Hw.
  split; [reflexivity|]. exact (He Hc).
Qed.

Lemma step_keeps (p : pool) (e : event) (l : ledger) :
  lockInUse p = false -> conserved p l ->
  lockInUse (step p e) = false
  /\ conserved (step p e) (account p e l)
  /\ (alone p l -> alone (step p e) (account p e l)).
Proof.
  intros Hlock Hinv.
  destruct e as [i c|i n1 n2|i documents c|i|i lookup c|i extraction c
                 |bundle| |ts cases].
  - (* a sleep of the worker loop ends *)
    cbn [step account].
    destruct (workers p !! i) as [w|] eqn:Hi; [|done].
    destruct w as [n|n s pos|n|n|n d|n d|]; try done.
    + pose proof (from_top_moves i n c p Hlock) as Hm.
      split; [apply Hm|]. split.
      * eapply (moves_conserved i _ p p _ l l [] [] [] []); eauto;
          cbn; rewrite ?app_nil_r; done.
      * intros Ha.
        destruct (alone_lookup _ _ _ _ Ha Hi) as (-> & Hw & Hlost & Hq & Hc).
        apply (moves_alone p _ _ l Hw Hlost Hm). intros Hn. now apply Hc.
    + rewrite Hlock.
      pose proof (locked_take_moves i n c p Hlock) as Hm.
      split; [apply Hm|]. split.
      * eapply (moves_conserved i _ p p _ l l [] [] [] []); eauto;
          cbn; rewrite ?app_nil_r; done.
      * intros Ha.
        destruct (alone_lookup _ _ _ _ Ha Hi) as (-> & Hw & Hlost & Hq & Hc).
        apply (moves_alone p _ _ l Hw Hlost Hm). intros Hn. now apply Hc.
  - (* a sleep of getNextCase ends *)
    cbn [step account].
    destruct (workers p !! i) as [w|] eqn:Hi; [|done].
    destruct w as [n|n s pos|n|n|n d|n d|]; try done.
    destruct (next_case_spec i n s pos n1 n2 p)
      as (Hl & Hs & w' & Hw & Hquiet & Hheld & Hcci).
    split; [congruence|]. split.
    + eapply conserved_same; eauto.
    + intros Ha.
      destruct (alone_lookup _ _ _ _ Ha Hi) as (-> & Hw0 & Hlost & Hq & Hc).
      apply (moves_alone p _ _ l Hw0 Hlost).
      * apply next_case_moves; [exact Hlock|]. now apply Hq.
      * intros _. now apply Hq.
  - (* buildDocumentQueueForCase returns *)
    cbn [step account].
    destruct (workers p !! i) as [w|] eqn:Hi; [|done].
    destruct w as [n|n s pos|n|n|n d|n d|]; try done.
    unfold after_build. cbn [lockInUse with_shared]. rewrite Hlock.
    set (p1 := with_shared _ p).
    pose proof (locked_take_moves i n c p1 Hlock) as Hm.
    split; [apply Hm|]. split.
    + eapply (moves_conserved i _ p p1 _ l _ [] documents (queue_of p) []);
        eauto; cbn; rewrite ?app_nil_r; try done;
        unfold queue_of; cbn; solve_Permutation.
    + intros Ha.
      destruct (alone_lookup _ _ _ _ Ha Hi) as (-> & Hw & Hlost & Hq & Hc).
      apply (moves_alone p1 _ (Building n)); [exact Hw| |exact Hm|].
      * cbn. rewrite Hlost, (Hq eq_refl). reflexivity.
      * intros Hn. now destruct (Hc Hn).
  - (* buildDocumentQueueForCase throws *)
    cbn [step account].
    destruct (workers p !! i) as [w|] eqn:Hi; [|done].
    destruct w as [n|n s pos|n|n|n d|n d|]; try done.
    split; [exact Hlock|]. split.
    + eapply conserved_same; eauto.
    + intros Ha.
      destruct (alone_lookup _ _ _ _ Ha Hi) as (-> & Hw & Hlost & Hq & Hc).
      split; [exact Hlost|]. exists Done. cbn. rewrite Hw.
      split; [reflexivity|]. split; [intros _; now apply Hq|].
      intros _. split; [reflexivity|now apply Hq].
  - (* checkDocumentExistsByUrl returns *)
    cbn [step account].
    destruct (workers p !! i) as [w|] eqn:Hi; [|done].
    destruct w as [n|n s pos|n|n|n d|n d|]; try done.
    destruct (checkDocumentExistsByUrl_answers lookup) as [b ->].
    destruct b.
    + cbn zeta.
      set (st1 := handle_success d (skipped_result d) _).
      set (p1 := with_shared st1 p).
      pose proof (from_top_moves i (documentsProcessed st1) c p1 Hlock) as Hm.
      assert (Hq1 : queue_of p1 = queue_of p)
        by exact (proj1 (handle_success_case _ _ (Pool.as_seen_by n (shared p)))).
      split; [apply Hm|]. split.
      * eapply (moves_conserved i _ p p1 _ l l [d] [] [] []);
          eauto; rewrite ?app_nil_r; try done.
        all: try (rewrite Hq1; cbn; reflexivity).
        cbn [p1 with_shared shared]. unfold st1.
        rewrite (proj2 (handle_success_case _ _ _)), length_app.
        reflexivity.
      * intros Ha.
        destruct (alone_lookup _ _ _ _ Ha Hi) as (-> & Hw & Hlost & Hq & Hc).
        apply (moves_alone p1 _ (Checking n d) l Hw Hlost Hm).
        rewrite Hq1. intros Hn. now apply Hc.
    + split; [exact Hlock|]. split.
      * eapply conserved_same; eauto.
      * intros Ha.
        destruct (alone_lookup _ _ _ _ Ha Hi) as (-> & Hw & Hlost & Hq & Hc).
        split; [exact Hlost|]. exists (Extracting n d). cbn. rewrite Hw.
        split; [reflexivity|]. split; [done|].
        intros Hn. now destruct (Hc Hn).
  - (* extractDocumentText returns *)
    destruct extraction as [r|]; cbn [step account];
      (destruct (workers p !! i) as [w|] eqn:Hi; [|done]);
      (destruct w as [n|n s pos|n|n|n d|n d|]; try done); cbn zeta.
    + set (st1 := handle_success d r _).
      set (p1 := with_shared st1 p).
      pose proof (from_top_moves i (documentsProcessed st1) c p1 Hlock) as Hm.
      assert (Hq1 : queue_of p1 = queue_of p)
        by exact (proj1 (handle_success_case _ _ (Pool.as_seen_by n (shared p)))).
      split; [apply Hm|]. split.
      * eapply (moves_conserved i _ p p1 _ l l [d] [] [] []);
          eauto; rewrite ?app_nil_r; try done.
        all: try (rewrite Hq1; cbn; reflexivity).
        cbn [p1 with_shared shared]. unfold st1.
        rewrite (proj2 (handle_success_case _ _ _)), length_app.
        reflexivity.
      * intros Ha.
        destruct (alone_lookup _ _ _ _ Ha Hi) as (-> & Hw & Hlost & Hq & Hc).
        apply (moves_alone p1 _ (Extracting n d) l Hw Hlost Hm).
        rewrite Hq1. intros Hn. now apply Hc.
    + set (p1 := with_shared (Pool.as_seen_by n (shared p)) p).
      pose proof (from_top_moves i n c p1 Hlock) as Hm.
      split; [apply Hm|]. split.
      * eapply (moves_conserved i _ p p1 _ l _ [] [] [] [d]);
          eauto; cbn; rewrite ?app_nil_r; try done;
          unfold queue_of; cbn; solve_Permutation.
      * intros Ha.
        destruct (alone_lookup _ _ _ _ Ha Hi) as (-> & Hw & Hlost & Hq & Hc).
        apply (moves_alone p1 _ (Extracting n d)); [exact Hw|exact Hlost|exact Hm|].
        intros Hn. now apply Hc.
  - cbn [step account]. rewrite Hlock.
    split; [reflexivity|]. split; [exact Hinv|]. intros Ha. exact Ha.
  - split; [exact Hlock|]. split; [exact Hinv|]. intros Ha. exact Ha.
  - split; [exact Hlock|]. split; [exact Hinv|]. intros Ha. exact Ha.
Qed.

Lemma run_keeps (events : list event) (p : pool) (l : ledger) :
  lockInUse p = false -> conserved p l ->
  lockInUse (run events p) = false
  /\ conserved (run events p) (ledger_of events p l)
  /\ (alone p l -> alone (run events p) (ledger_of events p l)).
Proof.
  revert p l. induction events as [|e events IH]; intros p l Hlock Hinv.
  - split; [exact Hlock|]. split; [exact Hinv|]. intros Ha. exact Ha.
  - destruct (step_keeps p e l Hlock Hinv) as (Hlock' & Hinv' & Halone).
    destruct (IH _ _ Hlock' Hinv') as (H1 & H2 & H3).
    cbn [run fold_left ledger_of]. split; [exact H1|]. split; [exact H2|].
    intros Ha. apply H3, Halone, Ha.
Qed.

Lemma books_handle_success (blacklist : Retry.blacklist_file)
    (document : queued_document) (r : document_result) (st : state) :
  books blacklist st -> books blacklist (handle_success document r st).
Proof.
  intros (Hr & Hb & t & Ht & He & Hc).
  unfold books, handle_success.
  destruct (skipped r || duplicate r);
    [|destruct (success r && negb (duplicate r))];
    cbn; rewrite Ht, length_app; cbn;
    (split; [exact Hr|]; split; [exact Hb|]);
    eexists; (split; [reflexivity|]); cbn; split; lia.
Qed.

Lemma books_skip_marked (blacklist : Retry.blacklist_file)
    (queue : list queued_document) (st : state) :
  books blacklist st -> books blacklist (skip_marked queue st).2.
Proof.
  revert st. induction queue as [|d queue IH]; intros st Hst; [exact Hst|].
  cbn [skip_marked]. destruct (isInPipeline _ d); [|exact Hst].
  apply IH, books_handle_success, Hst.
Qed.

Lemma books_from_top (blacklist : Retry.blacklist_file) (i n : nat)
    (c : clock) (p : pool) :
  books blacklist (shared p) -> books blacklist (shared (from_top i n c p)).
Proof.
  intros Hst. unfold from_top.
  destruct (lockInUse p); [exact Hst|].
  destruct (currentCaseInfo p).
  - pose proof (books_skip_marked blacklist
                  (currentCaseDocumentQueue (shared p))
                  (Pool.as_seen_by n (shared p)) Hst) as Hskip.
    destruct (skip_marked _ _) as [[document rest] st']. cbn [go_on].
    destruct document as [document|]; [exact Hskip|].
    now rewrite (proj1 (proj2 (next_case_spec _ _ _ _ _ _ _))).
  - now rewrite (proj1 (proj2 (next_case_spec _ _ _ _ _ _ _))).
Qed.

Lemma books_locked_take (blacklist : Retry.blacklist_file) (i n : nat)
    (c : clock) (p : pool) :
  books blacklist (shared p) -> books blacklist (shared (locked_take i n c p)).
Proof.
  intros Hst. unfold locked_take.
  destruct (currentCaseDocumentQueue (shared p)) as [|document rest];
    [exact Hst|].
  cbn zeta. destruct (isInPipeline _ document); [|exact Hst].
  apply books_from_top. cbn [with_shared shared].
  apply books_handle_success. exact Hst.
Qed.

Lemma books_step (blacklist : Retry.blacklist_file) (p : pool) (e : event) :
  books blacklist (shared p) -> books blacklist (shared (step p e)).
Proof.
  intros Hst.
  destruct e as [i c|i n1 n2|i documents c|i|i lookup c|i extraction c
                 |bundle| |ts cases]; cbn [step];
    try (destruct (workers p !! i) as [[n|n s pos|n|n|n d|n d|]|];
         try exact Hst).
  - now apply books_from_top.
  - destruct (lockInUse p); [exact Hst|]. now apply books_locked_take.
  - now rewrite (proj1 (proj2 (next_case_spec _ _ _ _ _ _ _))).
  - unfold after_build. cbn [lockInUse with_shared].
    destruct (lockInUse p); [exact Hst|]. now apply books_locked_take.
  - destruct (checkDocumentExistsByUrl lookup) as [[]|]; try exact Hst.
    apply books_from_top. cbn [with_shared shared].
    apply books_handle_success. exact Hst.
  - apply books_from_top. cbn [with_shared shared].
    destruct extraction; [apply books_handle_success|]; exact Hst.
  - destruct (lockInUse p); exact Hst.
  - exact Hst.
  - exact Hst.
Qed.

Lemma books_run (blacklist : Retry.blacklist_file) (events : list event)
    (p : pool) :
  books blacklist (shared p) -> books blacklist (shared (run events p)).
Proof.
  revert p. induction events as [|e events IH]; intros p Hst; [exact Hst|].
  apply IH, books_step, Hst.
Qed.

Lemma in_flight_start (n : nat) : concat (map held (repeat (AtTop 0) n)) = [].
Proof. induction n as [|n IH]; [reflexivity|exact IH]. Qed.

(** X23.  However the event loop interleaves the workers of
    [startParallelProcessing] with each other and with the discovery,
    whatever the store answers and whatever the builds and extractions
    return: the lock is free whenever a stretch of code starts, and every
    document of a queue some worker built is in one place: it has a
    result in [processedDocuments] (one result for each such document),
    its extraction returned [null] (such a document is neither retried
    nor counted), it waits in [currentCaseDocumentQueue], a worker holds
    it, or it was still waiting when a worker assigned the queue of
    another case to the field.  The retry ledger stays empty and the
    blacklist file untouched, and the tracker counts no error and one
    completion for every result.  With one worker no document is lost
    that way, and once the worker has returned no document waits or is
    held. *)
Theorem case_pool_accounting (maxWorkers : nat)
    (caseQueue : list Queue.case_bundle) (discoveryComplete : bool)
    (currentCaseInfo : option Store.caseInfo)
    (queue : list queued_document) (pipelineFile : Pipeline.file)
    (blacklistFile : Retry.blacklist_file) (events : list event) :
  let p0 := start maxWorkers caseQueue discoveryComplete currentCaseInfo
              queue pipelineFile blacklistFile in
  let l0 := {| built := queue; lost := []; failed := [] |} in
  let p := run events p0 in
  let l := ledger_of events p0 l0 in
  lockInUse p = false
  /\ (exists resolved,
        built l ≡ₚ resolved ++ failed l ++ queue_of p ++ in_flight p ++ lost l
        /\ length (processedDocuments (shared p)) = length resolved)
  /\ books blacklistFile (shared p)
  /\ (maxWorkers = 1 -> queue = [] ->
      lost l = []
      /\ (all_done p = true -> queue_of p = [] /\ in_flight p = [])).
Proof.
  intros p0 l0 p l.
  assert (Hbooks : books blacklistFile (shared p)).
  { apply books_run. split; [reflexivity|]. split; [reflexivity|].
    now exists Pool.new_tracker. }
  assert (Hinv0 : conserved p0 l0).
  { exists []. unfold in_flight. cbn. rewrite in_flight_start, !app_nil_r.
    now split. }
  destruct (run_keeps events p0 l0 eq_refl Hinv0) as (Hlock & Hinv & Halone).
  split; [exact Hlock|]. split; [exact Hinv|]. split; [exact Hbooks|].
  clear Hbooks. intros -> ->.
  destruct Halone as (Hlost & w & Hw & Hq & _).
  { split; [reflexivity|]. exists (AtTop 0). cbn. now repeat split. }
  split; [exact Hlost|].
  intros Hdone. unfold all_done, in_flight in *. fold p in Hw.
  rewrite Hw in *. cbn in Hdone.
  destruct w; try discriminate. split; [now apply Hq|reflexivity].
Qed.

Lemma next_case_takes (i n : nat) (startTime now1 now2 : Z) (p : pool)
    (nextCase : Queue.case_bundle) (rest : list Queue.case_bundle) :
  lockInUse p = false ->
  caseQueue p = nextCase :: rest ->
  (now1 - startTime <= Queue.baseWaitTime)%Z ->
  next_case i n startTime Queue.LoopTop now1 now2 p
  = {| lockInUse := false;
       workers := <[i := Building n]> (workers p);
       caseQueue := rest;
       discoveryComplete := discoveryComplete p;
       currentCaseInfo := Some (Queue.caseInfo nextCase);
       shared := shared p |}.
Proof.
  intros Hlock Hq Hnow. unfold next_case, Queue.segment. cbn.
  replace (_ <? now1 - startTime)%Z with false.
  - unfold Queue.wait_for_lock, Queue.take_case. cbn.
    rewrite Hlock, Hq. reflexivity.
  - symmetry. apply Z.ltb_ge.
    unfold Queue.baseWaitTime, Queue.extendedWaitTime in *.
    destruct (discoveryComplete p); lia.
Qed.

Lemma ledger_of_app (events later : list event) (p : pool) (l : ledger) :
  ledger_of (events ++ later) p l
  = ledger_of later (run events p) (ledger_of events p l).
Proof.
  revert p l. induction events as [|e events IH]; intros p l; [reflexivity|].
  cbn [app ledger_of run fold_left]. apply IH.
Qed.

Lemma lost_grows (events : list event) (p : pool) (l : ledger) :
  exists gone, lost (ledger_of events p l) = lost l ++ gone.
Proof.
  revert p l. induction events as [|e events IH]; intros p l.
  - exists []. cbn. now rewrite app_nil_r.
  - cbn [ledger_of]. destruct (IH (step p e) (account p e l)) as [gone ->].
    assert (Hone : exists gone', lost (account p e l) = lost l ++ gone').
    { destruct e as [i c|i n1 n2|i documents c|i|i lookup c|i extraction c
                     |bundle| |ts cases]; cbn [account];
        try (exists []; now rewrite app_nil_r).
      - destruct (workers p !! i) as [[]|];
          try (exists []; now rewrite app_nil_r).
        now exists (queue_of p).
      - destruct extraction; try (exists []; now rewrite app_nil_r).
        destruct (workers p !! i) as [[]|]; exists []; cbn;
          now rewrite app_nil_r. }
    destruct Hone as [gone' ->]. exists (gone' ++ gone).
    now rewrite app_assoc.
Qed.

(** X24.  With two workers or more and two cases in the case queue, the
    first stretches of the first two workers take one case each, so two
    calls of [buildDocumentQueueForCase] are in flight.  When the first
    returns, its worker takes the first document; when the second
    returns, the assignment of line 1800 replaces the queue, and the
    documents of the first case that were still waiting are from then on
    neither in the queue nor held by a worker, whatever happens later in
    the run. *)
Theorem overlapping_builds_lose_documents (maxWorkers : nat)
    (first second : Queue.case_bundle) (more : list Queue.case_bundle)
    (complete : bool) (current : option Store.caseInfo)
    (pipeline : Pipeline.file) (blacklist : Retry.blacklist_file)
    (document : queued_document) (rest documents : list queued_document)
    (c : clock) (later : list event) :
  2 <= maxWorkers ->
  (now1 c - startTime c <= Queue.baseWaitTime)%Z ->
  isInPipeline pipeline document = false ->
  let p0 := start maxWorkers (first :: second :: more) complete current []
              pipeline blacklist in
  let l0 := {| built := []; lost := []; failed := [] |} in
  let events := [Wake 0 c; Wake 1 c;
                 Built 0 (document :: rest) c; Built 1 documents c] in
  workers (run [Wake 0 c; Wake 1 c] p0) !! 0 = Some (Building 0)
  /\ workers (run [Wake 0 c; Wake 1 c] p0) !! 1 = Some (Building 0)
  /\ workers (run events p0) !! 0 = Some (Checking 0 document)
  /\ built (ledger_of events p0 l0) = (document :: rest) ++ documents
  /\ lost (ledger_of events p0 l0) = rest
  /\ (exists taken, documents = taken ++ queue_of (run events p0))
  /\ exists gone, lost (ledger_of (events ++ later) p0 l0) = rest ++ gone.
Proof.
  intros Hmax Hnow Hfresh p0 l0 events.
  destruct maxWorkers as [|[|m]]; try lia. clear Hmax.
  set (st0 := shared p0).
  (* the first worker takes the first case *)
  assert (H1 : step p0 (Wake 0 c)
               = {| lockInUse := false;
                    workers := Building 0 :: AtTop 0 :: repeat (AtTop 0) m;
                    caseQueue := second :: more;
                    discoveryComplete := complete;
                    currentCaseInfo := Some (Queue.caseInfo first);
                    shared := st0 |}).
  { unfold st0, p0, start.
    cbn [step workers repeat lookup list_lookup].
    unfold from_top. cbn [lockInUse currentCaseInfo].
    destruct current as [ci|];
      [cbn [shared currentCaseDocumentQueue skip_marked go_on]|];
      (erewrite next_case_takes; [reflexivity|reflexivity|reflexivity|exact Hnow]). }
  (* the second worker finds no document and takes the second case *)
  assert (H2 : run [Wake 0 c; Wake 1 c] p0
               = {| lockInUse := false;
                    workers := Building 0 :: Building 0 :: repeat (AtTop 0) m;
                    caseQueue := more;
                    discoveryComplete := complete;
                    currentCaseInfo := Some (Queue.caseInfo second);
                    shared := st0 |}).
  { cbn [run fold_left]. rewrite H1.
    cbn [step workers lookup list_lookup].
    unfold from_top. cbn [lockInUse currentCaseInfo].
    unfold st0, p0, start.
    cbn [shared currentCaseDocumentQueue skip_marked go_on].
    erewrite next_case_takes; [reflexivity|reflexivity|reflexivity|exact Hnow]. }
  (* the first build returns: its worker takes the first document *)
  assert (H3 : run [Wake 0 c; Wake 1 c; Built 0 (document :: rest) c] p0
               = {| lockInUse := false;
                    workers := Checking 0 document :: Building 0
                               :: repeat (AtTop 0) m;
                    caseQueue := more;
                    discoveryComplete := complete;
                    currentCaseInfo := Some (Queue.caseInfo second);
                    shared := with_currentCaseDocumentQueue rest st0 |}).
  { change (run [Wake 0 c; Wake 1 c; Built 0 (document :: rest) c] p0)
      with (step (run [Wake 0 c; Wake 1 c] p0) (Built 0 (document :: rest) c)).
    rewrite H2. cbn [step workers lookup list_lookup].
    unfold after_build, locked_take.
    cbn [lockInUse with_shared shared with_currentCaseDocumentQueue
         currentCaseDocumentQueue pipelineFile Pool.as_seen_by].
    unfold st0, p0, start. cbn [shared pipelineFile currentCaseDocumentQueue].
    rewrite Hfresh. reflexivity. }
  assert (Hl3 : ledger_of [Wake 0 c; Wake 1 c; Built 0 (document :: rest) c]
                  p0 l0
                = {| built := document :: rest; lost := []; failed := [] |}).
  { cbn [ledger_of account].
    change (step (step p0 (Wake 0 c)) (Wake 1 c))
      with (run [Wake 0 c; Wake 1 c] p0).
    rewrite H2. reflexivity. }
  set (p3 := run [Wake 0 c; Wake 1 c; Built 0 (document :: rest) c] p0) in *.
  assert (Hrun : run events p0 = step p3 (Built 1 documents c)) by reflexivity.
  assert (Hled : ledger_of events p0 l0
                 = account p3 (Built 1 documents c)
                     {| built := document :: rest; lost := []; failed := [] |}).
  { change events
      with ([Wake 0 c; Wake 1 c; Built 0 (document :: rest) c]
            ++ [Built 1 documents c]).
    rewrite ledger_of_app. fold p3. rewrite Hl3. reflexivity. }
  assert (Hm : moves 1 (with_shared
                          (with_currentCaseDocumentQueue documents (shared p3)) p3)
                 (step p3 (Built 1 documents c))).
  { rewrite H3. cbn [step workers lookup list_lookup].
    unfold after_build. cbn [lockInUse with_shared].
    now apply locked_take_moves. }
  destruct Hm as (_ & w' & taken & Hw & Hq & _).
  rewrite H2. split; [reflexivity|]. split; [reflexivity|].
  rewrite Hrun, Hw. split.
  { cbn [with_shared workers]. rewrite H3. reflexivity. }
  assert (Hp3w : workers p3 !! 1 = Some (Building 0))
    by (rewrite H3; reflexivity).
  assert (Hp3q : queue_of p3 = rest) by (rewrite H3; reflexivity).
  rewrite Hled. cbn [account]. rewrite Hp3w. cbn [built lost].
  rewrite Hp3q.
  split; [reflexivity|]. split; [reflexivity|]. split.
  { exists (taken ++ held w'). rewrite <- app_assoc. exact Hq. }
  rewrite ledger_of_app.
  destruct (lost_grows later (run events p0) (ledger_of events p0 l0))
    as [gone Hgone].
  exists gone. rewrite Hgone, Hled. cbn [account]. rewrite Hp3w.
  cbn [lost]. rewrite Hp3q. reflexivity.
Qed.

End CasePoolFacts.

Lemma overlapping_builds_lose_documents_witness :
  CasePoolProps.lost
    (CasePoolProps.ledger_of
       [CasePool.Wake 0 Examples.on_time; CasePool.Wake 1 Examples.on_time;
        CasePool.Built 0 [Examples.testimony; Examples.exhibit] Examples.on_time;
        CasePool.Built 1 [Examples.avu_notice] Examples.on_time]
       (CasePool.start 2 [Examples.bundle; Examples.avu_bundle] false None []
          None None)
       {| CasePoolProps.built := []; CasePoolProps.lost := [];
          CasePoolProps.failed := [] |})
  = [Examples.exhibit].
Proof.
  refine (proj1 (proj2 (proj2 (proj2 (proj2
    (overlapping_builds_lose_documents 2 Examples.bundle Examples.avu_bundle
       [] false None None None Examples.testimony [Examples.exhibit]
       [Examples.avu_notice] Examples.on_time [] _ _ _)))))).
  - lia.
  - vm_compute. discriminate.
  - reflexivity.
Defined.
